(** * Lost: a shallow embedding of [lost/src/lost.c]

    The development follows the layout of the C file: optimizer
    parameters, the RPROP sweep, transducers and their topological
    orderings, the dataset loader and the vocabulary it numbers the
    states with, the forward and backward recursions of the gradient
    engine and the forward pass of the decoder, the split-ordered hash
    table with insertion, lookup, iteration and removal, and the model
    built on top of it.

    Conventions.
    - C [double] and [float] values are modelled by exact rationals
      ([Q]); rounding is abstracted, comparisons are the exact ones.
      [DBL_MAX] and [EPSILON] keep their numeric values.
    - C [int] indices that the code only ever uses as array positions
      are [nat]; 64-bit hashes are [Z] with the wrap-around written out.
    - Arrays are lists read with [nth] and written with [upd]. *)

From Stdlib Require Import String Ascii.
From Stdlib Require Import ZArith QArith Qabs Qround List Bool Lia Lqa Arith Sorted Permutation.
From Stdlib Require OrderedTypeEx.
Import ListNotations.

(** ** Array helpers *)

Fixpoint upd {A : Type} (l : list A) (i : nat) (v : A) : list A :=
  match l, i with
  | [], _ => []
  | _ :: t, O => v :: t
  | h :: t, S j => h :: upd t j v
  end.

Lemma upd_length {A} (l : list A) i v : length (upd l i v) = length l.
Proof.
  revert i; induction l as [|h t IH]; intros [|j]; simpl; auto.
Qed.

Lemma nth_upd_same {A} (l : list A) i v d :
  (i < length l)%nat -> nth i (upd l i v) d = v.
Proof.
  revert i; induction l as [|h t IH]; intros [|j] H; simpl in *; try lia; auto.
  apply IH; lia.
Qed.

Lemma nth_upd_other {A} (l : list A) i j v d :
  i <> j -> nth j (upd l i v) d = nth j l d.
Proof.
  revert i j; induction l as [|h t IH]; intros [|i] [|j] H; simpl; auto;
    try congruence.
Qed.

(** ** Floating-point comparisons on the rational model *)

Definition Qlt_b (a b : Q) : bool := negb (Qle_bool b a).

Lemma Qlt_b_true a b : Qlt_b a b = true <-> a < b.
Proof.
  unfold Qlt_b. rewrite negb_true_iff.
  destruct (Qle_bool b a) eqn:E.
  - rewrite Qle_bool_iff in E. split; [discriminate|]. intros H.
    exfalso. apply (Qlt_not_le _ _ H E).
  - split; [intros _|reflexivity].
    apply Qnot_le_lt. intros H. rewrite <- Qle_bool_iff in H. congruence.
Qed.

Lemma Qlt_b_false a b : Qlt_b a b = false <-> b <= a.
Proof.
  unfold Qlt_b. rewrite negb_false_iff. apply Qle_bool_iff.
Qed.

(** [#define max(a, b) ((a) > (b) ? (a) : (b))] and [min]. *)
Definition c_max (a b : Q) : Q := if Qlt_b b a then a else b.
Definition c_min (a b : Q) : Q := if Qlt_b a b then a else b.

(** [#define EPSILON (DBL_EPSILON * 64.0)], with [DBL_EPSILON] = 2^-52. *)
Definition EPSILON : Q := 64 * (1 # (2 ^ 52)).

(** [DBL_MAX] = (2 - 2^-52) * 2^1023. *)
Definition DBL_MAX : Q := inject_Z (2 ^ 1024 - 2 ^ 971).

(** ** Features ([ftr_t]) and the model's scalar parameters ([mdl_t]) *)

Record ftr_t := mk_ftr {
  x : Q;      (* double x   *)
  g : Q;      (* double g   *)
  gp : Q;     (* float gp: gradient on the previous iteration *)
  stp : Q;    (* float stp: current step *)
  dlt : Q;    (* float dlt: previous update *)
  frq : Z     (* int frq *)
}.

(** [memset(tmp, 0, sizeof(ftr_t))] *)
Definition ftr_zero : ftr_t :=
  {| x := 0; g := 0; gp := 0; stp := 0; dlt := 0; frq := 0 |}.

Record mdl_par := mk_par {
  itr : Z;           (* int itr *)
  min_frq : Z;       (* int frq: minimum frequency *)
  stt : list Z;      (* int stt[128] *)
  rem : list Z       (* int rem[128] *)
}.

Definition INT_MAX : Z := 2147483647.

(** [mdl_gettag]: [map_gethsh(ftr) >> 56]. *)
Definition mdl_gettag (hsh : Z) : nat := Z.to_nat (Z.shiftr hsh 56).

(** ** Optimizer parameters ([rbp_t], [rbp_new], the set-up in [main]) *)

Module Rbp.

Record rbp_t := mk_rbp {
  rho1 : list Q;
  rho2 : list Q;
  rho3 : list Q;
  stpinc : Q;
  stpdec : Q;
  stpmin : Q;
  stpmax : Q
}.

(** [rbp_new]: tag 0 gets 0.0, every other tag the value -1.0. *)
Definition rbp_new : rbp_t :=
  {| rho1 := 0 :: repeat (-1) 127;
     rho2 := 0 :: repeat (-1) 127;
     rho3 := 0 :: repeat (-1) 127;
     stpinc := 12 # 10;
     stpdec := 5 # 10;
     stpmin := 1 # 100000000;
     stpmax := 50 |}.

(** One [--tag-rhoN] item after [sscanf]: the pair [(tag, val)]; an item
    given without a tag has been read with [tag = 0]. *)
Definition item := (nat * Q)%type.

(** [for (i = 0; tag_rho[i] != NULL; i++) rbp->rho[tag] = val;] *)
Definition set_rho (items : list item) (arr : list Q) : list Q :=
  fold_left (fun a it => upd a (fst it) (snd it)) items arr.

(** [if (rbp->rho[i] == -1.0) rbp->rho[i] = rbp->rho[0];] *)
Definition fallback1 (arr : list Q) (i : nat) : list Q :=
  if Qeq_bool (nth i arr 0) (-1) then upd arr i (nth 0 arr 0) else arr.

(** [for (int i = 1; i < 128; i++) { rho1 ...; rho2 ...; rho3 ...; }] *)
Definition fallback_step (r : rbp_t) (i : nat) : rbp_t :=
  {| rho1 := fallback1 (rho1 r) i;
     rho2 := fallback1 (rho2 r) i;
     rho3 := fallback1 (rho3 r) i;
     stpinc := stpinc r; stpdec := stpdec r;
     stpmin := stpmin r; stpmax := stpmax r |}.

Definition rho_fallback (r : rbp_t) : rbp_t :=
  fold_left fallback_step (seq 1 127) r.

(** The optimizer set-up of [main]: [rbp_new], the four step constants,
    the three item lists, then the fall-back loop. *)
Definition main_rbp (inc dec mn mx : Q) (i1 i2 i3 : list item) : rbp_t :=
  let r := rbp_new in
  let r := {| rho1 := set_rho i1 (rho1 r);
              rho2 := set_rho i2 (rho2 r);
              rho3 := set_rho i3 (rho3 r);
              stpinc := inc; stpdec := dec; stpmin := mn; stpmax := mx |} in
  rho_fallback r.

(** The arrays as they stand between the item loops and the fall-back
    loop. *)
Definition stored (items : list item) : list Q :=
  set_rho items (0 :: repeat (-1) 127).

Lemma set_rho_length items arr : length (set_rho items arr) = length arr.
Proof.
  revert arr; induction items as [|it items IH]; intros arr; simpl; auto.
  rewrite IH. apply upd_length.
Qed.

Lemma stored_length items : length (stored items) = 128%nat.
Proof. unfold stored. rewrite set_rho_length. reflexivity. Qed.

Lemma fallback1_length arr i : length (fallback1 arr i) = length arr.
Proof. unfold fallback1. destruct Qeq_bool; auto using upd_length. Qed.

Lemma fallback1_other arr i j : i <> j -> nth j (fallback1 arr i) 0 = nth j arr 0.
Proof.
  intros H. unfold fallback1. destruct Qeq_bool; auto using nth_upd_other.
Qed.

Lemma fallback1_same arr i :
  (i < length arr)%nat ->
  nth i (fallback1 arr i) 0 =
  if Qeq_bool (nth i arr 0) (-1) then nth 0 arr 0 else nth i arr 0.
Proof.
  intros H. unfold fallback1. destruct Qeq_bool; auto using nth_upd_same.
Qed.

(** The loop over [ix], one array at a time. *)
Definition fallback_arr (arr : list Q) (ix : list nat) : list Q :=
  fold_left fallback1 ix arr.

Lemma fallback_arr_cons arr i ix :
  fallback_arr arr (i :: ix) = fallback_arr (fallback1 arr i) ix.
Proof. reflexivity. Qed.

Lemma fallback_arr_length ix : forall arr, length (fallback_arr arr ix) = length arr.
Proof.
  induction ix as [|i ix IH]; intros arr; auto.
  rewrite fallback_arr_cons, IH. apply fallback1_length.
Qed.

Lemma fallback_arr_notin ix : forall arr j,
  ~ In j ix -> nth j (fallback_arr arr ix) 0 = nth j arr 0.
Proof.
  induction ix as [|i ix IH]; intros arr j H; auto.
  rewrite fallback_arr_cons, IH by (simpl in H; tauto).
  apply fallback1_other. simpl in H. intro; subst; tauto.
Qed.

Lemma fallback_arr_in ix : forall arr j,
  NoDup ix -> ~ In 0%nat ix -> In j ix -> (j < length arr)%nat ->
  nth j (fallback_arr arr ix) 0 =
  if Qeq_bool (nth j arr 0) (-1) then nth 0 arr 0 else nth j arr 0.
Proof.
  induction ix as [|i ix IH]; intros arr j ND H0 Hin Hlen; [destruct Hin|].
  inversion ND as [|? ? Hni ND']; subst.
  rewrite fallback_arr_cons.
  simpl in H0, Hin.
  destruct Hin as [->|Hin].
  - rewrite fallback_arr_notin by assumption.
    apply fallback1_same; auto.
  - rewrite IH; auto.
    + assert (i <> j) by (intro; subst; tauto).
      assert (i <> 0%nat) by (intro; subst; tauto).
      rewrite !fallback1_other; auto.
    + rewrite fallback1_length; auto.
Qed.

Lemma rho_fallback_proj r ix :
  rho1 (fold_left fallback_step ix r) = fallback_arr (rho1 r) ix /\
  rho2 (fold_left fallback_step ix r) = fallback_arr (rho2 r) ix /\
  rho3 (fold_left fallback_step ix r) = fallback_arr (rho3 r) ix.
Proof.
  revert r; induction ix as [|i ix IH]; intros r; simpl; auto.
Qed.

Lemma set_rho_last a t v b arr :
  (t < length arr)%nat -> ~ In t (map fst b) ->
  nth t (set_rho (a ++ (t, v) :: b) arr) 0 = v.
Proof.
  intros Hlen Hb. unfold set_rho. rewrite fold_left_app. simpl.
  set (arr1 := fold_left _ a arr).
  assert (L1 : length arr1 = length arr) by apply (set_rho_length a arr).
  assert (E : nth t (upd arr1 t v) 0 = v) by (apply nth_upd_same; lia).
  revert E. generalize (upd arr1 t v). clear - Hb.
  induction b as [|[t' v'] b IH]; intros arr2 E; simpl in *; auto.
  apply IH; [tauto|]. rewrite nth_upd_other; auto.
Qed.

(** What the fall-back loop leaves at position [t] of an array that
    held [s] before it. *)
Definition resolved (s : list Q) (t : nat) : Q :=
  match t with
  | O => nth 0 s 0
  | _ => if Qeq_bool (nth t s 0) (-1) then nth 0 s 0 else nth t s 0
  end.

Lemma fallback_stored items t :
  (t < 128)%nat ->
  nth t (fallback_arr (stored items) (seq 1 127)) 0 = resolved (stored items) t.
Proof.
  intros Ht. destruct t as [|t].
  - unfold resolved. apply fallback_arr_notin. rewrite in_seq. lia.
  - unfold resolved. apply fallback_arr_in.
    + apply seq_NoDup.
    + rewrite in_seq. lia.
    + rewrite in_seq. lia.
    + rewrite stored_length. lia.
Qed.

Lemma main_rbp_rho inc dec mn mx i1 i2 i3 :
  let r := main_rbp inc dec mn mx i1 i2 i3 in
  rho1 r = fallback_arr (stored i1) (seq 1 127) /\
  rho2 r = fallback_arr (stored i2) (seq 1 127) /\
  rho3 r = fallback_arr (stored i3) (seq 1 127).
Proof. apply rho_fallback_proj. Qed.



(** *** The RPROP sweep ([rbp_step]) *)

(** What the body of the loop does with one feature. *)
Inductive action :=
| Remove                          (* [mdl_remove] *)
| Skip                            (* [mdl_next], feature untouched *)
| Update (f : ftr_t) (fx : Q).    (* feature rewritten, objective grown *)

(** The projection of the gradient in the current orthant. *)
Definition proj_grad (ar : Q) (f : ftr_t) (g1 : Q) : Q :=
  if negb (Qeq_bool ar 0) then
    if Qlt_b (x f) (- EPSILON) then g1 - ar
    else if Qlt_b EPSILON (x f) then g1 + ar
    else if Qlt_b g1 (- ar) then g1 + ar
    else if Qlt_b ar g1 then g1 - ar
    else 0
  else g1.

(** The step adapted to the sign of [sgn = gp * pg]. *)
Definition adapt_stp (r : rbp_t) (stp0 sgn : Q) : Q :=
  if Qlt_b sgn (- EPSILON) then c_max (stp0 * stpdec r) (stpmin r)
  else if Qlt_b EPSILON sgn then c_min (stp0 * stpinc r) (stpmax r)
  else stp0.

(** The candidate update and the guard on it. *)
Definition raw_delta (stp1 pg : Q) : Q :=
  if Qlt_b pg (- EPSILON) then stp1
  else if Qlt_b EPSILON pg then - stp1
  else 0.

Definition guard_delta (rho1 d pg : Q) : Q :=
  if (negb (Qeq_bool rho1 0) && Qle_bool 0 (d * pg))%bool then 0 else d.

(** Quantities of one pass of the loop body, named as in the C code. *)
Definition stp_init (f : ftr_t) : Q := if Qeq_bool (stp f) 0 then 1 # 10 else stp f.
Definition g_reg (r : rbp_t) (tag : nat) (f : ftr_t) : Q :=
  g f + nth tag (rho2 r) 0 * x f.
Definition ar_of (r : rbp_t) (tag : nat) (f : ftr_t) : Q :=
  nth tag (rho1 r) 0 + nth tag (rho3 r) 0 * inject_Z (frq f).
Definition pg_of (r : rbp_t) (tag : nat) (f : ftr_t) : Q :=
  proj_grad (ar_of r tag f) f (g_reg r tag f).
Definition sgn_of (r : rbp_t) (tag : nat) (f : ftr_t) : Q :=
  gp f * pg_of r tag f.
Definition stp_of (r : rbp_t) (tag : nat) (f : ftr_t) : Q :=
  adapt_stp r (stp_init f) (sgn_of r tag f).
Definition delta_of (r : rbp_t) (tag : nat) (f : ftr_t) : Q :=
  guard_delta (nth tag (rho1 r) 0)
    (raw_delta (stp_of r tag f) (pg_of r tag f)) (pg_of r tag f).

(** The body of the [while (1)] loop of [rbp_step] for the feature [f]
    stored under the hash [hsh]. *)
Definition rbp_body (r : rbp_t) (m : mdl_par) (hsh : Z) (f : ftr_t) (fx : Q)
  : action :=
  let tag := mdl_gettag hsh in
  if (Qeq_bool (x f) 0 && (nth tag (rem m) 0 <=? itr m)%Z)%bool then Remove
  else if (frq f <? min_frq m)%Z then Remove
  else if (nth tag (stt m) 0 >? itr m)%Z then Skip
  else
    let rho1 := nth tag (rho1 r) 0 in
    let rho2 := nth tag (rho2 r) 0 in
    let rho3 := nth tag (rho3 r) 0 in
    let g1 := g_reg r tag f in
    let fx := fx + rho2 * x f * x f / 2 in
    let fx := fx + rho1 * Qabs (x f) in
    let fx := fx + rho3 * inject_Z (frq f) * Qabs (x f) in
    let sgn := sgn_of r tag f in
    let stp1 := stp_of r tag f in
    if Qlt_b sgn 0 then
      Update {| x := x f - dlt f; g := 0; gp := 0; stp := stp1;
                dlt := dlt f; frq := 0 |} fx
    else
      let d := delta_of r tag f in
      Update {| x := x f + d; g := 0; gp := g1; stp := stp1;
                dlt := d; frq := 0 |} fx.

(** The whole sweep over the features in the order of the iterator
    ([mdl_next]); removed features leave the table. *)
Fixpoint rbp_sweep (r : rbp_t) (m : mdl_par) (ftrs : list (Z * ftr_t)) (fx : Q)
  : list (Z * ftr_t) * Q :=
  match ftrs with
  | [] => ([], fx)
  | (h, f) :: rest =>
      match rbp_body r m h f fx with
      | Remove => rbp_sweep r m rest fx
      | Skip => let '(l, fx') := rbp_sweep r m rest fx in ((h, f) :: l, fx')
      | Update f' fx1 =>
          let '(l, fx') := rbp_sweep r m rest fx1 in ((h, f') :: l, fx')
      end
  end.

Definition rbp_step (r : rbp_t) (m : mdl_par) (ftrs : list (Z * ftr_t)) (ll : Q)
  : list (Z * ftr_t) * Q :=
  rbp_sweep r m ftrs ll.

(** A run with [--tag-rho1 0.1]: first iteration, every tag active from
    the start and never removed; one feature of tag 0 (hash 5) with
    weight 0.05 and accumulated gradient 1. *)
Definition rbp_l1 : rbp_t :=
  main_rbp (12#10) (5#10) (1#100000000) 50 [(0%nat, 1#10)] [] [].
Definition mdl_first : mdl_par :=
  {| itr := 1; min_frq := 0; stt := repeat 0%Z 128; rem := repeat INT_MAX 128 |}.
Definition ftr_small : ftr_t :=
  {| x := 1 # 20; g := 1; gp := 0; stp := 0; dlt := 0; frq := 0 |}.

Lemma guard_delta_cases rho1 d pg :
  ~ rho1 == 0 ->
  guard_delta rho1 d pg = 0 \/ (guard_delta rho1 d pg = d /\ d * pg < 0).
Proof.
  intros Hr. unfold guard_delta.
  destruct (Qeq_bool rho1 0) eqn:E.
  - apply Qeq_bool_iff in E. contradiction.
  - simpl. destruct (Qle_bool 0 (d * pg)) eqn:L; [left; reflexivity|].
    right. split; [reflexivity|].
    apply Qnot_le_lt. intros H. apply Qle_bool_iff in H. congruence.
Qed.

Lemma raw_delta_cases stp1 pg :
  raw_delta stp1 pg = stp1 \/ raw_delta stp1 pg = - stp1 \/ raw_delta stp1 pg = 0.
Proof.
  unfold raw_delta. destruct (Qlt_b pg (- EPSILON)); auto.
  destruct (Qlt_b EPSILON pg); auto.
Qed.





(** *** The sweep as a whole *)

(** The two tests of [rbp_step] that send a feature to [mdl_remove]. *)
Definition pruned (m : mdl_par) (hf : Z * ftr_t) : bool :=
  let tag := mdl_gettag (fst hf) in
  (Qeq_bool (x (snd hf)) 0 && (nth tag (rem m) 0 <=? itr m)%Z)
  || (frq (snd hf) <? min_frq m)%Z.

(** The test that leaves a feature as it is. *)
Definition dormant (m : mdl_par) (hf : Z * ftr_t) : bool :=
  (nth (mdl_gettag (fst hf)) (stt m) 0 >? itr m)%Z.

Lemma rbp_body_pruned r m h f fx :
  rbp_body r m h f fx = Remove <-> pruned m (h, f) = true.
Proof.
  unfold rbp_body, pruned. cbn [fst snd].
  destruct (Qeq_bool (x f) 0 && (nth (mdl_gettag h) (rem m) 0 <=? itr m)%Z);
    [split; reflexivity|].
  cbn [orb].
  destruct (frq f <? min_frq m)%Z; [split; reflexivity|].
  destruct (nth (mdl_gettag h) (stt m) 0 >? itr m)%Z; [split; discriminate|].
  destruct (Qlt_b _ 0); split; discriminate.
Qed.

Lemma rbp_body_kept r m h f fx :
  pruned m (h, f) = false ->
  (dormant m (h, f) = true /\ rbp_body r m h f fx = Skip) \/
  (dormant m (h, f) = false /\
   exists f' fx', rbp_body r m h f fx = Update f' fx' /\
                  g f' = 0 /\ frq f' = 0%Z /\ stp f' = stp_of r (mdl_gettag h) f).
Proof.
  unfold rbp_body, pruned, dormant. cbn [fst snd]. intros H.
  apply orb_false_iff in H. destruct H as [H1 H2]. rewrite H1, H2.
  destruct (nth (mdl_gettag h) (stt m) 0 >? itr m)%Z; [left; auto|].
  right. split; [reflexivity|].
  destruct (Qlt_b _ 0); eexists; eexists; (split; [reflexivity|]); cbn; auto.
Qed.


Lemma c_max_cases a b : (c_max a b == a /\ b <= a) \/ (c_max a b == b /\ a <= b).
Proof.
  unfold c_max. destruct (Qlt_b b a) eqn:E.
  - apply Qlt_b_true in E. left. split; [reflexivity|lra].
  - apply Qlt_b_false in E. right. split; [reflexivity|exact E].
Qed.

Lemma c_min_cases a b : (c_min a b == a /\ a <= b) \/ (c_min a b == b /\ b <= a).
Proof.
  unfold c_min. destruct (Qlt_b a b) eqn:E.
  - apply Qlt_b_true in E. left. split; [reflexivity|lra].
  - apply Qlt_b_false in E. right. split; [reflexivity|exact E].
Qed.

(** A step that is unset or within the bounds. *)
Definition stp_ok (r : rbp_t) (f : ftr_t) : Prop :=
  stp f == 0 \/ (stpmin r <= stp f /\ stp f <= stpmax r).

Lemma adapt_stp_bounds r s sgn :
  0 <= stpmin r -> stpmin r <= stpmax r ->
  0 <= stpdec r -> stpdec r <= 1 -> 1 <= stpinc r ->
  stpmin r <= s -> s <= stpmax r ->
  stpmin r <= adapt_stp r s sgn /\ adapt_stp r s sgn <= stpmax r.
Proof.
  intros H0 Hmm Hd0 Hd1 Hi Hs1 Hs2.
  assert (Hs0 : 0 <= s) by lra.
  unfold adapt_stp.
  destruct (Qlt_b sgn (- EPSILON)).
  - assert (s * stpdec r <= s).
    { nra. }
    destruct (c_max_cases (s * stpdec r) (stpmin r)) as [[E L]|[E L]]; rewrite E; lra.
  - destruct (Qlt_b EPSILON sgn); [|split; assumption].
    assert (s <= s * stpinc r).
    { nra. }
    destruct (c_min_cases (s * stpinc r) (stpmax r)) as [[E L]|[E L]]; rewrite E; lra.
Qed.



Lemma rbp_sweep_fx r m : forall ftrs fx,
  Forall (fun t => 0 <= t) (rho1 r) -> Forall (fun t => 0 <= t) (rho2 r) ->
  Forall (fun t => 0 <= t) (rho3 r) ->
  Forall (fun hf => (0 <= frq (snd hf))%Z) ftrs ->
  fx <= snd (rbp_sweep r m ftrs fx).
Proof.
  intros ftrs fx R1 R2 R3. revert fx.
  assert (N : forall l t, Forall (fun t => 0 <= t) l -> 0 <= nth t l 0).
  { intros l t Hl. destruct (nth_in_or_default t l 0) as [Hin|E].
    - rewrite Forall_forall in Hl. apply Hl. exact Hin.
    - rewrite E. lra. }
  induction ftrs as [|[h f] rest IH]; intros fx Hall; [cbn; lra|].
  apply Forall_cons_iff in Hall. destruct Hall as [Hf Hall]. cbn [snd] in Hf.
  cbn [rbp_sweep].
  destruct (rbp_body r m h f fx) as [| |f1 fx1] eqn:E.
  - apply IH. exact Hall.
  - specialize (IH fx Hall). destruct (rbp_sweep r m rest fx) as [l fx']. exact IH.
  - specialize (IH fx1 Hall).
    assert (Hfx : fx <= fx1).
    { unfold rbp_body in E.
      destruct (Qeq_bool (x f) 0 && (nth (mdl_gettag h) (rem m) 0 <=? itr m)%Z);
        [discriminate|].
      destruct (frq f <? min_frq m)%Z; [discriminate|].
      destruct (nth (mdl_gettag h) (stt m) 0 >? itr m)%Z; [discriminate|].
      assert (A : 0 <= Qabs (x f)) by apply Qabs_nonneg.
      assert (Q : 0 <= inject_Z (frq f)).
      { change 0 with (inject_Z 0). rewrite <- Zle_Qle. exact Hf. }
      pose proof (N _ (mdl_gettag h) R1) as P1.
      pose proof (N _ (mdl_gettag h) R2) as P2.
      pose proof (N _ (mdl_gettag h) R3) as P3.
      assert (T1 : 0 <= nth (mdl_gettag h) (rho2 r) 0 * x f * x f / 2).
      { assert (0 <= x f * x f).
        { destruct (Qlt_le_dec (x f) 0) as [Hn|Hp].
          - setoid_replace (x f * x f) with ((- x f) * (- x f)) by ring.
            apply Qmult_le_0_compat; lra.
          - apply Qmult_le_0_compat; assumption. }
        setoid_replace (nth (mdl_gettag h) (rho2 r) 0 * x f * x f / 2)
          with (nth (mdl_gettag h) (rho2 r) 0 * (x f * x f) * (1 # 2)) by field.
        apply Qmult_le_0_compat; [apply Qmult_le_0_compat; assumption|lra]. }
      assert (T2 : 0 <= nth (mdl_gettag h) (rho1 r) 0 * Qabs (x f))
        by (apply Qmult_le_0_compat; assumption).
      assert (T3 : 0 <= nth (mdl_gettag h) (rho3 r) 0 * inject_Z (frq f) * Qabs (x f)).
      { apply Qmult_le_0_compat; [apply Qmult_le_0_compat; assumption|assumption]. }
      destruct (Qlt_b _ 0); injection E as _ <-; lra. }
    destruct (rbp_sweep r m rest fx1) as [l fx']. cbn [snd] in *. lra.
Qed.



End Rbp.

(** ** Bit operations ([bit_reverse], [bit_clearmsb]) *)

Module Bits.
Local Open Scope Z_scope.

(** A value stored in a [uint64_t]. *)
Definition u64 (x : Z) : Z := x mod 2 ^ 64.

Definition swap_bits (k m v : Z) : Z :=
  u64 (Z.lor (Z.land (Z.shiftr v k) m) (Z.shiftl (Z.land v m) k)).

Definition bit_reverse (v : Z) : Z :=
  let v := swap_bits 1 0x5555555555555555 v in
  let v := swap_bits 2 0x3333333333333333 v in
  let v := swap_bits 4 0x0F0F0F0F0F0F0F0F v in
  let v := swap_bits 8 0x00FF00FF00FF00FF v in
  let v := swap_bits 16 0x0000FFFF0000FFFF v in
  u64 (Z.lor (Z.shiftr v 32) (Z.shiftl v 32)).

Definition bit_clearmsb (v : Z) : Z :=
  let t := v in
  let t := Z.lor t (Z.shiftr t 1) in
  let t := Z.lor t (Z.shiftr t 2) in
  let t := Z.lor t (Z.shiftr t 4) in
  let t := Z.lor t (Z.shiftr t 8) in
  let t := Z.lor t (Z.shiftr t 16) in
  let t := Z.lor t (Z.shiftr t 32) in
  Z.land v (Z.shiftr t 1).

Lemma u64_bits x i : 0 <= i < 64 -> Z.testbit (u64 x) i = Z.testbit x i.
Proof. intros H. unfold u64. apply Z.mod_pow2_bits_low. lia. Qed.

Lemma swap_bits_spec k m v i :
  0 <= k -> 0 <= i < 64 ->
  Z.testbit (swap_bits k m v) i =
  (Z.testbit v (i + k) && Z.testbit m i) || (Z.testbit v (i - k) && Z.testbit m (i - k)).
Proof.
  intros Hk Hi. unfold swap_bits. rewrite u64_bits by assumption.
  rewrite Z.lor_spec, Z.land_spec, Z.shiftr_spec, Z.shiftl_spec, Z.land_spec by lia.
  reflexivity.
Qed.

Lemma swap_bits_high k m v i : 64 <= i -> Z.testbit (swap_bits k m v) i = false.
Proof. intros H. unfold swap_bits, u64. apply Z.mod_pow2_bits_high. lia. Qed.

Lemma testbit_neg v i : i < 0 -> Z.testbit v i = false.
Proof. apply Z.testbit_neg_r. Qed.

Ltac norm_index :=
  repeat match goal with
  | |- context [Z.testbit ?a ?j] =>
      lazymatch j with
      | Z0 => fail
      | Zpos _ => fail
      | Zneg _ => fail
      | _ => let j' := eval vm_compute in j in
             change (Z.testbit a j) with (Z.testbit a j')
      end
  end.

Ltac norm_const :=
  repeat match goal with
  | |- context [Z.testbit (Zpos ?p) ?j] =>
      let b := eval vm_compute in (Z.testbit (Zpos p) j) in
      change (Z.testbit (Zpos p) j) with b
  end;
  rewrite ?andb_false_r, ?andb_true_r, ?orb_false_r, ?orb_false_l.

Ltac kill_neg :=
  repeat match goal with
  | |- context [Z.testbit ?a (Zneg ?p)] =>
      rewrite (Z.testbit_neg_r a (Zneg p)) by reflexivity
  end;
  rewrite ?andb_false_l, ?orb_false_r, ?orb_false_l.

Ltac bit_level :=
  norm_index; kill_neg; norm_const;
  rewrite ?swap_bits_high by lia;
  rewrite ?orb_false_l, ?orb_false_r, ?andb_false_l;
  try (rewrite swap_bits_spec by lia).

Lemma bit_reverse_spec v i :
  0 <= i < 64 -> Z.testbit (bit_reverse v) i = Z.testbit v (63 - i).
Proof.
  intros Hi. unfold bit_reverse. rewrite u64_bits by assumption.
  rewrite Z.lor_spec, Z.shiftr_spec, Z.shiftl_spec by lia.
  assert (C : In i (map Z.of_nat (seq 0 64))).
  { apply in_map_iff. exists (Z.to_nat i). split; [lia|]. apply in_seq. lia. }
  vm_compute in C.
  repeat (destruct C as [<-|C]; [ do 6 bit_level; reflexivity |]).
  destruct C.
Qed.

Lemma u64_range x : 0 <= u64 x < 2 ^ 64.
Proof. unfold u64. apply Z.mod_pos_bound. lia. Qed.

Lemma bit_reverse_range v : 0 <= bit_reverse v < 2 ^ 64.
Proof. unfold bit_reverse. apply u64_range. Qed.

Lemma high_bits_false v i : 0 <= v < 2 ^ 64 -> 64 <= i -> Z.testbit v i = false.
Proof.
  intros Hv Hi. rewrite <- (Z.mod_small v (2 ^ 64)) by lia.
  apply Z.mod_pow2_bits_high. lia.
Qed.

Lemma bit_reverse_invol v : 0 <= v < 2 ^ 64 -> bit_reverse (bit_reverse v) = v.
Proof.
  intros Hv. apply Z.bits_inj'. intros i Hi.
  destruct (Z.lt_ge_cases i 64) as [Hlt|Hge].
  - rewrite !bit_reverse_spec by lia. f_equal. lia.
  - rewrite !high_bits_false; auto using bit_reverse_range.
Qed.

Lemma bit_reverse_inj a b :
  0 <= a < 2 ^ 64 -> 0 <= b < 2 ^ 64 -> bit_reverse a = bit_reverse b -> a = b.
Proof.
  intros Ha Hb E. rewrite <- (bit_reverse_invol a), <- (bit_reverse_invol b) by assumption.
  rewrite E. reflexivity.
Qed.

(** A number whose bits are among those of another is not greater. *)
Lemma bits_subset_le a b :
  0 <= a -> 0 <= b ->
  (forall i, 0 <= i -> Z.testbit a i = true -> Z.testbit b i = true) ->
  a <= b.
Proof.
  intros Ha Hb H.
  assert (E : b = a + Z.ldiff b a).
  { rewrite Z.add_nocarry_lxor.
    - apply Z.bits_inj'. intros i Hi.
      rewrite Z.lxor_spec, Z.ldiff_spec.
      destruct (Z.testbit a i) eqn:A.
      + rewrite (H i Hi A). reflexivity.
      + destruct (Z.testbit b i); reflexivity.
    - apply Z.bits_inj'. intros i Hi.
      rewrite Z.land_spec, Z.ldiff_spec, Z.bits_0.
      destruct (Z.testbit a i); simpl; auto using andb_false_r. }
  assert (0 <= Z.ldiff b a) by (apply Z.ldiff_nonneg; left; assumption).
  lia.
Qed.

Lemma bit_reverse_subset a b :
  0 <= a < 2 ^ 64 ->
  (forall i, 0 <= i -> Z.testbit a i = true -> Z.testbit b i = true) ->
  bit_reverse a <= bit_reverse b.
Proof.
  intros Ha H. apply bits_subset_le; try apply bit_reverse_range.
  intros i Hi T. destruct (Z.lt_ge_cases i 64) as [Hlt|Hge].
  - rewrite bit_reverse_spec in * by lia. apply H; [lia|exact T].
  - rewrite high_bits_false in T; auto using bit_reverse_range. discriminate.
Qed.

Lemma land_subset a b i : Z.testbit (Z.land a b) i = true -> Z.testbit a i = true.
Proof. rewrite Z.land_spec. destruct (Z.testbit a i); auto. Qed.

Lemma land_range a b : 0 <= a < 2 ^ 64 -> 0 <= Z.land a b < 2 ^ 64.
Proof.
  intros Ha. split; [apply Z.land_nonneg; left; lia|].
  apply Z.le_lt_trans with a; [|lia].
  apply bits_subset_le; try lia.
  - apply Z.land_nonneg; left; lia.
  - intros i _. apply land_subset.
Qed.

(** [bit_clearmsb] drops the top bit and nothing else is added. *)
Lemma bit_clearmsb_subset v i :
  Z.testbit (bit_clearmsb v) i = true -> Z.testbit v i = true.
Proof. unfold bit_clearmsb. apply land_subset. Qed.

Lemma smear_log2 t k :
  0 < t -> 0 <= k ->
  0 < Z.lor t (Z.shiftr t k) /\ Z.log2 (Z.lor t (Z.shiftr t k)) = Z.log2 t.
Proof.
  intros Ht Hk.
  assert (S : 0 <= Z.shiftr t k) by (apply Z.shiftr_nonneg; lia).
  assert (L : Z.log2 (Z.lor t (Z.shiftr t k)) = Z.log2 t).
  { rewrite Z.log2_lor by lia. rewrite Z.log2_shiftr by assumption.
    pose proof (Z.log2_nonneg t). lia. }
  split; [|exact L].
  assert (0 <= Z.lor t (Z.shiftr t k)) by (apply Z.lor_nonneg; lia).
  destruct (Z.eq_dec (Z.lor t (Z.shiftr t k)) 0) as [E|]; [|lia].
  exfalso. assert (T : Z.testbit (Z.lor t (Z.shiftr t k)) (Z.log2 t) = true).
  { rewrite Z.lor_spec, Z.bit_log2 by assumption. reflexivity. }
  rewrite E, Z.bits_0 in T. discriminate.
Qed.

Lemma low_bits_lt x n :
  0 <= x -> 0 <= n -> (forall i, n <= i -> Z.testbit x i = false) -> x < 2 ^ n.
Proof.
  intros Hx Hn H.
  assert (E : x = x mod 2 ^ n).
  { apply Z.bits_inj'. intros i Hi.
    destruct (Z.lt_ge_cases i n).
    - rewrite Z.mod_pow2_bits_low by lia. reflexivity.
    - rewrite Z.mod_pow2_bits_high by lia. apply H. lia. }
  rewrite E. apply Z.mod_pos_bound. apply Z.pow_pos_nonneg; lia.
Qed.

Lemma bit_clearmsb_lt v : 0 < v -> 0 <= bit_clearmsb v < 2 ^ Z.log2 v.
Proof.
  intros Hv.
  assert (N : 0 <= bit_clearmsb v).
  { unfold bit_clearmsb. apply Z.land_nonneg. left. lia. }
  split; [exact N|].
  apply low_bits_lt; [exact N|apply Z.log2_nonneg|].
  intros i Hi. destruct (Z.testbit (bit_clearmsb v) i) eqn:T; [|reflexivity].
  exfalso. destruct (Z.eq_dec i (Z.log2 v)) as [->|Hne].
  - unfold bit_clearmsb in T. rewrite Z.land_spec, Z.shiftr_spec in T
      by apply Z.log2_nonneg.
    apply andb_true_iff in T. destruct T as [_ T].
    set (t1 := Z.lor v (Z.shiftr v 1)) in *.
    set (t2 := Z.lor t1 (Z.shiftr t1 2)) in *.
    set (t3 := Z.lor t2 (Z.shiftr t2 4)) in *.
    set (t4 := Z.lor t3 (Z.shiftr t3 8)) in *.
    set (t5 := Z.lor t4 (Z.shiftr t4 16)) in *.
    destruct (smear_log2 v 1 Hv ltac:(lia)) as [P1 L1]. fold t1 in P1, L1.
    destruct (smear_log2 t1 2 P1 ltac:(lia)) as [P2 L2]. fold t2 in P2, L2.
    destruct (smear_log2 t2 4 P2 ltac:(lia)) as [P3 L3]. fold t3 in P3, L3.
    destruct (smear_log2 t3 8 P3 ltac:(lia)) as [P4 L4]. fold t4 in P4, L4.
    destruct (smear_log2 t4 16 P4 ltac:(lia)) as [P5 L5]. fold t5 in P5, L5.
    destruct (smear_log2 t5 32 P5 ltac:(lia)) as [P6 L6].
    rewrite Z.bits_above_log2 in T; [discriminate|lia|lia].
  - apply bit_clearmsb_subset in T.
    rewrite Z.bits_above_log2 in T; [discriminate|lia|lia].
Qed.

(** [x & ~1] and [x | 1] *)
Lemma land_lnot1 x : Z.land x (Z.lnot 1) = 2 * (x / 2).
Proof.
  apply Z.bits_inj'. intros i Hi.
  rewrite Z.land_spec, Z.lnot_spec by assumption.
  destruct (Z.eq_dec i 0) as [->|Hne].
  - rewrite Z.testbit_even_0. simpl. apply andb_false_r.
  - replace i with (Z.succ (i - 1)) by lia.
    rewrite Z.testbit_even_succ by lia.
    rewrite <- Z.div2_div, Z.div2_spec, Z.shiftr_spec by lia.
    replace (Z.testbit 1 (Z.succ (i - 1))) with false.
    + simpl. rewrite andb_true_r. f_equal; lia.
    + symmetry. apply (Z.bits_above_log2 1); simpl; lia.
Qed.

Lemma lor_1 x : Z.lor x 1 = 2 * (x / 2) + 1.
Proof.
  apply Z.bits_inj'. intros i Hi.
  rewrite Z.lor_spec.
  destruct (Z.eq_dec i 0) as [->|Hne].
  - rewrite Z.testbit_odd_0. apply orb_true_r.
  - replace i with (Z.succ (i - 1)) by lia.
    rewrite Z.testbit_odd_succ by lia.
    rewrite <- Z.div2_div, Z.div2_spec, Z.shiftr_spec by lia.
    replace (Z.testbit 1 (Z.succ (i - 1))) with false.
    + rewrite orb_false_r. f_equal; lia.
    + symmetry. apply (Z.bits_above_log2 1); simpl; lia.
Qed.

Lemma land_1 x : Z.land x 1 = x mod 2.
Proof. apply (Z.land_ones x 1). lia. Qed.

Lemma bit0_even x : Z.testbit x 0 = false -> x mod 2 = 0.
Proof.
  intros H. pose proof (Z.bit0_mod x) as E. rewrite H in E. simpl in E. lia.
Qed.


(** *** What the two functions compute *)

(** X1. [bit_reverse] gives a 64-bit value whose bit [i] is the bit
    [63 - i] of its argument, and applied twice it gives a 64-bit
    value back. *)
Theorem bit_reverse_mirror v :
  0 <= v < 2 ^ 64 ->
  0 <= bit_reverse v < 2 ^ 64 /\
  (forall i, 0 <= i < 64 -> Z.testbit (bit_reverse v) i = Z.testbit v (63 - i)) /\
  bit_reverse (bit_reverse v) = v.
Proof.
  intros Hv. split; [apply bit_reverse_range|]. split.
  - intros i Hi. apply bit_reverse_spec. exact Hi.
  - apply Z.bits_inj'. intros i Hi.
    destruct (Z.lt_ge_cases i 64) as [Hlt|Hge].
    + rewrite !bit_reverse_spec by lia. f_equal. lia.
    + rewrite !high_bits_false; auto using bit_reverse_range.
Qed.

Lemma bit_reverse_mirror_witness :
  0 <= 6 < 2 ^ 64 /\
  bit_reverse 6 = 0x6000000000000000 /\ bit_reverse (bit_reverse 6) = 6.
Proof.
  split; [lia|]. split; [vm_compute; reflexivity|].
  exact (proj2 (proj2 (bit_reverse_mirror 6 ltac:(lia)))).
Defined.

(** One round of the mask of [bit_clearmsb]: the run of ones below the
    top bit doubles. *)
Lemma smear_step t s n L :
  0 <= s <= n ->
  (forall i, 0 <= i -> L - n < i <= L -> Z.testbit t i = true) ->
  forall i, 0 <= i -> L - (n + s) < i <= L ->
    Z.testbit (Z.lor t (Z.shiftr t s)) i = true.
Proof.
  intros Hs H i Hi Hr. rewrite Z.lor_spec, Z.shiftr_spec by lia.
  destruct (Z_lt_le_dec (L - n) i) as [Hlt|Hle].
  - rewrite H by lia. reflexivity.
  - rewrite (H (i + s)) by lia. apply orb_true_r.
Qed.

(** X2. [bit_clearmsb] takes away the highest bit that is set and
    nothing else: a value [v] with [2^L <= v < 2^(L+1)] becomes
    [v - 2^L], and 0 stays 0. *)
Theorem bit_clearmsb_value v :
  0 <= v < 2 ^ 64 ->
  bit_clearmsb v = (if v =? 0 then 0 else v - 2 ^ Z.log2 v) /\
  forall i, 0 <= i ->
    Z.testbit (bit_clearmsb v) i = Z.testbit v i && (i <? Z.log2 v).
Proof.
  intros Hv. destruct (Z.eqb_spec v 0) as [->|Hne].
  - split; [reflexivity|]. intros i Hi. change (bit_clearmsb 0) with 0.
    rewrite !Z.bits_0. reflexivity.
  - assert (Hp : 0 < v) by lia.
    set (L := Z.log2 v).
    assert (HL : 0 <= L < 64).
    { split; [apply Z.log2_nonneg|]. apply Z.log2_lt_pow2; lia. }
    assert (Hbits : forall i, 0 <= i ->
              Z.testbit (bit_clearmsb v) i = Z.testbit v i && (i <? L)).
    { intros i Hi. unfold bit_clearmsb.
      rewrite Z.land_spec, Z.shiftr_spec by lia.
      set (t1 := Z.lor v (Z.shiftr v 1)).
      set (t2 := Z.lor t1 (Z.shiftr t1 2)).
      set (t3 := Z.lor t2 (Z.shiftr t2 4)).
      set (t4 := Z.lor t3 (Z.shiftr t3 8)).
      set (t5 := Z.lor t4 (Z.shiftr t4 16)).
      set (t6 := Z.lor t5 (Z.shiftr t5 32)).
      destruct (smear_log2 v 1 Hp ltac:(lia)) as [P1 L1]. fold t1 in P1, L1.
      destruct (smear_log2 t1 2 P1 ltac:(lia)) as [P2 L2]. fold t2 in P2, L2.
      destruct (smear_log2 t2 4 P2 ltac:(lia)) as [P3 L3]. fold t3 in P3, L3.
      destruct (smear_log2 t3 8 P3 ltac:(lia)) as [P4 L4]. fold t4 in P4, L4.
      destruct (smear_log2 t4 16 P4 ltac:(lia)) as [P5 L5]. fold t5 in P5, L5.
      destruct (smear_log2 t5 32 P5 ltac:(lia)) as [P6 L6]. fold t6 in P6, L6.
      assert (S0 : forall j, 0 <= j -> L - 1 < j <= L -> Z.testbit v j = true).
      { intros j _ Hj. replace j with L by lia. apply Z.bit_log2. exact Hp. }
      pose proof (smear_step v 1 1 L ltac:(lia) S0) as S1. fold t1 in S1.
      pose proof (smear_step t1 2 2 L ltac:(lia) S1) as S2. fold t2 in S2.
      pose proof (smear_step t2 4 4 L ltac:(lia) S2) as S3. fold t3 in S3.
      pose proof (smear_step t3 8 8 L ltac:(lia) S3) as S4. fold t4 in S4.
      pose proof (smear_step t4 16 16 L ltac:(lia) S4) as S5. fold t5 in S5.
      pose proof (smear_step t5 32 32 L ltac:(lia) S5) as S6. fold t6 in S6.
      destruct (Z.ltb_spec i L) as [Hlt|Hge].
      - rewrite S6 by lia. reflexivity.
      - rewrite (Z.bits_above_log2 t6 (i + 1)) by lia. reflexivity. }
    split; [|exact Hbits].
    assert (P : 2 ^ L <= v < 2 ^ (L + 1)).
    { pose proof (Z.log2_spec v Hp) as H. unfold L. rewrite <- Z.add_1_r in H. exact H. }
    assert (E : bit_clearmsb v = v mod 2 ^ L).
    { apply Z.bits_inj'. intros i Hi. rewrite Hbits by exact Hi.
      destruct (Z.ltb_spec i L) as [Hlt|Hge].
      - rewrite Z.mod_pow2_bits_low by lia. apply andb_true_r.
      - rewrite Z.mod_pow2_bits_high by lia. apply andb_false_r. }
    rewrite E. rewrite Z.pow_add_r in P by lia. change (2 ^ 1) with 2 in P.
    symmetry. apply Z.mod_unique with 1; lia.
Qed.

Lemma bit_clearmsb_value_witness :
  0 <= 21 < 2 ^ 64 /\ bit_clearmsb 21 = 5 /\ bit_clearmsb 5 = 1.
Proof.
  split; [lia|]. split.
  - exact (proj1 (bit_clearmsb_value 21 ltac:(lia))).
  - exact (proj1 (bit_clearmsb_value 5 ltac:(lia))).
Defined.

End Bits.

(** ** Transducers ([fst_t], [fst_addstates], [fst_toposort], [fst_addsort]) *)

Module Fst.

(** [struct arc_s].  A label object is interned per vocabulary and is
    only ever used through its text, which stands for it here. *)
Record arc_t := mk_arc {
  src : nat;
  trg : nat;
  ilbl : string;
  olbl : string;
  psi : Q;
  alpha : Q;
  beta : Q;
  eback : nat
}.

(** [struct state_s]: [icnt]/[ocnt] are the lengths of [ilst]/[olst];
    [spsi] is the matrix [psi[icnt][ocnt]]. *)
Record state_t := mk_state {
  ilst : list nat;
  olst : list nat;
  spsi : list (list Q)
}.

Record fst_t := mk_fst {
  mult : Q;
  nstates : nat;
  final : nat;
  arcs : list arc_t;
  states : list state_t;
  s2t : list nat;
  t2s : list nat
}.

Definition narcs (f : fst_t) : nat := length (arcs f).

Definition arc0 : arc_t := mk_arc 0 0 "" "" 0 0 0 0.
Definition state0 : state_t := mk_state [] [] [].

Definition get_arc (f : fst_t) (a : nat) : arc_t := nth a (arcs f) arc0.
Definition get_state (f : fst_t) (s : nat) : state_t := nth s (states f) state0.

(** [src->olst[src->ocnt++] = ia] and [trg->ilst[trg->icnt++] = ia]. *)
Definition push_out (sts : list state_t) (s ia : nat) : list state_t :=
  let st := nth s sts state0 in
  upd sts s (mk_state (ilst st) (olst st ++ [ia]) (spsi st)).
Definition push_in (sts : list state_t) (s ia : nat) : list state_t :=
  let st := nth s sts state0 in
  upd sts s (mk_state (ilst st ++ [ia]) (olst st) (spsi st)).

(** The last loop of [fst_addstates], over the arcs from index [ia]. *)
Fixpoint fill_states (al : list arc_t) (ia : nat) (sts : list state_t)
  : list state_t :=
  match al with
  | [] => sts
  | a :: rest =>
      fill_states rest (S ia) (push_in (push_out sts (src a) ia) (trg a) ia)
  end.

Definition fst_addstates (f : fst_t) : fst_t :=
  mk_fst (mult f) (nstates f) (final f) (arcs f)
    (fill_states (arcs f) 0 (repeat state0 (nstates f)))
    (s2t f) (t2s f).

(** *** [fst_toposort] *)

Definition swap (l : list nat) (i j : nat) : list nat :=
  let a := nth i l 0%nat in
  let b := nth j l 0%nat in
  upd (upd l i b) j a.

(** [for (n = done; n < N; n++)]: move the states of degree 0 to the
    front of [lst[done..N)]; the state is [(lst, last)]. *)
Definition front_step (deg : list Z) (st : list nat * nat) (n : nat)
  : list nat * nat :=
  let '(lst, last) := st in
  if (nth (nth n lst 0%nat) deg 0 =? 0)%Z then (swap lst n last, S last)
  else (lst, last).

Definition front (deg : list Z) (lst : list nat) (done N : nat)
  : list nat * nat :=
  fold_left (front_step deg) (seq done (N - done)) (lst, done).

(** [deg[x]--] *)
Definition dec_deg (deg : list Z) (s : nat) : list Z :=
  upd deg s (nth s deg 0 - 1)%Z.

(** The degrees after the states [lst[done..last)] have released their
    neighbours. *)
Definition release_state (f : fst_t) (rev : bool) (deg : list Z) (n : nat)
  : list Z :=
  if rev then
    fold_left (fun d i => dec_deg d (src (get_arc f i))) (ilst (get_state f n)) deg
  else
    fold_left (fun d i => dec_deg d (trg (get_arc f i))) (olst (get_state f n)) deg.

Definition release (f : fst_t) (rev : bool) (deg : list Z) (lst : list nat)
  (done last : nat) : list Z :=
  fold_left (fun d ni => release_state f rev d (nth ni lst 0%nat))
    (seq done (last - done)) deg.

(** The [while (done < N)] loop.  Every pass either returns or moves
    [done] forward, so [N] passes are enough; [None] stands for a loop
    that has not finished within the fuel. *)
Fixpoint topo_loop (fuel : nat) (f : fst_t) (rev : bool) (N : nat)
  (deg : list Z) (lst : list nat) (done : nat) : option (bool * list nat) :=
  if (N <=? done)%nat then Some (true, lst)
  else
    match fuel with
    | O => None
    | S fuel' =>
        let '(lst1, last) := front deg lst done N in
        if ((done =? 0)%nat && negb (last =? 1)%nat)%bool then Some (false, lst1)
        else if (last =? done)%nat then Some (false, lst1)
        else topo_loop fuel' f rev N (release f rev deg lst1 done last) lst1 last
    end.

(** [fst_toposort(fst, lst, rev)]: the return value and the array
    [lst] as the call leaves it. *)
Definition fst_toposort (f : fst_t) (rev : bool) : option (bool * list nat) :=
  let N := nstates f in
  let deg :=
    map (fun n => Z.of_nat (length (if rev then olst (get_state f n)
                                    else ilst (get_state f n)))) (seq 0 N) in
  topo_loop N f rev N deg (seq 0 N) 0.

(** *** [fst_addsort] *)

(** The arcs of one state appended to the order, unless flagged [v]. *)
Definition sort_arcs (v : Z) (st : list nat * list Z) (al : list nat)
  : list nat * list Z :=
  fold_left (fun '(ord, flg) a =>
               if (nth a flg 0 =? v)%Z then (ord, flg)
               else (ord ++ [a], upd flg a v)) al st.

Definition sort_fwd (f : fst_t) (lst : list nat) (flg : list Z)
  : list nat * list Z :=
  fold_left (fun st s => sort_arcs 1 st (olst (get_state f s))) lst ([], flg).

Definition sort_bwd (f : fst_t) (lst : list nat) (flg : list Z)
  : list nat * list Z :=
  fold_left (fun st s => sort_arcs 2 st (ilst (get_state f s))) lst ([], flg).

(** [fst_addsort]: both calls to [fst_toposort] are made for the array
    they fill only; their return values are dropped, and the function
    returns 1. *)
Definition fst_addsort (f : fst_t) : option (bool * fst_t) :=
  match fst_toposort f false with
  | None => None
  | Some (_, lst1) =>
      let '(o1, flg1) := sort_fwd f lst1 (repeat 0%Z (narcs f)) in
      match fst_toposort f true with
      | None => None
      | Some (_, lst2) =>
          let '(o2, _) := sort_bwd f lst2 flg1 in
          Some (true, mk_fst (mult f) (nstates f) (final f) (arcs f)
                        (states f) o1 o2)
      end
  end.

(** The first steps of [grd_worker] and of [dec_decode] on a
    transducer: [fst_addstates], then [fst_addsort]. *)
Definition add_states_sort (f : fst_t) : fst_t :=
  match fst_addsort (fst_addstates f) with
  | Some (_, f') => f'
  | None => f
  end.

(** *** Orders of arcs *)

Fixpoint index_of (a : nat) (l : list nat) : option nat :=
  match l with
  | [] => None
  | b :: rest =>
      if (a =? b)%nat then Some 0%nat else option_map S (index_of a rest)
  end.

(** [i] stands strictly before [e] in [ord]. *)
Definition before (ord : list nat) (i e : nat) : bool :=
  match index_of i ord, index_of e ord with
  | Some p, Some q => (p <? q)%nat
  | _, _ => false
  end.

(** [ord] lists every arc index once. *)
Definition arc_perm (f : fst_t) (ord : list nat) : bool :=
  ((length ord =? narcs f)%nat &&
   forallb (fun a => existsb (Nat.eqb a) ord) (seq 0 (narcs f)))%bool.

(** Forward order: the in-arcs of the source of [e] all come before
    [e].  Backward order: the out-arcs of its target do. *)
Definition fwd_sorted (f : fst_t) (ord : list nat) : bool :=
  (arc_perm f ord &&
   forallb (fun e =>
              forallb (fun i => before ord i e)
                (ilst (get_state f (src (get_arc f e)))))
     (seq 0 (narcs f)))%bool.

Definition bwd_sorted (f : fst_t) (ord : list nat) : bool :=
  (arc_perm f ord &&
   forallb (fun e =>
              forallb (fun o => before ord o e)
                (olst (get_state f (trg (get_arc f e)))))
     (seq 0 (narcs f)))%bool.

End Fst.

(** ** Dataset loader ([str_splitsp], [str_readeos], [dat_parse], [dat_load]) *)

Module Dat.
Import Fst.

(** [isspace] in the C locale. *)
Definition isspace (c : ascii) : bool :=
  let n := nat_of_ascii c in
  ((n =? 32) || ((9 <=? n) && (n <=? 13)))%nat%bool.

Definition is_empty (s : string) : bool :=
  match s with EmptyString => true | _ => false end.

(** The space separated tokens of a line; [cur] is the token being
    read. *)
Fixpoint tokens (s : string) (cur : string) : list string :=
  match s with
  | EmptyString => if is_empty cur then [] else [cur]
  | String c s' =>
      if isspace c then
        if is_empty cur then tokens s' EmptyString
        else cur :: tokens s' EmptyString
      else tokens s' (cur ++ String c EmptyString)
  end.

(** [str_splitsp(str, n, tok)]: at most [n] tokens are kept. *)
Definition str_splitsp (s : string) (n : nat) : list string :=
  firstn n (tokens s EmptyString).

(** The end-of-sample test of [str_readeos]: spaces, [EOS], spaces. *)
Definition is_eos (line : string) : bool :=
  match tokens line EmptyString with
  | [t] => String.eqb t "EOS"
  | _ => false
  end.

(** [str_readeos]: the lines up to the next [EOS] mark or the end of
    the file, and the rest of the file.  An empty result is the C
    function's [NULL]. *)
Fixpoint str_readeos (file : list string) : list string * list string :=
  match file with
  | [] => ([], [])
  | l :: rest =>
      if is_eos l then ([], rest)
      else let '(lns, rest') := str_readeos rest in (l :: lns, rest')
  end.

(** [voc_str2id] on the per-sample state vocabulary: the identifier of
    a key is its rank of first appearance. *)
Fixpoint voc_find (voc : list string) (key : string) (i : nat) : option nat :=
  match voc with
  | [] => None
  | k :: rest => if String.eqb k key then Some i else voc_find rest key (S i)
  end.

Definition voc_str2id (voc : list string) (key : string) : nat * list string :=
  match voc_find voc key 0 with
  | Some i => (i, voc)
  | None => (length voc, voc ++ [key])
  end.

(** [MAX_REAL] is 0 in this copy: a line holds at most four tokens and
    an arc has no stored weight. *)
Definition MAX_REAL : nat := 0.

(** The state of the line loop of [dat_parse]. *)
Record parse_st := mk_parse {
  p_arcs : list arc_t;
  p_nstates : nat;
  p_sts : list string;
  p_final : option string
}.

(** One line of a sample; [None] is the [goto error] with
    [errno = EZEPFMT]. *)
Definition parse_line (st : parse_st) (line : string) : option parse_st :=
  let toks := str_splitsp line (4 + MAX_REAL) in
  let ntoks := length toks in
  match line with
  | String "#" _ => Some st
  | _ =>
      if (ntoks =? 0)%nat then Some st
      else if (ntoks =? 3)%nat then None
      else if (ntoks <=? 2)%nat then
        match p_final st with
        | Some _ => None
        | None => Some (mk_parse (p_arcs st) (p_nstates st) (p_sts st)
                          (Some (nth 0 toks EmptyString)))
        end
      else
        let '(s, voc1) := voc_str2id (p_sts st) (nth 0 toks EmptyString) in
        let '(t, voc2) := voc_str2id voc1 (nth 1 toks EmptyString) in
        let ns := Nat.max (Nat.max (p_nstates st) (s + 1)) (t + 1) in
        let a := mk_arc s t (nth 2 toks EmptyString) (nth 3 toks EmptyString)
                   0 0 0 0 in
        Some (mk_parse (p_arcs st ++ [a]) ns voc2 (p_final st))
  end.

Fixpoint parse_lines (st : parse_st) (lns : list string) : option parse_st :=
  match lns with
  | [] => Some st
  | l :: rest =>
      match parse_line st l with
      | None => None
      | Some st' => parse_lines st' rest
      end
  end.

(** [dat_parse]: [None] is the [NULL] returned on error. *)
Definition dat_parse (lns : list string) : option fst_t :=
  match parse_lines (mk_parse [] 0 [] None) lns with
  | None => None
  | Some st =>
      match p_final st with
      | None => None
      | Some fin =>
          Some (mk_fst 0 (p_nstates st) (fst (voc_str2id (p_sts st) fin))
                  (p_arcs st) [] [] [])
      end
  end.

(** What a call to [dat_load] comes to. *)
Inductive load_result :=
| Loaded (dat : list fst_t)      (* return 0 *)
| ErrorLine (ln : nat)           (* return ln *)
| NullDeref (ln : nat).          (* store through the NULL pointer *)

(** The [while (!feof(file))] loop.  [fst->mult = mult] comes right
    after the call to [dat_parse], before the test [fst == NULL]. *)
Fixpoint load_loop (fuel : nat) (file : list string) (mult : Q)
  (dat : list fst_t) (ln : nat) : option load_result :=
  match file with
  | [] => Some (Loaded dat)
  | _ =>
      match fuel with
      | O => None
      | S fuel' =>
          let '(lns, rest) := str_readeos file in
          match lns with
          | [] => Some (Loaded dat)
          | _ =>
              match dat_parse lns with
              | None => Some (NullDeref ln)
              | Some f =>
                  let f' := mk_fst mult (nstates f) (final f) (arcs f)
                              (states f) (s2t f) (t2s f) in
                  load_loop fuel' rest mult (dat ++ [f']) (ln + length lns)
              end
          end
      end
  end.

(** [dat_load] on a file given as its lines. *)
Definition dat_load (dat : list fst_t) (file : list string) (mult : Q)
  : option load_result :=
  load_loop (length file) file mult dat 1.

End Dat.

(** ** The vocabulary ([voc_t]): a splay tree from keys to identifiers *)

Module Voc.

(** [struct vnd_s]; [Nil] is the [NULL] pointer, [l] and [r] are
    [child[0]] and [child[1]]. *)
Inductive vnd_t :=
| Nil
| Node (l : vnd_t) (key : string) (value : nat) (r : vnd_t).

(** [struct voc_s]; [vect] holds the keys of the nodes it points to. *)
Record voc_t := mk_voc {
  tree : vnd_t;
  vect : list string;
  count : nat;
  size : nat
}.

Definition voc_new : voc_t := mk_voc Nil [] 0 0.

(** [strcmp] on strings without a NUL character. *)
Definition strcmp (a b : string) : comparison := String.compare a b.

(** The value of [side] when the loop of [voc_splay] ends: -1, 0, 1. *)
Inductive side_t := Found | Left | Right.

(** The nodes hung under [root[0]] and under [root[1]], in the order
    they were hung: a node of the first kind waits for its [child[1]],
    one of the second kind for its [child[0]]. *)
Definition lframe : Type := vnd_t * string * nat.
Definition rframe : Type := string * nat * vnd_t.

(** The [while (1)] of [voc_splay] from the node [nd]; [None] is the
    dereference of a [NULL] tree. *)
Fixpoint splay_loop (key : string) (nd : vnd_t) (Lf : list lframe)
  (Rf : list rframe) {struct nd}
  : option (side_t * vnd_t * list lframe * list rframe) :=
  match nd with
  | Nil => None
  | Node l k v r =>
      match strcmp key k with
      | Eq => Some (Found, nd, Lf, Rf)
      | Lt =>
          match l with
          | Nil => Some (Left, nd, Lf, Rf)
          | Node ll lk lv lr =>
              match strcmp key lk with
              | Lt =>
                  let nd' := Node lr k v r in
                  match ll with
                  | Nil => Some (Left, Node Nil lk lv nd', Lf, Rf)
                  | Node _ _ _ _ => splay_loop key ll Lf (Rf ++ [(lk, lv, nd')])
                  end
              | _ => splay_loop key l Lf (Rf ++ [(k, v, r)])
              end
          end
      | Gt =>
          match r with
          | Nil => Some (Right, nd, Lf, Rf)
          | Node rl rk rv rr =>
              match strcmp key rk with
              | Gt =>
                  let nd' := Node l k v rl in
                  match rr with
                  | Nil => Some (Right, Node nd' rk rv Nil, Lf, Rf)
                  | Node _ _ _ _ => splay_loop key rr (Lf ++ [(nd', rk, rv)]) Rf
                  end
              | _ => splay_loop key r (Lf ++ [(l, k, v)]) Rf
              end
          end
      end
  end.

(** The trees under [nil.child[1]] and [nil.child[0]] once the last
    node hung has received [h]. *)
Fixpoint asm_left (Lf : list lframe) (h : vnd_t) : vnd_t :=
  match Lf with
  | [] => h
  | (l, k, v) :: fs => Node l k v (asm_left fs h)
  end.
Fixpoint asm_right (Rf : list rframe) (h : vnd_t) : vnd_t :=
  match Rf with
  | [] => h
  | (k, v, r) :: fs => Node (asm_right fs h) k v r
  end.

(** [voc_splay]: the value returned and the new [voc->tree]. *)
Definition voc_splay (t : vnd_t) (key : string) : option (side_t * vnd_t) :=
  match splay_loop key t [] [] with
  | Some (side, Node l k v r, Lf, Rf) =>
      Some (side, Node (asm_left Lf l) k v (asm_right Rf r))
  | _ => None
  end.

Definition root_value (t : vnd_t) : nat :=
  match t with Nil => 0%nat | Node _ _ v _ => v end.

(** [voc->vect[id] = nd] *)
Definition set_vect (vect : list string) (id : nat) (key : string) : list string :=
  firstn id vect ++ [key].

(** [voc_str2id]; allocations succeed.  [None] is the dereference of
    a [NULL] tree. *)
Definition voc_str2id (voc : voc_t) (key : string) : option (nat * voc_t) :=
  if (count voc =? 0)%nat then
    let sz := if (size voc =? 0)%nat then 128%nat else size voc in
    Some (0%nat, mk_voc (Node Nil key 0 Nil) (set_vect (vect voc) 0 key) 1 sz)
  else
    match voc_splay (tree voc) key with
    | None => None
    | Some (Found, t) => Some (root_value t, mk_voc t (vect voc) (count voc) (size voc))
    | Some (side, t) =>
        let sz := if (count voc =? size voc)%nat then (size voc * 2)%nat else size voc in
        let id := count voc in
        match t with
        | Nil => None
        | Node l k v r =>
            let nd :=
              match side with
              | Left => Node l key id (Node Nil k v r)
              | _ => Node (Node l k v Nil) key id r
              end in
            Some (id, mk_voc nd (set_vect (vect voc) id key) (S (count voc)) sz)
        end
    end.

(** *** The keys in order *)

Fixpoint inorder (t : vnd_t) : list (string * nat) :=
  match t with
  | Nil => []
  | Node l k v r => inorder l ++ (k, v) :: inorder r
  end.

Definition lt (a b : string) : Prop := strcmp a b = Lt.

Definition sorted (L : list (string * nat)) : Prop :=
  StronglySorted (fun x y => lt (fst x) (fst y)) L.

Lemma lt_trans a b c : lt a b -> lt b c -> lt a c.
Proof.
  unfold lt, strcmp. intros H1 H2.
  apply OrderedTypeEx.String_as_OT.cmp_lt.
  apply OrderedTypeEx.String_as_OT.cmp_lt in H1, H2.
  exact (OrderedTypeEx.String_as_OT.lt_trans _ _ _ H1 H2).
Qed.

Lemma lt_irrefl a : ~ lt a a.
Proof.
  unfold lt, strcmp. intros H.
  pose proof (String.compare_antisym a a) as E. rewrite H in E. discriminate.
Qed.

Lemma gt_lt a b : strcmp a b = Gt <-> lt b a.
Proof.
  unfold lt, strcmp. rewrite (String.compare_antisym b a).
  destruct (String.compare a b); simpl; split; congruence.
Qed.

Lemma strcmp_eq a b : strcmp a b = Eq <-> a = b.
Proof.
  unfold strcmp. split; [apply String.compare_eq_iff|].
  intros ->. destruct (String.compare b b) eqn:E; [reflexivity| |];
    exfalso; apply (lt_irrefl b); unfold lt, strcmp;
    [exact E|rewrite String.compare_antisym, E; reflexivity].
Qed.

Lemma sorted_app A B :
  sorted (A ++ B) <->
  sorted A /\ sorted B /\ (forall x y, In x A -> In y B -> lt (fst x) (fst y)).
Proof.
  unfold sorted. induction A as [|a A IH]; simpl.
  - split; [intros H; repeat split; auto; [constructor|intros x y []]|tauto].
  - split.
    + intros H. apply StronglySorted_inv in H. destruct H as [H F].
      apply IH in H. destruct H as (SA & SB & C).
      rewrite Forall_app in F. destruct F as [FA FB].
      split; [constructor; assumption|]. split; [exact SB|].
      intros x y [<-|Hx] Hy.
      * rewrite Forall_forall in FB. apply FB. exact Hy.
      * apply C; assumption.
    + intros (SA & SB & C). apply StronglySorted_inv in SA.
      destruct SA as [SA FA]. constructor.
      * apply IH. repeat split; auto.
      * rewrite Forall_app. split; [exact FA|].
        rewrite Forall_forall. intros y Hy. apply C; auto.
Qed.

Lemma sorted_cons x B :
  sorted (x :: B) <-> sorted B /\ (forall y, In y B -> lt (fst x) (fst y)).
Proof.
  unfold sorted. split.
  - intros H. apply StronglySorted_inv in H. destruct H as [H F].
    split; [exact H|]. rewrite Forall_forall in F. exact F.
  - intros [H F]. constructor; [exact H|]. rewrite Forall_forall. exact F.
Qed.

Definition flatL (Lf : list lframe) : list (string * nat) :=
  flat_map (fun f : lframe => let '(l, k, v) := f in inorder l ++ [(k, v)]) Lf.
Fixpoint flatR (Rf : list rframe) : list (string * nat) :=
  match Rf with
  | [] => []
  | (k, v, r) :: fs => flatR fs ++ (k, v) :: inorder r
  end.

Lemma inorder_asm_left Lf h : inorder (asm_left Lf h) = flatL Lf ++ inorder h.
Proof.
  induction Lf as [|[[l k] v] Lf IH]; [reflexivity|].
  simpl. rewrite IH, <- !app_assoc. reflexivity.
Qed.

Lemma inorder_asm_right Rf h : inorder (asm_right Rf h) = inorder h ++ flatR Rf.
Proof.
  induction Rf as [|[[k v] r] Rf IH]; simpl; [rewrite app_nil_r; reflexivity|].
  rewrite IH, <- !app_assoc. reflexivity.
Qed.

Lemma flatL_snoc Lf l k v : flatL (Lf ++ [(l, k, v)]) = flatL Lf ++ inorder l ++ [(k, v)].
Proof. unfold flatL. rewrite flat_map_app. simpl. rewrite app_nil_r. reflexivity. Qed.

Lemma flatR_snoc Rf k v r : flatR (Rf ++ [(k, v, r)]) = (k, v) :: inorder r ++ flatR Rf.
Proof.
  induction Rf as [|[[k' v'] r'] Rf IH]; simpl; [rewrite app_nil_r; reflexivity|].
  rewrite IH. simpl. rewrite <- !app_assoc. reflexivity.
Qed.

Fixpoint nodes (t : vnd_t) : nat :=
  match t with
  | Nil => 0%nat
  | Node l _ _ r => S (nodes l + nodes r)
  end.

(** What the loop has established when it ends at the node
    [Node l k v r] with [side]. *)
Definition stop_ok (key : string) (side : side_t) (l : vnd_t) (k : string)
  (r : vnd_t) : Prop :=
  match side with
  | Found => k = key
  | Left => lt key k /\ l = Nil
  | Right => lt k key /\ r = Nil
  end.

Definition below (key : string) (L : list (string * nat)) : Prop :=
  forall x, In x L -> lt (fst x) key.
Definition above (key : string) (L : list (string * nat)) : Prop :=
  forall x, In x L -> lt key (fst x).

Ltac flat_eq :=
  cbn [inorder];
  repeat (rewrite <- app_assoc || rewrite <- app_comm_cons || rewrite app_nil_l);
  reflexivity.

(** The loop keeps the sequence of the keys; what it hangs on the
    left is below the key, what it hangs on the right is above. *)
Lemma splay_loop_spec key : forall n nd Lf Rf,
  (nodes nd <= n)%nat -> nd <> Nil -> sorted (inorder nd) ->
  below key (flatL Lf) -> above key (flatR Rf) ->
  exists side l k v r Lf' Rf',
    splay_loop key nd Lf Rf = Some (side, Node l k v r, Lf', Rf') /\
    flatL Lf' ++ inorder (Node l k v r) ++ flatR Rf' =
      flatL Lf ++ inorder nd ++ flatR Rf /\
    below key (flatL Lf') /\ above key (flatR Rf') /\
    stop_ok key side l k r.
Proof.
  induction n as [|n IH]; intros nd Lf Rf Hn Hne Hs HL HR.
  { destruct nd; [contradiction|simpl in Hn; lia]. }
  destruct nd as [|l k v r]; [contradiction|]. clear Hne.
  cbn [splay_loop]. simpl in Hn.
  cbn [inorder] in Hs. apply sorted_app in Hs. destruct Hs as (Sl & Skr & Clk).
  apply sorted_cons in Skr. destruct Skr as [Sr Ckr].
  destruct (strcmp key k) eqn:Ck.
  - apply strcmp_eq in Ck. subst k.
    exists Found, l, key, v, r, Lf, Rf. repeat split; auto.
  - (* key < k *)
    destruct l as [|ll lk lv lr].
    + exists Left, Nil, k, v, r, Lf, Rf. repeat split; auto.
    + cbn [inorder] in Sl, Clk. apply sorted_app in Sl. destruct Sl as (Sll & Slr & Cll).
      apply sorted_cons in Slr. destruct Slr as [Slr Clr].
      assert (Hlk : lt lk k).
      { apply (Clk (lk, lv) (k, v)); [apply in_elt|left; reflexivity]. }
      destruct (strcmp key lk) eqn:Cl.
      * (* key = lk: hang [Node _ k v r] on the right, go on from [l] *)
        destruct (IH (Node ll lk lv lr) Lf (Rf ++ [(k, v, r)]))
          as (sd & l' & k' & v' & r' & Lf' & Rf' & E & Fl & BL & AR & St).
        { simpl in *. lia. }
        { discriminate. }
        { cbn [inorder]. apply sorted_app. split; [exact Sll|]. split.
          - apply sorted_cons. split; assumption.
          - exact Cll. }
        { exact HL. }
        { intros x Hx. rewrite flatR_snoc in Hx. destruct Hx as [<-|Hx]; [exact Ck|].
          apply in_app_or in Hx. destruct Hx as [Hx|Hx]; [|apply HR; exact Hx].
          apply (lt_trans _ k); [exact Ck|apply Ckr; exact Hx]. }
        exists sd, l', k', v', r', Lf', Rf'. split; [exact E|].
        split; [|auto]. rewrite Fl, flatR_snoc. flat_eq.
      * (* key < lk: rotate *)
        destruct ll as [|lll llk llv llr].
        -- exists Left, Nil, lk, lv, (Node lr k v r), Lf, Rf.
           split; [reflexivity|]. split; [|repeat split; auto].
           flat_eq.
        -- destruct (IH (Node lll llk llv llr) Lf (Rf ++ [(lk, lv, Node lr k v r)]))
             as (sd & l' & k' & v' & r' & Lf' & Rf' & E & Fl & BL & AR & St).
           { simpl in *. lia. }
           { discriminate. }
           { exact Sll. }
           { exact HL. }
           { intros x Hx. rewrite flatR_snoc in Hx. destruct Hx as [<-|Hx]; [exact Cl|].
             apply in_app_or in Hx. destruct Hx as [Hx|Hx]; [|apply HR; exact Hx].
             cbn [inorder] in Hx. apply in_app_or in Hx.
             destruct Hx as [Hx|[<-|Hx]].
             - apply (lt_trans _ lk); [exact Cl|apply Clr; exact Hx].
             - exact Ck.
             - apply (lt_trans _ k); [exact Ck|apply Ckr; exact Hx]. }
           exists sd, l', k', v', r', Lf', Rf'. split; [exact E|].
           split; [|auto]. rewrite Fl, flatR_snoc. flat_eq.
      * (* key > lk *)
        destruct (IH (Node ll lk lv lr) Lf (Rf ++ [(k, v, r)]))
          as (sd & l' & k' & v' & r' & Lf' & Rf' & E & Fl & BL & AR & St).
        { simpl in *. lia. }
        { discriminate. }
        { cbn [inorder]. apply sorted_app. split; [exact Sll|]. split.
          - apply sorted_cons. split; assumption.
          - exact Cll. }
        { exact HL. }
        { intros x Hx. rewrite flatR_snoc in Hx. destruct Hx as [<-|Hx]; [exact Ck|].
          apply in_app_or in Hx. destruct Hx as [Hx|Hx]; [|apply HR; exact Hx].
          apply (lt_trans _ k); [exact Ck|apply Ckr; exact Hx]. }
        exists sd, l', k', v', r', Lf', Rf'. split; [exact E|].
        split; [|auto]. rewrite Fl, flatR_snoc. flat_eq.
  - (* key > k *)
    apply gt_lt in Ck.
    destruct r as [|rl rk rv rr].
    + exists Right, l, k, v, Nil, Lf, Rf. repeat split; auto.
    + cbn [inorder] in Sr, Ckr. apply sorted_app in Sr. destruct Sr as (Srl & Srr & Crl).
      apply sorted_cons in Srr. destruct Srr as [Srr Crr].
      assert (Hrk : lt k rk) by (apply (Ckr (rk, rv)); apply in_elt).
      assert (Stay : below key (flatL (Lf ++ [(l, k, v)]))).
      { intros x Hx. rewrite flatL_snoc in Hx.
        apply in_app_or in Hx. destruct Hx as [Hx|Hx]; [apply HL; exact Hx|].
        apply in_app_or in Hx. destruct Hx as [Hx|[<-|[]]]; [|exact Ck].
        apply (lt_trans _ k); [|exact Ck].
        apply (Clk x (k, v)); [exact Hx|left; reflexivity]. }
      assert (Sub : sorted (inorder (Node rl rk rv rr))).
      { cbn [inorder]. apply sorted_app. split; [exact Srl|]. split.
        - apply sorted_cons. split; assumption.
        - exact Crl. }
      destruct (strcmp key rk) eqn:Cr.
      * destruct (IH (Node rl rk rv rr) (Lf ++ [(l, k, v)]) Rf)
          as (sd & l' & k' & v' & r' & Lf' & Rf' & E & Fl & BL & AR & St);
          [simpl in *; lia|discriminate|exact Sub|exact Stay|exact HR|].
        exists sd, l', k', v', r', Lf', Rf'. split; [exact E|].
        split; [|auto]. rewrite Fl, flatL_snoc. flat_eq.
      * destruct (IH (Node rl rk rv rr) (Lf ++ [(l, k, v)]) Rf)
          as (sd & l' & k' & v' & r' & Lf' & Rf' & E & Fl & BL & AR & St);
          [simpl in *; lia|discriminate|exact Sub|exact Stay|exact HR|].
        exists sd, l', k', v', r', Lf', Rf'. split; [exact E|].
        split; [|auto]. rewrite Fl, flatL_snoc. flat_eq.
      * (* key > rk: rotate *)
        apply gt_lt in Cr.
        destruct rr as [|rrl rrk rrv rrr].
        -- exists Right, (Node l k v rl), rk, rv, Nil, Lf, Rf.
           split; [reflexivity|]. split; [|repeat split; auto].
           flat_eq.
        -- destruct (IH (Node rrl rrk rrv rrr) (Lf ++ [(Node l k v rl, rk, rv)]) Rf)
             as (sd & l' & k' & v' & r' & Lf' & Rf' & E & Fl & BL & AR & St).
           { simpl in *. lia. }
           { discriminate. }
           { exact Srr. }
           { intros x Hx. rewrite flatL_snoc in Hx.
             apply in_app_or in Hx. destruct Hx as [Hx|Hx]; [apply HL; exact Hx|].
             apply in_app_or in Hx. destruct Hx as [Hx|[<-|[]]]; [|exact Cr].
             cbn [inorder] in Hx. apply in_app_or in Hx.
             destruct Hx as [Hx|[<-|Hx]].
             - apply (lt_trans _ k); [|exact Ck].
               apply (Clk x (k, v)); [exact Hx|left; reflexivity].
             - exact Ck.
             - apply (lt_trans _ rk); [|exact Cr].
               apply (Crl x (rk, rv)); [exact Hx|left; reflexivity]. }
           { exact HR. }
           exists sd, l', k', v', r', Lf', Rf'. split; [exact E|].
           split; [|auto]. rewrite Fl, flatL_snoc. flat_eq.
Qed.

(** [voc_splay] keeps the keys and their order; the key searched is at
    the root, or the root is its neighbour on the side returned. *)
Lemma voc_splay_spec t key :
  t <> Nil -> sorted (inorder t) ->
  exists side l k v r,
    voc_splay t key = Some (side, Node l k v r) /\
    inorder l ++ (k, v) :: inorder r = inorder t /\
    match side with
    | Found => k = key
    | Left => lt key k /\ below key (inorder l)
    | Right => lt k key /\ above key (inorder r)
    end.
Proof.
  intros Hne Hs.
  destruct (splay_loop_spec key (nodes t) t [] [] (Nat.le_refl _) Hne Hs)
    as (sd & l & k & v & r & Lf & Rf & E & Fl & BL & AR & St);
    [intros x []|intros x []|].
  unfold voc_splay. rewrite E.
  exists sd, (asm_left Lf l), k, v, (asm_right Rf r). split; [reflexivity|].
  simpl in Fl. rewrite app_nil_r in Fl.
  split.
  - rewrite inorder_asm_left, inorder_asm_right, <- Fl. flat_eq.
  - destruct sd; simpl in St.
    + exact St.
    + destruct St as [St ->]. split; [exact St|].
      rewrite inorder_asm_left. simpl. rewrite app_nil_r. exact BL.
    + destruct St as [St ->]. split; [exact St|].
      rewrite inorder_asm_right. exact AR.
Qed.

(** *** The identifiers *)

(** The vocabulary holds the keys [ks], numbered in this order. *)
Definition voc_ok (voc : voc_t) (ks : list string) : Prop :=
  count voc = length ks /\ vect voc = ks /\
  sorted (inorder (tree voc)) /\
  (forall k i, In (k, i) (inorder (tree voc)) <-> nth_error ks i = Some k) /\
  NoDup ks.

Lemma voc_find_some ks key : forall i0 i,
  Dat.voc_find ks key i0 = Some i ->
  exists j, i = (i0 + j)%nat /\ nth_error ks j = Some key.
Proof.
  induction ks as [|k ks IH]; intros i0 i H; simpl in H; [discriminate|].
  destruct (String.eqb_spec k key) as [->|Hne].
  - injection H as <-. exists 0%nat. split; [lia|reflexivity].
  - destruct (IH _ _ H) as (j & -> & Hj). exists (S j). split; [lia|exact Hj].
Qed.

Lemma voc_find_none ks key : forall i0,
  Dat.voc_find ks key i0 = None -> ~ In key ks.
Proof.
  induction ks as [|k ks IH]; intros i0 H; simpl in H; [intros []|].
  destruct (String.eqb_spec k key) as [->|Hne]; [discriminate|].
  intros [X|X]; [contradiction|]. exact (IH _ H X).
Qed.

Lemma voc_find_in ks key : forall i0,
  In key ks -> exists i, Dat.voc_find ks key i0 = Some i.
Proof.
  intros i0 H. destruct (Dat.voc_find ks key i0) as [i|] eqn:E; [exists i; reflexivity|].
  exfalso. exact (voc_find_none _ _ _ E H).
Qed.

Lemma inorder_nil t : inorder t = [] -> t = Nil.
Proof.
  destruct t as [|l k v r]; [reflexivity|]. simpl. intros H.
  destruct (inorder l); discriminate.
Qed.

Lemma voc_ok_new : voc_ok voc_new [].
Proof.
  unfold voc_ok. simpl. repeat split; try constructor.
  - intros [].
  - destruct i; discriminate.
Qed.

(** One call on a vocabulary that holds [ks]: the identifier is the
    one that the list of the keys gives, and the list is kept. *)
Lemma voc_str2id_step voc ks key :
  voc_ok voc ks ->
  exists voc',
    voc_str2id voc key = Some (fst (Dat.voc_str2id ks key), voc') /\
    voc_ok voc' (snd (Dat.voc_str2id ks key)).
Proof.
  intros (Hc & Hv & Hs & Hi & ND). unfold voc_str2id, Dat.voc_str2id.
  destruct (Nat.eqb_spec (count voc) 0) as [C0|C0].
  - assert (Ek : ks = []) by (destruct ks; [reflexivity|simpl in Hc; lia]).
    rewrite Ek in *. clear Ek.
    simpl. eexists. split; [reflexivity|].
    unfold voc_ok. simpl. rewrite Hv. simpl.
    split; [reflexivity|]. split; [reflexivity|].
    split; [repeat constructor|]. split.
    + intros k i. split.
      * intros [X|[]]. injection X as <- <-. reflexivity.
      * destruct i as [|[|i]]; simpl; intros X; try discriminate.
        injection X as <-. left. reflexivity.
    + constructor; [intros []|constructor].
  - assert (Hne : tree voc <> Nil).
    { intros E. destruct ks as [|k0 ks]; [simpl in Hc; lia|].
      pose proof (proj2 (Hi k0 0%nat) eq_refl) as X. rewrite E in X. destruct X. }
    destruct (voc_splay_spec (tree voc) key Hne Hs)
      as (sd & l & k & v & r & E & Fl & St).
    rewrite E.
    assert (Srt : sorted (inorder l ++ (k, v) :: inorder r)) by (rewrite Fl; exact Hs).
    pose proof Srt as Srt'. apply sorted_app in Srt'. destruct Srt' as (Sl & Skr & Clk).
    apply sorted_cons in Skr. destruct Skr as [Sr Ckr].
    assert (Absent : (forall x, In x (inorder l ++ (k, v) :: inorder r) ->
                                fst x <> key) ->
                     Dat.voc_find ks key 0 = None).
    { intros H. destruct (Dat.voc_find ks key 0) as [i|] eqn:Ef; [|reflexivity].
      exfalso. destruct (voc_find_some _ _ _ _ Ef) as (j & _ & Hj).
      apply Hi in Hj. rewrite <- Fl in Hj. exact (H _ Hj eq_refl). }
    assert (Fresh : forall k' i, In (k', i) (inorder (tree voc)) -> (i < length ks)%nat).
    { intros k' i H. apply Hi in H. apply nth_error_Some. congruence. }
    assert (Grow : forall (nd : vnd_t),
              sorted (inorder nd) ->
              (forall x, In x (inorder nd) <->
                         x = (key, count voc) \/ In x (inorder (tree voc))) ->
              ~ In key ks ->
              voc_ok (mk_voc nd (set_vect (vect voc) (count voc) key) (S (count voc))
                        (if (count voc =? size voc)%nat then (size voc * 2)%nat
                         else size voc))
                     (ks ++ [key])).
    { intros nd Sn In_nd Hnew. unfold voc_ok. simpl.
      split; [rewrite length_app; simpl; lia|].
      split; [unfold set_vect; rewrite Hv, Hc, firstn_all; reflexivity|].
      split; [exact Sn|]. split.
      - intros k' i. rewrite In_nd, Hi. split.
        + intros [X|X].
          * injection X as -> ->. rewrite Hc, nth_error_app2 by lia.
            rewrite Nat.sub_diag. reflexivity.
          * rewrite nth_error_app1; [exact X|]. apply nth_error_Some. congruence.
        + intros X. destruct (Nat.lt_ge_cases i (length ks)) as [Hl|Hl].
          * right. rewrite nth_error_app1 in X by exact Hl. exact X.
          * left. rewrite nth_error_app2 in X by exact Hl.
            destruct (i - length ks)%nat as [|d] eqn:Ed; simpl in X;
              [|destruct d; discriminate].
            injection X as <-. f_equal. lia.
      - apply NoDup_app; [exact ND|repeat constructor; intros []|].
        intros a Ha [<-|[]]. exact (Hnew Ha). }
    destruct sd.
    + (* the key is at the root *)
      subst k. simpl root_value.
      assert (Hin : nth_error ks v = Some key).
      { apply Hi. rewrite <- Fl. apply in_elt. }
      destruct (voc_find_in ks key 0) as [i Ef].
      { apply nth_error_In with v. exact Hin. }
      rewrite Ef. simpl.
      destruct (voc_find_some _ _ _ _ Ef) as (j & -> & Hj).
      assert (j = v).
      { apply (proj1 (NoDup_nth_error ks) ND); [|congruence].
        apply nth_error_Some. congruence. }
      subst j. eexists. split; [reflexivity|].
      unfold voc_ok. simpl. rewrite Fl. repeat split; auto; apply Hi.
    + destruct St as [Hlt Hb].
      assert (Hnew : Dat.voc_find ks key 0 = None).
      { apply Absent. intros x Hx Ex. apply in_app_or in Hx.
        destruct Hx as [Hx|[<-|Hx]].
        - apply Hb in Hx. rewrite Ex in Hx. exact (lt_irrefl _ Hx).
        - simpl in Ex. subst k. exact (lt_irrefl _ Hlt).
        - apply Ckr in Hx. simpl in Hx. rewrite Ex in Hx.
          exact (lt_irrefl _ (lt_trans _ _ _ Hlt Hx)). }
      rewrite Hnew. simpl. rewrite <- Hc. eexists. split; [reflexivity|].
      apply Grow.
      * cbn [inorder]. apply sorted_app. split; [exact Sl|]. split.
        -- apply sorted_cons. split.
           ++ simpl. apply sorted_cons. split; [exact Sr|exact Ckr].
           ++ intros y [<-|Hy]; [exact Hlt|].
              apply (lt_trans _ k); [exact Hlt|apply Ckr; exact Hy].
        -- intros x y Hx [<-|Hy]; [apply Hb; exact Hx|].
           apply (lt_trans _ key); [apply Hb; exact Hx|].
           destruct Hy as [<-|Hy]; [exact Hlt|].
           apply (lt_trans _ k); [exact Hlt|apply Ckr; exact Hy].
      * intros x. rewrite <- Fl. cbn [inorder]. rewrite ?in_app_iff. simpl.
        rewrite ?in_app_iff. simpl. intuition congruence.
      * apply (voc_find_none _ _ 0%nat). exact Hnew.
    + destruct St as [Hlt Ha].
      assert (Hnew : Dat.voc_find ks key 0 = None).
      { apply Absent. intros x Hx Ex. apply in_app_or in Hx.
        destruct Hx as [Hx|[<-|Hx]].
        - apply (Clk x (k, v)) in Hx; [|left; reflexivity]. simpl in Hx.
          rewrite Ex in Hx. exact (lt_irrefl _ (lt_trans _ _ _ Hx Hlt)).
        - simpl in Ex. subst k. exact (lt_irrefl _ Hlt).
        - apply Ha in Hx. rewrite Ex in Hx. exact (lt_irrefl _ Hx). }
      rewrite Hnew. simpl. rewrite <- Hc. eexists. split; [reflexivity|].
      apply Grow.
      * cbn [inorder].
        replace ((inorder l ++ [(k, v)]) ++ (key, count voc) :: inorder r)
          with (inorder l ++ (k, v) :: (key, count voc) :: inorder r)
          by (rewrite <- app_assoc; reflexivity).
        apply sorted_app. split; [exact Sl|]. split.
        -- apply sorted_cons. split.
           ++ apply sorted_cons. split; [exact Sr|exact Ha].
           ++ intros y [<-|Hy]; [exact Hlt|apply Ckr; exact Hy].
        -- intros x y Hx [<-|[<-|Hy]].
           ++ apply (Clk x (k, v)); [exact Hx|left; reflexivity].
           ++ apply (lt_trans _ k); [|exact Hlt].
              apply (Clk x (k, v)); [exact Hx|left; reflexivity].
           ++ apply (Clk x y); [exact Hx|right; exact Hy].
      * intros x. rewrite <- Fl. cbn [inorder]. rewrite ?in_app_iff. simpl.
        rewrite ?in_app_iff. simpl. intuition congruence.
      * apply (voc_find_none _ _ 0%nat). exact Hnew.
Qed.

(** The identifiers that successive calls return. *)
Fixpoint voc_ids (voc : voc_t) (keys : list string) : option (list nat) :=
  match keys with
  | [] => Some []
  | k :: rest =>
      match voc_str2id voc k with
      | None => None
      | Some (id, voc') => option_map (cons id) (voc_ids voc' rest)
      end
  end.

(** The same on the list of the keys met so far. *)
Fixpoint rank_ids (ks : list string) (keys : list string) : list nat :=
  match keys with
  | [] => []
  | k :: rest =>
      fst (Dat.voc_str2id ks k) :: rank_ids (snd (Dat.voc_str2id ks k)) rest
  end.

Lemma voc_ids_rank keys : forall voc ks,
  voc_ok voc ks -> voc_ids voc keys = Some (rank_ids ks keys).
Proof.
  induction keys as [|k keys IH]; intros voc ks H; [reflexivity|].
  simpl. destruct (voc_str2id_step voc ks k H) as (voc' & E & H').
  rewrite E, (IH _ _ H'). reflexivity.
Qed.

Lemma list_str2id ks k :
  NoDup ks ->
  NoDup (snd (Dat.voc_str2id ks k)) /\
  (exists ext, snd (Dat.voc_str2id ks k) = ks ++ ext) /\
  nth_error (snd (Dat.voc_str2id ks k)) (fst (Dat.voc_str2id ks k)) = Some k.
Proof.
  intros ND. unfold Dat.voc_str2id.
  destruct (Dat.voc_find ks k 0) as [i|] eqn:E; simpl.
  - split; [exact ND|]. split; [exists []; rewrite app_nil_r; reflexivity|].
    destruct (voc_find_some _ _ _ _ E) as (j & -> & Hj). exact Hj.
  - split; [|split].
    + apply NoDup_app; [exact ND|repeat constructor; intros []|].
      intros a Ha [<-|[]]. exact (voc_find_none _ _ _ E Ha).
    + exists [k]. reflexivity.
    + rewrite nth_error_app2 by lia. rewrite Nat.sub_diag. reflexivity.
Qed.

(** Every identifier given names its key in the final list of keys. *)
Lemma rank_ids_spec keys : forall ks,
  NoDup ks ->
  exists ext,
    NoDup (ks ++ ext) /\
    forall p, (p < length keys)%nat ->
      nth_error (ks ++ ext) (nth p (rank_ids ks keys) 0%nat) =
      Some (nth p keys EmptyString).
Proof.
  induction keys as [|k keys IH]; intros ks ND.
  - exists []. rewrite app_nil_r. split; [exact ND|]. simpl. intros p Hp. lia.
  - destruct (list_str2id ks k ND) as (ND1 & (e1 & E1) & H1).
    destruct (IH _ ND1) as (e2 & ND2 & H2).
    rewrite E1 in ND2, H2. rewrite <- app_assoc in ND2, H2.
    exists (e1 ++ e2). split; [exact ND2|].
    intros [|p] Hp; cbn [rank_ids nth].
    + rewrite app_assoc, nth_error_app1.
      * rewrite <- E1. exact H1.
      * rewrite <- E1. apply nth_error_Some. congruence.
    + rewrite E1. apply H2. simpl in Hp. lia.
Qed.

(** X21. The splay tree numbers the keys by first appearance: from an
    empty vocabulary, successive calls of [voc_str2id] never fail and
    return the identifiers that the list of the keys met so far gives
    (the position of the key in that list, the key being appended when
    it is new); two calls return the same identifier exactly when they
    were given the same key. *)
Theorem voc_str2id_first_appearance keys :
  voc_ids voc_new keys = Some (rank_ids [] keys) /\
  (forall p q, (p < length keys)%nat -> (q < length keys)%nat ->
     (nth p (rank_ids [] keys) 0%nat = nth q (rank_ids [] keys) 0%nat <->
      nth p keys EmptyString = nth q keys EmptyString)).
Proof.
  split; [apply voc_ids_rank; exact voc_ok_new|].
  intros p q Hp Hq.
  destruct (rank_ids_spec keys [] (NoDup_nil _)) as (ext & ND & H).
  pose proof (H p Hp) as Ep. pose proof (H q Hq) as Eq.
  split.
  - intros E. rewrite E in Ep. congruence.
  - intros E. apply (proj1 (NoDup_nth_error _) ND).
    + apply nth_error_Some. congruence.
    + congruence.
Qed.

End Voc.

(** ** Passes over the arcs in a given order *)

Module Pass.
Import Fst.

(** The loops of [grd_fwdbwd] and [dec_forward] read
    [for (io = 0, o = ord[0]; io < A; o = ord[++io])]: they visit
    [ord[0]], ..., [ord[A-1]]. *)
Definition visit (A : nat) (ord : list nat) : list nat :=
  map (fun io => nth io ord 0%nat) (seq 0 A).

Section Body.

(** [body arcs o] is the arc [o] as one pass of the loop leaves it. *)
Variable body : list arc_t -> nat -> arc_t.

Definition step (al : list arc_t) (o : nat) : list arc_t :=
  upd al o (body al o).

Definition run (ord : list nat) (al : list arc_t) : list arc_t :=
  fold_left step ord al.

Lemma step_length al o : length (step al o) = length al.
Proof. apply upd_length. Qed.

Lemma run_length ord : forall al, length (run ord al) = length al.
Proof.
  induction ord as [|o ord IH]; intros al; simpl; auto.
  unfold run in *. simpl. rewrite IH. apply step_length.
Qed.

Lemma run_app pre post al : run (pre ++ post) al = run post (run pre al).
Proof. unfold run. apply fold_left_app. Qed.

Lemma run_nth_notin ord : forall al o d,
  ~ In o ord -> nth o (run ord al) d = nth o al d.
Proof.
  induction ord as [|a ord IH]; intros al o d H; auto.
  change (run (a :: ord) al) with (run ord (step al a)).
  rewrite IH by (simpl in H; tauto).
  apply nth_upd_other. simpl in H. intro; subst; tauto.
Qed.

(** The value written for [o] is the one the array keeps. *)
Lemma run_nth_visited pre o post al :
  ~ In o post -> (o < length al)%nat ->
  nth o (run (pre ++ o :: post) al) arc0 = body (run pre al) o.
Proof.
  intros Hpost Hlen. rewrite run_app.
  change (run (o :: post) (run pre al)) with (run post (step (run pre al) o)).
  rewrite run_nth_notin by assumption.
  apply nth_upd_same. rewrite run_length. exact Hlen.
Qed.

(** An arc visited earlier already holds its last value. *)
Lemma run_nth_earlier pre o post al o' :
  ~ In o' (o :: post) ->
  nth o' (run (pre ++ o :: post) al) arc0 = nth o' (run pre al) arc0.
Proof.
  intros H. rewrite run_app. apply run_nth_notin. exact H.
Qed.

End Body.

(** The fields of an arc that the passes only read. *)
Definition static (a : arc_t) : nat * nat * string * string * Q :=
  (src a, trg a, ilbl a, olbl a, psi a).

(** A field that no pass changes has the value it had at the start. *)
Lemma run_keeps {T : Type} (proj : arc_t -> T) body :
  (forall al o, proj (body al o) = proj (nth o al arc0)) ->
  forall ord al o, proj (nth o (run body ord al) arc0) = proj (nth o al arc0).
Proof.
  intros Hb ord. induction ord as [|a ord IH]; intros al o; auto.
  change (run body (a :: ord) al) with (run body ord (step body al a)).
  rewrite IH. unfold step.
  destruct (Nat.eq_dec a o) as [->|Hne].
  - destruct (Nat.lt_ge_cases o (length al)) as [Hlt|Hge].
    + rewrite nth_upd_same by assumption. apply Hb.
    + rewrite !nth_overflow; auto. rewrite upd_length. exact Hge.
  - rewrite nth_upd_other by assumption. reflexivity.
Qed.

Lemma run_static body :
  (forall al o, static (body al o) = static (nth o al arc0)) ->
  forall ord al o, static (nth o (run body ord al) arc0) = static (nth o al arc0).
Proof. apply run_keeps. Qed.

Lemma visit_full ord : visit (length ord) ord = ord.
Proof.
  unfold visit. apply nth_ext with (d := 0%nat) (d' := 0%nat).
  - rewrite length_map, length_seq. reflexivity.
  - intros n Hn. rewrite length_map, length_seq in Hn.
    rewrite (nth_indep _ 0%nat (nth 0 ord 0%nat)) by (rewrite length_map, length_seq; exact Hn).
    rewrite map_nth with (f := fun io => nth io ord 0%nat) (d := 0%nat).
    rewrite seq_nth by assumption. reflexivity.
Qed.

Definition with_arcs (f : fst_t) (al : list arc_t) : fst_t :=
  mk_fst (mult f) (nstates f) (final f) al (states f) (s2t f) (t2s f).

(** [for (no = 0; no < st->ocnt; no++) if (st->olst[no] == o) break;] *)
Fixpoint find_pos (o : nat) (l : list nat) : nat :=
  match l with
  | [] => 0%nat
  | a :: rest => if (a =? o)%nat then 0%nat else S (find_pos o rest)
  end.

(** [st->psi[ni][no]] *)
Definition spsi_at (st : state_t) (ni no : nat) : Q :=
  nth no (nth ni (spsi st) []) 0.

Definition set_alpha (a : arc_t) (v : Q) : arc_t :=
  mk_arc (src a) (trg a) (ilbl a) (olbl a) (psi a) v (beta a) (eback a).
Definition set_beta (a : arc_t) (v : Q) : arc_t :=
  mk_arc (src a) (trg a) (ilbl a) (olbl a) (psi a) (alpha a) v (eback a).
Definition set_best (a : arc_t) (v : Q) (e : nat) : arc_t :=
  mk_arc (src a) (trg a) (ilbl a) (olbl a) (psi a) v (beta a) e.

End Pass.

(** ** Well-formed lattices *)

Module Valid.
Import Fst Pass.

Definition list_eqb (l1 l2 : list nat) : bool :=
  if list_eq_dec Nat.eq_dec l1 l2 then true else false.

Definition is_nil (l : list nat) : bool :=
  match l with [] => true | _ => false end.

(** The arcs into and out of a state, by increasing index: the lists
    that [fst_addstates] builds. *)
Definition in_arcs (f : fst_t) (s : nat) : list nat :=
  filter (fun a => (trg (get_arc f a) =? s)%nat) (seq 0 (narcs f)).
Definition out_arcs (f : fst_t) (s : nat) : list nat :=
  filter (fun a => (src (get_arc f a) =? s)%nat) (seq 0 (narcs f)).

Definition adj_ok (f : fst_t) : bool :=
  ((length (states f) =? nstates f)%nat &&
   forallb (fun a => (src a <? nstates f)%nat && (trg a <? nstates f)%nat) (arcs f) &&
   forallb (fun s => list_eqb (ilst (get_state f s)) (in_arcs f s) &&
                     list_eqb (olst (get_state f s)) (out_arcs f s))
     (seq 0 (nstates f)))%bool.

(** State 0 is the one state without in-arcs. *)
Definition source0 (f : fst_t) : bool :=
  (is_nil (ilst (get_state f 0)) &&
   forallb (fun s => negb (is_nil (ilst (get_state f s))))
     (seq 1 (nstates f - 1)))%bool.

(** A lattice as the decoder expects it: adjacency lists in step with
    the arcs, arcs in forward topological order, state 0 the only
    source, and a final state other than it. *)
Definition lattice_ok (f : fst_t) : bool :=
  (adj_ok f && fwd_sorted f (s2t f) && source0 f &&
   (0 <? final f)%nat && (final f <? nstates f)%nat)%bool.

Lemma list_eqb_eq l1 l2 : list_eqb l1 l2 = true -> l1 = l2.
Proof. unfold list_eqb. destruct list_eq_dec; congruence. Qed.

Section Facts.
Variable f : fst_t.
Hypothesis Hadj : adj_ok f = true.

Lemma adj_parts :
  length (states f) = nstates f /\
  (forall e, (e < narcs f)%nat ->
     (src (get_arc f e) < nstates f)%nat /\ (trg (get_arc f e) < nstates f)%nat) /\
  (forall s, (s < nstates f)%nat ->
     ilst (get_state f s) = in_arcs f s /\ olst (get_state f s) = out_arcs f s).
Proof.
  unfold adj_ok in Hadj. rewrite !andb_true_iff in Hadj.
  destruct Hadj as [[H1 H2] H3].
  apply Nat.eqb_eq in H1. rewrite forallb_forall in H2, H3.
  split; [exact H1|]. split.
  - intros e He. unfold get_arc.
    specialize (H2 (nth e (arcs f) arc0) (nth_In _ _ He)).
    rewrite andb_true_iff, !Nat.ltb_lt in H2. exact H2.
  - intros s Hs. specialize (H3 s). rewrite in_seq in H3.
    specialize (H3 ltac:(lia)). rewrite andb_true_iff in H3.
    destruct H3 as [A B]. split; apply list_eqb_eq; assumption.
Qed.

Lemma ilst_state s :
  ilst (get_state f s) = if (s <? nstates f)%nat then in_arcs f s else [].
Proof.
  destruct adj_parts as (L & _ & H).
  destruct (s <? nstates f)%nat eqn:E.
  - apply Nat.ltb_lt in E. apply H. exact E.
  - apply Nat.ltb_ge in E. unfold get_state.
    rewrite nth_overflow by lia. reflexivity.
Qed.

Lemma olst_state s :
  olst (get_state f s) = if (s <? nstates f)%nat then out_arcs f s else [].
Proof.
  destruct adj_parts as (L & _ & H).
  destruct (s <? nstates f)%nat eqn:E.
  - apply Nat.ltb_lt in E. apply H. exact E.
  - apply Nat.ltb_ge in E. unfold get_state.
    rewrite nth_overflow by lia. reflexivity.
Qed.

Lemma in_ilst s e :
  In e (ilst (get_state f s)) <-> (e < narcs f)%nat /\ trg (get_arc f e) = s.
Proof.
  rewrite ilst_state. destruct adj_parts as (_ & B & _).
  destruct (s <? nstates f)%nat eqn:E.
  - unfold in_arcs. rewrite filter_In, in_seq, Nat.eqb_eq. intuition lia.
  - apply Nat.ltb_ge in E. split; [intros []|].
    intros [He Ht]. specialize (B e He). lia.
Qed.

Lemma in_olst s e :
  In e (olst (get_state f s)) <-> (e < narcs f)%nat /\ src (get_arc f e) = s.
Proof.
  rewrite olst_state. destruct adj_parts as (_ & B & _).
  destruct (s <? nstates f)%nat eqn:E.
  - unfold out_arcs. rewrite filter_In, in_seq, Nat.eqb_eq. intuition lia.
  - apply Nat.ltb_ge in E. split; [intros []|].
    intros [He Ht]. specialize (B e He). lia.
Qed.

Lemma ilst_nodup s : NoDup (ilst (get_state f s)).
Proof.
  rewrite ilst_state. destruct (s <? nstates f)%nat; [|constructor].
  apply NoDup_filter, seq_NoDup.
Qed.

Lemma olst_nodup s : NoDup (olst (get_state f s)).
Proof.
  rewrite olst_state. destruct (s <? nstates f)%nat; [|constructor].
  apply NoDup_filter, seq_NoDup.
Qed.

End Facts.

Lemma find_pos_nth l : forall ni,
  NoDup l -> (ni < length l)%nat -> find_pos (nth ni l 0%nat) l = ni.
Proof.
  induction l as [|a l IH]; intros ni ND Hni; simpl in *; [lia|].
  inversion ND as [|? ? Hnotin ND']; subst.
  destruct ni as [|ni].
  - rewrite Nat.eqb_refl. reflexivity.
  - destruct (a =? nth ni l 0)%nat eqn:E.
    + apply Nat.eqb_eq in E. exfalso. apply Hnotin. rewrite E.
      apply nth_In. lia.
    + f_equal. apply IH; auto. lia.
Qed.

Lemma find_pos_in l o : In o l -> (find_pos o l < length l)%nat /\ nth (find_pos o l) l 0%nat = o.
Proof.
  induction l as [|a l IH]; intros H; simpl in *; [tauto|].
  destruct (a =? o)%nat eqn:E.
  - apply Nat.eqb_eq in E. split; [lia|exact E].
  - destruct H as [H|H]; [apply Nat.eqb_neq in E; contradiction|].
    destruct (IH H). split; [lia|assumption].
Qed.

(** *** Orders *)

Lemma index_of_split a l p :
  index_of a l = Some p ->
  exists pre post, l = pre ++ a :: post /\ length pre = p /\ ~ In a pre.
Proof.
  revert p. induction l as [|b l IH]; intros p H; simpl in H; [discriminate|].
  destruct (a =? b)%nat eqn:E.
  - apply Nat.eqb_eq in E. subst b. injection H as <-.
    exists [], l. simpl. auto.
  - destruct (index_of a l) as [q|]; [|discriminate]. simpl in H.
    injection H as <-. destruct (IH q eq_refl) as (pre & post & -> & L & N).
    exists (b :: pre), post. simpl. split; [reflexivity|]. split; [lia|].
    apply Nat.eqb_neq in E. intros [C|C]; [congruence|contradiction].
Qed.

Lemma index_of_nth a l p :
  index_of a l = Some p -> (p < length l)%nat /\ nth p l 0%nat = a.
Proof.
  intros H. destruct (index_of_split _ _ _ H) as (pre & post & -> & L & _).
  subst p. split.
  - rewrite length_app. simpl. lia.
  - apply nth_middle.
Qed.

Lemma before_split ord i e :
  before ord i e = true ->
  exists pre post, ord = pre ++ e :: post /\ In i pre /\ ~ In e pre.
Proof.
  intros H. unfold before in H.
  destruct (index_of i ord) as [p|] eqn:Ei; [|discriminate].
  destruct (index_of e ord) as [q|] eqn:Ee; [|discriminate].
  apply Nat.ltb_lt in H.
  destruct (index_of_split _ _ _ Ee) as (pre & post & -> & L & N).
  exists pre, post. split; [reflexivity|]. split; [|exact N].
  destruct (index_of_nth _ _ _ Ei) as [_ Hp].
  rewrite app_nth1 in Hp by lia.
  rewrite <- Hp. apply nth_In. lia.
Qed.

Lemma split_unique (e : nat) pre : forall post pre' post',
  pre ++ e :: post = pre' ++ e :: post' -> ~ In e pre -> ~ In e pre' -> pre = pre'.
Proof.
  induction pre as [|a pre IH]; intros post pre' post' E N N'.
  - destruct pre' as [|b pre']; [reflexivity|].
    simpl in E. injection E as <- _. exfalso. apply N'. left. reflexivity.
  - destruct pre' as [|b pre'].
    + simpl in E. injection E as -> _. exfalso. apply N. left. reflexivity.
    + simpl in E. injection E as <- E. f_equal.
      apply (IH post pre' post' E); intro; [apply N|apply N']; right; assumption.
Qed.

Lemma before_in_pre ord pre e post i :
  ord = pre ++ e :: post -> ~ In e pre -> before ord i e = true -> In i pre.
Proof.
  intros E N H. destruct (before_split _ _ _ H) as (pre' & post' & E' & Hi & N').
  rewrite E in E'. rewrite (split_unique _ _ _ _ _ E' N N'). exact Hi.
Qed.

(** An order that lists every arc once has no repetition. *)
Lemma arc_perm_nodup f ord :
  arc_perm f ord = true ->
  length ord = narcs f /\ NoDup ord /\ (forall e, In e ord <-> (e < narcs f)%nat).
Proof.
  unfold arc_perm. rewrite andb_true_iff, Nat.eqb_eq, forallb_forall.
  intros [L H].
  assert (Incl : incl (seq 0 (narcs f)) ord).
  { intros e He. specialize (H e He). apply existsb_exists in H.
    destruct H as (x & Hx & E). apply Nat.eqb_eq in E. subst. exact Hx. }
  assert (ND : NoDup ord).
  { apply NoDup_incl_NoDup with (l := seq 0 (narcs f)).
    - apply seq_NoDup.
    - rewrite length_seq. lia.
    - exact Incl. }
  split; [exact L|]. split; [exact ND|].
  intros e. split.
  - intros He.
    assert (I2 : incl ord (seq 0 (narcs f))).
    { apply NoDup_length_incl; [apply seq_NoDup| rewrite length_seq; lia | exact Incl]. }
    apply I2 in He. apply in_seq in He. lia.
  - intros He. apply Incl. apply in_seq. lia.
Qed.

(** Induction along an order: a property that holds of an element as
    soon as it holds of those before it holds of all. *)
Lemma order_ind (P : nat -> Prop) ord :
  (forall pre e post, ord = pre ++ e :: post ->
     (forall i, In i pre -> P i) -> P e) ->
  forall e, In e ord -> P e.
Proof.
  intros Hstep.
  assert (K : forall pre post, ord = pre ++ post -> forall i, In i pre -> P i).
  { intros pre. induction pre as [|e pre IH] using rev_ind; intros post E i Hi.
    - destruct Hi.
    - rewrite <- app_assoc in E. simpl in E.
      apply in_app_or in Hi. destruct Hi as [Hi|[<-|[]]].
      + eapply IH; eauto.
      + eapply Hstep; eauto. }
  intros e He. apply (K ord [] (eq_sym (app_nil_r ord)) e He).
Qed.

(** *** A pass in forward topological order *)

Section SortedPass.
Variable f : fst_t.
Variable body : list arc_t -> nat -> arc_t.
Hypothesis Hstatic : forall al o, static (body al o) = static (nth o al arc0).
Hypothesis Hsorted : fwd_sorted f (s2t f) = true.

Let fin := run body (visit (narcs f) (s2t f)) (arcs f).

Lemma sorted_parts :
  length (s2t f) = narcs f /\ NoDup (s2t f) /\
  (forall e, In e (s2t f) <-> (e < narcs f)%nat) /\
  (forall e i, (e < narcs f)%nat ->
     In i (ilst (get_state f (src (get_arc f e)))) -> before (s2t f) i e = true).
Proof.
  unfold fwd_sorted in Hsorted.
  rewrite andb_true_iff in Hsorted. destruct Hsorted as [P S].
  destruct (arc_perm_nodup _ _ P) as (L & ND & I).
  repeat split; auto; try apply I.
  intros e i He Hi. rewrite forallb_forall in S.
  specialize (S e). rewrite in_seq in S. specialize (S ltac:(lia)).
  rewrite forallb_forall in S. apply S. exact Hi.
Qed.

Lemma fin_eq : fin = run body (s2t f) (arcs f).
Proof.
  unfold fin. destruct sorted_parts as (L & _). rewrite <- L, visit_full.
  reflexivity.
Qed.

Lemma fin_length : length fin = narcs f.
Proof. unfold fin. apply run_length. Qed.

Lemma fin_static e : static (nth e fin arc0) = static (get_arc f e).
Proof. unfold fin, get_arc. apply run_static. exact Hstatic. Qed.

(** The arc [e] keeps what its pass wrote; that pass found [e] as it
    was at the start and the in-arcs of its source with their last
    values. *)
Lemma pass_value e :
  (e < narcs f)%nat ->
  exists X,
    nth e fin arc0 = body X e /\
    nth e X arc0 = get_arc f e /\
    (forall i, In i (ilst (get_state f (src (get_arc f e)))) ->
       nth i X arc0 = nth i fin arc0).
Proof.
  intros He. destruct sorted_parts as (L & ND & I & S).
  destruct (in_split e (s2t f)) as (pre & post & E); [apply I; exact He|].
  assert (NDall : NoDup (pre ++ e :: post)) by (rewrite <- E; exact ND).
  assert (Npost : ~ In e post).
  { apply NoDup_remove_2 in NDall. intro. apply NDall.
    apply in_or_app. right. assumption. }
  assert (Npre : ~ In e pre).
  { apply NoDup_remove_2 in NDall. intro. apply NDall.
    apply in_or_app. left. assumption. }
  exists (run body pre (arcs f)). split; [|split].
  - rewrite fin_eq, E. apply run_nth_visited; assumption.
  - apply run_nth_notin. exact Npre.
  - intros i Hi. rewrite fin_eq, E.
    symmetry. apply run_nth_earlier.
    assert (Hpre : In i pre) by (eapply before_in_pre; eauto).
    intros [<-|Hp]; [contradiction|].
    clear - NDall Hpre Hp.
    induction pre as [|a pre IH]; [destruct Hpre|].
    simpl in NDall. inversion NDall as [|? ? Hn ND']; subst.
    destruct Hpre as [->|Hpre]; [|auto].
    apply Hn. apply in_or_app. right. right. exact Hp.
Qed.

End SortedPass.

End Valid.

(** ** The adjacency lists and the topological orders of a transducer

    What [fst_addstates], [fst_toposort] and [fst_addsort] establish:
    the orders that the recursions of the gradient and of the decoder
    assume. *)

Module Topo.
Import Fst Pass Valid.

Lemma nth_upd_eq {A} (l : list A) i j v d :
  nth j (upd l i v) d =
  if ((i =? j) && (i <? length l))%nat then v else nth j l d.
Proof.
  destruct (Nat.eqb_spec i j) as [->|Hne]; simpl.
  - destruct (Nat.ltb_spec j (length l)).
    + apply nth_upd_same; assumption.
    + rewrite !nth_overflow; auto. rewrite upd_length; assumption.
  - apply nth_upd_other; assumption.
Qed.

(** *** [fst_addstates] *)

Lemma push_length sts s t ia :
  length (push_in (push_out sts s ia) t ia) = length sts.
Proof. unfold push_in, push_out. rewrite !upd_length. reflexivity. Qed.

Lemma push_ilst sts s t ia x :
  (t < length sts)%nat ->
  ilst (nth x (push_in (push_out sts s ia) t ia) state0) =
  ilst (nth x sts state0) ++ (if (t =? x)%nat then [ia] else []).
Proof.
  intros Ht. unfold push_in. rewrite nth_upd_eq.
  assert (L : length (push_out sts s ia) = length sts)
    by (unfold push_out; apply upd_length).
  rewrite L. destruct (Nat.eqb_spec t x) as [->|Hne]; simpl.
  - destruct (Nat.ltb_spec x (length sts)); [|lia]. simpl.
    unfold push_out. rewrite nth_upd_eq.
    destruct ((s =? x)%nat && (s <? length sts)%nat)%bool eqn:E; [|reflexivity].
    simpl. apply andb_true_iff in E. destruct E as [E _].
    apply Nat.eqb_eq in E. subst s. reflexivity.
  - rewrite app_nil_r. unfold push_out. rewrite nth_upd_eq.
    destruct ((s =? x)%nat && (s <? length sts)%nat)%bool eqn:E; [|reflexivity].
    simpl. apply andb_true_iff in E. destruct E as [E _].
    apply Nat.eqb_eq in E. subst s. reflexivity.
Qed.

Lemma push_olst sts s t ia x :
  (s < length sts)%nat ->
  olst (nth x (push_in (push_out sts s ia) t ia) state0) =
  olst (nth x sts state0) ++ (if (s =? x)%nat then [ia] else []).
Proof.
  intros Hs. unfold push_in. rewrite nth_upd_eq.
  assert (L : length (push_out sts s ia) = length sts)
    by (unfold push_out; apply upd_length).
  rewrite L.
  assert (P : olst (nth x (push_out sts s ia) state0) =
              olst (nth x sts state0) ++ (if (s =? x)%nat then [ia] else [])).
  { unfold push_out. rewrite nth_upd_eq.
    destruct (Nat.eqb_spec s x) as [->|Hne]; simpl.
    - destruct (Nat.ltb_spec x (length sts)); [|lia]. reflexivity.
    - rewrite app_nil_r. reflexivity. }
  destruct ((t =? x)%nat && (t <? length sts)%nat)%bool eqn:E; [|exact P].
  simpl. apply andb_true_iff in E. destruct E as [E _].
  apply Nat.eqb_eq in E. subst t. exact P.
Qed.

(** The loop over the arcs [al], the arcs [pre] being done: every
    state gets the indices of its arcs, in increasing order. *)
Lemma fill_states_spec al : forall pre sts,
  (forall a, In a al -> (src a < length sts)%nat /\ (trg a < length sts)%nat) ->
  length (fill_states al (length pre) sts) = length sts /\
  forall s,
    ilst (nth s (fill_states al (length pre) sts) state0) =
      ilst (nth s sts state0) ++
      filter (fun a => (trg (nth a (pre ++ al) arc0) =? s)%nat)
        (seq (length pre) (length al)) /\
    olst (nth s (fill_states al (length pre) sts) state0) =
      olst (nth s sts state0) ++
      filter (fun a => (src (nth a (pre ++ al) arc0) =? s)%nat)
        (seq (length pre) (length al)).
Proof.
  induction al as [|a al IH]; intros pre sts B.
  - simpl. split; [reflexivity|]. intros s. rewrite !app_nil_r. split; reflexivity.
  - destruct (B a (or_introl eq_refl)) as [Bs Bt].
    change (fill_states (a :: al) (length pre) sts)
      with (fill_states al (S (length pre))
              (push_in (push_out sts (src a) (length pre)) (trg a) (length pre))).
    replace (S (length pre)) with (length (pre ++ [a]))
      by (rewrite length_app; simpl; lia).
    destruct (IH (pre ++ [a])
                (push_in (push_out sts (src a) (length pre)) (trg a) (length pre)))
      as [L H].
    { intros b Hb. rewrite push_length. apply B. right. exact Hb. }
    rewrite push_length in L. split; [exact L|].
    intros s. destruct (H s) as [Hi Ho]. rewrite Hi, Ho.
    rewrite <- !app_assoc. simpl app.
    rewrite push_ilst, push_olst by assumption.
    replace (length (pre ++ [a])) with (S (length pre))
      by (rewrite length_app; simpl; lia).
    change (seq (length pre) (length (a :: al)))
      with (length pre :: seq (S (length pre)) (length al)).
    simpl filter. rewrite nth_middle. rewrite <- !app_assoc.
    split; f_equal.
    + destruct (trg a =? s)%nat; reflexivity.
    + destruct (src a =? s)%nat; reflexivity.
Qed.

(** X14. [fst_addstates] gives every state the list of the arcs that
    enter it and the list of the arcs that leave it, each by
    increasing arc index, provided the arcs name states of the
    transducer; the arcs and the orders are left as they were. *)
Theorem fst_addstates_adjacency f :
  (forall a, In a (arcs f) -> (src a < nstates f)%nat /\ (trg a < nstates f)%nat) ->
  let f' := fst_addstates f in
  arcs f' = arcs f /\ nstates f' = nstates f /\
  length (states f') = nstates f /\
  (forall s, (s < nstates f)%nat ->
     ilst (get_state f' s) = in_arcs f s /\
     olst (get_state f' s) = out_arcs f s) /\
  (forall a, (a < narcs f)%nat ->
     In a (olst (get_state f' (src (get_arc f a)))) /\
     In a (ilst (get_state f' (trg (get_arc f a))))) /\
  adj_ok f' = true.
Proof.
  intros B f'.
  destruct (fill_states_spec (arcs f) [] (repeat state0 (nstates f))) as [L H].
  { intros a Ha. rewrite repeat_length. apply B. exact Ha. }
  rewrite repeat_length in L. simpl length in L, H. simpl app in H.
  assert (Z0 : forall s, nth s (repeat state0 (nstates f)) state0 = state0).
  { intros s. destruct (Nat.lt_ge_cases s (nstates f)).
    - apply nth_repeat_lt; assumption.
    - apply nth_overflow. rewrite repeat_length. assumption. }
  assert (HS : forall s,
            ilst (get_state f' s) = in_arcs f s /\
            olst (get_state f' s) = out_arcs f s).
  { intros s. destruct (H s) as [Hi Ho]. rewrite Z0 in Hi, Ho.
    split; [exact Hi|exact Ho]. }
  assert (BA : forall a, (a < narcs f)%nat ->
            (src (get_arc f a) < nstates f)%nat /\ (trg (get_arc f a) < nstates f)%nat).
  { intros a Ha. apply B. apply nth_In. exact Ha. }
  split; [reflexivity|]. split; [reflexivity|]. split; [exact L|].
  split; [intros s _; apply HS|]. split.
  - intros a Ha. destruct (HS (src (get_arc f a))) as [_ Ho].
    destruct (HS (trg (get_arc f a))) as [Hi _].
    rewrite Ho, Hi. unfold in_arcs, out_arcs.
    rewrite !filter_In, in_seq, !Nat.eqb_eq. repeat split; lia.
  - unfold adj_ok. rewrite !andb_true_iff. repeat split.
    + apply Nat.eqb_eq. exact L.
    + apply forallb_forall. intros a Ha. destruct (B a Ha).
      apply andb_true_iff. split; apply Nat.ltb_lt; assumption.
    + apply forallb_forall. intros s _. destruct (HS s) as [Hi Ho].
      apply andb_true_iff. unfold list_eqb.
      change (in_arcs f' s) with (in_arcs f s).
      change (out_arcs f' s) with (out_arcs f s).
      split; destruct list_eq_dec; congruence.
Qed.

(** A lattice of four states: two routes from state 0 to state 3. *)
Definition diamond : fst_t :=
  mk_fst 1 4 3
    [mk_arc 0 1 "a" "x" 0 0 0 0; mk_arc 1 3 "b" "y" 0 0 0 0;
     mk_arc 0 2 "a" "z" 0 0 0 0; mk_arc 2 3 "b" "t" 0 0 0 0]
    [] [] [].

Lemma fst_addstates_adjacency_witness : adj_ok (fst_addstates diamond) = true.
Proof.
  assert (H : forall a, In a (arcs diamond) ->
            (src a < nstates diamond)%nat /\ (trg a < nstates diamond)%nat).
  { intros a Ha. simpl in Ha.
    destruct Ha as [<-|[<-|[<-|[<-|[]]]]]; simpl; lia. }
  exact (proj2 (proj2 (proj2 (proj2 (proj2 (fst_addstates_adjacency diamond H)))))).
Defined.

(** *** [fst_toposort] *)

Lemma fold_left_map' {X Y Z : Type} (g : Z -> Y -> Z) (F : X -> Y) l : forall z,
  fold_left (fun d x => g d (F x)) l z = fold_left g (map F l) z.
Proof. induction l as [|x l IH]; intros z; simpl; auto. Qed.

Lemma filter_twice {T} (p q : T -> bool) l :
  filter p (filter q l) = filter (fun a => q a && p a) l.
Proof.
  induction l as [|a l IH]; simpl; auto.
  destruct (q a); simpl; [destruct (p a)|]; rewrite IH; reflexivity.
Qed.

Lemma filter_len_split {T} (p q r : T -> bool) l :
  (forall a, In a l -> p a = (q a || r a) /\ q a && r a = false) ->
  length (filter p l) = (length (filter q l) + length (filter r l))%nat.
Proof.
  induction l as [|a l IH]; intros H; simpl; auto.
  destruct (H a (or_introl eq_refl)) as [E1 E2].
  assert (IH' := IH (fun b Hb => H b (or_intror Hb))).
  rewrite E1. destruct (q a), (r a); simpl in *; try discriminate; lia.
Qed.

Lemma existsb_eqb_in x R : existsb (Nat.eqb x) R = true <-> In x R.
Proof.
  rewrite existsb_exists. split.
  - intros (y & Hy & E). apply Nat.eqb_eq in E. subst. exact Hy.
  - intros H. exists x. split; [exact H|apply Nat.eqb_refl].
Qed.

Lemma nodup_app_disjoint {T} (l1 l2 : list T) :
  NoDup (l1 ++ l2) -> forall x, In x l1 -> In x l2 -> False.
Proof.
  induction l1 as [|a l1 IH]; intros ND x H1 H2; [destruct H1|].
  simpl in ND. inversion ND as [|? ? Hn ND']; subst.
  destruct H1 as [->|H1].
  - apply Hn. apply in_or_app. right. exact H2.
  - apply (IH ND' x H1 H2).
Qed.

Lemma firstn_nth (l : list nat) : forall k, (k <= length l)%nat ->
  firstn k l = map (fun i => nth i l 0%nat) (seq 0 k).
Proof.
  intros k Hk. apply nth_ext with (d := 0%nat) (d' := 0%nat).
  - rewrite firstn_length_le, length_map, length_seq; auto.
  - intros n Hn. rewrite firstn_length_le in Hn by assumption.
    rewrite nth_firstn. destruct (Nat.ltb_spec n k); [|lia].
    rewrite (nth_indep (map _ _) 0%nat (nth 0 l 0%nat))
      by (rewrite length_map, length_seq; assumption).
    rewrite map_nth with (f := fun i => nth i l 0%nat) (d := 0%nat).
    rewrite seq_nth by assumption. reflexivity.
Qed.

(** The states [lst[done..last)] come after [lst[0..done)]. *)
Lemma firstn_class (lst : list nat) done last :
  (done <= last <= length lst)%nat ->
  firstn last lst =
  firstn done lst ++ map (fun ni => nth ni lst 0%nat) (seq done (last - done)).
Proof.
  intros H. rewrite (firstn_nth lst last), (firstn_nth lst done) by lia.
  rewrite <- map_app. f_equal.
  replace last with (done + (last - done))%nat at 1 by lia.
  apply seq_app.
Qed.

Lemma firstn_upd {T} (l : list T) : forall k i v,
  (k <= i)%nat -> firstn k (upd l i v) = firstn k l.
Proof.
  induction l as [|a l IH]; intros [|k] [|i] v H; simpl; auto; try lia.
  rewrite IH by lia. reflexivity.
Qed.

(** **** The exchange of two cells *)

Lemma swap_length l i j : length (swap l i j) = length l.
Proof. unfold swap. rewrite !upd_length. reflexivity. Qed.

Lemma swap_nth l i j p :
  (i < length l)%nat -> (j < length l)%nat ->
  nth p (swap l i j) 0%nat =
  if (p =? j)%nat then nth i l 0%nat
  else if (p =? i)%nat then nth j l 0%nat else nth p l 0%nat.
Proof.
  intros Hi Hj. unfold swap. rewrite nth_upd_eq, upd_length, nth_upd_eq.
  destruct (Nat.ltb_spec j (length l)); [|lia].
  destruct (Nat.ltb_spec i (length l)); [|lia].
  rewrite !andb_true_r, (Nat.eqb_sym j p), (Nat.eqb_sym i p). reflexivity.
Qed.

Lemma swap_in l i j x :
  (i < length l)%nat -> (j < length l)%nat -> In x (swap l i j) -> In x l.
Proof.
  intros Hi Hj H. apply In_nth with (d := 0%nat) in H.
  destruct H as (p & Hp & <-). rewrite swap_length in Hp.
  rewrite swap_nth by assumption.
  destruct (p =? j)%nat; [|destruct (p =? i)%nat]; apply nth_In; assumption.
Qed.

Lemma swap_nodup l i j :
  (i < length l)%nat -> (j < length l)%nat -> NoDup l -> NoDup (swap l i j).
Proof.
  intros Hi Hj ND. apply (NoDup_nth _ 0%nat). intros p q Hp Hq E.
  rewrite swap_length in Hp, Hq. rewrite !swap_nth in E by assumption.
  pose proof (proj1 (NoDup_nth l 0%nat) ND) as K.
  destruct (Nat.eqb_spec p j), (Nat.eqb_spec q j),
           (Nat.eqb_spec p i), (Nat.eqb_spec q i);
    try (apply K in E; lia); lia.
Qed.

Lemma swap_firstn l i j k :
  (k <= i)%nat -> (k <= j)%nat -> firstn k (swap l i j) = firstn k l.
Proof.
  intros Hi Hj. unfold swap. rewrite !firstn_upd by assumption. reflexivity.
Qed.

(** **** The partition of one pass *)

(** [lst] holds every state once. *)
Definition state_perm (N : nat) (lst : list nat) : Prop :=
  length lst = N /\ NoDup lst /\ forall x, In x lst -> (x < N)%nat.

Lemma state_perm_in N lst s : state_perm N lst -> (s < N)%nat -> In s lst.
Proof.
  intros (L & ND & B) Hs.
  assert (P : Permutation lst (seq 0 N)).
  { apply NoDup_Permutation_bis; [exact ND|rewrite length_seq; lia|].
    intros x Hx. apply in_seq. pose proof (B x Hx). lia. }
  apply Permutation_sym in P. apply (Permutation_in _ P). apply in_seq. lia.
Qed.

Lemma state_perm_Permutation N lst :
  state_perm N lst <-> Permutation lst (seq 0 N).
Proof.
  split.
  - intros (L & ND & B).
    apply NoDup_Permutation_bis; [exact ND|rewrite length_seq; lia|].
    intros x Hx. apply in_seq. pose proof (B x Hx). lia.
  - intros P. split; [|split].
    + rewrite (Permutation_length P). apply length_seq.
    + apply (Permutation_NoDup (Permutation_sym P)). apply seq_NoDup.
    + intros x Hx. apply (Permutation_in _ P) in Hx. apply in_seq in Hx. lia.
Qed.

Section Front.
Variable deg : list Z.
Variable N done : nat.
Variable lst0 : list nat.

Definition front_inv (n : nat) (st : list nat * nat) : Prop :=
  state_perm N (fst st) /\
  firstn done (fst st) = firstn done lst0 /\
  (done <= snd st <= n)%nat /\
  (forall p, (done <= p < snd st)%nat -> nth (nth p (fst st) 0%nat) deg 0%Z = 0%Z) /\
  (forall p, (snd st <= p < n)%nat -> nth (nth p (fst st) 0%nat) deg 0%Z <> 0%Z).

Lemma front_step_inv n st :
  (n < N)%nat -> front_inv n st -> front_inv (S n) (front_step deg st n).
Proof.
  destruct st as [lst last]. unfold front_inv, front_step. simpl fst; simpl snd.
  intros Hn ((L & ND & B) & P & R & Z0 & NZ).
  destruct (Z.eqb_spec (nth (nth n lst 0%nat) deg 0%Z) 0) as [E|E]; simpl fst; simpl snd.
  - assert (Hl : (last < length lst)%nat) by lia.
    assert (Hn' : (n < length lst)%nat) by lia.
    split; [split; [|split]|].
    + rewrite swap_length. exact L.
    + apply swap_nodup; assumption.
    + intros x Hx. apply B. apply (swap_in lst n last); assumption.
    + split; [rewrite swap_firstn by lia; exact P|].
      split; [lia|]. split.
      * intros p Hp. rewrite swap_nth by assumption.
        destruct (Nat.eqb_spec p last) as [->|Hne]; [exact E|].
        destruct (Nat.eqb_spec p n) as [->|Hne']; [lia|].
        apply Z0. lia.
      * intros p Hp. rewrite swap_nth by assumption.
        destruct (Nat.eqb_spec p last) as [->|Hne]; [lia|].
        destruct (Nat.eqb_spec p n) as [->|Hne']; apply NZ; lia.
  - split; [split; [|split]; assumption|].
    split; [exact P|]. split; [lia|]. split; [exact Z0|].
    intros p Hp. destruct (Nat.eq_dec p n) as [->|Hne]; [exact E|].
    apply NZ. lia.
Qed.

Lemma front_fold k : forall n st,
  (n + k = N)%nat -> front_inv n st ->
  front_inv N (fold_left (front_step deg) (seq n k) st).
Proof.
  induction k as [|k IH]; intros n st E H; simpl.
  - replace N with n by lia. exact H.
  - apply IH; [lia|]. apply front_step_inv; [lia|exact H].
Qed.

End Front.

(** The pass leaves the states of degree 0 among [lst[done..N)] in
    [lst[done..last)] and does not touch [lst[0..done)]. *)
Lemma front_spec deg N done lst :
  (done <= N)%nat -> state_perm N lst ->
  front_inv deg N done lst N (front deg lst done N).
Proof.
  intros H P. unfold front. apply front_fold; [lia|].
  unfold front_inv. simpl. split; [exact P|]. split; [reflexivity|].
  split; [lia|]. split; intros p Hp; lia.
Qed.

(** **** Arcs seen in the direction of the sort

    With [rev = 0] the degree of a state counts the arcs that enter it
    and a released state lowers the degree of the targets of the arcs
    that leave it; with [rev != 0] the roles of the two ends are
    exchanged. *)

Definition arc_head (f : fst_t) (rev : bool) (a : nat) : nat :=
  if rev then src (get_arc f a) else trg (get_arc f a).
Definition arc_tail (f : fst_t) (rev : bool) (a : nat) : nat :=
  if rev then trg (get_arc f a) else src (get_arc f a).
Definition arcs_into (f : fst_t) (rev : bool) (s : nat) : list nat :=
  if rev then olst (get_state f s) else ilst (get_state f s).
Definition arcs_from (f : fst_t) (rev : bool) (s : nat) : list nat :=
  if rev then ilst (get_state f s) else olst (get_state f s).

(** [lst] is a topological order: the arcs into a state come from
    states that stand before it. *)
Definition ordered (f : fst_t) (rev : bool) (lst : list nat) : Prop :=
  forall pre s post, lst = pre ++ s :: post ->
  forall a, In a (arcs_into f rev s) -> In (arc_tail f rev a) pre.

(** The number of arcs into [s] from states outside [R]. *)
Definition pending (f : fst_t) (rev : bool) (R : list nat) (s : nat) : Z :=
  Z.of_nat (length (filter
    (fun a => (arc_head f rev a =? s)%nat &&
              negb (existsb (Nat.eqb (arc_tail f rev a)) R))
    (seq 0 (narcs f)))).

Lemma dec_fold (h : nat -> nat) l : forall deg,
  (forall i, In i l -> (h i < length deg)%nat) ->
  length (fold_left (fun d i => dec_deg d (h i)) l deg) = length deg /\
  forall s,
    nth s (fold_left (fun d i => dec_deg d (h i)) l deg) 0%Z =
    (nth s deg 0 - Z.of_nat (length (filter (fun i => (h i =? s)%nat) l)))%Z.
Proof.
  induction l as [|a l IH]; intros deg B; simpl fold_left.
  - split; [reflexivity|]. intros s. simpl. lia.
  - destruct (IH (dec_deg deg (h a))) as [L H].
    { intros i Hi. unfold dec_deg. rewrite upd_length. apply B. right. exact Hi. }
    replace (length (dec_deg deg (h a))) with (length deg) in L
      by (unfold dec_deg; rewrite upd_length; reflexivity).
    split; [exact L|].
    intros s. rewrite H. unfold dec_deg at 1. rewrite nth_upd_eq.
    pose proof (B a (or_introl eq_refl)) as Ba.
    destruct (Nat.ltb_spec (h a) (length deg)); [|lia].
    simpl filter. destruct (Nat.eqb_spec (h a) s) as [->|Hne]; simpl; lia.
Qed.

Section Direction.
Variable f : fst_t.
Variable rev : bool.
Hypothesis Hadj : adj_ok f = true.

Lemma in_into s a :
  In a (arcs_into f rev s) <-> (a < narcs f)%nat /\ arc_head f rev a = s.
Proof.
  unfold arcs_into, arc_head. destruct rev.
  - apply in_olst. exact Hadj.
  - apply in_ilst. exact Hadj.
Qed.

Lemma in_from s a :
  In a (arcs_from f rev s) <-> (a < narcs f)%nat /\ arc_tail f rev a = s.
Proof.
  unfold arcs_from, arc_tail. destruct rev.
  - apply in_ilst. exact Hadj.
  - apply in_olst. exact Hadj.
Qed.

Lemma into_nodup s : NoDup (arcs_into f rev s).
Proof.
  unfold arcs_into. destruct rev; [apply olst_nodup|apply ilst_nodup]; exact Hadj.
Qed.

Lemma from_nodup s : NoDup (arcs_from f rev s).
Proof.
  unfold arcs_from. destruct rev; [apply ilst_nodup|apply olst_nodup]; exact Hadj.
Qed.

Lemma into_eq s :
  (s < nstates f)%nat ->
  arcs_into f rev s = filter (fun a => (arc_head f rev a =? s)%nat) (seq 0 (narcs f)).
Proof.
  intros Hs. destruct (adj_parts f Hadj) as (_ & _ & H).
  destruct (H s Hs) as [Hi Ho]. unfold arcs_into, arc_head.
  destruct rev; [exact Ho|exact Hi].
Qed.

Lemma from_eq s :
  (s < nstates f)%nat ->
  arcs_from f rev s = filter (fun a => (arc_tail f rev a =? s)%nat) (seq 0 (narcs f)).
Proof.
  intros Hs. destruct (adj_parts f Hadj) as (_ & _ & H).
  destruct (H s Hs) as [Hi Ho]. unfold arcs_from, arc_tail.
  destruct rev; [exact Hi|exact Ho].
Qed.

Lemma head_lt a : (a < narcs f)%nat -> (arc_head f rev a < nstates f)%nat.
Proof.
  intros Ha. destruct (adj_parts f Hadj) as (_ & B & _).
  destruct (B a Ha). unfold arc_head. destruct rev; assumption.
Qed.

Lemma tail_lt a : (a < narcs f)%nat -> (arc_tail f rev a < nstates f)%nat.
Proof.
  intros Ha. destruct (adj_parts f Hadj) as (_ & B & _).
  destruct (B a Ha). unfold arc_tail. destruct rev; assumption.
Qed.

Lemma release_state_eq deg n :
  release_state f rev deg n =
  fold_left (fun d i => dec_deg d (arc_head f rev i)) (arcs_from f rev n) deg.
Proof. unfold release_state, arcs_from, arc_head. destruct rev; reflexivity. Qed.

Lemma release_eq deg lst done last :
  release f rev deg lst done last =
  fold_left (release_state f rev)
    (map (fun ni => nth ni lst 0%nat) (seq done (last - done))) deg.
Proof. unfold release. apply fold_left_map'. Qed.

Lemma pending_nil s :
  pending f rev [] s =
  Z.of_nat (length (filter (fun a => (arc_head f rev a =? s)%nat) (seq 0 (narcs f)))).
Proof.
  unfold pending. f_equal. f_equal. apply filter_ext. intros a. simpl.
  apply andb_true_r.
Qed.

(** No arc is pending into [s] when all the arcs into it come from [R]. *)
Lemma pending_zero R s :
  pending f rev R s = 0%Z <->
  forall a, In a (arcs_into f rev s) -> In (arc_tail f rev a) R.
Proof.
  unfold pending. split.
  - intros H a Ha. apply in_into in Ha. destruct Ha as [Ha E].
    destruct (existsb (Nat.eqb (arc_tail f rev a)) R) eqn:X;
      [apply existsb_eqb_in; exact X|].
    exfalso.
    assert (I : In a (filter
      (fun a => (arc_head f rev a =? s)%nat &&
                negb (existsb (Nat.eqb (arc_tail f rev a)) R)) (seq 0 (narcs f)))).
    { apply filter_In. split; [apply in_seq; lia|].
      rewrite X, E, Nat.eqb_refl. reflexivity. }
    destruct (filter _ (seq 0 (narcs f))); [destruct I|simpl in H; lia].
  - intros H.
    replace (filter _ (seq 0 (narcs f))) with (@nil nat); [reflexivity|].
    symmetry.
    destruct (filter _ (seq 0 (narcs f))) as [|a rest] eqn:E; [reflexivity|].
    exfalso.
    assert (I : In a (a :: rest)) by (left; reflexivity).
    rewrite <- E in I. apply filter_In in I. destruct I as [I1 I2].
    apply in_seq in I1. apply andb_true_iff in I2. destruct I2 as [I2 I3].
    apply Nat.eqb_eq in I2. apply negb_true_iff in I3.
    assert (X : In (arc_tail f rev a) R).
    { apply H. apply in_into. split; [lia|exact I2]. }
    apply existsb_eqb_in in X. congruence.
Qed.

Lemma pending_release n R deg :
  (n < nstates f)%nat -> ~ In n R -> length deg = nstates f ->
  (forall s, nth s deg 0%Z = pending f rev R s) ->
  length (release_state f rev deg n) = nstates f /\
  forall s, nth s (release_state f rev deg n) 0%Z = pending f rev (R ++ [n]) s.
Proof.
  intros Hn Hfresh L H. rewrite release_state_eq, from_eq by assumption.
  destruct (dec_fold (arc_head f rev)
              (filter (fun a => (arc_tail f rev a =? n)%nat) (seq 0 (narcs f))) deg)
    as [L' H'].
  { intros i Hi. apply filter_In in Hi. destruct Hi as [Hi _].
    apply in_seq in Hi. rewrite L. apply head_lt. lia. }
  split; [congruence|]. intros s. rewrite H', H, filter_twice.
  unfold pending.
  rewrite (filter_len_split
    (fun a => (arc_head f rev a =? s)%nat &&
              negb (existsb (Nat.eqb (arc_tail f rev a)) R))
    (fun a => (arc_tail f rev a =? n)%nat && (arc_head f rev a =? s)%nat)
    (fun a => (arc_head f rev a =? s)%nat &&
              negb (existsb (Nat.eqb (arc_tail f rev a)) (R ++ [n])))); [lia|].
  intros a _. rewrite existsb_app. simpl existsb. rewrite orb_false_r.
  destruct (arc_head f rev a =? s)%nat; simpl;
    [|rewrite !andb_false_r; split; reflexivity].
  rewrite !andb_true_r.
  destruct (Nat.eqb_spec (arc_tail f rev a) n) as [E|E].
  - assert (X : existsb (Nat.eqb (arc_tail f rev a)) R = false).
    { destruct (existsb (Nat.eqb (arc_tail f rev a)) R) eqn:X; [|reflexivity].
      apply existsb_eqb_in in X. rewrite E in X. contradiction. }
    rewrite X. split; reflexivity.
  - rewrite orb_false_r. split; [reflexivity|]. reflexivity.
Qed.

Lemma release_class class : forall R deg,
  NoDup class ->
  (forall n, In n class -> (n < nstates f)%nat /\ ~ In n R) ->
  length deg = nstates f ->
  (forall s, nth s deg 0%Z = pending f rev R s) ->
  length (fold_left (release_state f rev) class deg) = nstates f /\
  forall s, nth s (fold_left (release_state f rev) class deg) 0%Z =
            pending f rev (R ++ class) s.
Proof.
  induction class as [|n class IH]; intros R deg ND B L H; simpl fold_left.
  - rewrite app_nil_r. split; assumption.
  - inversion ND as [|? ? Hn ND']; subst.
    destruct (B n (or_introl eq_refl)) as [Bn Fn].
    destruct (pending_release n R deg Bn Fn L H) as [L1 H1].
    destruct (IH (R ++ [n]) (release_state f rev deg n) ND') as [L2 H2];
      [|exact L1|exact H1|].
    { intros m Hm. destruct (B m (or_intror Hm)) as [Bm Fm]. split; [exact Bm|].
      rewrite in_app_iff. simpl. intros [X|[X|[]]]; [contradiction|].
      subst m. contradiction. }
    rewrite <- app_assoc in H2. split; [exact L2|exact H2].
Qed.

Lemma ordered_app L C :
  ordered f rev L ->
  (forall s, In s C -> forall a, In a (arcs_into f rev s) -> In (arc_tail f rev a) L) ->
  ordered f rev (L ++ C).
Proof.
  intros OL OC pre s post E a Ha.
  apply app_eq_app in E. destruct E as (l & [[E1 E2]|[E1 E2]]).
  - destruct l as [|s' l].
    + rewrite app_nil_r in E1. subst pre. simpl in E2.
      apply (OC s); [rewrite <- E2; left; reflexivity|exact Ha].
    + simpl in E2. injection E2 as <- E2.
      apply (OL pre s l E1 a Ha).
  - subst pre. apply in_or_app. left.
    apply (OC s); [rewrite E2; apply in_elt|exact Ha].
Qed.

(** **** The loop invariant *)

(** [lst[0..done)] is settled: it is in topological order, the
    degrees count the arcs that come from the other states and, once
    the first pass is over, [lst[0]] is the one state without an arc
    into it. *)
Definition topo_inv (deg : list Z) (lst : list nat) (done : nat) : Prop :=
  state_perm (nstates f) lst /\ (done <= nstates f)%nat /\
  length deg = nstates f /\
  (forall s, nth s deg 0%Z = pending f rev (firstn done lst) s) /\
  ordered f rev (firstn done lst) /\
  (done = 0%nat \/
   forall s, (s < nstates f)%nat ->
     (arcs_into f rev s = [] <-> nth 0 lst 0%nat = s)).

Lemma topo_inv_pass deg lst done lst1 last :
  topo_inv deg lst done -> (done < nstates f)%nat ->
  front deg lst done (nstates f) = (lst1, last) ->
  (done < last)%nat -> (done = 0%nat -> last = 1%nat) ->
  topo_inv (release f rev deg lst1 done last) lst1 last.
Proof.
  intros (P & D & L & H & O & S0) Hd Ef Hl H1.
  pose proof (front_spec deg (nstates f) done lst (Nat.lt_le_incl _ _ Hd) P) as F.
  rewrite Ef in F. destruct F as (P1 & Pre & R & Z0 & NZ).
  simpl fst in *; simpl snd in *.
  destruct P1 as (L1 & ND1 & B1).
  assert (Cl : firstn last lst1 =
               firstn done lst ++
               map (fun ni => nth ni lst1 0%nat) (seq done (last - done))).
  { rewrite <- Pre. apply firstn_class. lia. }
  assert (Hclass : forall n,
            In n (map (fun ni => nth ni lst1 0%nat) (seq done (last - done))) ->
            exists p, (done <= p < last)%nat /\ nth p lst1 0%nat = n).
  { intros n Hn. apply in_map_iff in Hn. destruct Hn as (p & E & Hp).
    apply in_seq in Hp. exists p. split; [lia|exact E]. }
  assert (NDf : NoDup (firstn last lst1)).
  { rewrite <- (firstn_skipn last lst1) in ND1.
    apply NoDup_app_remove_r in ND1. exact ND1. }
  rewrite Cl in NDf.
  destruct (release_class
              (map (fun ni => nth ni lst1 0%nat) (seq done (last - done)))
              (firstn done lst) deg) as [L2 H2].
  { apply NoDup_app_remove_l in NDf. exact NDf. }
  { intros n Hn. split.
    - destruct (Hclass n Hn) as (p & Hp & <-). apply B1. apply nth_In. lia.
    - intros X. apply (nodup_app_disjoint _ _ NDf n X Hn). }
  { exact L. } { exact H. }
  rewrite <- release_eq, <- Cl in H2. rewrite <- release_eq in L2.
  split; [split; [|split]; assumption|]. split; [lia|]. split; [exact L2|].
  split; [exact H2|]. split.
  - rewrite Cl. apply ordered_app; [exact O|].
    intros s Hs. destruct (Hclass s Hs) as (p & Hp & <-).
    apply pending_zero. rewrite <- H. apply Z0. exact Hp.
  - right. destruct (Nat.eq_dec done 0) as [->|Hd0].
    + specialize (H1 eq_refl). subst last.
      assert (Hnil : forall s, arcs_into f rev s = [] <-> nth s deg 0%Z = 0%Z).
      { intros s. rewrite H. simpl firstn. rewrite pending_zero.
        split.
        - intros E a Ha. rewrite E in Ha. destruct Ha.
        - intros K. destruct (arcs_into f rev s) as [|a l]; [reflexivity|].
          destruct (K a (or_introl eq_refl)). }
      intros s Hs. rewrite Hnil.
      assert (Is : In s lst1) by (apply (state_perm_in (nstates f));
                                  [split; [|split]; assumption|exact Hs]).
      apply In_nth with (d := 0%nat) in Is. destruct Is as (p & Hp & <-).
      destruct (Nat.eq_dec p 0) as [->|Hne].
      * split; [reflexivity|]. intros _. apply Z0. lia.
      * split.
        -- intros E. exfalso. apply (NZ p); [lia|exact E].
        -- intros E. exfalso. apply Hne. symmetry.
           apply (proj1 (NoDup_nth lst1 0%nat) ND1); [lia|lia|exact E].
    + destruct S0 as [->|S0]; [lia|].
      intros s Hs. rewrite (S0 s Hs).
      assert (E : nth 0 lst1 0%nat = nth 0 lst 0%nat).
      { assert (E1 := nth_firstn done lst1 0 0%nat).
        assert (E2 := nth_firstn done lst 0 0%nat).
        destruct (Nat.ltb_spec 0 done); [|lia].
        rewrite <- E1, <- E2, Pre. reflexivity. }
      rewrite E. reflexivity.
Qed.

Lemma topo_loop_eq fuel N deg lst done :
  topo_loop fuel f rev N deg lst done =
  if (N <=? done)%nat then Some (true, lst)
  else
    match fuel with
    | O => None
    | S fuel' =>
        let '(lst1, last) := front deg lst done N in
        if ((done =? 0)%nat && negb (last =? 1)%nat)%bool then Some (false, lst1)
        else if (last =? done)%nat then Some (false, lst1)
        else topo_loop fuel' f rev N (release f rev deg lst1 done last) lst1 last
    end.
Proof. destruct fuel; reflexivity. Qed.

Lemma topo_inv_init :
  topo_inv (map (fun n => Z.of_nat (length (arcs_into f rev n))) (seq 0 (nstates f)))
    (seq 0 (nstates f)) 0.
Proof.
  split; [|split; [lia|split; [|split; [|split]]]].
  - split; [apply length_seq|]. split; [apply seq_NoDup|].
    intros x Hx. apply in_seq in Hx. lia.
  - rewrite length_map, length_seq. reflexivity.
  - intros s. simpl firstn. rewrite pending_nil.
    destruct (Nat.lt_ge_cases s (nstates f)) as [Hs|Hs].
    + rewrite (nth_indep (map _ _) 0%Z (Z.of_nat (length (arcs_into f rev 0))))
        by (rewrite length_map, length_seq; exact Hs).
      rewrite map_nth with (f := fun n => Z.of_nat (length (arcs_into f rev n))).
      rewrite seq_nth by assumption. simpl. rewrite into_eq by assumption.
      reflexivity.
    + rewrite nth_overflow by (rewrite length_map, length_seq; exact Hs).
      replace (filter _ (seq 0 (narcs f))) with (@nil nat); [reflexivity|].
      symmetry.
      destruct (filter _ (seq 0 (narcs f))) as [|a rest] eqn:E; [reflexivity|].
      exfalso.
      assert (I : In a (a :: rest)) by (left; reflexivity).
      rewrite <- E in I. apply filter_In in I. destruct I as [I1 I2].
      apply in_seq in I1. apply Nat.eqb_eq in I2.
      assert (X := head_lt a). lia.
  - simpl. intros pre s post E. destruct pre; discriminate.
  - left. reflexivity.
Qed.

(** Whatever the loop returns with 1 is a topological order. *)
Lemma topo_loop_sound fuel : forall deg lst done res,
  topo_inv deg lst done ->
  topo_loop fuel f rev (nstates f) deg lst done = Some (true, res) ->
  state_perm (nstates f) res /\ ordered f rev res /\
  ((nstates f = 0)%nat \/
   forall s, (s < nstates f)%nat ->
     (arcs_into f rev s = [] <-> nth 0 res 0%nat = s)).
Proof.
  induction fuel as [|fuel IH]; intros deg lst done res I H;
    rewrite topo_loop_eq in H;
    destruct (Nat.leb_spec (nstates f) done) as [Hd|Hd].
  1, 3: injection H as <-;
        destruct I as (P & D & L & _ & O & S0);
        rewrite firstn_all2 in O by (destruct P as (LL & _); lia);
        split; [exact P|]; split; [exact O|];
        destruct S0 as [->|S0]; [left; lia|right; exact S0].
  - discriminate.
  - destruct (front deg lst done (nstates f)) as [lst1 last] eqn:Ef.
    destruct ((done =? 0)%nat && negb (last =? 1)%nat)%bool eqn:C1; [discriminate|].
    destruct (Nat.eqb_spec last done) as [C2|C2]; [discriminate|].
    apply (IH _ _ _ _ (topo_inv_pass deg lst done lst1 last I Hd Ef
                         ltac:(pose proof (front_spec deg (nstates f) done lst
                                 (Nat.lt_le_incl _ _ Hd) (proj1 I)) as F;
                               rewrite Ef in F; destruct F as (_ & _ & R & _);
                               simpl in R; lia)
                         ltac:(intros ->; simpl in C1;
                               apply negb_false_iff, Nat.eqb_eq in C1; exact C1)) H).
Qed.

End Direction.

Lemma index_of_app_l i X Y :
  In i X -> exists p, (p < length X)%nat /\ index_of i (X ++ Y) = Some p.
Proof.
  induction X as [|b X IH]; intros H; [destruct H|]. simpl.
  destruct (Nat.eqb_spec i b) as [E|E].
  - exists 0%nat. split; [lia|reflexivity].
  - destruct H as [H|H]; [congruence|].
    destruct (IH H) as (p & Hp & Ep). exists (S p). rewrite Ep. split; [lia|reflexivity].
Qed.

Lemma index_of_app_r e X Y :
  ~ In e X -> In e Y -> exists q, (length X <= q)%nat /\ index_of e (X ++ Y) = Some q.
Proof.
  induction X as [|b X IH]; intros N H.
  - simpl. destruct (index_of_app_l e Y [] H) as (q & _ & Eq).
    rewrite app_nil_r in Eq. exists q. split; [lia|exact Eq].
  - simpl. destruct (Nat.eqb_spec e b) as [E|E].
    + exfalso. apply N. left. congruence.
    + destruct IH as (q & Hq & Eq); [intros X0; apply N; right; exact X0|exact H|].
      exists (S q). rewrite Eq. split; [lia|reflexivity].
Qed.

(** In a list without repetition, what stands in the first part
    stands before what stands in the second. *)
Lemma before_app X Y i e :
  NoDup (X ++ Y) -> In i X -> In e Y -> before (X ++ Y) i e = true.
Proof.
  intros ND Hi He. unfold before.
  destruct (index_of_app_l i X Y Hi) as (p & Hp & ->).
  destruct (index_of_app_r e X Y) as (q & Hq & ->); [|exact He|].
  - intros H. apply (nodup_app_disjoint _ _ ND e H He).
  - apply Nat.ltb_lt. lia.
Qed.

Lemma first_outside (R : list nat) ord :
  (exists s, In s ord /\ ~ In s R) ->
  exists pre s post,
    ord = pre ++ s :: post /\ (forall x, In x pre -> In x R) /\ ~ In s R.
Proof.
  induction ord as [|b ord IH]; intros (s & Hs & Hn); [destruct Hs|].
  destruct (in_dec Nat.eq_dec b R) as [Hb|Hb].
  - destruct IH as (pre & s' & post & E & Hp & Hs').
    { exists s. split; [|exact Hn]. destruct Hs as [->|Hs]; [contradiction|exact Hs]. }
    exists (b :: pre), s', post. split; [rewrite E; reflexivity|].
    split; [|exact Hs']. intros x [<-|Hx]; [exact Hb|apply Hp; exact Hx].
  - exists [], b, ord. split; [reflexivity|]. split; [intros x []|exact Hb].
Qed.

(** The loop ends within [N - done] passes. *)
Lemma topo_loop_total f rev fuel : forall deg lst done,
  state_perm (nstates f) lst -> (done <= nstates f)%nat ->
  (nstates f - done <= fuel)%nat ->
  exists b res, topo_loop fuel f rev (nstates f) deg lst done = Some (b, res).
Proof.
  induction fuel as [|fuel IH]; intros deg lst done P D Hf;
    rewrite topo_loop_eq;
    destruct (Nat.leb_spec (nstates f) done) as [Hd|Hd];
    try (exists true, lst; reflexivity); [lia|].
  pose proof (front_spec deg (nstates f) done lst D P) as F.
  destruct (front deg lst done (nstates f)) as [lst1 last].
  destruct F as (P1 & _ & R & _). simpl in P1, R.
  destruct ((done =? 0)%nat && negb (last =? 1)%nat)%bool;
    [exists false, lst1; reflexivity|].
  destruct (Nat.eqb_spec last done) as [C|C]; [exists false, lst1; reflexivity|].
  apply IH; [exact P1|lia|lia].
Qed.

Section Complete.
Variable f : fst_t.
Variable rev : bool.
Hypothesis Hadj : adj_ok f = true.
Variable ord : list nat.
Hypothesis Hperm : Permutation ord (seq 0 (nstates f)).
Hypothesis Hord : ordered f rev ord.
Hypothesis Hone : forall s s',
  (s < nstates f)%nat -> (s' < nstates f)%nat ->
  arcs_into f rev s = [] -> arcs_into f rev s' = [] -> s = s'.

(** While states are left, one of them has no pending arc. *)
Lemma pass_advances deg lst done lst1 last :
  topo_inv f rev deg lst done -> (done < nstates f)%nat ->
  front deg lst done (nstates f) = (lst1, last) ->
  (done < last)%nat /\ (done = 0%nat -> last = 1%nat).
Proof.
  intros (P & D & L & H & O & S0) Hd Ef.
  pose proof (front_spec deg (nstates f) done lst (Nat.lt_le_incl _ _ Hd) P) as F.
  rewrite Ef in F. destruct F as (P1 & Pre & R & Z0 & NZ).
  simpl fst in *; simpl snd in *.
  pose proof P1 as (L1 & ND1 & B1).
  destruct P as (L0 & ND0 & B0).
  assert (Hlt : (done < last)%nat).
  { destruct (first_outside (firstn done lst) ord) as (pre & s & post & E & Hp & Hs).
    { exists (nth done lst 0%nat). split.
      - apply (Permutation_in _ (Permutation_sym Hperm)). apply in_seq.
        split; [lia|]. simpl. apply B0. apply nth_In. lia.
      - intros X. apply In_nth with (d := 0%nat) in X.
        destruct X as (p & Hp & Ep). rewrite firstn_length_le in Hp by lia.
        rewrite nth_firstn in Ep. destruct (Nat.ltb_spec p done); [|lia].
        apply (proj1 (NoDup_nth lst 0%nat) ND0) in Ep; lia. }
    assert (Z : nth s deg 0%Z = 0%Z).
    { rewrite H. apply pending_zero; [exact Hadj|].
      intros a Ha. apply Hp. apply (Hord pre s post E a Ha). }
    assert (Is : In s lst1).
    { apply (state_perm_in (nstates f)); [exact P1|].
      assert (X : In s ord) by (rewrite E; apply in_elt).
      apply (Permutation_in _ Hperm) in X. apply in_seq in X. lia. }
    apply In_nth with (d := 0%nat) in Is. destruct Is as (p & Hp1 & Ep).
    destruct (Nat.lt_ge_cases p done) as [C|C].
    - exfalso. apply Hs. rewrite <- Pre.
      assert (X := nth_firstn done lst1 p 0%nat).
      destruct (Nat.ltb_spec p done); [|lia].
      rewrite <- Ep, <- X. apply nth_In. rewrite firstn_length_le; lia.
    - destruct (Nat.lt_ge_cases p last) as [C'|C']; [lia|].
      exfalso. apply (NZ p); [lia|]. rewrite Ep. exact Z. }
  split; [exact Hlt|]. intros ->.
  destruct (Nat.lt_ge_cases last 2) as [C|C]; [lia|]. exfalso.
  assert (Hnil : forall p, (p < last)%nat -> arcs_into f rev (nth p lst1 0%nat) = []).
  { intros p Hp. assert (Z := Z0 p ltac:(lia)). rewrite H in Z. simpl firstn in Z.
    rewrite pending_zero in Z by exact Hadj.
    destruct (arcs_into f rev (nth p lst1 0%nat)) as [|a l]; [reflexivity|].
    destruct (Z a (or_introl eq_refl)). }
  assert (E : nth 0 lst1 0%nat = nth 1 lst1 0%nat).
  { apply Hone; try (apply Hnil; lia); apply B1; apply nth_In; lia. }
  apply (proj1 (NoDup_nth lst1 0%nat) ND1) in E; lia.
Qed.

Lemma topo_loop_complete fuel : forall deg lst done,
  topo_inv f rev deg lst done -> (nstates f - done <= fuel)%nat ->
  exists res, topo_loop fuel f rev (nstates f) deg lst done = Some (true, res).
Proof.
  induction fuel as [|fuel IH]; intros deg lst done I Hf;
    rewrite topo_loop_eq;
    destruct (Nat.leb_spec (nstates f) done) as [Hd|Hd];
    try (exists lst; reflexivity); [lia|].
  destruct (front deg lst done (nstates f)) as [lst1 last] eqn:Ef.
  destruct (pass_advances deg lst done lst1 last I Hd Ef) as [A1 A2].
  assert (C1 : ((done =? 0)%nat && negb (last =? 1)%nat)%bool = false).
  { destruct (Nat.eqb_spec done 0) as [E|E]; [|reflexivity].
    rewrite (A2 E). reflexivity. }
  rewrite C1. destruct (Nat.eqb_spec last done) as [C|C]; [lia|].
  apply IH; [|lia].
  apply (topo_inv_pass f rev Hadj deg lst done lst1 last I Hd Ef A1 A2).
Qed.

End Complete.

(** X15. When [fst_toposort] returns 1, the array it filled holds
    every state once and is a topological order: with [rev = 0] the
    source of every arc stands before its target and the first state
    is the only one that no arc enters; with [rev != 0] the target of
    every arc stands before its source and the first state is the only
    one that no arc leaves. *)
Theorem fst_toposort_sound f rev lst :
  adj_ok f = true ->
  fst_toposort f rev = Some (true, lst) ->
  Permutation lst (seq 0 (nstates f)) /\
  (forall a, (a < narcs f)%nat ->
     before lst (arc_tail f rev a) (arc_head f rev a) = true) /\
  (forall s, (s < nstates f)%nat ->
     (arcs_into f rev s = [] <-> nth 0 lst 0%nat = s)).
Proof.
  intros Hadj H. unfold fst_toposort in H.
  destruct (topo_loop_sound f rev Hadj _ _ _ _ _ (topo_inv_init f rev Hadj) H)
    as (P & O & S0).
  split; [apply state_perm_Permutation; exact P|]. split.
  - intros a Ha.
    assert (Hh : In (arc_head f rev a) lst)
      by (apply (state_perm_in (nstates f)); [exact P|apply head_lt; assumption]).
    apply in_split in Hh. destruct Hh as (pre & post & E).
    assert (Ht : In (arc_tail f rev a) pre).
    { apply (O pre (arc_head f rev a) post E). apply in_into; [exact Hadj|].
      split; [exact Ha|reflexivity]. }
    rewrite E. apply before_app.
    + rewrite <- E. apply P.
    + exact Ht.
    + left. reflexivity.
  - destruct S0 as [S0|S0]; [intros s Hs; lia|exact S0].
Qed.

Lemma fst_toposort_sound_witness :
  Permutation [0; 1; 2; 3]%nat (seq 0 (nstates (fst_addstates diamond))) /\
  (forall a, (a < narcs (fst_addstates diamond))%nat ->
     before [0; 1; 2; 3]%nat (arc_tail (fst_addstates diamond) false a)
       (arc_head (fst_addstates diamond) false a) = true) /\
  (forall s, (s < nstates (fst_addstates diamond))%nat ->
     (arcs_into (fst_addstates diamond) false s = [] <->
      nth 0 [0; 1; 2; 3]%nat 0%nat = s)).
Proof.
  apply fst_toposort_sound; vm_compute; reflexivity.
Defined.

(** X16. [fst_toposort] always returns, and it returns 1 exactly for a
    graph that has a topological order and a single state without an
    arc into it (seen from the side the sort starts at). *)
Theorem fst_toposort_accepts f rev :
  adj_ok f = true ->
  (exists b lst, fst_toposort f rev = Some (b, lst)) /\
  ((exists lst, fst_toposort f rev = Some (true, lst)) <->
   (exists ord,
      Permutation ord (seq 0 (nstates f)) /\ ordered f rev ord /\
      forall s s', (s < nstates f)%nat -> (s' < nstates f)%nat ->
        arcs_into f rev s = [] -> arcs_into f rev s' = [] -> s = s')).
Proof.
  intros Hadj. split; [|split].
  - unfold fst_toposort. apply topo_loop_total; [|lia|lia].
    split; [apply length_seq|]. split; [apply seq_NoDup|].
    intros x Hx. apply in_seq in Hx. lia.
  - intros (lst & H). unfold fst_toposort in H.
    destruct (topo_loop_sound f rev Hadj _ _ _ _ _ (topo_inv_init f rev Hadj) H)
      as (P & O & S0).
    exists lst. split; [apply state_perm_Permutation; exact P|].
    split; [exact O|]. intros s s' Hs Hs' E E'.
    destruct S0 as [S0|S0]; [lia|].
    apply S0 in E; [|exact Hs]. apply S0 in E'; [|exact Hs']. congruence.
  - intros (ord & P & O & S1). unfold fst_toposort.
    apply (topo_loop_complete f rev Hadj ord P O S1);
      [apply topo_inv_init; exact Hadj|lia].
Qed.

Lemma fst_toposort_accepts_witness :
  (exists b lst, fst_toposort (fst_addstates diamond) true = Some (b, lst)) /\
  ((exists lst, fst_toposort (fst_addstates diamond) true = Some (true, lst)) <->
   (exists ord,
      Permutation ord (seq 0 (nstates (fst_addstates diamond))) /\
      ordered (fst_addstates diamond) true ord /\
      forall s s', (s < nstates (fst_addstates diamond))%nat ->
        (s' < nstates (fst_addstates diamond))%nat ->
        arcs_into (fst_addstates diamond) true s = [] ->
        arcs_into (fst_addstates diamond) true s' = [] -> s = s')).
Proof.
  apply fst_toposort_accepts. vm_compute. reflexivity.
Defined.

(** *** [fst_addsort] *)

Lemma sort_arcs_spec v al : forall ord flg,
  NoDup al ->
  (forall a, In a al -> (a < length flg)%nat /\ nth a flg 0%Z <> v) ->
  exists flg',
    sort_arcs v (ord, flg) al = (ord ++ al, flg') /\
    length flg' = length flg /\
    (forall a, In a al -> nth a flg' 0%Z = v) /\
    (forall a, ~ In a al -> nth a flg' 0%Z = nth a flg 0%Z).
Proof.
  unfold sort_arcs.
  induction al as [|a al IH]; intros ord flg ND B.
  - exists flg. simpl. rewrite app_nil_r. repeat split; auto. intros a [].
  - inversion ND as [|? ? Hn ND']; subst.
    destruct (B a (or_introl eq_refl)) as [Ba Fa].
    simpl fold_left. destruct (Z.eqb_spec (nth a flg 0%Z) v) as [E|_]; [contradiction|].
    destruct (IH (ord ++ [a]) (upd flg a v) ND') as (flg' & E & L & H1 & H2).
    { intros b Hb. destruct (B b (or_intror Hb)) as [Bb Fb].
      rewrite upd_length. split; [exact Bb|].
      rewrite nth_upd_other; [exact Fb|]. intros ->. contradiction. }
    exists flg'. rewrite E, <- app_assoc. split; [reflexivity|].
    rewrite upd_length in L. split; [exact L|]. split.
    + intros b [<-|Hb]; [|apply H1; exact Hb].
      rewrite H2 by exact Hn. apply nth_upd_same. exact Ba.
    + intros b Hb. rewrite H2 by (intros X; apply Hb; right; exact X).
      apply nth_upd_other. intros ->. apply Hb. left. reflexivity.
Qed.

(** The loop over the states: the arcs of each state in turn, as long
    as no arc is met twice. *)
Lemma sort_states_spec v (g : nat -> list nat) lst : forall ord flg,
  NoDup (flat_map g lst) ->
  (forall a, In a (flat_map g lst) -> (a < length flg)%nat /\ nth a flg 0%Z <> v) ->
  exists flg',
    fold_left (fun st s => sort_arcs v st (g s)) lst (ord, flg) =
      (ord ++ flat_map g lst, flg') /\
    length flg' = length flg /\
    (forall a, In a (flat_map g lst) -> nth a flg' 0%Z = v) /\
    (forall a, ~ In a (flat_map g lst) -> nth a flg' 0%Z = nth a flg 0%Z).
Proof.
  induction lst as [|s lst IH]; intros ord flg ND B.
  - exists flg. simpl. rewrite app_nil_r. repeat split; auto. intros a [].
  - simpl flat_map in *. simpl fold_left.
    destruct (sort_arcs_spec v (g s) ord flg) as (flg1 & E1 & L1 & A1 & A2).
    { apply NoDup_app_remove_r in ND. exact ND. }
    { intros a Ha. apply B. apply in_or_app. left. exact Ha. }
    rewrite E1.
    destruct (IH (ord ++ g s) flg1) as (flg2 & E2 & L2 & C1 & C2).
    { apply NoDup_app_remove_l in ND. exact ND. }
    { intros a Ha. rewrite L1.
      destruct (B a (in_or_app _ _ _ (or_intror Ha))) as [Ba Fa].
      split; [exact Ba|]. rewrite A2; [exact Fa|].
      intros X. apply (nodup_app_disjoint _ _ ND a X Ha). }
    exists flg2. rewrite E2, <- app_assoc. split; [reflexivity|].
    split; [congruence|]. split.
    + intros a Ha. apply in_app_or in Ha.
      destruct (in_dec Nat.eq_dec a (flat_map g lst)) as [I|I]; [apply C1; exact I|].
      rewrite C2 by exact I. destruct Ha as [Ha|Ha]; [apply A1; exact Ha|contradiction].
    + intros a Ha. rewrite C2, A2; [reflexivity| |];
        intros X; apply Ha; apply in_or_app; [left|right]; exact X.
Qed.

Lemma flat_map_nodup (g : nat -> list nat) lst :
  NoDup lst -> (forall s, NoDup (g s)) ->
  (forall s s' a, In a (g s) -> In a (g s') -> s = s') ->
  NoDup (flat_map g lst).
Proof.
  intros ND Hg Hd. induction lst as [|s lst IH]; simpl; [constructor|].
  inversion ND as [|? ? Hn ND']; subst.
  apply NoDup_app; [apply Hg|apply IH; exact ND'|].
  intros a Ha X. apply in_flat_map in X. destruct X as (s' & Hs' & Ha').
  rewrite (Hd s s' a Ha Ha') in Hn. contradiction.
Qed.

Section Arcs.
Variable f : fst_t.
Variable rev : bool.
Hypothesis Hadj : adj_ok f = true.
Variable lst : list nat.
Hypothesis Hperm : state_perm (nstates f) lst.

Lemma from_all_nodup : NoDup (flat_map (arcs_from f rev) lst).
Proof.
  apply flat_map_nodup; [apply Hperm|apply from_nodup; exact Hadj|].
  intros s s' a H H'. apply in_from in H, H'; try exact Hadj.
  destruct H as [_ <-], H' as [_ <-]. reflexivity.
Qed.

Lemma from_all_in a :
  In a (flat_map (arcs_from f rev) lst) <-> (a < narcs f)%nat.
Proof.
  rewrite in_flat_map. split.
  - intros (s & _ & H). apply in_from in H; [|exact Hadj]. tauto.
  - intros H. exists (arc_tail f rev a). split.
    + apply (state_perm_in (nstates f)); [exact Hperm|apply tail_lt; assumption].
    + apply in_from; [exact Hadj|]. split; [exact H|reflexivity].
Qed.

Lemma from_all_perm g :
  arcs g = arcs f -> arc_perm g (flat_map (arcs_from f rev) lst) = true.
Proof.
  intros Eg. unfold arc_perm, narcs. rewrite Eg. fold (narcs f).
  apply andb_true_iff. split.
  - apply Nat.eqb_eq. rewrite <- (length_seq (narcs f) 0).
    apply Permutation_length. apply NoDup_Permutation.
    + apply from_all_nodup.
    + apply seq_NoDup.
    + intros a. rewrite from_all_in, in_seq. lia.
  - apply forallb_forall. intros a Ha. apply in_seq in Ha.
    apply existsb_eqb_in. apply from_all_in. lia.
Qed.

(** The arcs that leave the states in topological order are in
    topological order. *)
Lemma from_all_sorted e i :
  ordered f rev lst -> (e < narcs f)%nat ->
  In i (arcs_into f rev (arc_tail f rev e)) ->
  before (flat_map (arcs_from f rev) lst) i e = true.
Proof.
  intros O He Hi.
  assert (Ht : In (arc_tail f rev e) lst)
    by (apply (state_perm_in (nstates f)); [exact Hperm|apply tail_lt; assumption]).
  apply in_split in Ht. destruct Ht as (pre & post & E).
  pose proof (O pre _ post E i Hi) as Hp.
  pose proof from_all_nodup as ND. rewrite E in ND |- *.
  rewrite flat_map_app in ND |- *. apply before_app; [exact ND| |].
  - apply in_flat_map. exists (arc_tail f rev i). split; [exact Hp|].
    apply in_into in Hi; [|exact Hadj].
    apply in_from; [exact Hadj|]. split; [tauto|reflexivity].
  - simpl. apply in_or_app. left. apply in_from; [exact Hadj|].
    split; [exact He|reflexivity].
Qed.

End Arcs.

(** X17. When both topological sorts accept the transducer,
    [fst_addsort] leaves in [s2t] an order of all the arcs in which the
    arcs into the source of an arc come before it, and in [t2s] one in
    which the arcs out of the target of an arc come before it: the
    orders the forward and the backward recursions rely on.  Each
    is the arcs of the states taken in their sorted order. *)
Theorem fst_addsort_orders f l1 l2 :
  adj_ok f = true ->
  fst_toposort f false = Some (true, l1) ->
  fst_toposort f true = Some (true, l2) ->
  exists f',
    fst_addsort f = Some (true, f') /\
    arcs f' = arcs f /\ states f' = states f /\ nstates f' = nstates f /\
    s2t f' = flat_map (fun s => olst (get_state f s)) l1 /\
    t2s f' = flat_map (fun s => ilst (get_state f s)) l2 /\
    fwd_sorted f' (s2t f') = true /\ bwd_sorted f' (t2s f') = true.
Proof.
  intros Hadj H1 H2. unfold fst_addsort. rewrite H1, H2.
  unfold fst_toposort in H1, H2.
  destruct (topo_loop_sound f false Hadj _ _ _ _ _ (topo_inv_init f false Hadj) H1)
    as (P1 & O1 & _).
  destruct (topo_loop_sound f true Hadj _ _ _ _ _ (topo_inv_init f true Hadj) H2)
    as (P2 & O2 & _).
  destruct (sort_states_spec 1%Z (arcs_from f false) l1 [] (repeat 0%Z (narcs f)))
    as (flg1 & E1 & L1 & A1 & _).
  { apply from_all_nodup; assumption. }
  { intros a Ha. apply from_all_in in Ha; try assumption.
    rewrite repeat_length. split; [exact Ha|].
    rewrite nth_repeat_lt by exact Ha. discriminate. }
  destruct (sort_states_spec 2%Z (arcs_from f true) l2 [] flg1)
    as (flg2 & E2 & _).
  { apply from_all_nodup; assumption. }
  { intros a Ha. apply from_all_in in Ha; try assumption.
    rewrite L1, repeat_length. split; [exact Ha|].
    rewrite A1 by (apply from_all_in; assumption). discriminate. }
  unfold sort_fwd, sort_bwd.
  change (fun st s => sort_arcs 1 st (olst (get_state f s)))
    with (fun st s => sort_arcs 1 st (arcs_from f false s)).
  change (fun st s => sort_arcs 2 st (ilst (get_state f s)))
    with (fun st s => sort_arcs 2 st (arcs_from f true s)).
  rewrite E1, E2. simpl app.
  eexists. split; [reflexivity|]. simpl arcs; simpl states; simpl nstates;
    simpl s2t; simpl t2s.
  split; [reflexivity|]. split; [reflexivity|]. split; [reflexivity|].
  split; [reflexivity|]. split; [reflexivity|].
  unfold fwd_sorted, bwd_sorted. rewrite !andb_true_iff.
  split; (split; [apply from_all_perm; [assumption|assumption|reflexivity]|]).
  - apply forallb_forall. intros e He. apply in_seq in He.
    apply forallb_forall. intros i Hi.
    apply (from_all_sorted f false Hadj l1 P1 e i O1); [exact (proj2 He)|exact Hi].
  - apply forallb_forall. intros e He. apply in_seq in He.
    apply forallb_forall. intros i Hi.
    apply (from_all_sorted f true Hadj l2 P2 e i O2); [exact (proj2 He)|exact Hi].
Qed.

Lemma fst_addsort_orders_witness :
  exists f',
    fst_addsort (fst_addstates diamond) = Some (true, f') /\
    arcs f' = arcs (fst_addstates diamond) /\
    states f' = states (fst_addstates diamond) /\
    nstates f' = nstates (fst_addstates diamond) /\
    s2t f' = flat_map (fun s => olst (get_state (fst_addstates diamond) s))
               [0; 1; 2; 3]%nat /\
    t2s f' = flat_map (fun s => ilst (get_state (fst_addstates diamond) s))
               [3; 1; 2; 0]%nat /\
    fwd_sorted f' (s2t f') = true /\ bwd_sorted f' (t2s f') = true.
Proof.
  apply fst_addsort_orders; vm_compute; reflexivity.
Defined.

End Topo.

(** ** What [dat_parse] accepts and what it builds *)

Module Parse.
Import Fst Dat Valid Topo.

(** The four kinds of lines of a sample. *)
Inductive kind := Skipped | Malformed | Final | Arc.

Definition line_kind (line : string) : kind :=
  let ntoks := length (str_splitsp line (4 + MAX_REAL)) in
  match line with
  | String "#" _ => Skipped
  | _ =>
      if (ntoks =? 0)%nat then Skipped
      else if (ntoks =? 3)%nat then Malformed
      else if (ntoks <=? 2)%nat then Final
      else Arc
  end.

Definition is_kind (k : kind) (line : string) : bool :=
  match line_kind line, k with
  | Skipped, Skipped | Malformed, Malformed | Final, Final | Arc, Arc => true
  | _, _ => false
  end.

Definition count_kind (k : kind) (lns : list string) : nat :=
  length (filter (is_kind k) lns).

(** The states are numbered without a gap and the arcs name no other
    state. *)
Definition dense (n : nat) (al : list arc_t) : Prop :=
  (forall a, In a al -> (src a < n)%nat /\ (trg a < n)%nat) /\
  (forall s, (s < n)%nat -> exists a, In a al /\ (src a = s \/ trg a = s)).

Lemma voc_find_bound voc key : forall i0 i,
  voc_find voc key i0 = Some i -> (i0 <= i < i0 + length voc)%nat.
Proof.
  induction voc as [|k voc IH]; intros i0 i H; simpl in H; [discriminate|].
  destruct (String.eqb k key).
  - injection H as <-. simpl. lia.
  - apply IH in H. simpl. lia.
Qed.

(** An identifier given is below the new count, and the count grows
    by one exactly when the identifier is the old count. *)
Lemma list_str2id_bound voc key :
  let '(i, voc') := voc_str2id voc key in
  (i <= length voc)%nat /\
  length voc' = Nat.max (length voc) (i + 1).
Proof.
  unfold voc_str2id. destruct (voc_find voc key 0) as [i|] eqn:E.
  - apply voc_find_bound in E. split; lia.
  - rewrite length_app. simpl. split; lia.
Qed.

Record parse_inv (st : parse_st) (done : list string) : Prop := mk_parse_inv {
  pi_states : p_nstates st = length (p_sts st);
  pi_dense : dense (p_nstates st) (p_arcs st);
  pi_arcs : length (p_arcs st) = count_kind Arc done;
  pi_final : match p_final st with
             | Some _ => count_kind Final done = 1%nat
             | None => count_kind Final done = 0%nat
             end;
  pi_good : count_kind Malformed done = 0%nat;
  pi_first : match p_arcs st with
             | a :: _ => src a = 0%nat
             | [] => p_sts st = []
             end
}.

Lemma count_kind_snoc k done line :
  count_kind k (done ++ [line]) =
  (count_kind k done + if is_kind k line then 1 else 0)%nat.
Proof.
  unfold count_kind. rewrite filter_app, length_app. simpl.
  destruct (is_kind k line); reflexivity.
Qed.

Lemma parse_line_kind st line :
  parse_line st line =
  match line_kind line with
  | Skipped => Some st
  | Malformed => None
  | Final =>
      match p_final st with
      | Some _ => None
      | None => Some (mk_parse (p_arcs st) (p_nstates st) (p_sts st)
                        (Some (nth 0 (str_splitsp line (4 + MAX_REAL)) EmptyString)))
      end
  | Arc =>
      let toks := str_splitsp line (4 + MAX_REAL) in
      let '(s, voc1) := voc_str2id (p_sts st) (nth 0 toks EmptyString) in
      let '(t, voc2) := voc_str2id voc1 (nth 1 toks EmptyString) in
      let ns := Nat.max (Nat.max (p_nstates st) (s + 1)) (t + 1) in
      let a := mk_arc s t (nth 2 toks EmptyString) (nth 3 toks EmptyString)
                 0 0 0 0 in
      Some (mk_parse (p_arcs st ++ [a]) ns voc2 (p_final st))
  end.
Proof.
  unfold parse_line, line_kind.
  destruct line as [|c line]; [reflexivity|].
  destruct c as [[] [] [] [] [] [] [] []];
    try reflexivity;
    destruct (length (str_splitsp _ (4 + MAX_REAL)) =? 0)%nat; try reflexivity;
    destruct (length (str_splitsp _ (4 + MAX_REAL)) =? 3)%nat; try reflexivity;
    destruct (length (str_splitsp _ (4 + MAX_REAL)) <=? 2)%nat; reflexivity.
Qed.

Lemma is_kind_iff k line : is_kind k line = true <-> line_kind line = k.
Proof. unfold is_kind. destruct (line_kind line), k; split; congruence. Qed.

Lemma is_kind_other k line : line_kind line <> k -> is_kind k line = false.
Proof.
  intros H. destruct (is_kind k line) eqn:E; [|reflexivity].
  apply is_kind_iff in E. contradiction.
Qed.


Lemma dense_snoc n al s t :
  dense n al -> (s <= n)%nat -> (t <= Nat.max n (s + 1))%nat ->
  forall il ol,
  dense (Nat.max (Nat.max n (s + 1)) (t + 1))
        (al ++ [mk_arc s t il ol 0 0 0 0]).
Proof.
  intros [B D] Hs Ht il ol. split.
  - intros a Ha. apply in_app_or in Ha. destruct Ha as [Ha|[<-|[]]].
    + destruct (B a Ha). lia.
    + simpl. lia.
  - intros x Hx.
    destruct (Nat.lt_ge_cases x n) as [Hn|Hn].
    + destruct (D x Hn) as (a & Ha & E). exists a. split; [|exact E].
      apply in_or_app. left. exact Ha.
    + exists (mk_arc s t il ol 0 0 0 0). split; [apply in_or_app; right; left; reflexivity|].
      simpl. lia.
Qed.

(** A line that is taken keeps the invariant; a line is refused when
    it is malformed or is a second final line. *)
Lemma parse_line_inv st done line :
  parse_inv st done ->
  match parse_line st line with
  | Some st' => parse_inv st' (done ++ [line])
  | None => line_kind line = Malformed \/
            (line_kind line = Final /\ count_kind Final done = 1%nat)
  end.
Proof.
  intros [Hn Hd Ha Hf Hg H1]. rewrite parse_line_kind.
  destruct (line_kind line) eqn:K.
  - constructor; auto; rewrite ?count_kind_snoc, ?is_kind_other by congruence;
      try lia. destruct (p_final st); lia.
  - left. reflexivity.
  - destruct (p_final st) as [fin|] eqn:Ef.
    + right. split; [reflexivity|exact Hf].
    + constructor; simpl; auto; rewrite count_kind_snoc.
      * rewrite is_kind_other by congruence. lia.
      * rewrite (proj2 (is_kind_iff Final line) K). lia.
      * rewrite is_kind_other by congruence. lia.
  - set (toks := str_splitsp line (4 + MAX_REAL)).
    pose proof (list_str2id_bound (p_sts st) (nth 0 toks EmptyString)) as B1.
    cbv zeta. destruct (voc_str2id (p_sts st) (nth 0 toks EmptyString)) as [s voc1] eqn:E1.
    pose proof (list_str2id_bound voc1 (nth 1 toks EmptyString)) as B2.
    destruct (voc_str2id voc1 (nth 1 toks EmptyString)) as [t voc2] eqn:E2.
    destruct B1 as [B1 L1]. destruct B2 as [B2 L2].
    constructor; simpl.
    + lia.
    + apply dense_snoc; [exact Hd|lia|lia].
    + rewrite length_app, count_kind_snoc, (proj2 (is_kind_iff Arc line) K). simpl. lia.
    + rewrite count_kind_snoc, is_kind_other by congruence.
      destruct (p_final st); lia.
    + rewrite count_kind_snoc, is_kind_other by congruence. lia.
    + destruct (p_arcs st) as [|a al]; [|exact H1].
      simpl. rewrite H1 in E1. unfold voc_str2id in E1. simpl in E1.
      injection E1 as <- _. reflexivity.
Qed.

Lemma parse_lines_inv lns : forall st done,
  parse_inv st done ->
  match parse_lines st lns with
  | Some st' => parse_inv st' (done ++ lns)
  | None => (0 < count_kind Malformed lns)%nat \/
            (2 <= count_kind Final (done ++ lns))%nat
  end.
Proof.
  induction lns as [|l lns IH]; intros st done I.
  - simpl. rewrite app_nil_r. exact I.
  - simpl. pose proof (parse_line_inv st done l I) as H.
    destruct (parse_line st l) as [st1|].
    + specialize (IH st1 (done ++ [l]) H). rewrite <- app_assoc in IH. simpl in IH.
      destruct (parse_lines st1 lns); [exact IH|].
      destruct IH as [IH|IH]; [left|right; exact IH].
      unfold count_kind in *. simpl. destruct (is_kind Malformed l); simpl; lia.
    + destruct H as [H|[H C]].
      * left. unfold count_kind. simpl. apply is_kind_iff in H. rewrite H. simpl. lia.
      * right. unfold count_kind in *. rewrite filter_app, length_app. simpl.
        apply is_kind_iff in H. rewrite H. simpl. lia.
Qed.

Lemma parse_inv_init : parse_inv (mk_parse [] 0 [] None) [].
Proof.
  constructor; simpl; auto. split; [intros a []|intros s Hs; lia].
Qed.

(** X22. [dat_parse] accepts a sample exactly when no line other than
    a comment holds three tokens and one line, no more and no less,
    holds one or two tokens (the final state); lines that start with
    [#] and lines without a token are skipped. *)
Theorem dat_parse_accepts lns :
  (exists f, dat_parse lns = Some f) <->
  count_kind Malformed lns = 0%nat /\ count_kind Final lns = 1%nat.
Proof.
  unfold dat_parse.
  pose proof (parse_lines_inv lns _ [] parse_inv_init) as H. simpl in H.
  destruct (parse_lines (mk_parse [] 0 [] None) lns) as [st|].
  - destruct H as [_ _ _ Hf Hg _]. destruct (p_final st) as [fin|].
    + split; [intros _; split; assumption|]. intros _. eexists. reflexivity.
    + split; [intros (f & X); discriminate|]. intros [_ X]. lia.
  - split; [intros (f & X); discriminate|]. intros [X Y]. lia.
Qed.

Lemma addstates_adj_ok f :
  (forall a, In a (arcs f) -> (src a < nstates f)%nat /\ (trg a < nstates f)%nat) ->
  adj_ok (fst_addstates f) = true.
Proof.
  intros B.
  destruct (fill_states_spec (arcs f) [] (repeat state0 (nstates f))) as [L H].
  { intros a Ha. rewrite repeat_length. apply B. exact Ha. }
  rewrite repeat_length in L. simpl length in L, H. simpl app in H.
  assert (Z0 : forall s, nth s (repeat state0 (nstates f)) state0 = state0).
  { intros s. destruct (Nat.lt_ge_cases s (nstates f)).
    - apply nth_repeat_lt; assumption.
    - apply nth_overflow. rewrite repeat_length. assumption. }
  unfold adj_ok. rewrite !andb_true_iff. repeat split.
  - apply Nat.eqb_eq. exact L.
  - apply forallb_forall. intros a Ha. destruct (B a Ha).
    apply andb_true_iff. split; apply Nat.ltb_lt; assumption.
  - apply forallb_forall. intros s _. destruct (H s) as [Hi Ho].
    rewrite Z0 in Hi, Ho.
    assert (Hi' : ilst (get_state (fst_addstates f) s) = in_arcs f s) by exact Hi.
    assert (Ho' : olst (get_state (fst_addstates f) s) = out_arcs f s) by exact Ho.
    apply andb_true_iff. unfold list_eqb.
    change (in_arcs (fst_addstates f) s) with (in_arcs f s).
    change (out_arcs (fst_addstates f) s) with (out_arcs f s).
    split; destruct list_eq_dec; congruence.
Qed.

(** X23. The transducer that [dat_parse] returns has one arc for each
    line of four tokens, in the order of the lines; its states are
    numbered from 0 without a gap, every state being an end of some
    arc and every arc naming states below [nstates]; the source of the
    first arc is state 0; the final state is at most [nstates] (it is
    [nstates] itself when its name is the end of no arc).  Its
    multiplier is 0 and it has no state lists yet; [fst_addstates]
    can be run on it and gives every state its arcs. *)
Theorem dat_parse_builds lns f :
  dat_parse lns = Some f ->
  narcs f = count_kind Arc lns /\
  dense (nstates f) (arcs f) /\
  (final f <= nstates f)%nat /\
  (forall a rest, arcs f = a :: rest -> src a = 0%nat) /\
  states f = [] /\ mult f = 0 /\
  adj_ok (fst_addstates f) = true.
Proof.
  unfold dat_parse.
  pose proof (parse_lines_inv lns _ [] parse_inv_init) as H. simpl in H.
  destruct (parse_lines (mk_parse [] 0 [] None) lns) as [st|]; [|discriminate].
  destruct H as [Hn Hd Ha _ _ H1].
  destruct (p_final st) as [fin|]; [|discriminate].
  intros E. injection E as <-. simpl. unfold narcs. simpl.
  split; [exact Ha|]. split; [exact Hd|]. split.
  { pose proof (list_str2id_bound (p_sts st) fin) as B.
    destruct (voc_str2id (p_sts st) fin) as [i voc']. simpl. lia. }
  split.
  { intros a rest E. rewrite E in H1. exact H1. }
  split; [reflexivity|]. split; [reflexivity|].
  apply addstates_adj_ok. simpl. apply Hd.
Qed.

(** A sample of two arcs in a row. *)
Definition chain_lines : list string := ["s0 s1 a x"; "s1 s2 b y"; "s2"]%string.
Definition chain_fst : fst_t :=
  mk_fst 0 3 2 [mk_arc 0 1 "a" "x" 0 0 0 0; mk_arc 1 2 "b" "y" 0 0 0 0] [] [] [].

Lemma dat_parse_builds_witness :
  narcs chain_fst = count_kind Arc chain_lines /\
  dense (nstates chain_fst) (arcs chain_fst) /\
  (final chain_fst <= nstates chain_fst)%nat /\
  (forall a rest, arcs chain_fst = a :: rest -> src a = 0%nat) /\
  states chain_fst = [] /\ mult chain_fst = 0 /\
  adj_ok (fst_addstates chain_fst) = true.
Proof.
  apply (dat_parse_builds chain_lines chain_fst). vm_compute. reflexivity.
Defined.


(** *** [dat_load] and the end-of-sample marks *)

Lemma readeos_rest file :
  (length (fst (str_readeos file)) + length (snd (str_readeos file)) <= length file)%nat.
Proof.
  induction file as [|l file IH]; simpl; [lia|].
  destruct (is_eos l); simpl; [lia|].
  destruct (str_readeos file) as [lns rest]. simpl in *. lia.
Qed.

(** Reading a sample from a file that goes on with [X]. *)
Lemma readeos_app A X :
  str_readeos (A ++ X) =
  if existsb is_eos A
  then (fst (str_readeos A), snd (str_readeos A) ++ X)
  else (A ++ fst (str_readeos X), snd (str_readeos X)).
Proof.
  induction A as [|l A IH]; simpl.
  - destruct (str_readeos X); reflexivity.
  - destruct (is_eos l); simpl; [reflexivity|].
    rewrite IH. destruct (existsb is_eos A); destruct (str_readeos A);
      destruct (str_readeos X); reflexivity.
Qed.

(** The loop needs no more turns than the file has lines. *)
Lemma load_loop_fuel mult : forall f1 f2 file dat ln,
  (length file <= f1)%nat -> (length file <= f2)%nat ->
  load_loop f1 file mult dat ln = load_loop f2 file mult dat ln /\
  exists r, load_loop f1 file mult dat ln = Some r.
Proof.
  induction f1 as [|f1 IH]; intros f2 file dat ln H1 H2.
  - destruct file; [|simpl in H1; lia].
    destruct f2; simpl; (split; [reflexivity|eexists; reflexivity]).
  - destruct file as [|l file]; [destruct f2; simpl; (split; [reflexivity|eexists; reflexivity])|].
    destruct f2 as [|f2]; [simpl in H2; lia|].
    cbn [load_loop].
    pose proof (readeos_rest (l :: file)) as R.
    destruct (str_readeos (l :: file)) as [lns rest]. simpl fst in R; simpl snd in R.
    destruct lns as [|l0 lns]; [split; [reflexivity|eexists; reflexivity]|].
    destruct (dat_parse (l0 :: lns)); [|split; [reflexivity|eexists; reflexivity]].
    apply IH; simpl in *; lia.
Qed.

Lemma load_loop_step mult f file dat ln :
  file <> [] ->
  load_loop (S f) file mult dat ln =
  match fst (str_readeos file) with
  | [] => Some (Loaded dat)
  | l0 :: ls =>
      match dat_parse (l0 :: ls) with
      | None => Some (NullDeref ln)
      | Some t =>
          load_loop f (snd (str_readeos file)) mult
            (dat ++ [mk_fst mult (nstates t) (final t) (arcs t)
                       (states t) (s2t t) (t2s t)])
            (ln + length (l0 :: ls))
      end
  end.
Proof.
  intros H. destruct file as [|l file]; [contradiction|].
  cbn [load_loop]. destruct (str_readeos (l :: file)) as [lns rest].
  destruct lns; reflexivity.
Qed.

Lemma load_loop_blank mult e1 e2 B : forall n A f1 f2 dat ln,
  (length A <= n)%nat ->
  is_eos e1 = true -> is_eos e2 = true ->
  (length (A ++ e1 :: e2 :: B) <= f1)%nat -> (length (A ++ [e1]) <= f2)%nat ->
  load_loop f1 (A ++ e1 :: e2 :: B) mult dat ln =
  load_loop f2 (A ++ [e1]) mult dat ln.
Proof.
  induction n as [|n IH]; intros A f1 f2 dat ln Hn E1 E2 H1 H2;
    rewrite length_app in H1, H2; simpl in H1, H2;
    (destruct f1 as [|f1]; [lia|]); (destruct f2 as [|f2]; [lia|]);
    rewrite !load_loop_step by (destruct A; discriminate);
    rewrite (readeos_app A (e1 :: e2 :: B)), (readeos_app A [e1]).
  - destruct A; [|simpl in Hn; lia]. simpl. rewrite E1. reflexivity.
  - pose proof (readeos_rest A) as R.
    destruct (existsb is_eos A) eqn:Ex.
    + destruct (str_readeos A) as [lns rest] eqn:Er. simpl fst in *; simpl snd in *.
      destruct lns as [|l0 lns]; [reflexivity|].
      destruct (dat_parse (l0 :: lns)); [|reflexivity].
      apply IH; try assumption; rewrite ?length_app; simpl in *; lia.
    + simpl str_readeos. rewrite E1. simpl fst; simpl snd. rewrite app_nil_r.
      destruct A as [|l0 A']; [reflexivity|].
      destruct (dat_parse (l0 :: A')); [|reflexivity].
      destruct f1 as [|f1]; [simpl in H1; lia|].
      rewrite load_loop_step by discriminate.
      simpl str_readeos. rewrite E2. simpl fst.
      destruct f2; reflexivity.
Qed.


Definition eos_mark : string := "EOS".
Definition eos_padded : string := " EOS ".



(** *** [str_splitsp] *)

(** A token: one character at least, none of them a space. *)
Fixpoint no_space (t : string) : bool :=
  match t with
  | EmptyString => true
  | String c t' => negb (isspace c) && no_space t'
  end.
Definition word (t : string) : Prop := t <> EmptyString /\ no_space t = true.

Lemma append_nil_r (s : string) : (s ++ "")%string = s.
Proof. induction s as [|c s IH]; simpl; [reflexivity|rewrite IH; reflexivity]. Qed.

Lemma append_assoc_s (a b c : string) : ((a ++ b) ++ c)%string = (a ++ (b ++ c))%string.
Proof. induction a as [|x a IH]; simpl; [reflexivity|rewrite IH; reflexivity]. Qed.

Lemma no_space_app a b : no_space (a ++ b) = no_space a && no_space b.
Proof.
  induction a as [|x a IH]; simpl; [reflexivity|].
  rewrite IH, andb_assoc. reflexivity.
Qed.

Lemma is_empty_app cur c : is_empty (cur ++ String c "") = false.
Proof. destruct cur; reflexivity. Qed.

Lemma is_empty_false t : t <> EmptyString -> is_empty t = false.
Proof. destruct t; [contradiction|reflexivity]. Qed.

Lemma tokens_words s : forall cur,
  no_space cur = true -> Forall word (tokens s cur).
Proof.
  induction s as [|c s IH]; intros cur Hc; simpl.
  - destruct cur; simpl; constructor; [|constructor].
    split; [discriminate|exact Hc].
  - destruct (isspace c) eqn:Ec.
    + destruct cur; simpl; [apply IH; reflexivity|].
      constructor; [split; [discriminate|exact Hc]|apply IH; reflexivity].
    + apply IH. rewrite no_space_app, Hc. simpl. rewrite Ec. reflexivity.
Qed.

Lemma tokens_word_prefix t : forall s cur,
  no_space t = true -> tokens (t ++ s) cur = tokens s (cur ++ t).
Proof.
  induction t as [|c t IH]; intros s cur H; simpl.
  - rewrite append_nil_r. reflexivity.
  - simpl in H. apply andb_true_iff in H. destruct H as [Hc Ht].
    apply negb_true_iff in Hc. rewrite Hc, (IH _ _ Ht), append_assoc_s. reflexivity.
Qed.

Lemma tokens_concat toks :
  Forall word toks -> tokens (String.concat " " toks) "" = toks.
Proof.
  induction toks as [|x toks IH]; intros H; [reflexivity|].
  apply Forall_cons_iff in H. destruct H as [[Hx Nx] H].
  destruct toks as [|y toks].
  - simpl. rewrite <- (append_nil_r x) at 1.
    rewrite (tokens_word_prefix x "" "" Nx). simpl.
    rewrite (is_empty_false x Hx). reflexivity.
  - change (String.concat " " (x :: y :: toks))
      with (x ++ (" " ++ String.concat " " (y :: toks)))%string.
    rewrite (tokens_word_prefix x _ "" Nx).
    change (" " ++ String.concat " " (y :: toks))%string
      with (String " " (String.concat " " (y :: toks))).
    cbn [tokens]. change (isspace " ") with true. cbn [append].
    rewrite (is_empty_false x Hx), (IH H). reflexivity.
Qed.

(** X25. [str_splitsp] returns at most [n] tokens, each of them
    non-empty and free of white space; a line made of such tokens
    separated by single spaces is split back into them, the first [n]
    being kept. *)
Theorem str_splitsp_tokens s n :
  (length (str_splitsp s n) <= n)%nat /\
  Forall word (str_splitsp s n) /\
  (forall toks, Forall word toks ->
     str_splitsp (String.concat " " toks) n = firstn n toks).
Proof.
  unfold str_splitsp. split; [apply firstn_le_length|]. split.
  - apply Forall_forall. intros t Ht.
    pose proof (tokens_words s "" eq_refl) as F. rewrite Forall_forall in F.
    apply F. rewrite <- (firstn_skipn n (tokens s "")).
    apply in_or_app. left. exact Ht.
  - intros toks H. rewrite (tokens_concat toks H). reflexivity.
Qed.

End Parse.

(** ** Gradient engine: [logsum] and [grd_fwdbwd] *)

Module Grd.
Import Fst Pass.

Section Libm.

(** [exp] and [log] of the C library. *)
Variables exp_ log_ : Q -> Q.

Definition logsum (a b : Q) : Q :=
  if Qeq_bool a (- DBL_MAX) then b
  else if Qlt_b b a then a + log_ (1 + exp_ (b - a))
  else b + log_ (1 + exp_ (a - b)).

(** The terms summed for the arc [o] out of [st], at out-position [no]:
    [ao->psi + st->psi[ni][no] + ai->alpha] for every in-position. *)
Definition fwd_terms (f : fst_t) (al : list arc_t) (o : nat) : list Q :=
  let ao := nth o al arc0 in
  let st := get_state f (src ao) in
  let no := find_pos o (olst st) in
  map (fun ni => psi ao + spsi_at st ni no + alpha (nth (nth ni (ilst st) 0%nat) al arc0))
    (seq 0 (length (ilst st))).

(** One pass of the forward loop. *)
Definition fwd_arc (f : fst_t) (al : list arc_t) (o : nat) : arc_t :=
  let ao := nth o al arc0 in
  if (src ao =? 0)%nat then set_alpha ao (psi ao)
  else set_alpha ao (fold_left logsum (fwd_terms f al o) (- DBL_MAX)).

Definition bwd_terms (f : fst_t) (al : list arc_t) (i : nat) : list Q :=
  let ai := nth i al arc0 in
  let st := get_state f (trg ai) in
  let ni := find_pos i (ilst st) in
  map (fun no =>
         let ao := nth (nth no (olst st) 0%nat) al arc0 in
         psi ao + spsi_at st ni no + beta ao)
    (seq 0 (length (olst st))).

(** One pass of the backward loop. *)
Definition bwd_arc (f : fst_t) (al : list arc_t) (i : nat) : arc_t :=
  let ai := nth i al arc0 in
  if (trg ai =? final f)%nat then set_beta ai 0
  else set_beta ai (fold_left logsum (bwd_terms f al i) (- DBL_MAX)).

Definition grd_forward (f : fst_t) : list arc_t :=
  run (fwd_arc f) (visit (narcs f) (s2t f)) (arcs f).

Definition grd_fwdbwd (f : fst_t) : fst_t :=
  let al := grd_forward f in
  with_arcs f (run (bwd_arc f) (visit (narcs f) (t2s f)) al).

Lemma fwd_arc_static f al o : static (fwd_arc f al o) = static (nth o al arc0).
Proof. unfold fwd_arc. destruct (_ =? _)%nat; reflexivity. Qed.

Lemma bwd_arc_alpha f al i : alpha (bwd_arc f al i) = alpha (nth i al arc0).
Proof. unfold bwd_arc. destruct (_ =? _)%nat; reflexivity. Qed.

(** The backward loop leaves the forward scores alone. *)
Lemma grd_fwdbwd_alpha f e :
  alpha (get_arc (grd_fwdbwd f) e) = alpha (nth e (grd_forward f) arc0).
Proof.
  unfold grd_fwdbwd, get_arc. simpl.
  apply (run_keeps alpha). apply bwd_arc_alpha.
Qed.

Lemma logsum_sentinel_left b : logsum (- DBL_MAX) b = b.
Proof.
  unfold logsum.
  assert (E : Qeq_bool (- DBL_MAX) (- DBL_MAX) = true)
    by (apply Qeq_bool_iff; reflexivity).
  rewrite E. reflexivity.
Qed.

(** With an [exp] that underflows to 0 and [log 1 = 0], adding the
    sentinel on the right changes nothing. *)
Lemma logsum_sentinel_right a :
  (forall t, t <= - (746 # 1) -> exp_ t == 0) ->
  (forall u, u == 1 -> log_ u == 0) ->
  a == - DBL_MAX \/ - DBL_MAX + (746 # 1) <= a ->
  logsum a (- DBL_MAX) == a.
Proof.
  intros Hexp Hlog Ha. unfold logsum.
  destruct (Qeq_bool a (- DBL_MAX)) eqn:E.
  - apply Qeq_bool_iff in E. symmetry. exact E.
  - destruct Ha as [Ha|Ha].
    + apply Qeq_bool_iff in Ha. congruence.
    + assert (L : Qlt_b (- DBL_MAX) a = true) by (apply Qlt_b_true; lra).
      rewrite L.
      assert (X : exp_ (- DBL_MAX - a) == 0) by (apply Hexp; lra).
      assert (Y : log_ (1 + exp_ (- DBL_MAX - a)) == 0) by (apply Hlog; lra).
      lra.
Qed.


End Libm.

(** Stand-ins for [exp] and [log] with the two properties used: the
    underflow of [exp] and [log 1 = 0]. *)
Definition exp_flat (t : Q) : Q := if Qle_bool t (- (746 # 1)) then 0 else 1.
Definition log_lin (u : Q) : Q := u - 1.

Lemma exp_flat_underflow t : t <= - (746 # 1) -> exp_flat t == 0.
Proof.
  intros H. unfold exp_flat. apply Qle_bool_iff in H. rewrite H. reflexivity.
Qed.

Lemma log_lin_one u : u == 1 -> log_lin u == 0.
Proof. intros H. unfold log_lin. rewrite H. reflexivity. Qed.

(** A chain 0 -> 1 -> 2 -> 3 with two arcs from 1 to 2; the arc
    potentials are 1, 2, 3 and 0, the bigram potentials 0. *)
Definition braid : fst_t :=
  add_states_sort
    (mk_fst 1 4 3
       [mk_arc 0 1 "a" "a" 1 0 0 0; mk_arc 1 2 "b" "b" 2 0 0 0;
        mk_arc 1 2 "c" "c" 3 0 0 0; mk_arc 2 3 "d" "d" 0 0 0 0] [] [] []).


End Grd.

(** ** The backward recursion of [grd_fwdbwd] *)

Module Backward.
Import Fst Pass Valid Grd.

Section OrderedPass.
Variable f : fst_t.
Variable body : list arc_t -> nat -> arc_t.
Variable ord : list nat.
Variable al0 : list arc_t.
Variable dep : nat -> list nat.
Hypothesis Hlen : length al0 = narcs f.
Hypothesis Hperm : arc_perm f ord = true.
Hypothesis Hdep : forall e i,
  (e < narcs f)%nat -> In i (dep e) -> before ord i e = true.

(** A loop over the arcs in the order [ord], started on [al0]: the arc
    [e] keeps what its pass wrote; that pass found [e] as it was in
    [al0] and the arcs [e] depends on with their last values. *)
Lemma ordered_pass_value e :
  (e < narcs f)%nat ->
  exists X,
    nth e (run body (visit (narcs f) ord) al0) arc0 = body X e /\
    nth e X arc0 = nth e al0 arc0 /\
    (forall i, In i (dep e) ->
       nth i X arc0 = nth i (run body (visit (narcs f) ord) al0) arc0).
Proof.
  intros He. destruct (arc_perm_nodup _ _ Hperm) as (L & ND & I).
  rewrite <- L, visit_full.
  destruct (in_split e ord) as (pre & post & E); [apply I; exact He|].
  assert (NDall : NoDup (pre ++ e :: post)) by (rewrite <- E; exact ND).
  assert (Npost : ~ In e post).
  { apply NoDup_remove_2 in NDall. intro. apply NDall.
    apply in_or_app. right. assumption. }
  assert (Npre : ~ In e pre).
  { apply NoDup_remove_2 in NDall. intro. apply NDall.
    apply in_or_app. left. assumption. }
  exists (run body pre al0). split; [|split].
  - rewrite E. apply run_nth_visited; [assumption|lia].
  - apply run_nth_notin. exact Npre.
  - intros i Hi. rewrite E.
    symmetry. apply run_nth_earlier.
    assert (Hpre : In i pre) by (eapply before_in_pre; eauto).
    intros [<-|Hp]; [contradiction|].
    clear - NDall Hpre Hp.
    induction pre as [|a pre IH]; [destruct Hpre|].
    simpl in NDall. inversion NDall as [|? ? Hn ND']; subst.
    destruct Hpre as [->|Hpre]; [|auto].
    apply Hn. apply in_or_app. right. right. exact Hp.
Qed.

End OrderedPass.

Section Libm.
Variables exp_ log_ : Q -> Q.

Lemma bwd_arc_static f al i :
  static (bwd_arc exp_ log_ f al i) = static (nth i al arc0).
Proof. unfold bwd_arc. destruct (_ =? _)%nat; reflexivity. Qed.

Lemma grd_forward_static f e :
  static (nth e (grd_forward exp_ log_ f) arc0) = static (get_arc f e).
Proof. unfold grd_forward, get_arc. apply run_static. apply fwd_arc_static. Qed.

Lemma grd_forward_length f : length (grd_forward exp_ log_ f) = narcs f.
Proof. unfold grd_forward. apply run_length. Qed.

Lemma grd_fwdbwd_static f e :
  static (get_arc (grd_fwdbwd exp_ log_ f) e) = static (get_arc f e).
Proof.
  unfold grd_fwdbwd, get_arc at 1, with_arcs. simpl arcs.
  rewrite (run_static (bwd_arc exp_ log_ f) (bwd_arc_static f)).
  apply grd_forward_static.
Qed.

Lemma static_ends a b :
  static a = static b -> src a = src b /\ trg a = trg b /\ psi a = psi b.
Proof. unfold static. intros H. injection H as -> -> _ _ ->. auto. Qed.

(** X18. On a lattice whose adjacency lists are in step with its arcs
    and whose arcs are visited in backward topological order, after
    [grd_fwdbwd]: an arc [i] into the final state has [beta = 0]; any
    other arc [i], into the state [st] at in-position [ni], has for
    [beta] the [logsum] of the terms
    [psi(out-arc no) + st.psi[ni][no] + beta(out-arc no)] over the
    out-positions [no] of [st], accumulated from [-DBL_MAX], where the
    [beta] of the out-arcs are the final ones.  The ends, the labels
    and the [psi] of every arc are as they were. *)
Theorem grd_backward_beta f :
  adj_ok f = true ->
  bwd_sorted f (t2s f) = true ->
  let F := grd_fwdbwd exp_ log_ f in
  (forall i, (i < narcs f)%nat ->
     let st := get_state f (trg (get_arc f i)) in
     let ni := find_pos i (ilst st) in
     nth ni (ilst st) 0%nat = i /\
     beta (get_arc F i) =
     if (trg (get_arc f i) =? final f)%nat then 0
     else fold_left (logsum exp_ log_)
            (map (fun no =>
                    psi (get_arc f (nth no (olst st) 0%nat)) + spsi_at st ni no +
                    beta (get_arc F (nth no (olst st) 0%nat)))
               (seq 0 (length (olst st))))
            (- DBL_MAX)) /\
  (forall i, static (get_arc F i) = static (get_arc f i)).
Proof.
  intros Hadj Hsorted F. split; [|intros i; apply grd_fwdbwd_static].
  intros i Hi st ni. split.
  { apply find_pos_in. apply (in_ilst f Hadj). auto. }
  unfold bwd_sorted in Hsorted. apply andb_true_iff in Hsorted.
  destruct Hsorted as [P S].
  destruct (ordered_pass_value f (bwd_arc exp_ log_ f) (t2s f)
              (grd_forward exp_ log_ f)
              (fun e => olst (get_state f (trg (get_arc f e))))
              (grd_forward_length f) P) with (e := i) as (X & A & B & C).
  { intros e o He Ho. rewrite forallb_forall in S.
    specialize (S e). rewrite in_seq in S. specialize (S ltac:(lia)).
    rewrite forallb_forall in S. apply S. exact Ho. }
  { exact Hi. }
  unfold F, grd_fwdbwd, get_arc at 1, with_arcs. simpl arcs.
  rewrite A. unfold bwd_arc. rewrite B.
  destruct (static_ends _ _ (grd_forward_static f i)) as (_ & Et & _).
  rewrite Et. fold (get_arc f i).
  destruct (trg (get_arc f i) =? final f)%nat; [reflexivity|].
  simpl beta. f_equal. unfold bwd_terms. rewrite B, Et. fold st. fold ni.
  apply map_ext_in. intros no Hno. apply in_seq in Hno.
  rewrite C by (apply nth_In; unfold st in Hno; lia).
  change (nth (nth no (olst st) 0%nat)
            (run (bwd_arc exp_ log_ f) (visit (narcs f) (t2s f))
               (grd_forward exp_ log_ f)) arc0)
    with (get_arc F (nth no (olst st) 0%nat)).
  destruct (static_ends _ _ (grd_fwdbwd_static f (nth no (olst st) 0%nat)))
    as (_ & _ & Ep).
  fold F in Ep. rewrite Ep. reflexivity.
Qed.

End Libm.

Lemma grd_backward_beta_witness :
  let F := grd_fwdbwd exp_flat log_lin braid in
  beta (get_arc F 3) = 0 /\
  beta (get_arc F 0) =
  logsum exp_flat log_lin
    (logsum exp_flat log_lin (- DBL_MAX) (2 + 0 + beta (get_arc F 1)))
    (3 + 0 + beta (get_arc F 2)).
Proof.
  destruct (grd_backward_beta exp_flat log_lin braid
              ltac:(vm_compute; reflexivity) ltac:(vm_compute; reflexivity))
    as (A & _).
  split.
  - exact (proj2 (A 3%nat ltac:(vm_compute; lia))).
  - exact (proj2 (A 0%nat ltac:(vm_compute; lia))).
Defined.

End Backward.

(** ** Decoder: [dec_forward], [dec_backtrack], the output of [dec_decode] *)

Module Dec.
Import Fst Pass.

(** The scan of the in-arcs of [dec_forward]: [cur] is the arc being
    filled, [ni] the in-position. *)
Definition best_step (f : fst_t) (al : list arc_t) (o : nat) (cur : arc_t)
  (ni : nat) : arc_t :=
  let ao := nth o al arc0 in
  let st := get_state f (src ao) in
  let no := find_pos o (olst st) in
  let e := nth ni (ilst st) 0%nat in
  let v := psi ao + spsi_at st ni no + alpha (nth e al arc0) in
  if Qlt_b (alpha cur) v then set_best cur v e else cur.

Definition dec_arc (f : fst_t) (al : list arc_t) (o : nat) : arc_t :=
  let ao := nth o al arc0 in
  let st := get_state f (src ao) in
  if (src ao =? 0)%nat then set_alpha ao (psi ao)
  else fold_left (best_step f al o) (seq 0 (length (ilst st)))
         (set_alpha ao (- DBL_MAX)).

Definition dec_forward (f : fst_t) : fst_t :=
  with_arcs f (run (dec_arc f) (visit (narcs f) (s2t f)) (arcs f)).

(** The first loop of [dec_backtrack]: the arc into the final state
    with the best score; the state is [(bst, ei)]. *)
Definition end_step (f : fst_t) (st : Q * nat) (e : nat) : Q * nat :=
  let ed := get_arc f e in
  if negb (trg ed =? final f)%nat then st
  else if Qlt_b (fst st) (alpha ed) then (alpha ed, e) else st.

Definition best_end (f : fst_t) : Q * nat :=
  fold_left (end_step f) (seq 0 (narcs f)) (- DBL_MAX, 0%nat).

(** The [while (ed->src != 0)] loop: the arcs written to [out] after
    the arc [ei].  [out] has [narcs] rows; [None] is a walk that does
    not end within them. *)
Fixpoint walk (fuel : nat) (f : fst_t) (ei : nat) : option (list nat) :=
  if (src (get_arc f ei) =? 0)%nat then Some []
  else
    match fuel with
    | O => None
    | S fuel' =>
        let e' := eback (get_arc f ei) in
        option_map (cons e') (walk fuel' f e')
    end.

(** [dec_backtrack]: the arcs of [out[0..pos)], last arc first. *)
Definition dec_backtrack (f : fst_t) : option (list nat) :=
  let ei := snd (best_end f) in
  option_map (cons ei) (walk (narcs f - 1) f ei).

(** The line printed by [dec_decode] for one transducer:
    [for (i = cnt - 1; i >= 0; i--)] over the label pairs. *)
Definition dec_output (f : fst_t) : option (list (string * string)) :=
  let f' := dec_forward f in
  option_map (fun out => map (fun e => (ilbl (get_arc f' e), olbl (get_arc f' e)))
                           (rev out))
    (dec_backtrack f').

(** The arcs of the printed line, in the order printed. *)
Definition dec_path (f : fst_t) : option (list nat) :=
  option_map (@rev nat) (dec_backtrack (dec_forward f)).

(** *** Paths and their scores *)

(** The bigram potential [psi_{i,o}] at the state between the
    consecutive arcs [i] and [e]. *)
Definition bigram (f : fst_t) (i e : nat) : Q :=
  let st := get_state f (src (get_arc f e)) in
  spsi_at st (find_pos i (ilst st)) (find_pos e (olst st)).

(** The consecutive pairs of a path. *)
Fixpoint pairs (p : list nat) : list (nat * nat) :=
  match p with
  | a :: (b :: _) as t => (a, b) :: pairs t
  | _ => []
  end.

Definition Qsum (l : list Q) : Q := fold_right Qplus 0 l.

(** The score of a path: the arc potentials plus the bigram potentials
    at its interior states. *)
Definition score (f : fst_t) (p : list nat) : Q :=
  Qsum (map (fun e => psi (get_arc f e)) p) +
  Qsum (map (fun ie => bigram f (fst ie) (snd ie)) (pairs p)).

(** A path out of state 0: arcs of the lattice, each starting where
    the one before ends. *)
Definition path_from0 (f : fst_t) (p : list nat) : Prop :=
  p <> [] /\
  Forall (fun e => (e < narcs f)%nat) p /\
  Forall (fun ie => trg (get_arc f (fst ie)) = src (get_arc f (snd ie))) (pairs p) /\
  src (get_arc f (hd 0%nat p)) = 0%nat.

(** An initial-to-final path. *)
Definition is_path (f : fst_t) (p : list nat) : Prop :=
  path_from0 f p /\ trg (get_arc f (last p 0%nat)) = final f.

(** No forward score sits at the sentinel or below. *)
Definition no_sentinel (f : fst_t) : bool :=
  forallb (fun a => Qlt_b (- DBL_MAX) (alpha a)) (arcs f).

Lemma pairs_snoc p i e : pairs ((p ++ [i]) ++ [e]) = pairs (p ++ [i]) ++ [(i, e)].
Proof.
  induction p as [|a p IH]; [reflexivity|].
  destruct p as [|b p]; [reflexivity|].
  change (pairs (((a :: b :: p) ++ [i]) ++ [e]))
    with ((a, b) :: pairs (((b :: p) ++ [i]) ++ [e])).
  rewrite IH. reflexivity.
Qed.

Lemma Qsum_app l1 l2 : Qsum (l1 ++ l2) == Qsum l1 + Qsum l2.
Proof.
  induction l1 as [|a l1 IH]; simpl; [ring|]. rewrite IH. ring.
Qed.

Lemma score_single f e : score f [e] == psi (get_arc f e).
Proof. unfold score. simpl. ring. Qed.

Lemma score_snoc f p i e :
  score f ((p ++ [i]) ++ [e]) ==
  score f (p ++ [i]) + bigram f i e + psi (get_arc f e).
Proof.
  unfold score. rewrite pairs_snoc, !map_app, !Qsum_app. simpl. ring.
Qed.

Lemma path_from0_snoc f p i e :
  path_from0 f ((p ++ [i]) ++ [e]) <->
  path_from0 f (p ++ [i]) /\ (e < narcs f)%nat /\
  trg (get_arc f i) = src (get_arc f e).
Proof.
  unfold path_from0. rewrite pairs_snoc, !Forall_app.
  assert (H : hd 0%nat ((p ++ [i]) ++ [e]) = hd 0%nat (p ++ [i]))
    by (destruct p; reflexivity).
  rewrite H. split.
  - intros (_ & (A & B) & (C & D) & E).
    apply Forall_inv in B. apply Forall_inv in D. simpl in D.
    split; [|split; assumption].
    split; [destruct p; discriminate|]. auto.
  - intros ((N & A & C & E) & He & Ht).
    split; [destruct p; discriminate|].
    split; [split; [exact A|constructor; [exact He|constructor]]|].
    split; [split; [exact C|constructor; [exact Ht|constructor]]|].
    exact E.
Qed.

Lemma last_snoc (p : list nat) e : last (p ++ [e]) 0%nat = e.
Proof. apply last_last. Qed.

(** *** The scan of the in-arcs *)

Section Scan.
Variables (f : fst_t) (al : list arc_t) (o : nat).

Let ao := nth o al arc0.
Let st := get_state f (src ao).

(** The score tried for the in-position [ni]. *)
Definition cand (ni : nat) : Q :=
  psi ao + spsi_at st ni (find_pos o (olst st)) +
  alpha (nth (nth ni (ilst st) 0%nat) al arc0).

Lemma best_step_cases cur ni :
  (alpha cur < cand ni /\ best_step f al o cur ni = set_best cur (cand ni) (nth ni (ilst st) 0%nat)) \/
  (cand ni <= alpha cur /\ best_step f al o cur ni = cur).
Proof.
  unfold best_step. fold ao. fold st. fold (cand ni).
  destruct (Qlt_b (alpha cur) (cand ni)) eqn:E.
  - left. apply Qlt_b_true in E. auto.
  - right. apply Qlt_b_false in E. auto.
Qed.

Lemma scan_spec l : forall cur,
  let r := fold_left (best_step f al o) l cur in
  static r = static cur /\
  alpha cur <= alpha r /\
  (forall ni, In ni l -> cand ni <= alpha r) /\
  ((alpha r = alpha cur /\ eback r = eback cur) \/
   (exists ni, In ni l /\ alpha r = cand ni /\ eback r = nth ni (ilst st) 0%nat)).
Proof.
  induction l as [|ni l IH]; intros cur; simpl.
  - repeat split; auto; try apply Qle_refl. intros ni [].
  - destruct (IH (best_step f al o cur ni)) as (S & A & B & C).
    destruct (best_step_cases cur ni) as [[Hlt E]|[Hle E]]; rewrite E in *.
    + simpl in A, C. split; [rewrite S; reflexivity|].
      split; [apply Qle_trans with (cand ni); [apply Qlt_le_weak; exact Hlt|exact A]|].
      split.
      * intros n [<-|Hn]; [exact A|apply B; exact Hn].
      * right. destruct C as [[C1 C2]|(n & Hn & C1 & C2)].
        -- exists ni. auto.
        -- exists n. auto.
    + split; [exact S|]. split; [exact A|]. split.
      * intros n [<-|Hn]; [apply Qle_trans with (alpha cur); assumption|apply B; exact Hn].
      * destruct C as [C|(n & Hn & C1 & C2)]; [left; exact C|].
        right. exists n. auto.
Qed.

End Scan.

Lemma dec_arc_static f al o : static (dec_arc f al o) = static (nth o al arc0).
Proof.
  unfold dec_arc. destruct (_ =? _)%nat; [reflexivity|].
  destruct (scan_spec f al o (seq 0 (length (ilst (get_state f (src (nth o al arc0))))))
              (set_alpha (nth o al arc0) (- DBL_MAX))) as (S & _).
  rewrite S. reflexivity.
Qed.

Lemma static_fields a b :
  static a = static b ->
  src a = src b /\ trg a = trg b /\ ilbl a = ilbl b /\ olbl a = olbl b /\ psi a = psi b.
Proof. unfold static. intros H. injection H. auto. Qed.

(** *** The forward pass on a well-formed lattice *)

Section Forward.
Import Valid.
Variable f : fst_t.
Hypothesis Hok : lattice_ok f = true.

Let F := dec_forward f.

Lemma ok_parts :
  adj_ok f = true /\ fwd_sorted f (s2t f) = true /\ source0 f = true /\
  (0 < final f < nstates f)%nat.
Proof.
  unfold lattice_ok in Hok. rewrite !andb_true_iff, !Nat.ltb_lt in Hok.
  tauto.
Qed.

Lemma s2t_parts :
  length (s2t f) = narcs f /\ NoDup (s2t f) /\
  (forall e, In e (s2t f) <-> (e < narcs f)%nat) /\
  (forall e i, (e < narcs f)%nat ->
     In i (ilst (get_state f (src (get_arc f e)))) -> before (s2t f) i e = true).
Proof. apply sorted_parts. apply ok_parts. Qed.

Lemma arcs_F : arcs F = run (dec_arc f) (s2t f) (arcs f).
Proof. apply (fin_eq f (dec_arc f)). apply ok_parts. Qed.

Lemma narcs_F : narcs F = narcs f.
Proof. unfold narcs. rewrite arcs_F. apply run_length. Qed.

Lemma static_F e : static (get_arc F e) = static (get_arc f e).
Proof. apply (fin_static f (dec_arc f)). apply dec_arc_static. Qed.

(** The arc [e] keeps what its pass wrote, and that pass read the
    last values of the in-arcs of its source. *)
Lemma forward_value e :
  (e < narcs f)%nat ->
  exists X,
    get_arc F e = dec_arc f X e /\
    static (nth e X arc0) = static (get_arc f e) /\
    (forall i, In i (ilst (get_state f (src (get_arc f e)))) ->
       nth i X arc0 = get_arc F i).
Proof.
  intros He.
  destruct (pass_value f (dec_arc f) (proj1 (proj2 ok_parts)) e He)
    as (X & A & B & C).
  exists X. split; [exact A|]. split; [rewrite B; reflexivity|exact C].
Qed.

Lemma alpha_init e :
  (e < narcs f)%nat -> src (get_arc f e) = 0%nat ->
  alpha (get_arc F e) = psi (get_arc f e).
Proof.
  intros He Hs. destruct (forward_value e He) as (X & E & St & _).
  destruct (static_fields _ _ St) as (S1 & _ & _ & _ & S5).
  rewrite E. unfold dec_arc. rewrite S1, Hs. simpl. exact S5.
Qed.

Lemma alpha_step e :
  (e < narcs f)%nat -> src (get_arc f e) <> 0%nat ->
  (forall i, In i (ilst (get_state f (src (get_arc f e)))) ->
     psi (get_arc f e) + bigram f i e + alpha (get_arc F i) <= alpha (get_arc F e)) /\
  (alpha (get_arc F e) = - DBL_MAX \/
   exists i, In i (ilst (get_state f (src (get_arc f e)))) /\
     alpha (get_arc F e) = psi (get_arc f e) + bigram f i e + alpha (get_arc F i) /\
     eback (get_arc F e) = i).
Proof.
  intros He Hs. destruct (forward_value e He) as (X & E & St & Hin).
  destruct (static_fields _ _ St) as (S1 & _ & _ & _ & S5).
  destruct ok_parts as (Hadj & _).
  set (st := get_state f (src (get_arc f e))) in *.
  assert (C : forall ni, (ni < length (ilst st))%nat ->
            cand f X e ni =
            psi (get_arc f e) + bigram f (nth ni (ilst st) 0%nat) e +
            alpha (get_arc F (nth ni (ilst st) 0%nat))).
  { intros ni Hni. unfold cand, bigram. rewrite S1, S5. fold st.
    rewrite (find_pos_nth (ilst st)) by (auto; apply ilst_nodup; exact Hadj).
    rewrite Hin by (apply nth_In; exact Hni). reflexivity. }
  rewrite E. unfold dec_arc. rewrite S1.
  destruct (Nat.eqb_spec (src (get_arc f e)) 0) as [|_]; [contradiction|].
  fold st.
  destruct (scan_spec f X e (seq 0 (length (ilst st)))
              (set_alpha (nth e X arc0) (- DBL_MAX))) as (_ & _ & B & D).
  split.
  - intros i Hi. destruct (find_pos_in _ _ Hi) as [P1 P2].
    specialize (B (find_pos i (ilst st))). rewrite in_seq in B.
    specialize (B ltac:(lia)). rewrite C in B by assumption.
    rewrite P2 in B. exact B.
  - destruct D as [[D _]|(ni & Hn & D1 & D2)].
    + left. exact D.
    + right. apply in_seq in Hn. exists (nth ni (ilst st) 0%nat).
      split; [apply nth_In; lia|].
      rewrite D1, D2. rewrite S1. fold st. rewrite C by lia. auto.
Qed.

(** Every path out of state 0 scores at most the forward score of its
    last arc. *)
Lemma score_le_alpha p :
  path_from0 f p -> score f p <= alpha (get_arc F (last p 0%nat)).
Proof.
  induction p as [|e q IH] using rev_ind; intros Hp.
  - destruct Hp as (N & _). contradiction.
  - rewrite last_snoc.
    destruct q as [|a q0] eqn:Eq.
    + destruct Hp as (_ & Hn & _ & Hs). apply Forall_inv in Hn. simpl in Hs.
      change ([] ++ [e]) with [e]. rewrite score_single.
      rewrite alpha_init by assumption. apply Qle_refl.
    + destruct (exists_last (l := a :: q0)) as (q' & i & Eq'); [discriminate|].
      rewrite <- Eq in *. clear Eq. rewrite Eq' in *.
      apply path_from0_snoc in Hp. destruct Hp as (Hq & He & Ht).
      specialize (IH Hq). rewrite last_snoc in IH.
      destruct ok_parts as (Hadj & _ & Hsrc & _).
      assert (Hi : (i < narcs f)%nat).
      { destruct Hq as (_ & Hn & _). rewrite Forall_app in Hn.
        destruct Hn as [_ Hn]. apply Forall_inv in Hn. exact Hn. }
      assert (Hin : In i (ilst (get_state f (src (get_arc f e))))).
      { apply (in_ilst f Hadj). auto. }
      assert (Hne : src (get_arc f e) <> 0%nat).
      { intros Z. rewrite Z in Hin. unfold source0 in Hsrc.
        rewrite andb_true_iff in Hsrc. destruct Hsrc as [Hsrc _].
        destruct (ilst (get_state f 0)); [destruct Hin|discriminate]. }
      destruct (alpha_step e He Hne) as [U _]. specialize (U i Hin).
      rewrite score_snoc. lra.
Qed.

Lemma walk_eq fuel g ei :
  walk fuel g ei =
  if (src (get_arc g ei) =? 0)%nat then Some []
  else match fuel with
       | O => None
       | S fuel' =>
           option_map (cons (eback (get_arc g ei))) (walk fuel' g (eback (get_arc g ei)))
       end.
Proof. destruct fuel; reflexivity. Qed.

Lemma find_pos_pre pre e post :
  ~ In e pre -> find_pos e (pre ++ e :: post) = length pre.
Proof.
  induction pre as [|a pre IH]; intros N; simpl.
  - rewrite Nat.eqb_refl. reflexivity.
  - destruct (Nat.eqb_spec a e) as [->|_].
    + exfalso. apply N. left. reflexivity.
    + f_equal. apply IH. intro. apply N. right. assumption.
Qed.

Lemma find_pos_lt pre i post :
  In i pre -> (find_pos i (pre ++ post) < length pre)%nat.
Proof.
  induction pre as [|a pre IH]; intros H; simpl; [destruct H|].
  destruct (Nat.eqb_spec a i) as [->|Hne]; [lia|].
  destruct H as [H|H]; [contradiction|]. specialize (IH H). lia.
Qed.

Hypothesis Hsent : no_sentinel F = true.

Lemma alpha_above e : (e < narcs f)%nat -> - DBL_MAX < alpha (get_arc F e).
Proof.
  intros He. unfold no_sentinel in Hsent. rewrite forallb_forall in Hsent.
  apply Qlt_b_true. apply Hsent. unfold get_arc. apply nth_In.
  fold (narcs F). rewrite narcs_F. exact He.
Qed.

(** Following [eback] from an arc gives a path out of state 0 whose
    score is the forward score of that arc. *)
Lemma walk_path e :
  In e (s2t f) ->
  exists w,
    (length w <= find_pos e (s2t f))%nat /\
    (forall fuel, (length w <= fuel)%nat -> walk fuel F e = Some w) /\
    path_from0 f (rev (e :: w)) /\
    score f (rev (e :: w)) == alpha (get_arc F e).
Proof.
  destruct s2t_parts as (L & ND & I & S).
  destruct ok_parts as (Hadj & _).
  revert e. apply order_ind. intros pre e post E IH.
  assert (He : (e < narcs f)%nat) by (apply I; rewrite E; apply in_elt).
  assert (Npre : ~ In e pre).
  { rewrite E in ND. apply NoDup_remove_2 in ND. intro. apply ND.
    apply in_or_app. left. assumption. }
  destruct (static_fields _ _ (static_F e)) as (S1 & _).
  destruct (Nat.eq_dec (src (get_arc f e)) 0) as [Hs|Hs].
  - exists []. split; [simpl; lia|]. split; [|split].
    + intros fuel _. rewrite walk_eq, S1, Hs. reflexivity.
    + simpl. repeat split; auto; try discriminate.
    + simpl. rewrite score_single, alpha_init by assumption. reflexivity.
  - destruct (alpha_step e He Hs) as [_ [Z|(i & Hi & A & B)]].
    { exfalso. pose proof (alpha_above e He) as K. rewrite Z in K.
      apply (Qlt_irrefl _ K). }
    assert (Hpre : In i pre).
    { eapply before_in_pre; eauto. }
    destruct (IH i Hpre) as (w & W1 & W2 & W3 & W4).
    exists (i :: w). split; [|split; [|split]].
    + rewrite E, find_pos_pre by assumption. rewrite E in W1.
      pose proof (find_pos_lt pre i (e :: post) Hpre). simpl. lia.
    + intros fuel Hf. rewrite walk_eq, S1.
      destruct (Nat.eqb_spec (src (get_arc f e)) 0) as [|_]; [contradiction|].
      destruct fuel as [|fuel]; [simpl in Hf; lia|].
      rewrite B, W2 by (simpl in Hf; lia). reflexivity.
    + change (rev (e :: i :: w)) with ((rev w ++ [i]) ++ [e]).
      apply path_from0_snoc. split; [exact W3|]. split; [exact He|].
      apply (in_ilst f Hadj) in Hi. apply Hi.
    + change (rev (e :: i :: w)) with ((rev w ++ [i]) ++ [e]).
      rewrite score_snoc. change (rev w ++ [i]) with (rev (i :: w)).
      rewrite W4, A. ring.
Qed.

End Forward.

(** *** The end of the best path *)

Lemma best_end_spec g l : forall st,
  let r := fold_left (end_step g) l st in
  fst st <= fst r /\
  (forall e, In e l -> trg (get_arc g e) = final g -> alpha (get_arc g e) <= fst r) /\
  (r = st \/
   (In (snd r) l /\ trg (get_arc g (snd r)) = final g /\
    fst r = alpha (get_arc g (snd r)))).
Proof.
  induction l as [|e l IH]; intros st; simpl.
  - split; [apply Qle_refl|]. split; [intros e []|]. left. reflexivity.
  - destruct (IH (end_step g st e)) as (A & B & C).
    unfold end_step in A, B, C |- *.
    destruct (Nat.eqb_spec (trg (get_arc g e)) (final g)) as [Ht|Ht]; simpl in *.
    + destruct (Qlt_b (fst st) (alpha (get_arc g e))) eqn:Q.
      * apply Qlt_b_true in Q. simpl in *.
        split; [lra|]. split.
        -- intros e' [<-|He'] Ht'; [exact A|apply B; assumption].
        -- right. destruct C as [->|(C1 & C2 & C3)]; simpl; auto.
      * apply Qlt_b_false in Q.
        split; [exact A|]. split.
        -- intros e' [<-|He'] Ht'; [lra|apply B; assumption].
        -- destruct C as [C|(C1 & C2 & C3)]; auto.
    + split; [exact A|]. split.
      * intros e' [<-|He'] Ht'; [contradiction|apply B; assumption].
      * destruct C as [C|(C1 & C2 & C3)]; auto.
Qed.

(** Scenario S6 of the specification: two routes from 0 to 3, [a c]
    with potentials 2 and 1, [b d] with potentials 1 and 3. *)
Definition two_routes : fst_t :=
  add_states_sort
    (mk_fst 0 4 3
       [mk_arc 0 1 "a" "a" 2 0 0 0; mk_arc 0 2 "b" "b" 1 0 0 0;
        mk_arc 1 3 "c" "c" 1 0 0 0; mk_arc 2 3 "d" "d" 3 0 0 0] [] [] []).

(** A chain 0 -> 1 -> 2 whose second arc has the potential [-DBL_MAX]. *)
Definition low_chain : fst_t :=
  add_states_sort
    (mk_fst 0 3 2
       [mk_arc 0 1 "a" "a" 0 0 0 0; mk_arc 1 2 "b" "b" (- DBL_MAX) 0 0 0]
       [] [] []).




End Dec.

(** ** The forward scores of the gradient against the scores of paths *)

Module Partition.
Import Fst Pass Valid Grd Dec.

Section Libm.
Variables exp_ log_ : Q -> Q.
Hypothesis exp_pos : forall t, 0 <= exp_ t.
Hypothesis log_pos : forall u, 1 <= u -> 0 <= log_ u.

Lemma logsum_ge a b :
  - DBL_MAX <= a -> - DBL_MAX <= b ->
  a <= logsum exp_ log_ a b /\ b <= logsum exp_ log_ a b.
Proof.
  intros Ha Hb. unfold logsum.
  destruct (Qeq_bool a (- DBL_MAX)) eqn:E.
  - apply Qeq_bool_iff in E. split; [rewrite E; exact Hb|apply Qle_refl].
  - destruct (Qlt_b b a) eqn:L.
    + apply Qlt_b_true in L.
      pose proof (log_pos (1 + exp_ (b - a))) as P.
      pose proof (exp_pos (b - a)) as X.
      assert (0 <= log_ (1 + exp_ (b - a))) by (apply P; lra).
      split; lra.
    + apply Qlt_b_false in L.
      pose proof (log_pos (1 + exp_ (a - b))) as P.
      pose proof (exp_pos (a - b)) as X.
      assert (0 <= log_ (1 + exp_ (a - b))) by (apply P; lra).
      split; lra.
Qed.

Lemma logsum_fold_ge terms : forall acc,
  - DBL_MAX <= acc -> Forall (fun t => - DBL_MAX <= t) terms ->
  acc <= fold_left (logsum exp_ log_) terms acc /\
  forall t, In t terms -> t <= fold_left (logsum exp_ log_) terms acc.
Proof.
  induction terms as [|t0 terms IH]; intros acc Ha Ht; simpl.
  - split; [apply Qle_refl|intros t []].
  - apply Forall_cons_iff in Ht. destruct Ht as [H0 Ht].
    destruct (logsum_ge acc t0 Ha H0) as [G1 G2].
    destruct (IH (logsum exp_ log_ acc t0)) as [I1 I2]; [lra|exact Ht|].
    split; [lra|]. intros t [<-|H]; [lra|apply I2; exact H].
Qed.

Section Lattice.
Variable f : fst_t.
Hypothesis Hok : lattice_ok f = true.

Let F := grd_fwdbwd exp_ log_ f.

Hypothesis Hterm : forall e i,
  (e < narcs f)%nat -> In i (ilst (get_state f (src (get_arc f e)))) ->
  - DBL_MAX <= psi (get_arc f e) + bigram f i e + alpha (get_arc F i).

Lemma grd_alpha_value e :
  (e < narcs f)%nat ->
  let st := get_state f (src (get_arc f e)) in
  alpha (get_arc F e) =
  if (src (get_arc f e) =? 0)%nat then psi (get_arc f e)
  else fold_left (logsum exp_ log_)
         (map (fun ni => psi (get_arc f e) + bigram f (nth ni (ilst st) 0%nat) e +
                         alpha (get_arc F (nth ni (ilst st) 0%nat)))
            (seq 0 (length (ilst st))))
         (- DBL_MAX).
Proof.
  intros He st.
  destruct (ok_parts f Hok) as (Hadj & Hsorted & _).
  unfold F. rewrite grd_fwdbwd_alpha. unfold grd_forward.
  destruct (pass_value f (fwd_arc exp_ log_ f) Hsorted e He) as (X & A & B & C).
  rewrite A. unfold fwd_arc. rewrite B.
  destruct (src (get_arc f e) =? 0)%nat; [reflexivity|].
  simpl. f_equal. unfold fwd_terms. rewrite B. fold st.
  apply map_ext_in. intros ni Hni. apply in_seq in Hni.
  rewrite C by (apply nth_In; unfold st in Hni; lia).
  rewrite grd_fwdbwd_alpha. unfold bigram. fold st.
  rewrite (find_pos_nth (ilst st)) by (try lia; apply ilst_nodup; exact Hadj).
  reflexivity.
Qed.

Lemma grd_alpha_step e i :
  (e < narcs f)%nat -> src (get_arc f e) <> 0%nat ->
  In i (ilst (get_state f (src (get_arc f e)))) ->
  psi (get_arc f e) + bigram f i e + alpha (get_arc F i) <= alpha (get_arc F e).
Proof.
  intros He Hs Hi. rewrite (grd_alpha_value e He). cbv zeta.
  destruct (Nat.eqb_spec (src (get_arc f e)) 0) as [|_]; [contradiction|].
  set (st := get_state f (src (get_arc f e))) in *.
  apply logsum_fold_ge.
  - apply Qle_refl.
  - apply Forall_forall. intros t Ht. apply in_map_iff in Ht.
    destruct Ht as (ni & <- & Hni). apply in_seq in Hni.
    apply Hterm; [exact He|]. apply nth_In. fold st. lia.
  - apply in_map_iff. exists (find_pos i (ilst st)).
    destruct (find_pos_in _ _ Hi) as [P1 P2]. fold st in P1, P2.
    rewrite P2. split; [reflexivity|]. apply in_seq. lia.
Qed.

Lemma grd_score_le_alpha p :
  path_from0 f p -> score f p <= alpha (get_arc F (last p 0%nat)).
Proof.
  induction p as [|e q IH] using rev_ind; intros Hp.
  - destruct Hp as (N & _). contradiction.
  - rewrite last_snoc.
    destruct q as [|a q0] eqn:Eq.
    + destruct Hp as (_ & Hn & _ & Hs). apply Forall_inv in Hn. simpl in Hs.
      change ([] ++ [e]) with [e]. rewrite score_single.
      rewrite (grd_alpha_value e Hn). cbv zeta. rewrite Hs. simpl. apply Qle_refl.
    + destruct (exists_last (l := a :: q0)) as (q' & i & Eq'); [discriminate|].
      rewrite <- Eq in *. clear Eq. rewrite Eq' in *.
      apply path_from0_snoc in Hp. destruct Hp as (Hq & He & Ht).
      specialize (IH Hq). rewrite last_snoc in IH.
      destruct (ok_parts f Hok) as (Hadj & _ & Hsrc & _).
      assert (Hi : (i < narcs f)%nat).
      { destruct Hq as (_ & Hn & _). rewrite Forall_app in Hn.
        destruct Hn as [_ Hn]. apply Forall_inv in Hn. exact Hn. }
      assert (Hin : In i (ilst (get_state f (src (get_arc f e))))).
      { apply (in_ilst f Hadj). auto. }
      assert (Hs : src (get_arc f e) <> 0%nat).
      { intros E0. rewrite E0 in Hin. unfold source0 in Hsrc.
        rewrite andb_true_iff in Hsrc. destruct Hsrc as [Hsrc _].
        destruct (ilst (get_state f 0)); [destruct Hin|discriminate]. }
      pose proof (grd_alpha_step e i He Hs Hin) as S.
      rewrite score_snoc. lra.
Qed.

End Lattice.
End Libm.


Lemma exp_flat_pos t : 0 <= exp_flat t.
Proof. unfold exp_flat. destruct (Qle_bool t (- (746 # 1))); lra. Qed.

Lemma log_lin_pos u : 1 <= u -> 0 <= log_lin u.
Proof. unfold log_lin. lra. Qed.


End Partition.

(** ** The lock-free sorted list and the split-ordered hash table,
       run by one thread *)

Module Map.
Import Bits.
Local Open Scope Z_scope.

(** [key_*]: from the user's hash to the key of the list and back. *)
Definition key_normal (k : Z) : Z := Z.lor (bit_reverse k) 1.
Definition key_marker (k : Z) : Z := Z.land (bit_reverse k) (Z.lnot 1).
Definition key_tohash (k : Z) : Z := bit_reverse (Z.land k (Z.lnot 1)).
Definition key_ismark (k : Z) : bool := Z.land k 1 =? 0.

(** [ptr_*]: the tag is the lowest bit of the pointer. *)
Definition ptr_addtag (n : Z) : Z := Z.lor n 1.
Definition ptr_remtag (n : Z) : Z := Z.land n (Z.lnot 1).
Definition ptr_tagged (n : Z) : bool := negb (Z.land n 1 =? 0).

(** [struct lst_s]; a pointer is an address, [NULL] is 0. *)
Record lst_t := mk_lst { next : Z; key : Z }.

(** The memory of list nodes with its allocation mark, and the fields
    of the one [map_t] that lives in it.  [segs] is the two-level
    bucket table: a segment is absent ([NULL]) or maps an index to a
    pointer. *)
Record map_t := mk_map {
  cells : Z -> lst_t;
  brk : Z;
  lhead : Z;                      (* [&map->list] *)
  segs : Z -> option (Z -> Z);    (* [map->bucket] *)
  size : Z;
  count : Z;
  grow : Z
}.

(** Computations on that state; [None] is a loop out of fuel, or a
    bucket index outside the table of segments. *)
Definition M (A : Type) : Type := map_t -> option (A * map_t).
Definition ret {A} (a : A) : M A := fun m => Some (a, m).
Definition bind {A B} (c : M A) (k : A -> M B) : M B :=
  fun m => match c m with
           | None => None
           | Some (a, m') => k a m'
           end.
Definition out_of_fuel {A} : M A := fun _ => None.
Definition abort {A} : M A := fun _ => None.

Notation "x <- c ;; k" := (bind c (fun x => k))
  (at level 61, c at next level, right associativity).
Notation "c ;;; k" := (bind c (fun _ => k))
  (at level 61, right associativity).

Definition with_cells (m : map_t) (c : Z -> lst_t) : map_t :=
  mk_map c (brk m) (lhead m) (segs m) (size m) (count m) (grow m).
Definition with_segs (m : map_t) (t : Z -> option (Z -> Z)) : map_t :=
  mk_map (cells m) (brk m) (lhead m) t (size m) (count m) (grow m).

Definition get_next (p : Z) : M Z := fun m => Some (next (cells m p), m).
Definition get_key (p : Z) : M Z := fun m => Some (key (cells m p), m).
Definition set_next (p v : Z) : M unit := fun m =>
  Some (tt, with_cells m (fun q => if q =? p then mk_lst v (key (cells m p))
                                   else cells m q)).
Definition set_key (p v : Z) : M unit := fun m =>
  Some (tt, with_cells m (fun q => if q =? p then mk_lst (next (cells m p)) v
                                   else cells m q)).

(** A store to both members of a node, as the [memset] of an entry
    does. *)
Definition set_node (p : Z) (c : lst_t) : M unit := fun m =>
  Some (tt, with_cells m (fun q => if q =? p then c else cells m q)).

(** [malloc]: a fresh address, 16-byte aligned. *)
Definition malloc (sz : Z) : M Z := fun m =>
  Some (brk m, mk_map (cells m) (brk m + 16 * ((sz + 15) / 16)) (lhead m)
                 (segs m) (size m) (count m) (grow m)).

(** [atm_cas(&p->next, old, new)] *)
Definition cas_next (p old new : Z) : M bool :=
  n <- get_next p ;;
  if n =? old then set_next p new ;;; ret true else ret false.

(** The two nested loops of [lst_search]: [p0] and [p1] are [ptr[0]]
    and [ptr[1]] at the head of the inner loop; a [break] starts again
    from [hd].  The result is the return value and [ptr]; on the
    [NULL] exit [ptr[2]] is not written and is given as 0. *)
Fixpoint search_loop (fuel : nat) (hd k p0 p1 : Z) : M (bool * (Z * Z * Z)) :=
  match fuel with
  | O => out_of_fuel
  | S fuel' =>
      let p1 := ptr_remtag p1 in
      if p1 =? 0 then ret (false, (p0, p1, 0))
      else
        ckey <- get_key p1 ;;
        p2 <- get_next p1 ;;
        n0 <- get_next p0 ;;
        if negb (n0 =? p1) then
          h1 <- get_next hd ;; search_loop fuel' hd k hd h1
        else if negb (ptr_tagged p2) then
          if k <=? ckey then ret (ckey =? k, (p0, p1, p2))
          else search_loop fuel' hd k p1 p2
        else
          let p2 := ptr_remtag p2 in
          ok <- cas_next p0 p1 p2 ;;
          if ok then search_loop fuel' hd k p0 p2
          else h1 <- get_next hd ;; search_loop fuel' hd k hd h1
  end.

(** Fuel for a walk along the list: more than the number of nodes that
    the memory can hold. *)
Definition fuel_of (m : map_t) : nat := S (Z.to_nat (brk m)).

Definition lst_search (hd k : Z) : M (bool * (Z * Z * Z)) := fun m =>
  (h1 <- get_next hd ;; search_loop (fuel_of m) hd k hd h1) m.

(** [lst_find]: the return value and [*res]. *)
Definition lst_find (hd k : Z) : M (bool * Z) :=
  r <- lst_search hd k ;;
  if fst r then ret (true, snd (fst (snd r))) else ret (false, 0).

(** The [do ... while (1)] of [lst_insert]. *)
Fixpoint insert_loop (fuel : nat) (hd node : Z) : M (bool * Z) :=
  match fuel with
  | O => out_of_fuel
  | S fuel' =>
      k <- get_key node ;;
      r <- lst_search hd k ;;
      let '(found, (p0, p1, _)) := r in
      if found then ret (false, p1)
      else
        set_next node p1 ;;;
        ok <- cas_next p0 p1 node ;;
        if ok then ret (true, node) else insert_loop fuel' hd node
  end.

Definition lst_insert (hd node : Z) : M (bool * Z) := insert_loop 64 hd node.

Definition get_seg (seg : Z) : M (option (Z -> Z)) := fun m => Some (segs m seg, m).
Definition new_seg (seg : Z) : M unit := fun m =>
  Some (tt, with_segs m (fun s => if s =? seg then Some (fun _ => 0) else segs m s)).
Definition bucket_at (m : map_t) (seg idx : Z) : Z :=
  match segs m seg with
  | None => 0
  | Some tbl => tbl idx
  end.
Definition get_bucket (seg idx : Z) : M Z := fun m => Some (bucket_at m seg idx, m).
Definition set_bucket (seg idx p : Z) : M unit := fun m =>
  Some (tt, with_segs m (fun s => if s =? seg
                                  then Some (fun i => if i =? idx then p
                                                      else bucket_at m seg i)
                                  else segs m s)).

(** The memory before the first allocation. *)
Definition mem0 : map_t :=
  mk_map (fun _ => mk_lst 0 0) 16 0 (fun _ => None) 0 0 0.

(** [map_new]: the table object (whose first member is the head of the
    list), the first segment, and the root bucket. *)
Definition map_new : M unit :=
  map <- malloc 48 ;;
  (fun m => Some (tt, mk_map (cells m) (brk m) map (fun _ => None) 0x10 0 8)) ;;;
  set_next map 0 ;;;
  set_key map 0 ;;;
  new_seg 0 ;;;
  bkt <- malloc 16 ;;
  set_key bkt (key_marker 0) ;;;
  lst_insert map bkt ;;;
  set_bucket 0 0 bkt.

(** [map_getbkt]; each call on an uninitialized bucket goes to the
    bucket with the top bit cleared.  The table has [0x10000] segments
    ([assert(bkt < 0x100000000)]). *)
Fixpoint map_getbkt (fuel : nat) (bkt : Z) : M Z :=
  match fuel with
  | O => out_of_fuel
  | S fuel' =>
      if 0x100000000 <=? bkt then abort else
      let seg := bkt / 0x10000 in
      let idx := bkt mod 0x10000 in
      s <- get_seg seg ;;
      (match s with None => new_seg seg | Some _ => ret tt end) ;;;
      b <- get_bucket seg idx ;;
      (if b =? 0 then
         prev <- map_getbkt fuel' (bit_clearmsb bkt) ;;
         cbkt <- malloc 16 ;;
         set_key cbkt (key_marker bkt) ;;;
         r <- lst_insert prev cbkt ;;
         set_bucket seg idx (snd r)
       else ret tt) ;;;
      get_bucket seg idx
  end.

Definition get_size : M Z := fun m => Some (size m, m).
Definition get_grow : M Z := fun m => Some (grow m, m).

(** [atm_add(&map->count, 1)] and [atm_cas(&map->size, old, new)] *)
Definition atm_add_count : M Z := fun m =>
  Some (count m + 1,
        mk_map (cells m) (brk m) (lhead m) (segs m) (size m) (count m + 1) (grow m)).
Definition cas_size (old new : Z) : M bool := fun m =>
  if size m =? old
  then Some (true, mk_map (cells m) (brk m) (lhead m) (segs m) new (count m) (grow m))
  else Some (false, m).

(** The depth of the bucket recursion is at most the number of bits. *)
Definition bkt_fuel : nat := 65.

Definition map_find (hash : Z) : M Z :=
  sz <- get_size ;;
  let bkt := Z.land hash (u64 (sz - 1)) in
  let k := key_normal hash in
  hd <- map_getbkt bkt_fuel bkt ;;
  r <- lst_find hd k ;;
  if fst r then ret (snd r) else ret 0.

Definition map_insert (hash val : Z) : M Z :=
  sz <- get_size ;;
  let bkt := Z.land hash (u64 (sz - 1)) in
  let k := key_normal hash in
  hd <- map_getbkt bkt_fuel bkt ;;
  set_key val k ;;;
  r <- lst_insert hd val ;;
  (if fst r then
     size0 <- get_size ;;
     c <- atm_add_count ;;
     g <- get_grow ;;
     if g <? c / size0 then cas_size size0 (u64 (size0 * 2)) ;;; ret tt
     else ret tt
   else ret tt) ;;;
  ret (snd r).

(** [map_gethsh] *)
Definition map_gethsh (m : map_t) (val : Z) : Z := key_tohash (key (cells m val)).

(** The nodes reached from [p], with their keys ([map_next] steps
    through them and skips the markers). *)
Fixpoint nodes_from (fuel : nat) (m : map_t) (p : Z) : list (Z * Z) :=
  match fuel with
  | O => []
  | S fuel' =>
      let n := next (cells m p) in
      if n =? 0 then [] else (n, key (cells m n)) :: nodes_from fuel' m n
  end.

Definition nodes (m : map_t) : list (Z * Z) := nodes_from (fuel_of m) m (lhead m).

(** The node [v] is linked in the list of the table. *)
Definition linked (m : map_t) (v : Z) : Prop := In v (map fst (nodes m)).


(** *** Pointers and keys *)

Lemma bits_above v n i : 0 <= n -> 0 <= v < 2 ^ n -> n <= i -> Z.testbit v i = false.
Proof.
  intros Hn Hv Hi. rewrite <- (Z.mod_small v (2 ^ n)) by lia.
  apply Z.mod_pow2_bits_high. lia.
Qed.

Lemma ptr_remtag_even a : a mod 2 = 0 -> ptr_remtag a = a.
Proof.
  intros H. unfold ptr_remtag. rewrite land_lnot1.
  pose proof (Z.div_mod a 2 ltac:(lia)). lia.
Qed.

Lemma ptr_tagged_even a : a mod 2 = 0 -> ptr_tagged a = false.
Proof.
  intros H. unfold ptr_tagged. rewrite land_1, H. reflexivity.
Qed.

Lemma bit_reverse_even h : 0 <= h < 2 ^ 63 -> bit_reverse h mod 2 = 0.
Proof.
  intros H. apply bit0_even. rewrite bit_reverse_spec by lia.
  apply (bits_above h 63); lia.
Qed.

Lemma key_normal_eq h : 0 <= h < 2 ^ 63 -> key_normal h = bit_reverse h + 1.
Proof.
  intros H. unfold key_normal. rewrite lor_1.
  pose proof (bit_reverse_even h H).
  pose proof (Z.div_mod (bit_reverse h) 2 ltac:(lia)). lia.
Qed.

Lemma key_marker_eq b : 0 <= b < 2 ^ 63 -> key_marker b = bit_reverse b.
Proof.
  intros H. unfold key_marker. rewrite land_lnot1.
  pose proof (bit_reverse_even b H).
  pose proof (Z.div_mod (bit_reverse b) 2 ltac:(lia)). lia.
Qed.

Lemma key_marker_even b : key_marker b mod 2 = 0.
Proof.
  unfold key_marker. rewrite land_lnot1, Z.mul_comm. apply Z.mod_mul. lia.
Qed.

Lemma key_normal_odd h : key_normal h mod 2 = 1.
Proof.
  unfold key_normal. rewrite lor_1, Z.add_comm, Z.mul_comm.
  rewrite Z.mod_add by lia. reflexivity.
Qed.

Lemma key_normal_range h : 0 <= h < 2 ^ 63 -> 0 <= key_normal h < 2 ^ 64.
Proof.
  intros H. rewrite key_normal_eq by assumption.
  pose proof (bit_reverse_range h). pose proof (bit_reverse_even h H).
  pose proof (Z.div_mod (bit_reverse h) 2 ltac:(lia)).
  change (2 ^ 64) with (2 * 2 ^ 63) in *. lia.
Qed.

Lemma key_marker_range b : 0 <= b < 2 ^ 63 -> 0 <= key_marker b < 2 ^ 64.
Proof.
  intros H. rewrite key_marker_eq by assumption. apply bit_reverse_range.
Qed.

Lemma key_normal_inj h h' :
  0 <= h < 2 ^ 63 -> 0 <= h' < 2 ^ 63 -> key_normal h = key_normal h' -> h = h'.
Proof.
  intros H H' E. rewrite !key_normal_eq in E by assumption.
  apply bit_reverse_inj; lia.
Qed.

Lemma key_tohash_normal h : 0 <= h < 2 ^ 63 -> key_tohash (key_normal h) = h.
Proof.
  intros H. unfold key_tohash. rewrite land_lnot1, key_normal_eq by assumption.
  pose proof (bit_reverse_even h H) as Ev.
  pose proof (Z.div_mod (bit_reverse h) 2 ltac:(lia)) as Dm.
  assert (E : (bit_reverse h + 1) / 2 = bit_reverse h / 2).
  { symmetry. apply Z.div_unique with 1; lia. }
  rewrite E. replace (2 * (bit_reverse h / 2)) with (bit_reverse h) by lia.
  apply bit_reverse_invol. lia.
Qed.

Lemma land_hash_range h mask : 0 <= h < 2 ^ 63 -> 0 <= Z.land h mask < 2 ^ 63.
Proof.
  intros H. split; [apply Z.land_nonneg; left; lia|].
  apply Z.le_lt_trans with h; [|lia].
  apply bits_subset_le; try lia.
  - apply Z.land_nonneg; left; lia.
  - intros i _. apply land_subset.
Qed.

(** The marker of the bucket of a hash comes before its key. *)
Lemma key_marker_lt_normal h mask :
  0 <= h < 2 ^ 63 -> key_marker (Z.land h mask) < key_normal h.
Proof.
  intros H. pose proof (land_hash_range h mask H) as R.
  rewrite key_marker_eq, key_normal_eq by assumption.
  assert (bit_reverse (Z.land h mask) <= bit_reverse h); [|lia].
  apply bit_reverse_subset; [lia|]. intros i _. apply land_subset.
Qed.

(** The marker of the parent bucket comes before the marker of the
    bucket. *)
Lemma key_marker_parent b :
  0 < b < 2 ^ 63 -> key_marker (bit_clearmsb b) < key_marker b.
Proof.
  intros H. pose proof (bit_clearmsb_lt b ltac:(lia)) as C.
  assert (P : 2 ^ Z.log2 b <= b) by (apply Z.log2_spec; lia).
  rewrite !key_marker_eq by lia.
  assert (L : bit_reverse (bit_clearmsb b) <= bit_reverse b).
  { apply bit_reverse_subset; [lia|]. intros i _. apply bit_clearmsb_subset. }
  assert (N : bit_reverse (bit_clearmsb b) <> bit_reverse b).
  { intros E. apply bit_reverse_inj in E; lia. }
  lia.
Qed.

(** *** The list as a sequence of nodes *)

(** The address of the first node of [L], or [t] when there is none. *)
Definition hd_addr (L : list (Z * Z)) (t : Z) : Z :=
  match L with
  | [] => t
  | (a, _) :: _ => a
  end.

(** The nodes of [L], each with its key and the address of the next,
    are linked in this order; [t] follows the last. *)
Fixpoint links (c : Z -> lst_t) (L : list (Z * Z)) (t : Z) : Prop :=
  match L with
  | [] => True
  | (a, k) :: L' => key (c a) = k /\ next (c a) = hd_addr L' t /\ links c L' t
  end.

Lemma hd_addr_app A B t : hd_addr (A ++ B) t = hd_addr A (hd_addr B t).
Proof. destruct A as [|[a k] A]; reflexivity. Qed.

Lemma links_app c A B t :
  links c (A ++ B) t <-> links c A (hd_addr B t) /\ links c B t.
Proof.
  induction A as [|[a k] A IH]; simpl; [tauto|].
  rewrite IH, hd_addr_app. tauto.
Qed.

Lemma links_frame c c' L t :
  (forall a, In a (map fst L) -> c' a = c a) -> links c L t -> links c' L t.
Proof.
  induction L as [|[a k] L IH]; simpl; intros H; [tauto|].
  intros (K & N & R). rewrite (H a) by auto.
  split; [exact K|]. split; [exact N|]. apply IH; auto.
Qed.

Lemma last_cons (a : Z) l d : last (a :: l) d = last l a.
Proof.
  revert a d. induction l as [|b l IH]; intros a d; [reflexivity|].
  change (last (a :: b :: l) d) with (last (b :: l) d).
  rewrite !IH. reflexivity.
Qed.

Lemma last_in (l : list Z) d : last l d = d \/ In (last l d) l.
Proof.
  revert d. induction l as [|a l IH]; intros d; [left; reflexivity|].
  rewrite last_cons. right. destruct (IH a) as [->|H]; [left; reflexivity|right; exact H].
Qed.

(** What [lst_search] reports about the nodes [S2] it stops at. *)
Definition found_key (S2 : list (Z * Z)) (k : Z) : bool :=
  match S2 with
  | [] => false
  | (_, ka) :: _ => ka =? k
  end.
Definition next_of (c : Z -> lst_t) (S2 : list (Z * Z)) : Z :=
  match S2 with
  | [] => 0
  | (a, _) :: _ => next (c a)
  end.
Definition stops_at (S2 : list (Z * Z)) (k : Z) : Prop :=
  match S2 with
  | [] => True
  | (_, ka) :: _ => k <= ka
  end.

Definition plain (ak : Z * Z) : Prop := fst ak <> 0 /\ fst ak mod 2 = 0.

Lemma hd_addr_even L : Forall plain L -> hd_addr L 0 mod 2 = 0.
Proof.
  destruct L as [|[a k] L]; intros H; [reflexivity|].
  apply Forall_inv in H. apply H.
Qed.

(** The inner loop walks to the first node whose key is not below [k];
    it changes nothing on a list without marked nodes. *)
Lemma search_loop_spec hd k : forall S p0 fuel m,
  next (cells m p0) = hd_addr S 0 ->
  links (cells m) S 0 ->
  Forall plain S ->
  (length S < fuel)%nat ->
  exists S1 S2,
    S = S1 ++ S2 /\ Forall (fun ak => snd ak < k) S1 /\ stops_at S2 k /\
    search_loop fuel hd k p0 (next (cells m p0)) m =
    Some ((found_key S2 k,
           (last (map fst S1) p0, hd_addr S2 0, next_of (cells m) S2)), m).
Proof.
  induction S as [|[a ka] S IH]; intros p0 fuel m Hn Hl Hp Hf.
  - exists [], []. repeat split; auto.
    destruct fuel as [|fuel]; [simpl in Hf; lia|].
    rewrite Hn. reflexivity.
  - destruct fuel as [|fuel]; [simpl in Hf; lia|].
    simpl in Hn, Hl. destruct Hl as (Hk & Hnext & Hl). subst ka.
    apply Forall_cons_iff in Hp. destruct Hp as [[Pa0 Pa1] Hp']. simpl in Pa0, Pa1.
    assert (Hn2 : next (cells m a) mod 2 = 0)
      by (rewrite Hnext; apply hd_addr_even; assumption).
    rewrite Hn. cbn [search_loop].
    rewrite (ptr_remtag_even a Pa1).
    destruct (Z.eqb_spec a 0) as [|_]; [contradiction|].
    unfold bind, get_key, get_next. rewrite Hn, Z.eqb_refl.
    cbn [negb]. rewrite (ptr_tagged_even _ Hn2). cbn [negb].
    destruct (Z.leb_spec k (key (cells m a))) as [Hle|Hgt].
    + exists [], ((a, key (cells m a)) :: S). repeat split; auto.
    + destruct (IH a fuel m Hnext Hl Hp' ltac:(simpl in Hf; lia))
        as (S1 & S2 & E & F1 & St & R).
      exists ((a, key (cells m a)) :: S1), S2. split; [rewrite E; reflexivity|].
      split; [constructor; [exact Hgt|exact F1]|]. split; [exact St|].
      rewrite R. cbn [map fst]. rewrite last_cons. reflexivity.
Qed.

Lemma lst_search_spec hd k S m :
  next (cells m hd) = hd_addr S 0 ->
  links (cells m) S 0 ->
  Forall plain S ->
  (length S < fuel_of m)%nat ->
  exists S1 S2,
    S = S1 ++ S2 /\ Forall (fun ak => snd ak < k) S1 /\ stops_at S2 k /\
    lst_search hd k m =
    Some ((found_key S2 k,
           (last (map fst S1) hd, hd_addr S2 0, next_of (cells m) S2)), m).
Proof.
  intros Hn Hl Hp Hf.
  destruct (search_loop_spec hd k S hd (fuel_of m) m Hn Hl Hp Hf)
    as (S1 & S2 & E & F & St & R).
  exists S1, S2. repeat split; auto.
Qed.

(** The state after [node->next = p1] and the successful
    [atm_cas(&p0->next, p1, node)]. *)
Definition link_after (m : map_t) (p0 n p1 : Z) : map_t :=
  let m1 := with_cells m (fun q => if q =? n then mk_lst p1 (key (cells m n))
                                   else cells m q) in
  with_cells m1 (fun q => if q =? p0 then mk_lst n (key (cells m1 p0))
                          else cells m1 q).

Lemma link_after_cells m p0 n p1 q :
  p0 <> n ->
  cells (link_after m p0 n p1) q =
  if q =? p0 then mk_lst n (key (cells m p0))
  else if q =? n then mk_lst p1 (key (cells m n))
  else cells m q.
Proof.
  intros H. unfold link_after. simpl.
  destruct (Z.eqb_spec q p0) as [->|_]; [|reflexivity].
  destruct (Z.eqb_spec p0 n) as [|_]; [contradiction|reflexivity].
Qed.

(** [lst_insert] on a list without marked nodes: either the key is
    there and nothing changes, or the node is linked in after the last
    node with a smaller key. *)
Lemma lst_insert_spec hd n S m :
  next (cells m hd) = hd_addr S 0 ->
  links (cells m) S 0 ->
  Forall plain S ->
  (length S < fuel_of m)%nat ->
  n <> hd -> ~ In n (map fst S) ->
  exists S1 S2,
    S = S1 ++ S2 /\
    Forall (fun ak => snd ak < key (cells m n)) S1 /\
    stops_at S2 (key (cells m n)) /\
    lst_insert hd n m =
    if found_key S2 (key (cells m n)) then Some ((false, hd_addr S2 0), m)
    else Some ((true, n), link_after m (last (map fst S1) hd) n (hd_addr S2 0)).
Proof.
  intros Hn Hl Hp Hf Nh Ns.
  destruct (lst_search_spec hd (key (cells m n)) S m Hn Hl Hp Hf)
    as (S1 & S2 & E & F & St & R).
  exists S1, S2. repeat split; auto.
  unfold lst_insert. cbn [insert_loop]. unfold bind at 1. unfold get_key at 1.
  unfold bind at 1. rewrite R.
  destruct (found_key S2 (key (cells m n))); [reflexivity|].
  set (p0 := last (map fst S1) hd).
  assert (P0 : p0 <> n).
  { unfold p0. intros Ep.
    destruct (last_in (map fst S1) hd) as [H|H]; rewrite Ep in H.
    - congruence.
    - apply Ns. rewrite E, map_app. apply in_or_app. left. exact H. }
  assert (N0 : next (cells m p0) = hd_addr S2 0).
  { unfold p0. clear - Hn Hl E. subst S.
    revert hd Hn Hl. induction S1 as [|[a ka] S1 IH]; intros hd Hn Hl.
    - exact Hn.
    - cbn [map fst]. rewrite last_cons. simpl in Hl.
      destruct Hl as (_ & Hx & Hl). apply IH; assumption. }
  unfold bind, set_next, cas_next, bind, get_next. cbn [cells with_cells].
  destruct (Z.eqb_spec p0 n) as [|_]; [contradiction|].
  rewrite N0, Z.eqb_refl. unfold ret. reflexivity.
Qed.

(** *** Relinking *)

Lemma last_app_cons (A : list Z) a B d : last (A ++ a :: B) d = last B a.
Proof.
  revert d. induction A as [|x A IH]; intros d; simpl app.
  - apply last_cons.
  - rewrite last_cons. apply IH.
Qed.

(** The last node of [A] gets a new successor. *)
Lemma links_relink c c' : forall A t t' d,
  A <> [] ->
  NoDup (map fst A) ->
  (forall q, In q (map fst A) -> q <> last (map fst A) d -> c' q = c q) ->
  key (c' (last (map fst A) d)) = key (c (last (map fst A) d)) ->
  next (c' (last (map fst A) d)) = t' ->
  links c A t -> links c' A t'.
Proof.
  induction A as [|[a k] A IH]; intros t t' d Hne ND Hf Hk Hn Hl; [contradiction|].
  cbn [map fst] in *. rewrite last_cons in *.
  simpl in Hl. destruct Hl as (K & N & L).
  apply NoDup_cons_iff in ND. destruct ND as [Hnotin ND'].
  destruct A as [|[b kb] A].
  - simpl in *. repeat split; auto; congruence.
  - assert (Hin : In (last (map fst ((b, kb) :: A)) a) (map fst ((b, kb) :: A))).
    { cbn [map fst]. rewrite last_cons.
      destruct (last_in (map fst A) b) as [->|H]; [left; reflexivity|right; exact H]. }
    assert (Hab : a <> last (map fst ((b, kb) :: A)) a).
    { intros E. rewrite <- E in Hin. exact (Hnotin Hin). }
    cbn [links]. rewrite (Hf a) by (auto; left; reflexivity).
    split; [exact K|]. split; [exact N|].
    apply (IH t t' a); auto; try discriminate.
    intros q Hq Hne'. apply Hf; [right; exact Hq|exact Hne'].
Qed.

(** *** Sorted keys *)

Definition key_sorted (L : list (Z * Z)) : Prop :=
  StronglySorted (fun x y => snd x < snd y) L.

Lemma key_sorted_app A B :
  key_sorted (A ++ B) <->
  key_sorted A /\ key_sorted B /\
  (forall x y, In x A -> In y B -> snd x < snd y).
Proof.
  unfold key_sorted. induction A as [|a A IH]; simpl.
  - split; [intros H; repeat split; auto; [constructor|intros x y []]|tauto].
  - split.
    + intros H. apply StronglySorted_inv in H. destruct H as [H F].
      apply IH in H. destruct H as (SA & SB & C).
      rewrite Forall_app in F. destruct F as [FA FB].
      split; [constructor; assumption|]. split; [exact SB|].
      intros x y [<-|Hx] Hy.
      * rewrite Forall_forall in FB. apply FB. exact Hy.
      * apply C; assumption.
    + intros (SA & SB & C). apply StronglySorted_inv in SA.
      destruct SA as [SA FA]. constructor.
      * apply IH. repeat split; auto.
      * rewrite Forall_app. split; [exact FA|].
        rewrite Forall_forall. intros y Hy. apply C; auto.
Qed.

Lemma key_sorted_insert A B n k :
  key_sorted (A ++ B) ->
  Forall (fun x => snd x < k) A ->
  Forall (fun y => k < snd y) B ->
  key_sorted (A ++ (n, k) :: B).
Proof.
  intros H FA FB. apply key_sorted_app in H. destruct H as (SA & SB & C).
  apply key_sorted_app. split; [exact SA|]. split.
  - constructor; assumption.
  - intros x y Hx [<-|Hy].
    + rewrite Forall_forall in FA. apply FA. exact Hx.
    + apply C; assumption.
Qed.

(** In a sorted list the keys after a node are above its key. *)
Lemma key_sorted_tail a k B :
  key_sorted ((a, k) :: B) -> Forall (fun y => k < snd y) B.
Proof. intros H. apply StronglySorted_inv in H. apply H. Qed.

Lemma sorted_key_unique L a b k :
  key_sorted L -> In (a, k) L -> In (b, k) L -> a = b.
Proof.
  intros SL Ha Hb.
  destruct (in_split _ _ Ha) as (A & B & E). subst L.
  apply key_sorted_app in SL. destruct SL as (_ & SB & C).
  apply in_app_or in Hb. destruct Hb as [Hb|[Hb|Hb]].
  - specialize (C (b, k) (a, k) Hb (or_introl eq_refl)). simpl in C. lia.
  - congruence.
  - apply key_sorted_tail in SB. rewrite Forall_forall in SB.
    specialize (SB _ Hb). simpl in SB. lia.
Qed.

(** *** Counting nodes *)

Lemma length_bound (l : list Z) n :
  NoDup l -> Forall (fun a => 0 < a < n) l -> (length l <= Z.to_nat n)%nat.
Proof.
  intros ND F.
  assert (I : incl (map Z.to_nat l) (seq 0 (Z.to_nat n))).
  { intros x Hx. apply in_map_iff in Hx. destruct Hx as (a & <- & Ha).
    rewrite Forall_forall in F. specialize (F a Ha). apply in_seq. lia. }
  assert (ND' : NoDup (map Z.to_nat l)).
  { clear I. induction l as [|a l IH]; simpl; constructor.
    - apply NoDup_cons_iff in ND. destruct ND as [Hn _].
      intros Hin. apply in_map_iff in Hin. destruct Hin as (b & E & Hb).
      rewrite Forall_forall in F.
      pose proof (F a (or_introl eq_refl)). pose proof (F b (or_intror Hb)).
      assert (a = b) by lia. subst. contradiction.
    - apply NoDup_cons_iff in ND. apply Forall_inv_tail in F. apply IH; tauto. }
  pose proof (NoDup_incl_length ND' I) as H.
  rewrite length_map, length_seq in H. exact H.
Qed.

(** *** The invariant of the table *)

Definition is_data (ak : Z * Z) : bool := negb (key_ismark (snd ak)).

Definition node_ok (m : map_t) (ak : Z * Z) : Prop :=
  0 < fst ak < brk m /\ fst ak mod 2 = 0 /\ 0 <= snd ak < 2 ^ 64.

(** [L] is the list of the table after its head: allocated nodes, all
    different, linked in this order, with increasing keys; every
    bucket that is set points to the marker of its index, and the
    root bucket is set. *)
Record Inv (m : map_t) (L : list (Z * Z)) : Prop := mk_inv {
  inv_head : 0 < lhead m < brk m /\ lhead m mod 2 = 0;
  inv_first : next (cells m (lhead m)) = hd_addr L 0;
  inv_links : links (cells m) L 0;
  inv_nodes : Forall (node_ok m) L;
  inv_nodup : NoDup (lhead m :: map fst L);
  inv_sorted : key_sorted L;
  inv_bkt : forall b, 0 <= b ->
    bucket_at m (b / 0x10000) (b mod 0x10000) <> 0 ->
    b < 2 ^ 63 /\ In (bucket_at m (b / 0x10000) (b mod 0x10000), key_marker b) L;
  inv_root : bucket_at m 0 0 <> 0;
  inv_brk : brk m mod 2 = 0
}.

Lemma node_ok_plain m L : Forall (node_ok m) L -> Forall plain L.
Proof.
  apply Forall_impl. intros [a k] (A & B & _). split; simpl in *; [lia|exact B].
Qed.

Lemma inv_length m L : Inv m L -> (length L < fuel_of m)%nat.
Proof.
  intros I. unfold fuel_of.
  assert (H : (length (map fst L) <= Z.to_nat (brk m))%nat).
  { apply length_bound.
    - pose proof (inv_nodup _ _ I) as ND. apply NoDup_cons_iff in ND. apply ND.
    - pose proof (inv_nodes _ _ I) as F. rewrite Forall_forall in *.
      intros a Ha. apply in_map_iff in Ha. destruct Ha as ([a' k] & <- & Ha).
      apply (F _ Ha). }
  rewrite length_map in H. lia.
Qed.

Lemma last_in_nonempty (l : list Z) d : l <> [] -> In (last l d) l.
Proof.
  destruct l as [|a l]; [contradiction|]. intros _.
  rewrite last_cons. destruct (last_in l a) as [->|H]; [left; reflexivity|right; exact H].
Qed.

Lemma link_after_fields m p0 n p1 :
  brk (link_after m p0 n p1) = brk m /\ lhead (link_after m p0 n p1) = lhead m /\
  segs (link_after m p0 n p1) = segs m /\ size (link_after m p0 n p1) = size m /\
  count (link_after m p0 n p1) = count m /\ grow (link_after m p0 n p1) = grow m.
Proof. repeat split. Qed.

(** The invariant after the node [n] has been linked in between [A]
    and [B]. *)
Lemma inv_link_after m A B n :
  Inv m (A ++ B) -> A <> [] ->
  Forall (fun x => snd x < key (cells m n)) A ->
  Forall (fun y => key (cells m n) < snd y) B ->
  node_ok m (n, key (cells m n)) -> n <> lhead m -> ~ In n (map fst (A ++ B)) ->
  Inv (link_after m (last (map fst A) 0) n (hd_addr B 0))
      (A ++ (n, key (cells m n)) :: B).
Proof.
  intros I HA FA FB Hn Nh Nl.
  set (k := key (cells m n)) in *.
  set (p0 := last (map fst A) 0).
  set (m' := link_after m p0 n (hd_addr B 0)).
  pose proof (inv_nodup _ _ I) as ND.
  assert (ND2 := ND). apply NoDup_cons_iff in ND2. destruct ND2 as [Hlh ND2].
  rewrite map_app in ND2, Hlh, Nl.
  assert (Hp0 : In p0 (map fst A)).
  { apply last_in_nonempty. destruct A; [contradiction|discriminate]. }
  assert (P0n : p0 <> n).
  { intros Ep. apply Nl. apply in_or_app. left. rewrite <- Ep. exact Hp0. }
  assert (P0h : p0 <> lhead m).
  { intros Ep. apply Hlh. apply in_or_app. left. rewrite <- Ep. exact Hp0. }
  assert (C : forall q, cells m' q =
            if q =? p0 then mk_lst n (key (cells m p0))
            else if q =? n then mk_lst (hd_addr B 0) k else cells m q).
  { intros q. apply link_after_cells. exact P0n. }
  assert (Cother : forall q, q <> p0 -> q <> n -> cells m' q = cells m q).
  { intros q H1 H2. rewrite C.
    destruct (Z.eqb_spec q p0); [contradiction|].
    destruct (Z.eqb_spec q n); [contradiction|reflexivity]. }
  pose proof (inv_links _ _ I) as Hl.
  apply links_app in Hl. destruct Hl as [HlA HlB].
  constructor.
  - exact (inv_head _ _ I).
  - change (lhead m') with (lhead m). rewrite Cother by auto.
    rewrite (inv_first _ _ I). destruct A as [|[a ka] A]; [contradiction|reflexivity].
  - apply links_app. split.
    + cbn [hd_addr]. apply (links_relink (cells m) (cells m') A (hd_addr B 0) n 0).
      * exact HA.
      * apply NoDup_app_remove_r in ND2. exact ND2.
      * intros q Hq Hne. apply Cother; [exact Hne|].
        intros ->. apply Nl. apply in_or_app. left. exact Hq.
      * fold p0. rewrite C, Z.eqb_refl. reflexivity.
      * fold p0. rewrite C, Z.eqb_refl. reflexivity.
      * exact HlA.
    + cbn [links]. rewrite C.
      destruct (Z.eqb_spec n p0) as [En|_]; [congruence|].
      rewrite Z.eqb_refl. cbn [key next].
      split; [reflexivity|]. split; [reflexivity|].
      apply (links_frame (cells m)); [|exact HlB].
      intros q Hq. apply Cother.
      * intros Eq. rewrite Eq in Hq. clearbody p0. clear - ND2 Hp0 Hq.
        induction (map fst A) as [|x l IH]; [destruct Hp0|].
        simpl in ND2. apply NoDup_cons_iff in ND2. destruct ND2 as [Hx ND2].
        destruct Hp0 as [->|Hp0]; [|auto].
        apply Hx. apply in_or_app. right. exact Hq.
      * intros ->. apply Nl. apply in_or_app. right. exact Hq.
  - pose proof (inv_nodes _ _ I) as F. rewrite Forall_app in *.
    destruct F as [F1 F2]. split; [exact F1|]. constructor; [exact Hn|exact F2].
  - change (lhead m') with (lhead m).
    apply (NoDup_Add (a := n) (l := lhead m :: map fst (A ++ B))).
    + rewrite !map_app. cbn [map fst]. apply Add_cons. apply Add_app.
    + split; [exact ND|]. rewrite map_app. intros [H|H]; [congruence|contradiction].
  - apply key_sorted_insert; [exact (inv_sorted _ _ I)|exact FA|exact FB].
  - intros b Hb Hne. change (bucket_at m' (b / 65536) (b mod 65536))
      with (bucket_at m (b / 65536) (b mod 65536)) in *.
    destruct (inv_bkt _ _ I b Hb Hne) as [R Hin]. split; [exact R|].
    apply in_app_or in Hin. apply in_or_app.
    destruct Hin as [H|H]; [left; exact H|right; right; exact H].
  - exact (inv_root _ _ I).
  - exact (inv_brk _ _ I).
Qed.

(** A node is linked in after [hd], a node of the list whose key is
    below the key of the new node. *)
Lemma inv_insert m L hd kh n :
  Inv m L ->
  In (hd, kh) L -> kh < key (cells m n) ->
  node_ok m (n, key (cells m n)) -> n <> lhead m -> ~ In n (map fst L) ->
  (exists a, In (a, key (cells m n)) L /\ lst_insert hd n m = Some ((false, a), m)) \/
  (~ In (key (cells m n)) (map snd L) /\
   exists m' A B,
     lst_insert hd n m = Some ((true, n), m') /\
     L = A ++ B /\ Inv m' (A ++ (n, key (cells m n)) :: B) /\
     brk m' = brk m /\ lhead m' = lhead m /\ segs m' = segs m /\
     size m' = size m /\ count m' = count m /\ grow m' = grow m /\
     (forall q, q <> n -> key (cells m' q) = key (cells m q))).
Proof.
  intros I Hhd Hlt Hn Nh Nl.
  set (k := key (cells m n)) in *.
  destruct (in_split _ _ Hhd) as (P & S & E).
  pose proof (inv_links _ _ I) as Hl. rewrite E in Hl.
  apply links_app in Hl. destruct Hl as [HlP HlS].
  cbn [links hd_addr] in HlS. destruct HlS as (Kh & Nhd & HlS).
  pose proof (inv_nodes _ _ I) as Hok.
  assert (HokS : Forall (node_ok m) S).
  { rewrite E, Forall_app in Hok. destruct Hok as [_ Hok].
    apply Forall_inv_tail in Hok. exact Hok. }
  assert (LenS : (length S < fuel_of m)%nat).
  { pose proof (inv_length _ _ I) as H. rewrite E, length_app in H. simpl in H. lia. }
  assert (Nhd' : n <> hd).
  { intros ->. apply Nl. apply in_map_iff. exists (hd, kh). auto. }
  assert (NS : ~ In n (map fst S)).
  { intros H. apply Nl. rewrite E, map_app. apply in_or_app. right. right. exact H. }
  destruct (lst_insert_spec hd n S m Nhd HlS (node_ok_plain _ _ HokS) LenS Nhd' NS)
    as (S1 & S2 & ES & F1 & St & R).
  fold k in F1, St, R.
  pose proof (inv_sorted _ _ I) as Hs.
  assert (EL : L = (P ++ (hd, kh) :: S1) ++ S2).
  { rewrite E, ES, <- app_assoc. reflexivity. }
  rewrite EL in Hs.
  (* keys before the stop are below [k] *)
  assert (FA : Forall (fun x => snd x < k) (P ++ (hd, kh) :: S1)).
  { rewrite Forall_app. split.
    - apply key_sorted_app in Hs. destruct Hs as (Hs & _ & _).
      apply key_sorted_app in Hs. destruct Hs as (_ & _ & C).
      rewrite Forall_forall. intros x Hx.
      specialize (C x (hd, kh) Hx (or_introl eq_refl)). simpl in C. lia.
    - constructor; [exact Hlt|exact F1]. }
  destruct (found_key S2 k) eqn:Fk.
  - left. destruct S2 as [|[a ka] S2']; [discriminate|].
    simpl in Fk. apply Z.eqb_eq in Fk. subst ka.
    exists a. split; [|exact R].
    rewrite EL. apply in_or_app. right. left. reflexivity.
  - right.
    assert (FB : Forall (fun y => k < snd y) S2).
    { destruct S2 as [|[a ka] S2']; [constructor|].
      simpl in Fk, St. apply Z.eqb_neq in Fk.
      apply key_sorted_app in Hs. destruct Hs as (_ & Hs & _).
      constructor; [simpl; lia|].
      apply key_sorted_tail in Hs. revert Hs. apply Forall_impl.
      intros y Hy. lia. }
    split.
    { intros Hin. apply in_map_iff in Hin. destruct Hin as (x & Ex & Hx).
      rewrite EL in Hx. apply in_app_or in Hx. rewrite Forall_forall in FA, FB.
      destruct Hx as [Hx|Hx]; [specialize (FA x Hx)|specialize (FB x Hx)]; lia. }
    assert (Elast : last (map fst (P ++ (hd, kh) :: S1)) 0 = last (map fst S1) hd).
    { rewrite map_app. cbn [map fst]. apply last_app_cons. }
    rewrite <- Elast in R.
    eexists. exists (P ++ (hd, kh) :: S1), S2.
    split; [exact R|]. split; [exact EL|]. split.
    { apply inv_link_after; auto.
      - rewrite <- EL. exact I.
      - destruct P; discriminate.
      - rewrite <- EL. exact Nl. }
    repeat split.
    intros q Hq. rewrite link_after_cells.
    + destruct (Z.eqb_spec q (last (map fst (P ++ (hd, kh) :: S1)) 0)) as [->|_];
        [reflexivity|].
      destruct (Z.eqb_spec q n); [contradiction|reflexivity].
    + rewrite Elast. intros Ep.
      destruct (last_in (map fst S1) hd) as [H|H]; rewrite Ep in H.
      * congruence.
      * apply NS. rewrite ES, map_app. apply in_or_app. left. exact H.
Qed.
(** *** Steps that keep the list *)

Lemma inv_frame m m' L :
  Inv m L ->
  (forall q, In q (lhead m :: map fst L) -> cells m' q = cells m q) ->
  lhead m' = lhead m -> brk m <= brk m' -> brk m' mod 2 = 0 ->
  (forall s i, bucket_at m' s i = bucket_at m s i) ->
  Inv m' L.
Proof.
  intros I C Hh Hb He Hs. constructor.
  - rewrite Hh. pose proof (inv_head _ _ I). lia.
  - rewrite Hh, C by (left; reflexivity). exact (inv_first _ _ I).
  - apply (links_frame (cells m)); [|exact (inv_links _ _ I)].
    intros q Hq. apply C. right. exact Hq.
  - pose proof (inv_nodes _ _ I) as F. revert F. apply Forall_impl.
    intros [a k] (A & B & K). unfold node_ok. simpl in *. lia.
  - rewrite Hh. exact (inv_nodup _ _ I).
  - exact (inv_sorted _ _ I).
  - intros b Hb0. rewrite Hs. apply (inv_bkt _ _ I b Hb0).
  - rewrite Hs. exact (inv_root _ _ I).
  - exact He.
Qed.

Lemma inv_fresh m L q : Inv m L -> brk m <= q -> ~ In q (lhead m :: map fst L).
Proof.
  intros I Hq [H|H].
  - pose proof (inv_head _ _ I). lia.
  - apply in_map_iff in H. destruct H as ([a k] & E & H). simpl in E. subst a.
    pose proof (inv_nodes _ _ I) as F. rewrite Forall_forall in F.
    destruct (F _ H) as (A & _). simpl in A. lia.
Qed.

Lemma inv_brk16 m L sz :
  Inv m L -> 0 <= sz -> brk m <= brk m + 16 * ((sz + 15) / 16) /\
  (brk m + 16 * ((sz + 15) / 16)) mod 2 = 0.
Proof.
  intros I Hsz. pose proof (inv_brk _ _ I) as E.
  assert (0 <= (sz + 15) / 16) by (apply Z.div_pos; lia).
  split; [lia|].
  replace (16 * ((sz + 15) / 16)) with (((sz + 15) / 16 * 8) * 2) by lia.
  rewrite Z.mod_add by lia. exact E.
Qed.

Lemma inv_malloc m L sz v m' :
  Inv m L -> 0 <= sz -> malloc sz m = Some (v, m') -> Inv m' L.
Proof.
  intros I Hsz E. unfold malloc in E. injection E as <- <-.
  destruct (inv_brk16 m L sz I Hsz) as [H1 H2].
  apply (inv_frame m); auto.
Qed.

Lemma inv_set_key m L p k :
  Inv m L -> ~ In p (lhead m :: map fst L) ->
  Inv (with_cells m (fun q => if q =? p then mk_lst (next (cells m p)) k
                              else cells m q)) L.
Proof.
  intros I Hp. apply (inv_frame m); auto.
  - intros q Hq. simpl. destruct (Z.eqb_spec q p) as [->|_]; [contradiction|reflexivity].
  - simpl. lia.
  - exact (inv_brk _ _ I).
Qed.

Lemma inv_new_seg m L seg :
  Inv m L -> segs m seg = None ->
  Inv (with_segs m (fun s => if s =? seg then Some (fun _ => 0) else segs m s)) L.
Proof.
  intros I Hs. apply (inv_frame m); auto.
  - simpl. lia.
  - exact (inv_brk _ _ I).
  - intros s i. unfold bucket_at. simpl.
    destruct (Z.eqb_spec s seg) as [->|_]; [rewrite Hs|]; reflexivity.
Qed.

Definition put_bucket (m : map_t) (seg idx p : Z) : map_t :=
  with_segs m (fun s => if s =? seg
                        then Some (fun i => if i =? idx then p else bucket_at m seg i)
                        else segs m s).

Lemma bucket_at_put m seg idx p s i :
  bucket_at (put_bucket m seg idx p) s i =
  if (s =? seg) && (i =? idx) then p else bucket_at m s i.
Proof.
  unfold put_bucket, bucket_at at 1. simpl.
  destruct (Z.eqb_spec s seg) as [->|_]; simpl; [|reflexivity].
  destruct (i =? idx); reflexivity.
Qed.

Lemma inv_put_bucket m L b p :
  Inv m L -> 0 <= b < 2 ^ 63 -> p <> 0 -> In (p, key_marker b) L ->
  Inv (put_bucket m (b / 0x10000) (b mod 0x10000) p) L.
Proof.
  intros I Hb Hp Hin. constructor; try apply I.
  - intros b' Hb'. rewrite bucket_at_put.
    destruct (Z.eqb_spec (b' / 65536) (b / 65536)) as [E1|_]; simpl;
      [|apply (inv_bkt _ _ I b' Hb')].
    destruct (Z.eqb_spec (b' mod 65536) (b mod 65536)) as [E2|_];
      [|apply (inv_bkt _ _ I b' Hb')].
    intros _.
    assert (b' = b).
    { rewrite (Z.div_mod b' 65536), (Z.div_mod b 65536) by lia. congruence. }
    subst b'. split; [lia|exact Hin].
  - rewrite bucket_at_put.
    destruct ((0 =? b / 65536) && (0 =? b mod 65536)); [exact Hp|apply I].
Qed.
(** *** The bucket heads *)

(** The list keeps its data nodes and every new node is newly
    allocated. *)
Definition same_data (L L' : list (Z * Z)) : Prop :=
  forall a k, k mod 2 = 1 -> In (a, k) L' <-> In (a, k) L.

Record grows (m m' : map_t) (L L' : list (Z * Z)) : Prop := mk_grows {
  gr_lhead : lhead m' = lhead m;
  gr_size : size m' = size m;
  gr_count : count m' = count m;
  gr_grow : grow m' = grow m;
  gr_brk : brk m <= brk m';
  gr_data : same_data L L';
  gr_old : forall a, In a (map fst L') -> In a (map fst L) \/ brk m <= a
}.

Lemma grows_refl m L : grows m m L L.
Proof.
  constructor; try reflexivity; try lia; [intros a k _; reflexivity|auto].
Qed.

Lemma grows_trans m1 m2 m3 L1 L2 L3 :
  grows m1 m2 L1 L2 -> grows m2 m3 L2 L3 -> grows m1 m3 L1 L3.
Proof.
  intros [A1 A2 A3 A4 A5 A6 A7] [B1 B2 B3 B4 B5 B6 B7]. constructor; try congruence.
  - lia.
  - intros a k Hk. rewrite (B6 a k Hk). apply A6. exact Hk.
  - intros a Ha. destruct (B7 a Ha) as [H|H]; [auto|right; lia].
Qed.

Definition ensure_seg (m : map_t) (seg : Z) : map_t :=
  match segs m seg with
  | None => with_segs m (fun s => if s =? seg then Some (fun _ => 0) else segs m s)
  | Some _ => m
  end.

Lemma ensure_seg_spec m L seg :
  Inv m L -> Inv (ensure_seg m seg) L /\ grows m (ensure_seg m seg) L L /\
  forall s i, bucket_at (ensure_seg m seg) s i = bucket_at m s i.
Proof.
  intros I. unfold ensure_seg. destruct (segs m seg) eqn:Es.
  - split; [exact I|]. split; [apply grows_refl|reflexivity].
  - split; [apply inv_new_seg; assumption|]. split.
    + constructor; try reflexivity; try (simpl; lia); [intros a k _; reflexivity|auto].
    + intros s i. unfold bucket_at. simpl.
      destruct (Z.eqb_spec s seg) as [->|_]; [rewrite Es|]; reflexivity.
Qed.

Lemma getbkt_unfold f b m :
  map_getbkt (S f) b m =
  if 0x100000000 <=? b then None else
  let seg := b / 0x10000 in
  let idx := b mod 0x10000 in
  let m1 := ensure_seg m seg in
  if bucket_at m1 seg idx =? 0 then
    ((prev <- map_getbkt f (bit_clearmsb b) ;;
      cbkt <- malloc 16 ;;
      set_key cbkt (key_marker b) ;;;
      r <- lst_insert prev cbkt ;;
      set_bucket seg idx (snd r)) ;;; get_bucket seg idx) m1
  else Some (bucket_at m1 seg idx, m1).
Proof.
  cbn [map_getbkt]. destruct (0x100000000 <=? b); [reflexivity|].
  cbv zeta. unfold bind at 1. unfold get_seg. unfold ensure_seg.
  destruct (segs m (b / 65536)) eqn:Es.
  - unfold bind at 1. unfold ret at 1. unfold bind at 1. unfold get_bucket at 1.
    destruct (bucket_at m (b / 65536) (b mod 65536) =? 0) eqn:Eb; [reflexivity|].
    reflexivity.
  - unfold bind at 1. unfold new_seg at 1. unfold bind at 1. unfold get_bucket at 1.
    match goal with |- context [bucket_at ?m1 _ _ =? 0] =>
      destruct (bucket_at m1 (b / 65536) (b mod 65536) =? 0) eqn:Eb end;
    reflexivity.
Qed.
Lemma bkt_parent_fuel b f :
  0 < b -> b < 2 ^ (Z.of_nat (S f) - 1) ->
  0 <= bit_clearmsb b < b /\ bit_clearmsb b < 2 ^ (Z.of_nat f - 1).
Proof.
  intros Hb Hf. pose proof (bit_clearmsb_lt b Hb) as C.
  assert (P : 2 ^ Z.log2 b <= b) by (apply Z.log2_spec; lia).
  split; [lia|].
  assert (Z.log2 b < Z.of_nat (S f) - 1).
  { apply Z.log2_lt_pow2; lia. }
  apply Z.lt_le_trans with (2 ^ Z.log2 b); [lia|].
  apply Z.pow_le_mono_r; [lia|]. lia.
Qed.

(** [map_getbkt] returns the marker node of the bucket, which it links
    in when the bucket is new. *)
Lemma getbkt_spec : forall fuel b m L,
  Inv m L -> 0 <= b < 2 ^ 32 -> b < 2 ^ (Z.of_nat fuel - 1) ->
  exists p m' L',
    map_getbkt fuel b m = Some (p, m') /\ Inv m' L' /\
    In (p, key_marker b) L' /\ grows m m' L L'.
Proof.
  induction fuel as [|f IH]; intros b m L I Hb Hf.
  - change (2 ^ (Z.of_nat 0 - 1)) with 0 in Hf. lia.
  - rewrite getbkt_unfold.
    destruct (Z.leb_spec 0x100000000 b) as [Hge|_]; [lia|].
    cbv zeta.
    destruct (ensure_seg_spec m L (b / 65536) I) as (I1 & G1 & B1).
    set (m1 := ensure_seg m (b / 65536)) in *.
    destruct (Z.eqb_spec (bucket_at m1 (b / 65536) (b mod 65536)) 0) as [Ez|Enz].
    + assert (Hb0 : 0 < b).
      { destruct (Z.eq_dec b 0) as [->|]; [|lia].
        exfalso. apply (inv_root _ _ I1). exact Ez. }
      destruct (bkt_parent_fuel b f Hb0 Hf) as [Hp Hpf].
      destruct (IH (bit_clearmsb b) m1 L I1 ltac:(lia) Hpf)
        as (prev & m2 & L2 & E2 & I2 & In2 & G2).
      set (cb := brk m2).
      set (m3 := mk_map (cells m2) (brk m2 + 16 * ((16 + 15) / 16)) (lhead m2)
                   (segs m2) (size m2) (count m2) (grow m2)).
      assert (I3 : Inv m3 L2).
      { apply (inv_malloc m2 L2 16 cb); [exact I2|lia|reflexivity]. }
      assert (F3 : ~ In cb (lhead m3 :: map fst L2)).
      { apply (inv_fresh m2 L2 cb I2). unfold cb. lia. }
      set (m4 := with_cells m3 (fun q => if q =? cb
                   then mk_lst (next (cells m3 cb)) (key_marker b) else cells m3 q)).
      assert (I4 : Inv m4 L2) by (apply inv_set_key; assumption).
      assert (K4 : key (cells m4 cb) = key_marker b).
      { unfold m4. simpl. rewrite Z.eqb_refl. reflexivity. }
      assert (G4 : grows m2 m4 L2 L2).
      { constructor; try reflexivity; try (simpl; lia);
          [intros a k _; reflexivity|auto]. }
      assert (Hb63 : 0 < b < 2 ^ 63) by lia.
      assert (Hlt : key_marker (bit_clearmsb b) < key (cells m4 cb)).
      { rewrite K4. apply key_marker_parent. exact Hb63. }
      assert (Hok : node_ok m4 (cb, key (cells m4 cb))).
      { rewrite K4. unfold node_ok. simpl.
        pose proof (inv_head _ _ I2). pose proof (inv_brk _ _ I2).
        pose proof (key_marker_range b ltac:(lia)). unfold cb. lia. }
      assert (Hnh : cb <> lhead m4).
      { intros E. apply F3. left. symmetry. exact E. }
      assert (Hnl : ~ In cb (map fst L2)).
      { intros H. apply F3. right. exact H. }
      destruct (inv_insert m4 L2 prev _ cb I4 In2 Hlt Hok Hnh Hnl)
        as [(a & Ha & R)|(Hfresh & m5 & A & B & R & EL & I5 & F5)].
      * (* the marker is there *)
        assert (Ha0 : a <> 0).
        { pose proof (inv_nodes _ _ I4) as F. rewrite Forall_forall in F.
          destruct (F _ Ha) as (H & _). simpl in H. lia. }
        rewrite K4 in Ha.
        exists a, (put_bucket m4 (b / 65536) (b mod 65536) a), L2.
        split; [|split; [|split]].
        -- unfold bind. rewrite E2. unfold malloc, set_key.
           match goal with |- context [lst_insert prev ?c ?mm] =>
             change (lst_insert prev c mm) with (lst_insert prev cb m4) end.
           rewrite R. unfold set_bucket. cbn [snd].
           fold (put_bucket m4 (b / 65536) (b mod 65536) a).
           unfold get_bucket. rewrite bucket_at_put, !Z.eqb_refl. reflexivity.
        -- apply inv_put_bucket; auto. lia.
        -- exact Ha.
        -- apply (grows_trans m m1 _ L L L2 G1).
           apply (grows_trans m1 m2 _ L L2 L2 G2).
           apply (grows_trans m2 m4 _ L2 L2 L2 G4).
           constructor; try reflexivity; try (simpl; lia);
             [intros x k _; reflexivity|auto].
      * (* the marker is linked in *)
        rewrite K4 in *.
        destruct F5 as (F5b & F5h & F5s & F5z & F5c & F5g & F5k).
        set (L5 := A ++ (cb, key_marker b) :: B) in *.
        assert (In5 : In (cb, key_marker b) L5).
        { unfold L5. apply in_or_app. right. left. reflexivity. }
        assert (Hcb0 : cb <> 0).
        { pose proof (inv_head _ _ I2). unfold cb. lia. }
        exists cb, (put_bucket m5 (b / 65536) (b mod 65536) cb), L5.
        split; [|split; [|split]].
        -- unfold bind. rewrite E2. unfold malloc, set_key.
           match goal with |- context [lst_insert prev ?c ?mm] =>
             change (lst_insert prev c mm) with (lst_insert prev cb m4) end.
           rewrite R. unfold set_bucket. cbn [snd].
           fold (put_bucket m5 (b / 65536) (b mod 65536) cb).
           unfold get_bucket. rewrite bucket_at_put, !Z.eqb_refl. reflexivity.
        -- apply inv_put_bucket; auto. lia.
        -- exact In5.
        -- apply (grows_trans m m1 _ L L L5 G1).
           apply (grows_trans m1 m2 _ L L2 L5 G2).
           constructor;
             [exact F5h|exact F5z|exact F5c|exact F5g| | |].
           ++ change (brk m2 <= brk m5). rewrite F5b. simpl. lia.
           ++ intros x k Hk. unfold L5. rewrite EL. rewrite !in_app_iff. simpl.
              split; [|tauto]. intros [H|[H|H]]; auto.
              injection H as <- <-. pose proof (key_marker_even b). lia.
           ++ intros x. unfold L5. rewrite EL, !map_app. simpl. rewrite !in_app_iff.
              simpl. intros [H|[H|H]]; auto. right. subst x. unfold cb. lia.
    + exists (bucket_at m1 (b / 65536) (b mod 65536)), m1, L.
      split; [reflexivity|]. split; [exact I1|]. split; [|exact G1].
      apply (inv_bkt _ _ I1 b); [lia|exact Enz].
Qed.
(** *** Searching from a node of the list *)

Lemma inv_find m L hd kh k :
  Inv m L -> In (hd, kh) L -> kh < k ->
  (exists a, In (a, k) L /\ lst_find hd k m = Some ((true, a), m)) \/
  (~ In k (map snd L) /\ lst_find hd k m = Some ((false, 0), m)).
Proof.
  intros I Hhd Hlt.
  destruct (in_split _ _ Hhd) as (P & S & E).
  pose proof (inv_links _ _ I) as Hl. rewrite E in Hl.
  apply links_app in Hl. destruct Hl as [HlP HlS].
  cbn [links hd_addr] in HlS. destruct HlS as (Kh & Nhd & HlS).
  pose proof (inv_nodes _ _ I) as Hok.
  assert (HokS : Forall (node_ok m) S).
  { rewrite E, Forall_app in Hok. destruct Hok as [_ Hok].
    apply Forall_inv_tail in Hok. exact Hok. }
  assert (LenS : (length S < fuel_of m)%nat).
  { pose proof (inv_length _ _ I) as H. rewrite E, length_app in H. simpl in H. lia. }
  destruct (lst_search_spec hd k S m Nhd HlS (node_ok_plain _ _ HokS) LenS)
    as (S1 & S2 & ES & F1 & St & R).
  pose proof (inv_sorted _ _ I) as Hs.
  assert (EL : L = (P ++ (hd, kh) :: S1) ++ S2).
  { rewrite E, ES, <- app_assoc. reflexivity. }
  rewrite EL in Hs.
  assert (FA : Forall (fun x => snd x < k) (P ++ (hd, kh) :: S1)).
  { rewrite Forall_app. split.
    - apply key_sorted_app in Hs. destruct Hs as (Hs & _ & _).
      apply key_sorted_app in Hs. destruct Hs as (_ & _ & C).
      rewrite Forall_forall. intros x Hx.
      specialize (C x (hd, kh) Hx (or_introl eq_refl)). simpl in C. lia.
    - constructor; [exact Hlt|exact F1]. }
  unfold lst_find, bind. rewrite R. cbn [fst snd].
  destruct (found_key S2 k) eqn:Fk.
  - left. destruct S2 as [|[a ka] S2']; [discriminate|].
    simpl in Fk. apply Z.eqb_eq in Fk. subst ka.
    exists a. split; [|reflexivity].
    rewrite EL. apply in_or_app. right. left. reflexivity.
  - right. split; [|reflexivity].
    assert (FB : Forall (fun y => k < snd y) S2).
    { destruct S2 as [|[a ka] S2']; [constructor|].
      simpl in Fk, St. apply Z.eqb_neq in Fk.
      apply key_sorted_app in Hs. destruct Hs as (_ & Hs & _).
      constructor; [simpl; lia|].
      apply key_sorted_tail in Hs. revert Hs. apply Forall_impl.
      intros y Hy. lia. }
    intros Hin. apply in_map_iff in Hin. destruct Hin as (x & Ex & Hx).
    rewrite EL in Hx. apply in_app_or in Hx. rewrite Forall_forall in FA, FB.
    destruct Hx as [Hx|Hx]; [specialize (FA x Hx)|specialize (FB x Hx)]; lia.
Qed.

(** *** The operations of the table *)

Lemma bkt_range h sz :
  0 <= h -> 1 <= sz <= 2 ^ 32 -> 0 <= Z.land h (u64 (sz - 1)) < 2 ^ 32.
Proof.
  intros Hh Hsz. unfold u64. rewrite Z.mod_small by lia.
  split; [apply Z.land_nonneg; left; exact Hh|].
  apply Z.le_lt_trans with (sz - 1); [|lia].
  apply bits_subset_le; [apply Z.land_nonneg; left; exact Hh|lia|].
  intros i _. rewrite Z.land_spec. destruct (Z.testbit h i); simpl; auto.
  discriminate.
Qed.

(** [map_find]: the node with the key of [h], or [NULL]; only markers
    are added to the list. *)
Lemma find_spec m L h :
  Inv m L -> 0 <= h < 2 ^ 63 -> Z.land h (u64 (size m - 1)) < 2 ^ 32 ->
  exists r m' L',
    map_find h m = Some (r, m') /\ Inv m' L' /\ grows m m' L L' /\
    ((In (r, key_normal h) L /\ r <> 0) \/
     (~ In (key_normal h) (map snd L) /\ r = 0)).
Proof.
  intros I Hh B1.
  assert (B0 : 0 <= Z.land h (u64 (size m - 1))).
  { apply Z.land_nonneg. left. lia. }
  set (bkt := Z.land h (u64 (size m - 1))) in *.
  destruct (getbkt_spec bkt_fuel bkt m L I (conj B0 B1)) as (hd & m1 & L1 & E1 & I1 & In1 & G1).
  { apply Z.lt_le_trans with (2 ^ 32); [exact B1|]. vm_compute. discriminate. }
  assert (Hlt : key_marker bkt < key_normal h) by (apply key_marker_lt_normal; exact Hh).
  pose proof (key_normal_odd h) as Odd.
  unfold map_find. unfold bind at 1. unfold get_size. fold bkt.
  unfold bind at 1. rewrite E1. unfold bind.
  destruct (inv_find m1 L1 hd _ (key_normal h) I1 In1 Hlt)
    as [(a & Ha & R)|(Hn & R)]; rewrite R; cbn [fst snd]; unfold ret.
  - exists a, m1, L1. split; [reflexivity|]. split; [exact I1|]. split; [exact G1|].
    left. split; [apply (gr_data _ _ _ _ G1); assumption|].
    pose proof (inv_nodes _ _ I1) as F. rewrite Forall_forall in F.
    destruct (F _ Ha) as (H & _). simpl in H. lia.
  - exists 0, m1, L1. split; [reflexivity|]. split; [exact I1|]. split; [exact G1|].
    right. split; [|reflexivity].
    intros Hin. apply Hn. apply in_map_iff in Hin. destruct Hin as ([a k] & Ek & Hin).
    simpl in Ek. subst k. apply in_map_iff. exists (a, key_normal h).
    split; [reflexivity|]. apply (gr_data _ _ _ _ G1); assumption.
Qed.
(** The state after the count of a successful insertion. *)
Definition counted (m : map_t) : map_t :=
  mk_map (cells m) (brk m) (lhead m) (segs m)
    (if grow m <? (count m + 1) / size m then u64 (size m * 2) else size m)
    (count m + 1) (grow m).

Lemma counted_run m :
  (size0 <- get_size ;;
   c <- atm_add_count ;;
   g <- get_grow ;;
   if g <? c / size0 then cas_size size0 (u64 (size0 * 2)) ;;; ret tt
   else ret tt) m = Some (tt, counted m).
Proof.
  unfold bind, get_size, atm_add_count, get_grow, counted. cbn [grow count size].
  destruct (grow m <? (count m + 1) / size m); [|reflexivity].
  unfold cas_size. cbn [size]. rewrite Z.eqb_refl. reflexivity.
Qed.

Lemma inv_counted m L : Inv m L -> Inv (counted m) L.
Proof.
  intros I. apply (inv_frame m); auto.
  - simpl. lia.
  - exact (inv_brk _ _ I).
Qed.

(** [map_insert] of a node [v] that the caller has allocated. *)
Lemma insert_spec m L h v :
  Inv m L -> 0 <= h < 2 ^ 63 -> Z.land h (u64 (size m - 1)) < 2 ^ 32 ->
  0 < v < brk m -> v mod 2 = 0 -> ~ In v (lhead m :: map fst L) ->
  exists r m' L',
    map_insert h v m = Some (r, m') /\ Inv m' L' /\
    lhead m' = lhead m /\ grow m' = grow m /\ brk m <= brk m' /\
    (forall a, In a (map fst L') -> In a (map fst L) \/ a = v \/ brk m <= a) /\
    ((In (r, key_normal h) L /\ r <> v /\ ~ In v (map fst L') /\
      same_data L L' /\ count m' = count m /\ size m' = size m) \/
     (~ In (key_normal h) (map snd L) /\ r = v /\
      (forall a k, k mod 2 = 1 ->
         In (a, k) L' <-> (a, k) = (v, key_normal h) \/ In (a, k) L) /\
      count m' = count m + 1 /\
      size m' = if grow m <? (count m + 1) / size m then u64 (size m * 2)
                else size m)).
Proof.
  intros I Hh B1 Hv Hve Hvf.
  assert (B0 : 0 <= Z.land h (u64 (size m - 1))).
  { apply Z.land_nonneg. left. lia. }
  set (bkt := Z.land h (u64 (size m - 1))) in *.
  destruct (getbkt_spec bkt_fuel bkt m L I (conj B0 B1)) as (hd & m1 & L1 & E1 & I1 & In1 & G1).
  { apply Z.lt_le_trans with (2 ^ 32); [exact B1|]. vm_compute. discriminate. }
  destruct G1 as [G1h G1z G1c G1g G1b G1d G1o].
  set (k := key_normal h).
  assert (Hlt : key_marker bkt < k) by (apply key_marker_lt_normal; exact Hh).
  pose proof (key_normal_odd h) as Odd. fold k in Odd.
  assert (Hv1 : ~ In v (lhead m1 :: map fst L1)).
  { intros [H|H].
    - apply Hvf. left. congruence.
    - destruct (G1o v H) as [H'|H']; [apply Hvf; right; exact H'|lia]. }
  set (m2 := with_cells m1 (fun q => if q =? v then mk_lst (next (cells m1 v)) k
                                     else cells m1 q)).
  assert (I2 : Inv m2 L1) by (apply inv_set_key; assumption).
  assert (K2 : key (cells m2 v) = k).
  { unfold m2. simpl. rewrite Z.eqb_refl. reflexivity. }
  assert (Hltk : key_marker bkt < key (cells m2 v)) by (rewrite K2; exact Hlt).
  assert (Hok : node_ok m2 (v, key (cells m2 v))).
  { rewrite K2. unfold node_ok. simpl.
    pose proof (key_normal_range h Hh). fold k in H. lia. }
  assert (Hnh : v <> lhead m2).
  { intros E. apply Hv1. left. symmetry. exact E. }
  assert (Hnl : ~ In v (map fst L1)).
  { intros H. apply Hv1. right. exact H. }
  assert (Old1 : forall a, In a (map fst L1) -> In a (map fst L) \/ a = v \/ brk m <= a).
  { intros a Ha. destruct (G1o a Ha); auto. }
  unfold map_insert. unfold bind at 1. unfold get_size. fold bkt. fold k.
  unfold bind at 1. rewrite E1. unfold bind at 1. unfold set_key at 1. fold m2.
  unfold bind at 1.
  destruct (inv_insert m2 L1 hd _ v I2 In1 Hltk Hok Hnh Hnl)
    as [(a & Ha & R)|(Hfresh & m3 & A & B & R & EL & I3 & F3)]; rewrite R; cbn [fst snd].
  - rewrite K2 in Ha.
    exists a, m2, L1. unfold bind, ret.
    split; [reflexivity|]. split; [exact I2|].
    split; [exact G1h|]. split; [exact G1g|]. split; [exact G1b|].
    split; [exact Old1|]. left.
    split; [apply G1d; assumption|]. split.
    { intros ->. apply Hnl. apply in_map_iff. exists (v, k). auto. }
    split; [exact Hnl|]. split; [exact G1d|]. split; [exact G1c|exact G1z].
  - rewrite K2 in *.
    destruct F3 as (F3b & F3h & F3s & F3z & F3c & F3g & F3k).
    change (brk m2) with (brk m1) in F3b. change (lhead m2) with (lhead m1) in F3h.
    change (size m2) with (size m1) in F3z. change (count m2) with (count m1) in F3c.
    change (grow m2) with (grow m1) in F3g.
    exists v, (counted m3), (A ++ (v, k) :: B).
    split.
    { unfold bind at 1. rewrite counted_run. reflexivity. }
    split; [apply inv_counted; exact I3|].
    split; [simpl; congruence|]. split; [simpl; congruence|].
    split; [simpl; rewrite F3b; exact G1b|].
    split.
    { intros a. rewrite map_app. cbn [map fst]. rewrite in_app_iff. cbn [In].
      intros H. assert (H' : a = v \/ In a (map fst L1)).
      { rewrite EL, map_app, in_app_iff.
        destruct H as [H|[H|H]]; [right; left; exact H|left; symmetry; exact H|
                                  right; right; exact H]. }
      destruct H' as [->|H']; auto. }
    right. split.
    { intros Hin. apply Hfresh. apply in_map_iff in Hin.
      destruct Hin as ([a ka] & Ek & Hin). simpl in Ek. subst ka.
      apply in_map_iff. exists (a, k). split; [reflexivity|].
      apply G1d; assumption. }
    split; [reflexivity|]. split.
    { intros a ka Hka. rewrite <- (G1d a ka Hka). rewrite EL, !in_app_iff. cbn [In].
      split; intros H.
      - destruct H as [H|[H|H]]; auto.
      - destruct H as [H|[H|H]]; auto. }
    split; [simpl; congruence|].
    simpl. rewrite F3g, F3c, F3z, G1g, G1c, G1z. reflexivity.
Qed.

(** *** The walk of the iterator *)

Lemma nodes_from_links m : forall L p fuel,
  next (cells m p) = hd_addr L 0 -> links (cells m) L 0 -> Forall plain L ->
  (length L < fuel)%nat -> nodes_from fuel m p = L.
Proof.
  induction L as [|[a k] L IH]; intros p fuel Hn Hl Hp Hf.
  - destruct fuel; [reflexivity|]. simpl. simpl in Hn. rewrite Hn. reflexivity.
  - destruct fuel as [|fuel]; [simpl in Hf; lia|].
    simpl. simpl in Hn. rewrite Hn.
    apply Forall_cons_iff in Hp. destruct Hp as [[Ha _] Hp]. simpl in Ha.
    destruct (Z.eqb_spec a 0) as [|_]; [contradiction|].
    simpl in Hl. destruct Hl as (Hk & Hx & Hl).
    rewrite Hk. f_equal. apply IH; auto. simpl in Hf. lia.
Qed.

Lemma nodes_inv m L : Inv m L -> nodes m = L.
Proof.
  intros I. unfold nodes. apply nodes_from_links.
  - exact (inv_first _ _ I).
  - exact (inv_links _ _ I).
  - apply (node_ok_plain m). exact (inv_nodes _ _ I).
  - apply inv_length. exact I.
Qed.
(** Outside the table of segments there is no bucket. *)
Lemma getbkt_abort b m : 2 ^ 32 <= b -> map_getbkt bkt_fuel b m = None.
Proof.
  intros H. unfold bkt_fuel. cbn [map_getbkt].
  destruct (Z.leb_spec 0x100000000 b) as [_|Hlt]; [reflexivity|].
  change (2 ^ 32) with 0x100000000 in H. lia.
Qed.

Lemma find_abort h m : 2 ^ 32 <= Z.land h (u64 (size m - 1)) -> map_find h m = None.
Proof.
  intros H. unfold map_find, bind at 1. unfold get_size.
  unfold bind at 1. rewrite getbkt_abort by exact H. reflexivity.
Qed.

Lemma insert_abort h v m :
  2 ^ 32 <= Z.land h (u64 (size m - 1)) -> map_insert h v m = None.
Proof.
  intros H. unfold map_insert, bind at 1. unfold get_size.
  unfold bind at 1. rewrite getbkt_abort by exact H. reflexivity.
Qed.

(** *** The table that [map_new] makes *)

Definition map0 : map_t :=
  match map_new mem0 with
  | Some (_, m) => m
  | None => mem0
  end.

Lemma map_new_mem0 : map_new mem0 = Some (tt, map0).
Proof. vm_compute. reflexivity. Qed.

Lemma bucket_at_map0 s i :
  bucket_at map0 s i = if (s =? 0) && (i =? 0) then 64 else 0.
Proof.
  unfold bucket_at.
  assert (E : segs map0 s =
              if s =? 0 then Some (fun i => if i =? 0 then 64 else 0)
              else if s =? 0 then Some (fun _ => 0) else None).
  { vm_compute. reflexivity. }
  rewrite E. destruct (s =? 0); simpl; reflexivity.
Qed.

Lemma inv_map0 : Inv map0 [(64, 0)].
Proof.
  constructor.
  - vm_compute. repeat split; discriminate.
  - vm_compute. reflexivity.
  - vm_compute. auto.
  - constructor; [|constructor]. vm_compute. repeat split; discriminate.
  - change (NoDup [16; 64]). constructor.
    + intros [H|[]]. discriminate.
    + constructor; [intros []|constructor].
  - constructor; constructor.
  - intros b Hb. rewrite bucket_at_map0.
    destruct (Z.eqb_spec (b / 65536) 0) as [E1|_]; simpl; [|congruence].
    destruct (Z.eqb_spec (b mod 65536) 0) as [E2|_]; [|congruence].
    intros _. assert (b = 0).
    { rewrite (Z.div_mod b 65536) by lia. lia. }
    subst b. split; [lia|]. left. reflexivity.
  - rewrite bucket_at_map0. simpl. discriminate.
  - vm_compute. reflexivity.
Qed.
(** *** Sequential executions *)

(** A node that the caller may hand to [map_insert]: allocated, and
    not in the list. *)
Definition node_free (m : map_t) (v : Z) : Prop :=
  0 < v < brk m /\ v mod 2 = 0 /\ v <> lhead m /\ ~ linked m v.

(** The states of one thread that makes the table, allocates, writes
    to entries that are not in the table, and calls [map_find] and
    [map_insert]; [ins] records the hash and the result of every
    [map_insert], the last one first. *)
Inductive reach : list (Z * Z) -> map_t -> Prop :=
| reach_new : forall m,
    map_new mem0 = Some (tt, m) -> reach [] m
| reach_malloc : forall ins m sz v m',
    reach ins m -> 0 <= sz -> malloc sz m = Some (v, m') -> reach ins m'
| reach_store : forall ins m v c m',
    reach ins m -> node_free m v -> set_node v c m = Some (tt, m') -> reach ins m'
| reach_find : forall ins m h r m',
    reach ins m -> 0 <= h < 2 ^ 63 -> map_find h m = Some (r, m') -> reach ins m'
| reach_insert : forall ins m h v r m',
    reach ins m -> 0 <= h < 2 ^ 63 -> node_free m v ->
    map_insert h v m = Some (r, m') -> reach ((h, r) :: ins) m'.

Record known (ins : list (Z * Z)) (m : map_t) (L : list (Z * Z)) : Prop := mk_known {
  kn_inv : Inv m L;
  kn_data : forall h a, 0 <= h < 2 ^ 63 -> In (a, key_normal h) L <-> In (h, a) ins;
  kn_count : 0 <= count m <= Z.of_nat (length ins);
  kn_grow : grow m = 8;
  kn_size : count m <= 2 ^ 32 -> 16 <= size m /\ (size m = 16 \/ size m <= count m)
}.

Lemma known_bkt ins m L h :
  known ins m L -> count m <= 2 ^ 32 -> 0 <= h -> Z.land h (u64 (size m - 1)) < 2 ^ 32.
Proof.
  intros K Hc Hh. destruct (kn_size _ _ _ K Hc) as [H1 H2].
  apply bkt_range; [exact Hh|]. lia.
Qed.

Lemma known_free ins m L v :
  known ins m L -> node_free m v ->
  0 < v < brk m /\ v mod 2 = 0 /\ ~ In v (lhead m :: map fst L).
Proof.
  intros K (A & B & C & D). split; [exact A|]. split; [exact B|].
  unfold linked in D. rewrite (nodes_inv m L (kn_inv _ _ _ K)) in D.
  intros [H|H]; [congruence|contradiction].
Qed.

Lemma size_step c sz :
  0 <= c -> c + 1 <= 2 ^ 32 -> 16 <= sz -> sz = 16 \/ sz <= c ->
  let sz' := if 8 <? (c + 1) / sz then u64 (sz * 2) else sz in
  16 <= sz' /\ (sz' = 16 \/ sz' <= c + 1).
Proof.
  intros Hc Hc1 Hsz Hor. cbv zeta.
  destruct (Z.ltb_spec 8 ((c + 1) / sz)) as [Hd|Hd]; [|lia].
  assert (M : sz * ((c + 1) / sz) <= c + 1) by (apply Z.mul_div_le; lia).
  assert (9 * sz <= c + 1) by nia.
  unfold u64. rewrite Z.mod_small by lia. lia.
Qed.

Lemma reach_known ins m : reach ins m -> exists L, known ins m L.
Proof.
  induction 1 as [m E|ins m sz v m' R [L K] Hsz E|ins m v c m' R [L K] Hv E|
                  ins m h r m' R [L K] Hh E|ins m h v r m' R [L K] Hh Hv E].
  - assert (Em : m = map0).
    { pose proof map_new_mem0 as E0. rewrite E in E0. clear E.
      generalize dependent map0. intros m0 E0. congruence. }
    subst m. clear E.
    exists [(64, 0)]. constructor.
    + exact inv_map0.
    + intros h a Hh. split; [|intros []].
      intros [H|[]]. injection H as _ H.
      pose proof (key_normal_odd h) as O. rewrite <- H in O. discriminate.
    + vm_compute. split; discriminate.
    + reflexivity.
    + intros _. vm_compute. split; [discriminate|left; reflexivity].
  - exists L. destruct K as [K1 K2 K3 K4 K5].
    pose proof (inv_malloc m L sz v m' K1 Hsz E) as I'.
    unfold malloc in E. injection E as _ <-.
    constructor; [exact I'|exact K2|exact K3|exact K4|exact K5].
  - exists L. destruct (known_free _ _ _ _ K Hv) as (V1 & V2 & V3).
    destruct K as [K1 K2 K3 K4 K5].
    unfold set_node in E. injection E as <-.
    constructor; [|exact K2|exact K3|exact K4|exact K5].
    apply (inv_frame m); auto.
    + intros q Hq. simpl. destruct (Z.eqb_spec q v) as [->|_]; [contradiction|reflexivity].
    + simpl. lia.
    + exact (inv_brk _ _ K1).
  - destruct (Z.lt_ge_cases (Z.land h (u64 (size m - 1))) (2 ^ 32)) as [B|B];
      [|rewrite find_abort in E by exact B; discriminate].
    destruct (find_spec m L h (kn_inv _ _ _ K) Hh B) as (r' & m1 & L1 & E1 & I1 & G1 & _).
    rewrite E1 in E. injection E as _ <-.
    destruct K as [K1 K2 K3 K4 K5]. destruct G1 as [G1h G1z G1c G1g G1b G1d G1o].
    exists L1. constructor; [exact I1| |rewrite G1c; exact K3|congruence|].
    + intros h' a Hh'. rewrite <- K2 by exact Hh'. apply G1d. apply key_normal_odd.
    + rewrite G1z, G1c. exact K5.
  - destruct (Z.lt_ge_cases (Z.land h (u64 (size m - 1))) (2 ^ 32)) as [B|B];
      [|rewrite insert_abort in E by exact B; discriminate].
    destruct (known_free _ _ _ _ K Hv) as (V1 & V2 & V3).
    destruct (insert_spec m L h v (kn_inv _ _ _ K) Hh B V1 V2 V3)
      as (r' & m1 & L1 & E1 & I1 & Hl & Hg & Hb & Ho & Hcase).
    rewrite E1 in E. injection E as <- <-.
    destruct K as [K1 K2 K3 K4 K5].
    exists L1. destruct Hcase as [(P1 & P2 & P3 & P4 & P5 & P6)|(A1 & A2 & A3 & A4 & A5)].
    + constructor; [exact I1| |rewrite P5; cbn [length]; lia|congruence|].
      * intros h' a Hh'. rewrite (P4 a _ (key_normal_odd h')). rewrite K2 by exact Hh'.
        split; [intros H; right; exact H|].
        intros [H|H]; [|exact H]. injection H as <- <-. apply K2; assumption.
      * rewrite P5, P6. exact K5.
    + constructor; [exact I1| | |congruence|].
      * intros h' a Hh'. rewrite (A3 a _ (key_normal_odd h')). rewrite K2 by exact Hh'.
        subst r'. cbn [In]. split; intros [H|H]; auto; left.
        -- injection H as -> H. apply key_normal_inj in H; [congruence|assumption|assumption].
        -- injection H as <- <-. reflexivity.
      * rewrite A4. cbn [length]. lia.
      * rewrite A4, A5, K4. intros Hc.
        destruct (K5 ltac:(lia)) as [S1 S2].
        apply size_step; auto; lia.
Qed.

(** C7. One thread: [map_insert h v] on a hash never inserted
    returns [v], links it in the list (which stays sorted by key, the
    split order) and adds one to [count]; on a hash inserted before it
    returns the entry of that insertion, [v] is not linked and [count]
    is kept.  In both cases [map_find h] then returns this entry, and
    [map_find] on any hash never inserted returns [NULL].  The calls
    return: no loop runs out of fuel and no bucket is outside the
    table, while [count] is below [2 ^ 32]. *)
Theorem map_insert_find_sequential ins m h v :
  reach ins m -> count m < 2 ^ 32 -> 0 <= h < 2 ^ 63 -> node_free m v ->
  exists r m2 m3,
    map_insert h v m = Some (r, m2) /\
    (~ In h (map fst ins) ->
       r = v /\ linked m2 v /\ count m2 = count m + 1) /\
    (forall e, In (h, e) ins ->
       r = e /\ ~ linked m2 v /\ count m2 = count m) /\
    In (r, key_normal h) (nodes m2) /\ key_sorted (nodes m2) /\
    map_find h m2 = Some (r, m3) /\ r <> 0 /\
    (forall h', 0 <= h' < 2 ^ 63 -> h' <> h -> ~ In h' (map fst ins) ->
       exists m4, map_find h' m2 = Some (0, m4)).
Proof.
  intros R Hc Hh Hv.
  destruct (reach_known ins m R) as [L K].
  pose proof (known_bkt ins m L h K ltac:(lia) ltac:(lia)) as B.
  destruct (known_free _ _ _ _ K Hv) as (V1 & V2 & V3).
  destruct (insert_spec m L h v (kn_inv _ _ _ K) Hh B V1 V2 V3)
    as (r & m2 & L2 & E & I2 & Hl & Hg & Hb & Ho & Hcase).
  pose proof (reach_insert ins m h v r m2 R Hh Hv E) as R2.
  destruct (reach_known _ _ R2) as [L2' K2].
  assert (EL : L2' = L2).
  { rewrite <- (nodes_inv m2 L2' (kn_inv _ _ _ K2)). apply nodes_inv. exact I2. }
  subst L2'.
  assert (N2 : nodes m2 = L2) by (apply nodes_inv; exact I2).
  assert (Hc2 : count m2 <= 2 ^ 32).
  { destruct Hcase as [(_ & _ & _ & _ & P5 & _)|(_ & _ & _ & A4 & _)]; lia. }
  assert (Hin : In (r, key_normal h) L2).
  { apply (kn_data _ _ _ K2 h r Hh). left. reflexivity. }
  assert (Hr0 : r <> 0).
  { pose proof (inv_nodes _ _ I2) as F. rewrite Forall_forall in F.
    destruct (F _ Hin) as (H & _). simpl in H. lia. }
  assert (Hfind : forall h', 0 <= h' < 2 ^ 63 ->
            exists r' m3, map_find h' m2 = Some (r', m3) /\
              ((In (r', key_normal h') L2 /\ r' <> 0) \/
               (~ In (key_normal h') (map snd L2) /\ r' = 0))).
  { intros h' Hh'.
    pose proof (known_bkt _ m2 L2 h' K2 Hc2 ltac:(lia)) as B'.
    destruct (find_spec m2 L2 h' I2 Hh' B') as (r' & m3 & L3 & E3 & _ & _ & C3).
    exists r', m3. split; [exact E3|exact C3]. }
  destruct (Hfind h Hh) as (r' & m3 & E3 & C3).
  assert (Er : r' = r).
  { destruct C3 as [(C3 & _)|(C3 & _)].
    - apply (sorted_key_unique L2 r' r (key_normal h)); auto. apply I2.
    - exfalso. apply C3. apply in_map_iff. exists (r, key_normal h). auto. }
  subst r'.
  exists r, m2, m3. split; [exact E|].
  split; [|split; [|split; [|split; [|split; [|split]]]]].
  - intros Hn. destruct Hcase as [(P1 & _)|(A1 & A2 & A3 & A4 & A5)].
    + exfalso. apply Hn. apply in_map_iff. exists (h, r). split; [reflexivity|].
      apply (kn_data _ _ _ K h r Hh). exact P1.
    + split; [exact A2|]. split; [|exact A4].
      unfold linked. rewrite N2. apply in_map_iff. exists (r, key_normal h).
      split; [simpl; congruence|exact Hin].
  - intros e He. apply (kn_data _ _ _ K h e Hh) in He.
    destruct Hcase as [(P1 & P2 & P3 & P4 & P5 & P6)|(A1 & _)].
    + split; [apply (sorted_key_unique L r e (key_normal h)); auto; apply K|].
      split; [|exact P5]. unfold linked. rewrite N2. exact P3.
    + exfalso. apply A1. apply in_map_iff. exists (e, key_normal h). auto.
  - rewrite N2. exact Hin.
  - rewrite N2. apply I2.
  - exact E3.
  - exact Hr0.
  - intros h' Hh' Hne Hn. destruct (Hfind h' Hh') as (r' & m4 & E4 & C4).
    destruct C4 as [(C4 & _)|(_ & C4)].
    + exfalso. apply (kn_data _ _ _ K2 h' r' Hh') in C4.
      destruct C4 as [C4|C4]; [congruence|].
      apply Hn. apply in_map_iff. exists (h', r'). auto.
    + subst r'. exists m4. exact E4.
Qed.
(** The table after its creation, the allocation of an entry at
    address 80 and its insertion with hash 5, and the allocation of a
    second entry at address 160. *)
Definition after {A} (c : M A) (m : map_t) : map_t :=
  match c m with
  | Some (_, m') => m'
  | None => m
  end.
Definition one_entry : map_t :=
  after (malloc 48) (after (map_insert 5 80) (after (malloc 48) map0)).

Lemma reach_one_entry : reach [(5, 80)] one_entry.
Proof.
  apply (reach_malloc _ (after (map_insert 5 80) (after (malloc 48) map0)) 48 160);
    [|lia|vm_compute; reflexivity].
  apply (reach_insert [] (after (malloc 48) map0) 5 80 80);
    [|lia| |vm_compute; reflexivity].
  - apply (reach_malloc [] map0 48 80); [|lia|vm_compute; reflexivity].
    apply reach_new. exact map_new_mem0.
  - unfold node_free, linked. vm_compute.
    repeat split; try discriminate. intros [H|H]; [discriminate|exact H].
Qed.

Lemma map_insert_find_sequential_witness :
  reach [(5, 80)] one_entry /\ count one_entry < 2 ^ 32 /\ 0 <= 21 < 2 ^ 63 /\
  node_free one_entry 160 /\
  exists r m2 m3,
    map_insert 21 160 one_entry = Some (r, m2) /\
    (~ In 21 (map fst [(5, 80)]) ->
       r = 160 /\ linked m2 160 /\ count m2 = count one_entry + 1) /\
    (forall e, In (21, e) [(5, 80)] ->
       r = e /\ ~ linked m2 160 /\ count m2 = count one_entry) /\
    In (r, key_normal 21) (nodes m2) /\ key_sorted (nodes m2) /\
    map_find 21 m2 = Some (r, m3) /\ r <> 0 /\
    (forall h', 0 <= h' < 2 ^ 63 -> h' <> 21 -> ~ In h' (map fst [(5, 80)]) ->
       exists m4, map_find h' m2 = Some (0, m4)).
Proof.
  assert (F : node_free one_entry 160).
  { unfold node_free, linked. vm_compute.
    repeat split; try discriminate. intros H; repeat (destruct H as [H|H]; [discriminate|]); exact H. }
  split; [exact reach_one_entry|]. split; [vm_compute; reflexivity|].
  split; [lia|]. split; [exact F|].
  apply (map_insert_find_sequential [(5, 80)] one_entry 21 160).
  - exact reach_one_entry.
  - vm_compute. reflexivity.
  - lia.
  - exact F.
Defined.


(** *** What a client of the table may rely on *)

Lemma nodes_key m L a k : Inv m L -> In (a, k) L -> key (cells m a) = k.
Proof.
  intros I. pose proof (inv_links _ _ I) as Hl. clear I. revert Hl. generalize 0.
  induction L as [|[b kb] L IH]; intros t Hl [].
  - injection H as <- <-. simpl in Hl. apply Hl.
  - simpl in Hl. destruct Hl as (_ & _ & Hl). apply (IH t); assumption.
Qed.

Lemma reach_nodes ins m h a :
  reach ins m -> 0 <= h < 2 ^ 63 ->
  In (a, key_normal h) (nodes m) <-> In (h, a) ins.
Proof.
  intros R Hh. destruct (reach_known _ _ R) as [L K].
  rewrite (nodes_inv m L (kn_inv _ _ _ K)). apply (kn_data _ _ _ K). exact Hh.
Qed.

Lemma reach_unique ins m h e e' :
  reach ins m -> 0 <= h < 2 ^ 63 -> In (h, e) ins -> In (h, e') ins -> e = e'.
Proof.
  intros R Hh H1 H2. destruct (reach_known _ _ R) as [L K].
  apply (kn_data _ _ _ K h e Hh) in H1. apply (kn_data _ _ _ K h e' Hh) in H2.
  apply (sorted_key_unique L e e' (key_normal h)); auto. apply K.
Qed.

Lemma reach_gethsh ins m h e :
  reach ins m -> 0 <= h < 2 ^ 63 -> In (h, e) ins -> map_gethsh m e = h.
Proof.
  intros R Hh H. destruct (reach_known _ _ R) as [L K].
  apply (kn_data _ _ _ K h e Hh) in H.
  unfold map_gethsh. rewrite (nodes_key m L e _ (kn_inv _ _ _ K) H).
  apply key_tohash_normal. exact Hh.
Qed.

(** A new allocation is a node that [map_insert] accepts. *)
Lemma malloc_reach ins m sz :
  reach ins m -> 0 < sz ->
  exists m', malloc sz m = Some (brk m, m') /\ reach ins m' /\
    node_free m' (brk m) /\ ~ linked m (brk m) /\
    count m' = count m /\ nodes m' = nodes m.
Proof.
  intros R Hsz. destruct (reach_known _ _ R) as [L K].
  pose proof (kn_inv _ _ _ K) as I.
  eexists. split; [reflexivity|].
  assert (R' : reach ins (mk_map (cells m) (brk m + 16 * ((sz + 15) / 16)) (lhead m)
                            (segs m) (size m) (count m) (grow m))).
  { apply (reach_malloc ins m sz (brk m)); [exact R|lia|reflexivity]. }
  pose proof (inv_fresh m L (brk m) I ltac:(lia)) as F.
  assert (N : nodes (mk_map (cells m) (brk m + 16 * ((sz + 15) / 16)) (lhead m)
                       (segs m) (size m) (count m) (grow m)) = nodes m).
  { rewrite (nodes_inv m L I). apply nodes_inv.
    apply (inv_malloc m L sz (brk m)); [exact I|lia|reflexivity]. }
  split; [exact R'|]. split; [|split; [|split; [reflexivity|exact N]]].
  - unfold node_free, linked. rewrite N, (nodes_inv m L I). cbn [brk lhead].
    pose proof (inv_head _ _ I) as H. pose proof (inv_brk _ _ I) as E.
    assert (1 <= (sz + 15) / 16) by (apply Z.div_le_lower_bound; lia).
    split; [lia|]. split; [exact E|]. split; [lia|].
    intros Hin. apply F. right. exact Hin.
  - unfold linked. rewrite (nodes_inv m L I). intros Hin. apply F. right. exact Hin.
Qed.

(** A store to a node outside the table. *)
Lemma store_reach ins m v c :
  reach ins m -> node_free m v ->
  exists m', set_node v c m = Some (tt, m') /\ reach ins m' /\ node_free m' v /\
    count m' = count m /\ nodes m' = nodes m /\ brk m' = brk m.
Proof.
  intros R Hv. eexists. split; [reflexivity|].
  assert (R' : reach ins (with_cells m (fun q => if q =? v then c else cells m q))).
  { apply (reach_store ins m v c); [exact R|exact Hv|reflexivity]. }
  destruct (reach_known _ _ R) as [L K]. destruct (reach_known _ _ R') as [L' K'].
  pose proof (kn_inv _ _ _ K) as I.
  destruct (known_free _ _ _ _ K Hv) as (V1 & V2 & V3).
  assert (I' : Inv (with_cells m (fun q => if q =? v then c else cells m q)) L).
  { apply (inv_frame m); auto.
    - intros q Hq. simpl. destruct (Z.eqb_spec q v) as [->|_]; [contradiction|reflexivity].
    - simpl. lia.
    - exact (inv_brk _ _ I). }
  assert (N : nodes (with_cells m (fun q => if q =? v then c else cells m q)) = nodes m).
  { rewrite (nodes_inv m L I). apply nodes_inv. exact I'. }
  split; [exact R'|]. split; [|split; [reflexivity|split; [exact N|reflexivity]]].
  destruct Hv as (A & B & C & D). unfold node_free, linked. rewrite N.
  split; [exact A|]. split; [exact B|]. split; [exact C|exact D].
Qed.

(** [map_find] in a sequential execution. *)
Lemma find_reach ins m h :
  reach ins m -> count m <= 2 ^ 32 -> 0 <= h < 2 ^ 63 ->
  exists r m',
    map_find h m = Some (r, m') /\ reach ins m' /\ count m' = count m /\
    ((In (h, r) ins /\ r <> 0) \/ (~ In h (map fst ins) /\ r = 0)).
Proof.
  intros R Hc Hh. destruct (reach_known _ _ R) as [L K].
  pose proof (known_bkt ins m L h K Hc ltac:(lia)) as B.
  destruct (find_spec m L h (kn_inv _ _ _ K) Hh B) as (r & m1 & L1 & E1 & I1 & G1 & C1).
  exists r, m1. split; [exact E1|].
  split; [apply (reach_find ins m h r); assumption|].
  split; [apply G1|].
  destruct C1 as [(C1 & C2)|(C1 & C2)].
  - left. split; [|exact C2]. apply (kn_data _ _ _ K h r Hh). exact C1.
  - right. split; [|exact C2]. intros Hin. apply C1.
    apply in_map_iff in Hin. destruct Hin as ([h' e] & Eh & Hin). simpl in Eh. subst h'.
    apply in_map_iff. exists (e, key_normal h). split; [reflexivity|].
    apply (kn_data _ _ _ K h e Hh). exact Hin.
Qed.

(** [map_insert] in a sequential execution. *)
Lemma insert_reach ins m h v :
  reach ins m -> count m < 2 ^ 32 -> 0 <= h < 2 ^ 63 -> node_free m v ->
  exists r m',
    map_insert h v m = Some (r, m') /\ reach ((h, r) :: ins) m' /\
    ((In (h, r) ins /\ r <> v /\ ~ linked m' v /\ count m' = count m) \/
     (~ In h (map fst ins) /\ r = v /\ linked m' v /\ count m' = count m + 1)).
Proof.
  intros R Hc Hh Hv. destruct (reach_known _ _ R) as [L K].
  pose proof (known_bkt ins m L h K ltac:(lia) ltac:(lia)) as B.
  destruct (known_free _ _ _ _ K Hv) as (V1 & V2 & V3).
  destruct (insert_spec m L h v (kn_inv _ _ _ K) Hh B V1 V2 V3)
    as (r & m2 & L2 & E & I2 & Hl & Hg & Hb & Ho & Hcase).
  pose proof (reach_insert ins m h v r m2 R Hh Hv E) as R2.
  exists r, m2. split; [exact E|]. split; [exact R2|].
  assert (N2 : nodes m2 = L2) by (apply nodes_inv; exact I2).
  destruct Hcase as [(P1 & P2 & P3 & P4 & P5 & P6)|(A1 & A2 & A3 & A4 & A5)].
  - left. split; [apply (kn_data _ _ _ K h r Hh); exact P1|].
    split; [exact P2|]. split; [|exact P5]. unfold linked. rewrite N2. exact P3.
  - right. split.
    { intros Hin. apply A1.
      apply in_map_iff in Hin. destruct Hin as ([h' e] & Eh & Hin). simpl in Eh. subst h'.
      apply in_map_iff. exists (e, key_normal h). split; [reflexivity|].
      apply (kn_data _ _ _ K h e Hh). exact Hin. }
    split; [exact A2|]. split; [|exact A4].
    unfold linked. rewrite N2. apply in_map_iff. exists (v, key_normal h).
    split; [reflexivity|]. apply (A3 v _ (key_normal_odd h)). left. reflexivity.
Qed.


(** *** The iterator *)

(** [map_next]: [do nd = nd->next; while (nd != NULL &&
    key_ismark(nd->key))], from the head of the list when [last] is
    [NULL]. *)
Fixpoint next_loop (fuel : nat) (nd : Z) : M Z :=
  match fuel with
  | O => out_of_fuel
  | S fuel' =>
      nd <- get_next nd ;;
      if nd =? 0 then ret nd
      else k <- get_key nd ;;
           if key_ismark k then next_loop fuel' nd else ret nd
  end.

Definition map_next (last : Z) : M Z := fun m =>
  next_loop (fuel_of m) (if last =? 0 then lhead m else last) m.

(** The nodes from the first one that is not a marker. *)
Fixpoint skip (S : list (Z * Z)) : list (Z * Z) :=
  match S with
  | [] => []
  | (a, k) :: S' => if key_ismark k then skip S' else S
  end.

Lemma next_loop_spec m : forall S p fuel,
  next (cells m p) = hd_addr S 0 -> links (cells m) S 0 -> Forall plain S ->
  (length S < fuel)%nat ->
  next_loop fuel p m = Some (hd_addr (skip S) 0, m).
Proof.
  induction S as [|[a k] S IH]; intros p fuel Hn Hl Hp Hf;
    (destruct fuel as [|fuel]; [simpl in Hf; lia|]).
  - cbn [next_loop]. unfold bind, get_next. rewrite Hn. reflexivity.
  - cbn [next_loop]. unfold bind, get_next. rewrite Hn. cbn [hd_addr].
    apply Forall_cons_iff in Hp. destruct Hp as [[Ha _] Hp]. simpl in Ha.
    destruct (Z.eqb_spec a 0) as [|_]; [contradiction|].
    simpl in Hl. destruct Hl as (Hk & Hx & Hl).
    unfold get_key. rewrite Hk. cbn [skip].
    destruct (key_ismark k); [|reflexivity].
    apply IH; auto. simpl in Hf. lia.
Qed.

Lemma skip_data S : forall x, In x (skip S) -> In x S.
Proof.
  induction S as [|[a k] S IH]; intros x Hx; [exact Hx|].
  simpl in Hx. destruct (key_ismark k); [right; apply IH; exact Hx|exact Hx].
Qed.

Lemma skip_length S : (length (skip S) <= length S)%nat.
Proof.
  induction S as [|[a k] S IH]; simpl; [lia|].
  destruct (key_ismark k); simpl; lia.
Qed.

Lemma skip_filter S : filter is_data (skip S) = filter is_data S.
Proof.
  induction S as [|[a k] S IH]; [reflexivity|].
  cbn [skip]. destruct (key_ismark k) eqn:E; [|reflexivity].
  cbn [filter]. unfold is_data at 2. cbn [snd]. rewrite E. exact IH.
Qed.

Lemma skip_head S a k S' : skip S = (a, k) :: S' -> is_data (a, k) = true.
Proof.
  induction S as [|[b kb] S IH]; intros E; [discriminate|].
  simpl in E. destruct (key_ismark kb) eqn:Em; [apply IH; exact E|].
  injection E as <- <- _. unfold is_data. simpl. rewrite Em. reflexivity.
Qed.

Lemma links_skip c S : links c S 0 -> links c (skip S) 0.
Proof.
  induction S as [|[a k] S IH]; intros Hl; [exact Hl|].
  simpl. destruct (key_ismark k); [|exact Hl].
  apply IH. simpl in Hl. apply Hl.
Qed.

Lemma plain_skip S : Forall plain S -> Forall plain (skip S).
Proof.
  intros H. rewrite Forall_forall in *. intros x Hx. apply H. apply skip_data. exact Hx.
Qed.

(** *** The entry stored under a hash *)

Fixpoint lookup (L : list (Z * Z)) (k : Z) : Z :=
  match L with
  | [] => 0
  | (a, ka) :: L' => if ka =? k then a else lookup L' k
  end.

Definition entry (m : map_t) (h : Z) : Z := lookup (nodes m) (key_normal h).

Lemma lookup_spec L k :
  In (lookup L k, k) L \/ (~ In k (map snd L) /\ lookup L k = 0).
Proof.
  induction L as [|[a ka] L IH]; simpl.
  - right. split; [intros []|reflexivity].
  - destruct (Z.eqb_spec ka k) as [->|Hne]; [left; left; reflexivity|].
    destruct IH as [IH|[IH1 IH2]]; [left; right; exact IH|].
    right. split; [|exact IH2]. intros [H|H]; [contradiction|exact (IH1 H)].
Qed.

Lemma entry_reach ins m h :
  reach ins m -> 0 <= h < 2 ^ 63 ->
  (In (h, entry m h) ins /\ entry m h <> 0) \/
  (~ In h (map fst ins) /\ entry m h = 0).
Proof.
  intros R Hh. destruct (reach_known _ _ R) as [L K].
  pose proof (kn_inv _ _ _ K) as I. unfold entry. rewrite (nodes_inv m L I).
  destruct (lookup_spec L (key_normal h)) as [H|[H1 H2]].
  - left. split; [apply (kn_data _ _ _ K h _ Hh); exact H|].
    pose proof (inv_nodes _ _ I) as F. rewrite Forall_forall in F.
    destruct (F _ H) as (A & _). simpl in A. lia.
  - right. split; [|exact H2]. intros Hin. apply H1.
    apply in_map_iff in Hin. destruct Hin as ([h' e] & Eh & Hin). simpl in Eh. subst h'.
    apply in_map_iff. exists (e, key_normal h). split; [reflexivity|].
    apply (kn_data _ _ _ K h e Hh). exact Hin.
Qed.

Lemma entry_present ins m h e :
  reach ins m -> 0 <= h < 2 ^ 63 -> In (h, e) ins -> entry m h = e /\ e <> 0.
Proof.
  intros R Hh Hin. destruct (entry_reach ins m h R Hh) as [[H1 H2]|[H1 H2]].
  - assert (entry m h = e) by (apply (reach_unique ins m h); assumption).
    split; congruence.
  - exfalso. apply H1. apply in_map_iff. exists (h, e). auto.
Qed.

Lemma entry_absent ins m h :
  reach ins m -> 0 <= h < 2 ^ 63 -> ~ In h (map fst ins) -> entry m h = 0.
Proof.
  intros R Hh Hn. destruct (entry_reach ins m h R Hh) as [[H1 H2]|[H1 H2]]; [|exact H2].
  exfalso. apply Hn. apply in_map_iff. exists (h, entry m h). auto.
Qed.

(** Two hashes have two entries. *)
Lemma entry_inj ins m h h' e :
  reach ins m -> 0 <= h < 2 ^ 63 -> 0 <= h' < 2 ^ 63 ->
  In (h, e) ins -> In (h', e) ins -> h = h'.
Proof.
  intros R Hh Hh' H1 H2. destruct (reach_known _ _ R) as [L K].
  pose proof (kn_inv _ _ _ K) as I.
  apply (kn_data _ _ _ K h e Hh) in H1. apply (kn_data _ _ _ K h' e Hh') in H2.
  pose proof (nodes_key m L e _ I H1) as E1. pose proof (nodes_key m L e _ I H2) as E2.
  apply key_normal_inj; [assumption|assumption|congruence].
Qed.

End Map.

(** ** The model: feature keys, insertion, saving and loading *)

Module Mdl.
Import Bits Map.
Local Open Scope Z_scope.

(** *** [hsh_spooky] on a buffer of 64-bit words

    [mdl_addftr] hashes an array of [hsh_t]: the length is a multiple
    of 8 and, the machine being little endian, [key.p64[i]] is the
    word [i] of the array.  The cases of the [switch] on a length that
    is not a multiple of 8 do not arise. *)

Definition add64 (a b : Z) : Z := u64 (a + b).
Definition rot64 (a k : Z) : Z :=
  u64 (Z.lor (Z.shiftl a k) (Z.shiftr a (64 - k))).

Definition foo : Z := 0xDEADBEEFCAFEBABE.

(** The twelve lines of a round; the state is [(a, b, c, d)]. *)
Definition spooky_mix (s : Z * Z * Z * Z) : Z * Z * Z * Z :=
  let '(a, b, c, d) := s in
  let c := add64 (rot64 c 50) d in let a := Z.lxor a c in
  let d := add64 (rot64 d 52) a in let b := Z.lxor b d in
  let a := add64 (rot64 a 30) b in let c := Z.lxor c a in
  let b := add64 (rot64 b 41) c in let d := Z.lxor d b in
  let c := add64 (rot64 c 54) d in let a := Z.lxor a c in
  let d := add64 (rot64 d 48) a in let b := Z.lxor b d in
  let a := add64 (rot64 a 38) b in let c := Z.lxor c a in
  let b := add64 (rot64 b 37) c in let d := Z.lxor d b in
  let c := add64 (rot64 c 62) d in let a := Z.lxor a c in
  let d := add64 (rot64 d 34) a in let b := Z.lxor b d in
  let a := add64 (rot64 a 5) b in let c := Z.lxor c a in
  let b := add64 (rot64 b 36) c in let d := Z.lxor d b in
  (a, b, c, d).

(** The eleven closing lines; the hash is [a]. *)
Definition spooky_end (s : Z * Z * Z * Z) : Z :=
  let '(a, b, c, d) := s in
  let d := Z.lxor d c in let c := rot64 c 15 in let d := add64 d c in
  let a := Z.lxor a d in let d := rot64 d 52 in let a := add64 a d in
  let b := Z.lxor b a in let a := rot64 a 26 in let b := add64 b a in
  let c := Z.lxor c b in let b := rot64 b 51 in let c := add64 c b in
  let d := Z.lxor d c in let c := rot64 c 28 in let d := add64 d c in
  let a := Z.lxor a d in let d := rot64 d 9 in let a := add64 a d in
  let b := Z.lxor b a in let a := rot64 a 47 in let b := add64 b a in
  let c := Z.lxor c b in let b := rot64 b 54 in let c := add64 c b in
  let d := Z.lxor d c in let c := rot64 c 32 in let d := add64 d c in
  let a := Z.lxor a d in let d := rot64 d 25 in let a := add64 a d in
  let b := Z.lxor b a in let a := rot64 a 63 in let b := add64 b a in
  a.

(** [while (tlen >= 32)]: four words a turn. *)
Fixpoint spooky_long (ws : list Z) (s : Z * Z * Z * Z)
  : list Z * (Z * Z * Z * Z) :=
  match ws with
  | w0 :: w1 :: w2 :: w3 :: rest =>
      let '(a, b, c, d) := s in
      let '(a, b, c, d) := spooky_mix (a, b, add64 c w0, add64 d w1) in
      spooky_long rest (add64 a w2, add64 b w3, c, d)
  | _ => (ws, s)
  end.

(** [if (tlen >= 16)]: two words. *)
Definition spooky_short (ws : list Z) (s : Z * Z * Z * Z)
  : list Z * (Z * Z * Z * Z) :=
  match ws with
  | w0 :: w1 :: rest =>
      let '(a, b, c, d) := s in
      (rest, spooky_mix (a, b, add64 c w0, add64 d w1))
  | _ => (ws, s)
  end.

(** The [switch]: one word is left ([case 8]) or none ([case 0]). *)
Definition spooky_tail (ws : list Z) (s : Z * Z * Z * Z) : Z * Z * Z * Z :=
  let '(a, b, c, d) := s in
  let tlen := 8 * Z.of_nat (length ws) in
  let d := add64 d (u64 (Z.shiftl tlen 56)) in
  match ws with
  | [] => (a, b, add64 c foo, add64 d foo)
  | w0 :: _ => (a, b, add64 c w0, d)
  end.

Definition hsh_spooky (ws : list Z) : Z :=
  let '(ws, s) := spooky_long ws (foo, foo, foo, foo) in
  let '(ws, s) := spooky_short ws s in
  spooky_end (spooky_tail ws s).

Definition hsh_buffer (ws : list Z) : Z :=
  Z.land (hsh_spooky ws) 0x7FFFFFFFFFFFFFFF.

(** *** The model and [mdl_addftr] *)

(** The feature table in its memory, and the members of every [ftr_t]
    after its [lst], by address. *)
Record mdl_t := mk_mdl {
  par : mdl_par;
  ftrs : map_t;
  body : Z -> ftr_t
}.

Definition with_ftrs (mdl : mdl_t) (m : map_t) : mdl_t :=
  mk_mdl (par mdl) m (body mdl).
Definition set_body (mdl : mdl_t) (p : Z) (f : ftr_t) : mdl_t :=
  mk_mdl (par mdl) (ftrs mdl) (fun q => if q =? p then f else body mdl q).

(** [atm_add(&ftr->frq, 1)] *)
Definition add_frq (f : ftr_t) : ftr_t :=
  mk_ftr (x f) (g f) (gp f) (stp f) (dlt f) (frq f + 1).
Definition count_frq (cnt : bool) (mdl : mdl_t) (p : Z) : mdl_t :=
  if cnt then set_body mdl p (add_frq (body mdl p)) else mdl.

(** The identifier of a feature: the tag over a hash of 56 bits. *)
Definition ftr_key (tag : Z) (hsh : list Z) : Z :=
  let idx := hsh_buffer hsh in
  let idx := Z.land idx (Z.shiftr (u64 (-1)) 8) in
  Z.lor idx (u64 (Z.shiftl (u64 tag) 56)).

(** [sizeof(ftr_t)] *)
Definition sizeof_ftr : Z := 48.

(** [mdl_addftr]; the result is the pointer, 0 for [NULL].  The
    allocation does not fail, and nothing is dumped. *)
Definition mdl_addftr (mdl : mdl_t) (tag : Z) (hsh : list Z) (cnt : bool)
  : option (Z * mdl_t) :=
  let idx := ftr_key tag hsh in
  match map_find idx (ftrs mdl) with
  | None => None
  | Some (ftr, m1) =>
      let mdl := with_ftrs mdl m1 in
      if negb (ftr =? 0) then Some (ftr, count_frq cnt mdl ftr)
      else if (itr (par mdl) <? nth (Z.to_nat tag) (stt (par mdl)) 0)
              || (nth (Z.to_nat tag) (rem (par mdl)) 0 <=? itr (par mdl))
      then Some (0, mdl)
      else
        match (tmp <- malloc sizeof_ftr ;;
               set_node tmp (mk_lst 0 0) ;;;
               ftr <- map_insert idx tmp ;;
               ret (tmp, ftr)) m1 with
        | None => None
        | Some ((tmp, ftr), m2) =>
            let mdl := set_body (with_ftrs mdl m2) tmp ftr_zero in
            if negb (ftr =? tmp) then Some (ftr, count_frq cnt mdl ftr)
            else Some (ftr, count_frq cnt mdl ftr)
        end
  end.

(** The window in which the features of a tag are created. *)
Definition active (mdl : mdl_t) (tag : Z) : bool :=
  (nth (Z.to_nat tag) (stt (par mdl)) 0 <=? itr (par mdl))
  && (itr (par mdl) <? nth (Z.to_nat tag) (rem (par mdl)) 0).

(** *** The key *)

Lemma ftr_key_eq tag hsh :
  0 <= tag < 128 ->
  ftr_key tag hsh = hsh_spooky hsh mod 2 ^ 56 + tag * 2 ^ 56.
Proof.
  intros Ht. unfold ftr_key, hsh_buffer.
  change (Z.shiftr (u64 (-1)) 8) with (Z.ones 56).
  change 0x7FFFFFFFFFFFFFFF with (Z.ones 63).
  assert (EA : Z.land (Z.land (hsh_spooky hsh) (Z.ones 63)) (Z.ones 56)
               = hsh_spooky hsh mod 2 ^ 56).
  { rewrite <- Z.land_assoc.
    replace (Z.land (Z.ones 63) (Z.ones 56)) with (Z.ones 56) by reflexivity.
    apply Z.land_ones. lia. }
  assert (EB : u64 (Z.shiftl (u64 tag) 56) = tag * 2 ^ 56).
  { unfold u64. rewrite (Z.mod_small tag) by lia.
    rewrite Z.shiftl_mul_pow2 by lia. apply Z.mod_small. lia. }
  rewrite EA, EB.
  pose proof (Z.mod_pos_bound (hsh_spooky hsh) (2 ^ 56) ltac:(lia)) as R.
  rewrite <- (Z.add_lor_land (hsh_spooky hsh mod 2 ^ 56) (tag * 2 ^ 56)).
  assert (Z.land (hsh_spooky hsh mod 2 ^ 56) (tag * 2 ^ 56) = 0); [|lia].
  apply Z.bits_inj'. intros i Hi. rewrite Z.land_spec, Z.bits_0.
  destruct (Z.lt_ge_cases i 56) as [Hlt|Hge].
  - rewrite Z.mul_pow2_bits_low by lia. apply andb_false_r.
  - rewrite (bits_above _ 56 i) by lia. reflexivity.
Qed.

Lemma ftr_key_spec tag hsh :
  0 <= tag < 128 ->
  0 <= ftr_key tag hsh < 2 ^ 63 /\
  Z.shiftr (ftr_key tag hsh) 56 = tag /\
  Z.land (ftr_key tag hsh) (Z.ones 56) = Z.land (hsh_spooky hsh) (Z.ones 56).
Proof.
  intros Ht. rewrite ftr_key_eq by exact Ht.
  pose proof (Z.mod_pos_bound (hsh_spooky hsh) (2 ^ 56) ltac:(lia)) as R.
  split; [lia|]. split.
  - rewrite Z.shiftr_div_pow2 by lia.
    rewrite Z.div_add by lia. rewrite Z.div_small by lia. reflexivity.
  - rewrite !Z.land_ones by lia. rewrite Z.mod_add by lia.
    apply Z.mod_mod. lia.
Qed.
(** *** [mdl_addftr] *)

Lemma window_test mdl tag :
  (itr (par mdl) <? nth (Z.to_nat tag) (stt (par mdl)) 0)
  || (nth (Z.to_nat tag) (rem (par mdl)) 0 <=? itr (par mdl)) = negb (active mdl tag).
Proof.
  unfold active. rewrite negb_andb, <- Z.ltb_antisym, <- Z.leb_antisym. reflexivity.
Qed.

Lemma count_frq_ftrs cnt mdl p : ftrs (count_frq cnt mdl p) = ftrs mdl.
Proof. destruct cnt; reflexivity. Qed.

Lemma count_frq_body cnt mdl p :
  body (count_frq cnt mdl p) p = if cnt then add_frq (body mdl p) else body mdl p.
Proof. destruct cnt; simpl; [rewrite Z.eqb_refl|]; reflexivity. Qed.


(** A model as [mdl_new] leaves it, at the iteration [i]. *)
Definition mdl_new (i : Z) : mdl_t :=
  mk_mdl (mk_par i 0 (repeat 0 128%nat) (repeat INT_MAX 128%nat)) map0
         (fun _ => ftr_zero).


(** *** The weight file

    A line of the file is kept as the hash and the weight that
    [fprintf] writes after it.  [printf("%.14f")] writes the decimal
    with 14 digits after the point that is nearest to the double, and
    [scanf("%lf")] gives the double that is nearest to the decimal it
    reads, ties going to the even neighbour in both; the decimal is
    the number of its units of [10^-14].  The file opens, and no
    decimal is beyond the largest double. *)

Definition round_even (q : Q) : Z :=
  let f := Qfloor q in
  match Qcompare (q - inject_Z f) (1 # 2) with
  | Lt => f
  | Gt => f + 1
  | Eq => if Z.even f then f else f + 1
  end.

Definition print14 (w : Q) : Z := round_even (w * inject_Z (10 ^ 14)).

Definition pow2 (e : Z) : Q :=
  if 0 <=? e then inject_Z (2 ^ e) else Qmake 1 (Z.to_pos (2 ^ (- e))).

(** The exponent of a positive rational: [2^e <= q < 2^(e+1)]. *)
Definition ilog2 (q : Q) : Z :=
  let e := Z.log2 (Qnum q) - Z.log2 (Zpos (Qden q)) in
  if Qle_bool (pow2 e) q then e else e - 1.

(** Binary64: 53 bits above the exponent -1022. *)
Definition nearest_double (q : Q) : Q :=
  if Qeq_bool q 0 then 0%Q
  else
    let a := Qabs q in
    let e := Z.max (ilog2 a) (-1022) in
    let u := pow2 (e - 52) in
    let r := (inject_Z (round_even (a / u)) * u)%Q in
    if Qlt_b q 0 then (- r)%Q else r.

Definition scan14 (n : Z) : Q := nearest_double (Qmake n (10 ^ 14)).

(** [ftr->x = wgh] *)
Definition set_x (mdl : mdl_t) (p : Z) (w : Q) : mdl_t :=
  let f := body mdl p in
  set_body mdl p (mk_ftr w (g f) (gp f) (stp f) (dlt f) (frq f)).

(** [mdl_save]: the lines written, from [mdl_next(mdl, NULL)] on. *)
Fixpoint save_loop (fuel : nat) (mdl : mdl_t) (ftr : Z) : option (list (Z * Z)) :=
  match fuel with
  | O => None
  | S fuel' =>
      if ftr =? 0 then Some []
      else
        let ln := (map_gethsh (ftrs mdl) ftr, print14 (x (body mdl ftr))) in
        match map_next ftr (ftrs mdl) with
        | None => None
        | Some (nxt, _) =>
            match save_loop fuel' mdl nxt with
            | None => None
            | Some lns => Some (ln :: lns)
            end
        end
  end.

Definition mdl_save (mdl : mdl_t) : option (list (Z * Z)) :=
  match map_next 0 (ftrs mdl) with
  | None => None
  | Some (ftr, _) => save_loop (fuel_of (ftrs mdl)) mdl ftr
  end.

(** [mdl_load]: the body of the loop on a line that [fscanf] has read,
    and the loop. *)
Definition load_line (mdl : mdl_t) (ln : Z * Z) : option mdl_t :=
  let '(hsh, dec) := ln in
  let wgh := scan14 dec in
  match map_find hsh (ftrs mdl) with
  | None => None
  | Some (ftr, m1) =>
      let mdl := with_ftrs mdl m1 in
      if ftr =? 0 then
        match (tmp <- malloc sizeof_ftr ;;
               set_node tmp (mk_lst 0 0) ;;;
               map_insert hsh tmp ;;;
               ret tmp) m1 with
        | None => None
        | Some (ftr, m2) =>
            Some (set_x (set_body (with_ftrs mdl m2) ftr ftr_zero) ftr wgh)
        end
      else Some (set_x mdl ftr wgh)
  end.

Fixpoint mdl_load (mdl : mdl_t) (file : list (Z * Z)) : option mdl_t :=
  match file with
  | [] => Some mdl
  | ln :: file' =>
      match load_line mdl ln with
      | None => None
      | Some mdl' => mdl_load mdl' file'
      end
  end.

(** The weight of the feature stored under a hash. *)
Definition weight (mdl : mdl_t) (h : Z) : option Q :=
  let e := entry (ftrs mdl) h in
  if e =? 0 then None else Some (x (body mdl e)).

(** What a weight becomes in the file and back. *)
Definition reload (w : Q) : Q := scan14 (print14 w).

(** *** Saving *)

Lemma is_data_odd a k : is_data (a, k) = true <-> k mod 2 = 1.
Proof.
  unfold is_data, key_ismark. cbn [snd]. rewrite land_1.
  pose proof (Z.mod_pos_bound k 2 ltac:(lia)).
  destruct (Z.eqb_spec (k mod 2) 0); simpl; split; intros; try discriminate; lia.
Qed.

Lemma key_normal_tohash k :
  0 <= k < 2 ^ 64 -> k mod 2 = 1 ->
  0 <= key_tohash k < 2 ^ 63 /\ key_normal (key_tohash k) = k.
Proof.
  intros Hk Ho. unfold key_tohash. rewrite land_lnot1.
  pose proof (Z.div_mod k 2 ltac:(lia)) as Dm.
  set (e := 2 * (k / 2)) in *.
  assert (He : 0 <= e < 2 ^ 64) by lia.
  assert (Hb : Z.testbit e 0 = false).
  { unfold e. apply Z.testbit_even_0. }
  pose proof (bit_reverse_range e) as Rr.
  assert (Hh : 0 <= bit_reverse e < 2 ^ 63).
  { split; [lia|]. apply low_bits_lt; [lia|lia|].
    intros i Hi. destruct (Z.eq_dec i 63) as [->|Hne].
    - rewrite bit_reverse_spec by lia. exact Hb.
    - apply high_bits_false; [exact Rr|lia]. }
  split; [exact Hh|].
  rewrite key_normal_eq by exact Hh. rewrite bit_reverse_invol by exact He. lia.
Qed.

(** The lines of the data nodes of a list. *)
Definition lines (mdl : mdl_t) (L : list (Z * Z)) : list (Z * Z) :=
  map (fun ak => (key_tohash (snd ak), print14 (x (body mdl (fst ak)))))
      (filter is_data L).

Lemma lines_skip mdl S : lines mdl (skip S) = lines mdl S.
Proof. unfold lines. rewrite skip_filter. reflexivity. Qed.

Lemma skip_skip S : skip (skip S) = skip S.
Proof.
  induction S as [|[a k] S IH]; [reflexivity|].
  simpl. destruct (key_ismark k) eqn:E; [exact IH|].
  simpl. rewrite E. reflexivity.
Qed.

Lemma save_loop_spec mdl : forall fuel S,
  links (cells (ftrs mdl)) S 0 -> Forall plain S -> skip S = S ->
  (length S < fuel)%nat -> (length S < fuel_of (ftrs mdl))%nat ->
  save_loop fuel mdl (hd_addr S 0) = Some (lines mdl S).
Proof.
  induction fuel as [|fuel IH]; intros S Hl Hp Hs Hf Hm; [lia|].
  destruct S as [|[a k] S].
  - reflexivity.
  - cbn [save_loop hd_addr].
    pose proof Hp as Hp'. apply Forall_cons_iff in Hp'. destruct Hp' as [[Ha _] Hp'].
    simpl in Ha. destruct (Z.eqb_spec a 0) as [|_]; [contradiction|].
    pose proof Hl as Hl'. simpl in Hl'. destruct Hl' as (Hk & Hx & Hl').
    assert (Hd : is_data (a, k) = true) by (apply (skip_head _ a k S Hs)).
    assert (En : map_next a (ftrs mdl) = Some (hd_addr (skip S) 0, ftrs mdl)).
    { unfold map_next. destruct (Z.eqb_spec a 0) as [|_]; [contradiction|].
      apply next_loop_spec; auto. simpl in Hm. lia. }
    rewrite En.
    pose proof (skip_length S) as Ls. simpl in Hf, Hm.
    rewrite (IH (skip S)).
    + unfold lines at 2. cbn [filter]. rewrite Hd. cbn [map fst snd].
      unfold map_gethsh. rewrite Hk. f_equal. f_equal. apply lines_skip.
    + apply links_skip. exact Hl'.
    + apply plain_skip. exact Hp'.
    + apply skip_skip.
    + lia.
    + lia.
Qed.

Lemma mdl_save_spec mdl ins :
  reach ins (ftrs mdl) -> mdl_save mdl = Some (lines mdl (nodes (ftrs mdl))).
Proof.
  intros R. destruct (reach_known _ _ R) as [L K].
  pose proof (kn_inv _ _ _ K) as I. rewrite (nodes_inv _ L I).
  pose proof (node_ok_plain _ _ (inv_nodes _ _ I)) as Hp.
  pose proof (inv_length _ _ I) as Hlen. pose proof (skip_length L) as Ls.
  unfold mdl_save, map_next. cbn [Z.eqb].
  rewrite (next_loop_spec (ftrs mdl) L (lhead (ftrs mdl)) (fuel_of (ftrs mdl))
             (inv_first _ _ I) (inv_links _ _ I) Hp Hlen).
  rewrite <- lines_skip. apply save_loop_spec.
  - apply links_skip. exact (inv_links _ _ I).
  - apply plain_skip. exact Hp.
  - apply skip_skip.
  - lia.
  - lia.
Qed.

(** *** Loading *)

(** The weight under [h] after the lines of a file, from [d]. *)
Fixpoint loaded (file : list (Z * Z)) (h : Z) (d : option Q) : option Q :=
  match file with
  | [] => d
  | (h', n) :: file' => loaded file' h (if h' =? h then Some (scan14 n) else d)
  end.

Lemma entry_same ins m m' h :
  reach ins m -> reach ins m' -> 0 <= h < 2 ^ 63 -> entry m h = entry m' h.
Proof.
  intros R R' Hh.
  destruct (entry_reach ins m h R Hh) as [[H1 H2]|[H1 H2]].
  - destruct (entry_present ins m' h _ R' Hh H1) as [E _]. congruence.
  - rewrite H2. symmetry. apply (entry_absent ins); assumption.
Qed.

Lemma load_line_spec mdl ins h0 n :
  reach ins (ftrs mdl) -> count (ftrs mdl) < 2 ^ 32 -> 0 <= h0 < 2 ^ 63 ->
  exists mdl1 ins1,
    load_line mdl (h0, n) = Some mdl1 /\ reach ins1 (ftrs mdl1) /\
    count (ftrs mdl1) <= count (ftrs mdl) + 1 /\
    forall h, 0 <= h < 2 ^ 63 ->
      weight mdl1 h = if h0 =? h then Some (scan14 n) else weight mdl h.
Proof.
  intros R Hc Hh.
  destruct (find_reach ins (ftrs mdl) h0 R ltac:(lia) Hh)
    as (r & m1 & E1 & R1 & C1 & Hcase).
  unfold load_line. rewrite E1.
  destruct Hcase as [(Hin & Hr)|(Hnin & ->)].
  - (* the feature is there *)
    destruct (Z.eqb_spec r 0) as [|_]; [contradiction|].
    eexists. exists ins. split; [reflexivity|]. split; [exact R1|].
    split; [cbn [ftrs set_x set_body with_ftrs]; lia|].
    intros h Hh'. unfold weight. cbn [ftrs set_x set_body with_ftrs body].
    rewrite <- (entry_same ins (ftrs mdl) m1 h R R1 Hh').
    destruct (Z.eqb_spec h0 h) as [<-|Hne].
    + destruct (entry_present ins (ftrs mdl) h0 r R Hh Hin) as [-> _].
      destruct (Z.eqb_spec r 0) as [|_]; [contradiction|].
      rewrite Z.eqb_refl. reflexivity.
    + destruct (entry_reach ins (ftrs mdl) h R Hh') as [[H1 H2]|[H1 H2]].
      * destruct (Z.eqb_spec (entry (ftrs mdl) h) 0) as [|_]; [contradiction|].
        destruct (Z.eqb_spec (entry (ftrs mdl) h) r) as [Er|_]; [|reflexivity].
        exfalso. apply Hne. rewrite Er in H1.
        apply (entry_inj ins (ftrs mdl) h0 h r); assumption.
      * rewrite H2. reflexivity.
  - (* a new feature *)
    cbn [Z.eqb].
    destruct (malloc_reach ins m1 sizeof_ftr R1 ltac:(reflexivity))
      as (m2 & E2 & R2 & F2 & _ & C2 & _).
    destruct (store_reach ins m2 (brk m1) (mk_lst 0 0) R2 F2)
      as (m3 & E3 & R3 & F3 & C3 & _ & _).
    destruct (insert_reach ins m3 h0 (brk m1) R3 ltac:(lia) Hh F3)
      as (r & m4 & E4 & R4 & Hcase).
    destruct Hcase as [(Hin & _)|(_ & -> & L4 & C4)].
    { exfalso. apply Hnin. apply in_map_iff. exists (h0, r). auto. }
    unfold bind. rewrite E2, E3, E4. unfold ret.
    set (tmp := brk m1) in *.
    assert (Ht : tmp <> 0) by (destruct F3 as (F3 & _); lia).
    eexists. exists ((h0, tmp) :: ins). split; [reflexivity|]. split; [exact R4|].
    split; [cbn [ftrs set_x set_body with_ftrs]; lia|].
    intros h Hh'. unfold weight. cbn [ftrs set_x set_body with_ftrs body].
    destruct (Z.eqb_spec h0 h) as [<-|Hne].
    + destruct (entry_present _ m4 h0 tmp R4 Hh (or_introl eq_refl)) as [-> _].
      destruct (Z.eqb_spec tmp 0) as [|_]; [contradiction|].
      rewrite !Z.eqb_refl. reflexivity.
    + destruct (entry_reach _ m4 h R4 Hh') as [[H1 H2]|[H1 H2]].
      * destruct H1 as [H1|H1]; [congruence|].
        destruct (entry_present ins (ftrs mdl) h _ R Hh' H1) as [Ee _].
        rewrite Ee.
        destruct (Z.eqb_spec (entry m4 h) 0) as [|_]; [contradiction|].
        destruct (Z.eqb_spec (entry m4 h) tmp) as [Er|_]; [|reflexivity].
        exfalso. apply Hne. rewrite Er in H1.
        apply (entry_inj _ m4 h0 h tmp R4); [assumption|assumption|left; reflexivity|
                                              right; exact H1].
      * rewrite H2. rewrite (entry_absent ins (ftrs mdl) h R Hh'); [reflexivity|].
        intros Hi. apply H1. right. exact Hi.
Qed.

Lemma mdl_load_spec : forall file mdl ins,
  reach ins (ftrs mdl) ->
  count (ftrs mdl) + Z.of_nat (length file) <= 2 ^ 32 ->
  Forall (fun ln => 0 <= fst ln < 2 ^ 63) file ->
  exists mdl' ins',
    mdl_load mdl file = Some mdl' /\ reach ins' (ftrs mdl') /\
    forall h, 0 <= h < 2 ^ 63 -> weight mdl' h = loaded file h (weight mdl h).
Proof.
  induction file as [|[h0 n] file IH]; intros mdl ins R Hc Hf.
  - exists mdl, ins. split; [reflexivity|]. split; [exact R|]. reflexivity.
  - apply Forall_cons_iff in Hf. destruct Hf as [Hh0 Hf]. cbn [fst] in Hh0.
    cbn [length] in Hc.
    destruct (load_line_spec mdl ins h0 n R ltac:(lia) Hh0)
      as (mdl1 & ins1 & E1 & R1 & C1 & W1).
    destruct (IH mdl1 ins1 R1 ltac:(lia) Hf) as (mdl' & ins' & E' & R' & W').
    exists mdl', ins'. split; [cbn [mdl_load]; rewrite E1; exact E'|].
    split; [exact R'|].
    intros h Hh. rewrite (W' h Hh), (W1 h Hh). reflexivity.
Qed.

Lemma loaded_other file h d :
  (forall ln, In ln file -> fst ln <> h) -> loaded file h d = d.
Proof.
  revert d. induction file as [|[h' n] file IH]; intros d H; [reflexivity|].
  cbn [loaded]. destruct (Z.eqb_spec h' h) as [E|_].
  - exfalso. apply (H (h', n)); [left; reflexivity|exact E].
  - apply IH. intros ln Hl. apply H. right. exact Hl.
Qed.

Lemma lines_data mdl a k L :
  is_data (a, k) = true ->
  lines mdl ((a, k) :: L) = (key_tohash k, print14 (x (body mdl a))) :: lines mdl L.
Proof. intros E. unfold lines. cbn [filter]. rewrite E. reflexivity. Qed.

Lemma lines_marker mdl a k L :
  is_data (a, k) = false -> lines mdl ((a, k) :: L) = lines mdl L.
Proof. intros E. unfold lines. cbn [filter]. rewrite E. reflexivity. Qed.

Lemma loaded_cons h' n file h d :
  loaded ((h', n) :: file) h d =
  loaded file h (if h' =? h then Some (scan14 n) else d).
Proof. reflexivity. Qed.

Lemma lookup_cons a ka L k :
  lookup ((a, ka) :: L) k = if ka =? k then a else lookup L k.
Proof. reflexivity. Qed.

Lemma loaded_lines mdl h : forall L d,
  0 <= h < 2 ^ 63 -> key_sorted L ->
  Forall (fun ak => fst ak <> 0 /\ 0 <= snd ak < 2 ^ 64) L ->
  loaded (lines mdl L) h d =
  if lookup L (key_normal h) =? 0 then d
  else Some (scan14 (print14 (x (body mdl (lookup L (key_normal h)))))).
Proof.
  induction L as [|[a k] L IH]; intros d Hh Hs Hok; [reflexivity|].
  apply Forall_cons_iff in Hok. destruct Hok as [[Ha Hk] Hok].
  change (a <> 0) in Ha. change (0 <= k < 2 ^ 64) in Hk.
  pose proof (key_sorted_tail _ _ _ Hs) as Ht.
  assert (Hs' : key_sorted L) by (inversion Hs; assumption).
  pose proof (key_normal_odd h) as Odd.
  rewrite lookup_cons.
  destruct (is_data (a, k)) eqn:Ed.
  - rewrite (lines_data mdl a k L Ed), loaded_cons.
    pose proof (proj1 (is_data_odd a k) Ed) as Ho.
    destruct (key_normal_tohash k Hk Ho) as [Hr Hn].
    destruct (Z.eqb_spec k (key_normal h)) as [Ek|Nk].
    + assert (Eh : key_tohash k = h).
      { rewrite Ek. apply key_tohash_normal. exact Hh. }
      rewrite Eh, Z.eqb_refl.
      destruct (Z.eqb_spec a 0) as [|_]; [contradiction|].
      apply loaded_other. intros [hb nb] Hl Efst.
      unfold lines in Hl. apply in_map_iff in Hl. destruct Hl as ([b kb] & Eb & Hb).
      apply filter_In in Hb. destruct Hb as [Hb Hd].
      injection Eb as Eb _. change (hb = h) in Efst.
      change (key_tohash kb = hb) in Eb.
      pose proof (proj1 (is_data_odd b kb) Hd) as Hob.
      rewrite Forall_forall in Ht, Hok. pose proof (Ht _ Hb) as Hlt.
      destruct (Hok _ Hb) as [_ Hkb].
      change (k < kb) in Hlt. change (0 <= kb < 2 ^ 64) in Hkb.
      destruct (key_normal_tohash kb Hkb Hob) as [_ Hnb].
      rewrite Eb, Efst in Hnb. lia.
    + destruct (Z.eqb_spec (key_tohash k) h) as [Eh|_].
      * exfalso. apply Nk. rewrite <- Eh. symmetry. exact Hn.
      * apply IH; assumption.
  - rewrite (lines_marker mdl a k L Ed).
    assert (Ev : k mod 2 <> 1).
    { intros H. rewrite (proj2 (is_data_odd a k) H) in Ed. discriminate. }
    destruct (Z.eqb_spec k (key_normal h)) as [Ek|_]; [congruence|].
    apply IH; assumption.
Qed.

Lemma lines_range mdl L :
  Forall (fun ak => fst ak <> 0 /\ 0 <= snd ak < 2 ^ 64) L ->
  Forall (fun ln => 0 <= fst ln < 2 ^ 63) (lines mdl L).
Proof.
  intros H. rewrite Forall_forall in *. intros [hb nb] Hl.
  unfold lines in Hl. apply in_map_iff in Hl. destruct Hl as ([b kb] & Eb & Hb).
  apply filter_In in Hb. destruct Hb as [Hb Hd].
  injection Eb as Eb _. change (key_tohash kb = hb) in Eb.
  destruct (H _ Hb) as [_ Hkb]. change (0 <= kb < 2 ^ 64) in Hkb.
  destruct (key_normal_tohash kb Hkb (proj1 (is_data_odd b kb) Hd)) as [Hr _].
  change (0 <= hb < 2 ^ 63). rewrite <- Eb. exact Hr.
Qed.

Lemma weight_new i h : 0 <= h < 2 ^ 63 -> weight (mdl_new i) h = None.
Proof.
  intros Hh. unfold weight. change (ftrs (mdl_new i)) with map0.
  rewrite (entry_absent [] map0 h); [reflexivity| |exact Hh|intros []].
  apply reach_new. exact map_new_mem0.
Qed.

(** A model whose one feature has the weight [2^-50], and what
    [mdl_load] makes of its file. *)
Definition tiny : mdl_t :=
  match mdl_addftr (mdl_new 0) 3 [7; 11] true with
  | Some (r, mdl) => set_x mdl r (Qmake 1 (2 ^ 50))
  | None => mdl_new 0
  end.
Definition tiny_back : mdl_t :=
  match mdl_load (mdl_new 0) [(ftr_key 3 [7; 11], 0)] with
  | Some mdl => mdl
  | None => mdl_new 0
  end.



(** The table [one_entry] with the weight [1/3] (as a double); the
    file has one line. *)
Definition third : mdl_t :=
  mk_mdl (mk_par 0 0 (repeat 0 128%nat) (repeat INT_MAX 128%nat)) one_entry
         (fun _ => mk_ftr (Qmake 6004799503160661 (2 ^ 54)) 0 0 0 0 0).


End Mdl.

(** ** The hash table as its callers see it *)

Module Table.
Import Bits Map Mdl.
Local Open Scope Z_scope.

(** *** Keys *)

(** X3. The table does not keep the highest bit of a hash: the key of
    a 64-bit hash is the key of the hash without its bit 63, and
    [map_gethsh] gives back the hash without that bit. *)
Theorem key_drops_top_bit h :
  0 <= h < 2 ^ 64 ->
  key_normal h = key_normal (h mod 2 ^ 63) /\
  key_tohash (key_normal h) = h mod 2 ^ 63.
Proof.
  intros Hh.
  pose proof (Z.mod_pos_bound h (2 ^ 63) ltac:(lia)) as Hm.
  assert (E : key_normal h = key_normal (h mod 2 ^ 63)).
  { unfold key_normal. apply Z.bits_inj'. intros i Hi.
    rewrite !Z.lor_spec.
    destruct (Z.eq_dec i 0) as [->|Hne]; [rewrite !orb_true_r; reflexivity|].
    f_equal. destruct (Z.lt_ge_cases i 64) as [Hlt|Hge].
    - rewrite !bit_reverse_spec by lia.
      rewrite Z.mod_pow2_bits_low by lia. reflexivity.
    - rewrite !high_bits_false; auto using bit_reverse_range. }
  split; [exact E|]. rewrite E. apply key_tohash_normal. lia.
Qed.

Lemma key_drops_top_bit_witness :
  0 <= 2 ^ 63 + 5 < 2 ^ 64 /\ key_normal (2 ^ 63 + 5) = key_normal 5 /\
  key_tohash (key_normal (2 ^ 63 + 5)) = 5.
Proof.
  split; [lia|].
  destruct (key_drops_top_bit (2 ^ 63 + 5) ltac:(lia)) as [H1 H2].
  split; [exact H1|exact H2].
Defined.

(** *** The iterator *)

Lemma hd_skip S : hd_addr (skip S) 0 = hd_addr (filter is_data S) 0.
Proof.
  induction S as [|[a k] S IH]; [reflexivity|].
  cbn [skip filter]. unfold is_data at 1. cbn [snd].
  destruct (key_ismark k); cbn [negb]; [exact IH|reflexivity].
Qed.

Lemma filter_split {A : Type} (p : A -> bool) : forall l pre x post,
  filter p l = pre ++ x :: post ->
  exists P S, l = P ++ x :: S /\ filter p P = pre /\ filter p S = post.
Proof.
  induction l as [|y l IH]; intros pre x post E.
  - destruct pre; discriminate.
  - cbn [filter] in E. destruct (p y) eqn:Py.
    + destruct pre as [|z pre].
      * injection E as -> E. exists [], l. repeat split. exact E.
      * injection E as -> E. destruct (IH pre x post E) as (P & S & -> & H1 & H2).
        exists (z :: P), S. repeat split; [|exact H2].
        cbn [filter]. rewrite Py, H1. reflexivity.
    + destruct (IH pre x post E) as (P & S & -> & H1 & H2).
      exists (y :: P), S. repeat split; [|exact H2].
      cbn [filter]. rewrite Py. exact H1.
Qed.

Lemma key_sorted_filter (p : Z * Z -> bool) L :
  key_sorted L -> key_sorted (filter p L).
Proof.
  unfold key_sorted. induction 1 as [|x L HS IH HF]; [constructor|].
  cbn [filter]. destruct (p x); [|exact IH].
  constructor; [exact IH|].
  rewrite Forall_forall in *. intros y Hy. apply HF.
  apply filter_In in Hy. apply Hy.
Qed.

(** X4. [map_next] walks the entries of the table in the order of the
    list, without the bucket markers: from [NULL] it gives the first
    entry, from an entry the next one, from the last one [NULL], and
    it changes nothing.  The entries are the results of the
    insertions, each under the key of its hash, and their keys
    increase. *)
Theorem map_next_steps ins m :
  reach ins m ->
  let D := filter is_data (nodes m) in
  map_next 0 m = Some (hd_addr D 0, m) /\
  (forall A a k B, D = A ++ (a, k) :: B -> map_next a m = Some (hd_addr B 0, m)) /\
  (forall a k, In (a, k) D <->
     exists h, 0 <= h < 2 ^ 63 /\ In (h, a) ins /\ k = key_normal h) /\
  key_sorted D.
Proof.
  intros R D. destruct (reach_known _ _ R) as [L K].
  pose proof (kn_inv _ _ _ K) as I. unfold D. rewrite (nodes_inv m L I).
  pose proof (node_ok_plain _ _ (inv_nodes _ _ I)) as Hp.
  pose proof (inv_length _ _ I) as Hlen.
  split; [|split; [|split]].
  - unfold map_next. cbn [Z.eqb]. rewrite <- hd_skip.
    apply next_loop_spec; auto; [exact (inv_first _ _ I)|exact (inv_links _ _ I)].
  - intros A a k B E.
    destruct (filter_split is_data L A (a, k) B E) as (P & S & EL & _ & HB).
    assert (Ha : a <> 0).
    { rewrite Forall_forall in Hp. apply (Hp (a, k)). rewrite EL.
      apply in_or_app. right. left. reflexivity. }
    pose proof (inv_links _ _ I) as Hl. rewrite EL in Hl.
    apply links_app in Hl. destruct Hl as [_ Hl]. cbn [links] in Hl.
    destruct Hl as (_ & Hn & Hl).
    unfold map_next. destruct (Z.eqb_spec a 0) as [|_]; [contradiction|].
    rewrite <- HB, <- hd_skip. apply next_loop_spec; auto.
    + rewrite EL, Forall_app in Hp. destruct Hp as [_ Hp].
      apply Forall_inv_tail in Hp. exact Hp.
    + rewrite EL, length_app in Hlen. cbn [length] in Hlen. lia.
  - intros a k. rewrite filter_In. split.
    + intros [Hin Hd]. apply is_data_odd in Hd.
      pose proof (inv_nodes _ _ I) as F. rewrite Forall_forall in F.
      destruct (F _ Hin) as (_ & _ & Hk). cbn [snd] in Hk.
      destruct (key_normal_tohash k Hk Hd) as [Hr Hn].
      exists (key_tohash k). split; [exact Hr|]. split; [|symmetry; exact Hn].
      apply (kn_data _ _ _ K _ a Hr). rewrite Hn. exact Hin.
    + intros (h & Hh & Hin & ->). split.
      * apply (kn_data _ _ _ K h a Hh). exact Hin.
      * apply is_data_odd. apply key_normal_odd.
  - apply key_sorted_filter. exact (inv_sorted _ _ I).
Qed.

Lemma map_next_steps_witness :
  reach [(5, 80)] one_entry /\
  map_next 0 one_entry = Some (80, one_entry) /\
  map_next 80 one_entry = Some (0, one_entry).
Proof.
  split; [exact reach_one_entry|].
  destruct (map_next_steps [(5, 80)] one_entry reach_one_entry) as (H1 & H2 & _).
  split; [exact H1|].
  exact (H2 [] 80 (key_normal 5) [] eq_refl).
Defined.

(** *** Lookups *)

Lemma sorted_same A : forall B,
  key_sorted A -> key_sorted B -> (forall x, In x A <-> In x B) -> A = B.
Proof.
  induction A as [|[a ka] A IH]; intros [|[b kb] B] SA SB H.
  - reflexivity.
  - exfalso. apply (proj2 (H (b, kb))). left. reflexivity.
  - exfalso. apply (proj1 (H (a, ka))). left. reflexivity.
  - pose proof (key_sorted_tail _ _ _ SA) as TA.
    pose proof (key_sorted_tail _ _ _ SB) as TB.
    rewrite Forall_forall in TA, TB.
    assert (E : (a, ka) = (b, kb)).
    { destruct (proj1 (H (a, ka)) (or_introl eq_refl)) as [E|Ha]; [congruence|].
      destruct (proj2 (H (b, kb)) (or_introl eq_refl)) as [E|Hb]; [congruence|].
      pose proof (TB _ Ha). pose proof (TA _ Hb). cbn [snd] in *. lia. }
    injection E as <- <-. f_equal. apply IH.
    + inversion SA; assumption.
    + inversion SB; assumption.
    + intros x. split; intros Hx.
      * destruct (proj1 (H x) (or_intror Hx)) as [<-|Hx']; [|exact Hx'].
        pose proof (TA _ Hx). cbn [snd] in *. lia.
      * destruct (proj2 (H x) (or_intror Hx)) as [<-|Hx']; [|exact Hx'].
        pose proof (TB _ Hx). cbn [snd] in *. lia.
Qed.

(** X5. [map_find] returns the entry stored under the hash, [NULL] if
    there is none, and leaves the entries, [count] and [size] as they
    were: what it may add to the list are bucket markers only. *)
Theorem map_find_keeps_entries ins m h :
  reach ins m -> count m <= 2 ^ 32 -> 0 <= h < 2 ^ 63 ->
  exists r m',
    map_find h m = Some (r, m') /\ r = entry m h /\ reach ins m' /\
    filter is_data (nodes m') = filter is_data (nodes m) /\
    (forall h', 0 <= h' < 2 ^ 63 -> entry m' h' = entry m h') /\
    count m' = count m /\ size m' = size m.
Proof.
  intros R Hc Hh. destruct (reach_known _ _ R) as [L K].
  pose proof (kn_inv _ _ _ K) as I.
  pose proof (known_bkt ins m L h K Hc ltac:(lia)) as B.
  destruct (find_spec m L h I Hh B) as (r & m1 & L1 & E1 & I1 & G1 & C1).
  assert (R1 : reach ins m1) by (apply (reach_find ins m h r); assumption).
  exists r, m1. split; [exact E1|]. split; [|split; [exact R1|split; [|split]]].
  - unfold entry. rewrite (nodes_inv m L I).
    destruct C1 as [[C1 _]|[C1 ->]].
    + destruct (lookup_spec L (key_normal h)) as [Hl|[Hl _]].
      * apply (sorted_key_unique L r _ (key_normal h)); auto. apply I.
      * exfalso. apply Hl. apply in_map_iff. exists (r, key_normal h). auto.
    + destruct (lookup_spec L (key_normal h)) as [Hl|[_ Hl]]; [|congruence].
      exfalso. apply C1. apply in_map_iff. exists (lookup L (key_normal h), key_normal h).
      auto.
  - rewrite (nodes_inv m L I), (nodes_inv m1 L1 I1).
    apply sorted_same.
    + apply key_sorted_filter. apply I1.
    + apply key_sorted_filter. apply I.
    + intros [a k]. rewrite !filter_In. split; intros [Hin Hd]; split; auto;
        apply (gr_data _ _ _ _ G1 a k (proj1 (is_data_odd a k) Hd)); exact Hin.
  - intros h' Hh'. symmetry. apply (entry_same ins); assumption.
  - split; apply G1.
Qed.

Lemma map_find_keeps_entries_witness :
  reach [(5, 80)] one_entry /\ count one_entry <= 2 ^ 32 /\ 0 <= 21 < 2 ^ 63 /\
  exists m', map_find 21 one_entry = Some (0, m') /\
    filter is_data (nodes m') = [(80, key_normal 5)] /\ count m' = 1.
Proof.
  assert (C : count one_entry <= 2 ^ 32) by (vm_compute; discriminate).
  split; [exact reach_one_entry|]. split; [exact C|]. split; [lia|].
  destruct (map_find_keeps_entries [(5, 80)] one_entry 21 reach_one_entry C ltac:(lia))
    as (r & m' & E & Er & _ & F & _ & Cn & _).
  exists m'. split; [rewrite E, Er; reflexivity|]. split; [exact F|exact Cn].
Defined.

(** *** Growth *)

(** X6. While at most [2^32] entries were counted, the number of
    buckets is a power of two from 16 on, and [count] stays below
    [(grow + 1) * size]: an insertion that brings the mean length of a
    bucket above [grow = 8] doubles [size]. *)
Theorem table_size_grows ins m :
  reach ins m -> count m <= 2 ^ 32 ->
  exists j, 4 <= j /\ size m = 2 ^ j /\ count m < 9 * size m.
Proof.
  induction 1 as [m E|ins m sz v m' R IH Hsz E|ins m v c m' R IH Hv E|
                  ins m h r m' R IH Hh E|ins m h v r m' R IH Hh Hv E]; intros Hc.
  - assert (Em : m = map0).
    { pose proof map_new_mem0 as E0. rewrite E in E0. clear E.
      generalize dependent map0. intros m0 E0. congruence. }
    subst m. exists 4. repeat split; vm_compute; congruence.
  - unfold malloc in E. injection E as _ <-. apply IH. exact Hc.
  - unfold set_node in E. injection E as <-. apply IH. exact Hc.
  - destruct (reach_known _ _ R) as [L K].
    destruct (Z.lt_ge_cases (Z.land h (u64 (size m - 1))) (2 ^ 32)) as [B|B];
      [|rewrite find_abort in E by exact B; discriminate].
    destruct (find_spec m L h (kn_inv _ _ _ K) Hh B) as (r' & m1 & L1 & E1 & _ & G1 & _).
    rewrite E1 in E. injection E as _ <-.
    rewrite (gr_size _ _ _ _ G1), (gr_count _ _ _ _ G1) in *. apply IH. exact Hc.
  - destruct (reach_known _ _ R) as [L K].
    destruct (Z.lt_ge_cases (Z.land h (u64 (size m - 1))) (2 ^ 32)) as [B|B];
      [|rewrite insert_abort in E by exact B; discriminate].
    destruct (known_free _ _ _ _ K Hv) as (V1 & V2 & V3).
    destruct (insert_spec m L h v (kn_inv _ _ _ K) Hh B V1 V2 V3)
      as (r' & m1 & L1 & E1 & _ & _ & _ & _ & _ & Hcase).
    rewrite E1 in E. injection E as _ <-.
    pose proof (kn_count _ _ _ K) as C0. pose proof (kn_grow _ _ _ K) as G0.
    destruct Hcase as [(_ & _ & _ & _ & P5 & P6)|(_ & _ & _ & A4 & A5)].
    + rewrite P5, P6 in *. apply IH. exact Hc.
    + rewrite A4 in Hc. destruct (IH ltac:(lia)) as (j & Hj & Es & Hlt).
      rewrite A4, A5, G0.
      assert (Ps : 16 <= size m).
      { rewrite Es. change 16 with (2 ^ 4). apply Z.pow_le_mono_r; lia. }
      destruct (Z.ltb_spec 8 ((count m + 1) / size m)) as [Hd|Hd].
      * assert (M : size m * ((count m + 1) / size m) <= count m + 1)
          by (apply Z.mul_div_le; lia).
        exists (j + 1). split; [lia|].
        unfold u64. rewrite Z.mod_small by nia.
        split; [rewrite Es, Z.pow_add_r by lia; lia|lia].
      * exists j. split; [exact Hj|]. split; [exact Es|].
        pose proof (Z.div_mod (count m + 1) (size m) ltac:(lia)) as Dm.
        pose proof (Z.mod_pos_bound (count m + 1) (size m) ltac:(lia)) as Mb.
        nia.
Qed.

Lemma table_size_grows_witness :
  reach [(5, 80)] one_entry /\ count one_entry <= 2 ^ 32 /\
  exists j, 4 <= j /\ size one_entry = 2 ^ j /\ count one_entry < 9 * size one_entry.
Proof.
  assert (C : count one_entry <= 2 ^ 32) by (vm_compute; discriminate).
  split; [exact reach_one_entry|]. split; [exact C|].
  exact (table_size_grows [(5, 80)] one_entry reach_one_entry C).
Defined.

(** *** Creation *)

(** X7. [map_new], in any memory with an aligned allocation mark,
    makes a table with 16 buckets and no entry: the list holds the
    marker of bucket 0 alone, [count] is 0, [map_find] returns [NULL]
    for every hash and [map_next] finds nothing to visit. *)
Theorem map_new_empty m0 :
  0 < brk m0 -> brk m0 mod 2 = 0 ->
  exists m,
    map_new m0 = Some (tt, m) /\ Inv m (nodes m) /\
    nodes m = [(brk m0 + 48, 0)] /\ lhead m = brk m0 /\
    count m = 0 /\ size m = 16 /\ grow m = 8 /\
    (forall h, 0 <= h < 2 ^ 63 -> exists m', map_find h m = Some (0, m')) /\
    map_next 0 m = Some (0, m).
Proof.
  intros Hb He.
  unfold map_new, bind, malloc, set_next, set_key, new_seg, ret.
  cbn [fst snd cells brk lhead segs size count grow with_cells with_segs].
  change (16 * ((48 + 15) / 16)) with 48. change (16 * ((16 + 15) / 16)) with 16.
  set (a := brk m0). set (b := a + 48).
  match goal with |- context [lst_insert a b ?s] => set (s1 := s) end.
  assert (Hab : a <> b) by (unfold b; lia).
  assert (Ca : cells s1 a = mk_lst 0 0).
  { unfold s1. cbn [cells with_cells].
    destruct (Z.eqb_spec a b) as [|_]; [contradiction|].
    rewrite !Z.eqb_refl. reflexivity. }
  assert (Kb : key (cells s1 b) = 0).
  { unfold s1. cbn [cells with_cells]. rewrite Z.eqb_refl. reflexivity. }
  destruct (lst_insert_spec a b [] s1) as (S1 & S2 & ES & _ & _ & R).
  { rewrite Ca. reflexivity. }
  { exact I. }
  { constructor. }
  { unfold fuel_of. cbn [length]. lia. }
  { intros E. apply Hab. symmetry. exact E. }
  { intros []. }
  symmetry in ES. apply app_eq_nil in ES. destruct ES as [-> ->].
  cbn [found_key hd_addr map last] in R. rewrite R. cbn [snd].
  unfold set_bucket. fold (put_bucket (link_after s1 a b 0) 0 0 b).
  set (m := put_bucket (link_after s1 a b 0) 0 0 b).
  assert (C : forall q, cells m q =
            if q =? a then mk_lst b 0
            else if q =? b then mk_lst 0 0 else cells s1 q).
  { intros q. unfold m. cbn [put_bucket with_segs cells].
    rewrite link_after_cells by exact Hab. rewrite Ca, Kb. reflexivity. }
  assert (Bk : forall s i, bucket_at m s i = if (s =? 0) && (i =? 0) then b else 0).
  { intros s i. unfold m. rewrite bucket_at_put.
    destruct ((s =? 0) && (i =? 0)); [reflexivity|].
    unfold bucket_at. cbn [link_after with_cells segs s1].
    destruct (s =? 0); reflexivity. }
  assert (I : Inv m [(b, 0)]).
  { constructor.
    - cbn. fold a. unfold a. split; [lia|exact He].
    - cbn [lhead m put_bucket with_segs link_after with_cells s1]. fold a.
      rewrite C, Z.eqb_refl. reflexivity.
    - cbn [links hd_addr]. rewrite C.
      destruct (Z.eqb_spec b a) as [E|_]; [symmetry in E; contradiction|].
      rewrite Z.eqb_refl. auto.
    - constructor; [|constructor]. unfold node_ok. cbn.
      fold a. unfold b, a. repeat split; try lia.
      rewrite Z.add_mod, He by lia. reflexivity.
    - cbn [lhead m put_bucket with_segs link_after with_cells s1 map fst]. fold a.
      constructor; [intros [E|[]]; apply Hab; symmetry; exact E|].
      constructor; [intros []|constructor].
    - constructor; constructor.
    - intros x Hx. rewrite Bk.
      destruct (Z.eqb_spec (x / 65536) 0) as [E1|_]; simpl; [|congruence].
      destruct (Z.eqb_spec (x mod 65536) 0) as [E2|_]; [|congruence].
      intros _. assert (x = 0).
      { rewrite (Z.div_mod x 65536) by lia. lia. }
      subst x. split; [lia|]. left. reflexivity.
    - rewrite Bk. cbn. unfold b, a. lia.
    - change (brk m) with (a + 48 + 16).
      replace (a + 48 + 16) with (a + 32 * 2) by lia.
      rewrite Z.mod_add by lia. exact He. }
  pose proof (nodes_inv m _ I) as N.
  exists m. split; [reflexivity|]. split; [rewrite N; exact I|].
  split; [exact N|]. split; [reflexivity|]. split; [reflexivity|].
  split; [reflexivity|]. split; [reflexivity|]. split.
  - intros h Hh.
    assert (B : Z.land h (u64 (size m - 1)) < 2 ^ 32).
    { apply bkt_range; [lia|]. cbn. lia. }
    destruct (find_spec m _ h I Hh B) as (r & m' & L' & E & _ & _ & Cs).
    exists m'. destruct Cs as [[[Hin|[]] _]|[_ ->]]; [|exact E].
    exfalso. injection Hin as _ Hk.
    pose proof (key_normal_odd h) as O. rewrite <- Hk in O. discriminate.
  - unfold map_next. cbn [Z.eqb].
    rewrite (next_loop_spec m [(b, 0)] (lhead m) (fuel_of m)).
    + reflexivity.
    + exact (inv_first _ _ I).
    + exact (inv_links _ _ I).
    + apply (node_ok_plain m). exact (inv_nodes _ _ I).
    + exact (inv_length _ _ I).
Qed.

Lemma map_new_empty_witness :
  0 < brk mem0 /\ brk mem0 mod 2 = 0 /\
  exists m, map_new mem0 = Some (tt, m) /\ nodes m = [(64, 0)] /\ count m = 0.
Proof.
  assert (H1 : 0 < brk mem0) by (cbn; lia).
  assert (H2 : brk mem0 mod 2 = 0) by reflexivity.
  split; [exact H1|]. split; [exact H2|].
  destruct (map_new_empty mem0 H1 H2) as (m & E & _ & N & _ & C & _).
  exists m. split; [exact E|]. split; [exact N|exact C].
Defined.

End Table.

(** ** The model file and the feature keys *)

Module Model.
Import Bits Map Mdl Table.
Local Open Scope Z_scope.

(** *** The tag of a key *)

(** X8. The key that [mdl_addftr] builds for a tag in 0..127 is below
    [2^63], [mdl_gettag] reads the tag back from it, and two keys
    built for different tags differ, whatever the hashes. *)
Theorem ftr_key_tag tag tag' hsh hsh' :
  0 <= tag < 128 -> 0 <= tag' < 128 ->
  0 <= ftr_key tag hsh < 2 ^ 63 /\
  mdl_gettag (ftr_key tag hsh) = Z.to_nat tag /\
  (ftr_key tag hsh = ftr_key tag' hsh' -> tag = tag').
Proof.
  intros Ht Ht'.
  destruct (ftr_key_spec tag hsh Ht) as (R & S & _).
  destruct (ftr_key_spec tag' hsh' Ht') as (_ & S' & _).
  split; [exact R|]. split; [unfold mdl_gettag; rewrite S; reflexivity|].
  intros E. rewrite E in S. congruence.
Qed.

Lemma ftr_key_tag_witness :
  0 <= 3 < 128 /\ 0 <= 4 < 128 /\
  mdl_gettag (ftr_key 3 [7; 11]) = 3%nat /\ ftr_key 3 [7; 11] <> ftr_key 4 [7; 11].
Proof.
  split; [lia|]. split; [lia|].
  destruct (ftr_key_tag 3 4 [7; 11] [7; 11] ltac:(lia) ltac:(lia)) as (_ & G & D).
  split; [exact G|]. intros E. apply D in E. discriminate E.
Defined.

(** *** [mdl_save] *)

Lemma lines_in mdl L h n :
  In (h, n) (lines mdl L) <->
  exists a k, In (a, k) L /\ is_data (a, k) = true /\
              h = key_tohash k /\ n = print14 (x (body mdl a)).
Proof.
  unfold lines. rewrite in_map_iff. split.
  - intros ([a k] & E & Hin). apply filter_In in Hin. destruct Hin as [Hin Hd].
    injection E as <- <-. exists a, k. auto.
  - intros (a & k & Hin & Hd & -> & ->). exists (a, k). split; [reflexivity|].
    apply filter_In. auto.
Qed.

Lemma lines_sorted mdl : forall L,
  key_sorted L -> Forall (fun ak => fst ak <> 0 /\ 0 <= snd ak < 2 ^ 64) L ->
  StronglySorted (fun p q => key_normal (fst p) < key_normal (fst q)) (lines mdl L).
Proof.
  induction L as [|[a k] L IH]; intros Hs Hok; [constructor|].
  apply Forall_cons_iff in Hok. destruct Hok as [[_ Hk] Hok].
  change (0 <= k < 2 ^ 64) in Hk.
  pose proof (key_sorted_tail _ _ _ Hs) as Ht.
  assert (Hs' : key_sorted L) by (inversion Hs; assumption).
  destruct (is_data (a, k)) eqn:Ed.
  - rewrite (lines_data mdl a k L Ed).
    destruct (key_normal_tohash k Hk (proj1 (is_data_odd a k) Ed)) as [_ Hn].
    constructor; [apply IH; assumption|].
    rewrite Forall_forall. intros [hb nb] Hl.
    apply lines_in in Hl. destruct Hl as (b & kb & Hb & Hd & -> & _).
    rewrite Forall_forall in Ht, Hok. pose proof (Ht _ Hb) as Hlt.
    destruct (Hok _ Hb) as [_ Hkb].
    change (k < kb) in Hlt. change (0 <= kb < 2 ^ 64) in Hkb.
    destruct (key_normal_tohash kb Hkb (proj1 (is_data_odd b kb) Hd)) as [_ Hnb].
    change (key_normal (key_tohash k) < key_normal (key_tohash kb)).
    rewrite Hn, Hnb. exact Hlt.
  - rewrite (lines_marker mdl a k L Ed). apply IH; assumption.
Qed.

(** X9. [mdl_save] writes one line for every feature of the table and
    no other: the key of the feature with its weight as a decimal of
    14 digits.  The lines come in the order of the list, by
    increasing bit-reversed key, so no key is written twice. *)
Theorem mdl_save_lines mdl ins :
  reach ins (ftrs mdl) ->
  exists file,
    mdl_save mdl = Some file /\
    (forall h n, In (h, n) file <->
       0 <= h < 2 ^ 63 /\ exists w, weight mdl h = Some w /\ n = print14 w) /\
    StronglySorted (fun p q => key_normal (fst p) < key_normal (fst q)) file /\
    NoDup (map fst file).
Proof.
  intros R. exists (lines mdl (nodes (ftrs mdl))).
  split; [apply (mdl_save_spec mdl ins R)|].
  destruct (reach_known _ _ R) as [L K]. pose proof (kn_inv _ _ _ K) as I.
  assert (Hok : Forall (fun ak => fst ak <> 0 /\ 0 <= snd ak < 2 ^ 64) L).
  { pose proof (inv_nodes _ _ I) as F. revert F. apply Forall_impl.
    intros [a k] (A & _ & B). cbn [fst snd] in *. split; [lia|exact B]. }
  assert (Sd : StronglySorted (fun p q => key_normal (fst p) < key_normal (fst q))
                 (lines mdl L)).
  { apply lines_sorted; [exact (inv_sorted _ _ I)|exact Hok]. }
  unfold weight, entry. rewrite (nodes_inv _ L I).
  split; [|split; [exact Sd|]].
  - intros h n. rewrite lines_in. split.
    + intros (a & k & Hin & Hd & -> & ->).
      rewrite Forall_forall in Hok. destruct (Hok _ Hin) as [Ha Hk].
      cbn [fst snd] in Ha, Hk.
      destruct (key_normal_tohash k Hk (proj1 (is_data_odd a k) Hd)) as [Hr Hn].
      split; [exact Hr|]. rewrite Hn.
      assert (El : lookup L k = a).
      { destruct (lookup_spec L k) as [Hl|[Hl _]].
        - apply (sorted_key_unique L _ a k); auto. apply I.
        - exfalso. apply Hl. apply in_map_iff. exists (a, k). auto. }
      rewrite El. destruct (Z.eqb_spec a 0) as [|_]; [contradiction|].
      exists (x (body mdl a)). auto.
    + intros (Hh & w & Hw & ->).
      destruct (Z.eqb_spec (lookup L (key_normal h)) 0) as [|Hne]; [discriminate|].
      injection Hw as <-.
      destruct (lookup_spec L (key_normal h)) as [Hl|[_ Hl]]; [|contradiction].
      exists (lookup L (key_normal h)), (key_normal h).
      split; [exact Hl|]. split; [apply is_data_odd; apply key_normal_odd|].
      split; [symmetry; apply key_tohash_normal; exact Hh|reflexivity].
  - clear - Sd. induction Sd as [|p l _ IH Hf]; [constructor|].
    cbn [map]. constructor; [|exact IH].
    intros Hin. apply in_map_iff in Hin. destruct Hin as (q & E & Hq).
    rewrite Forall_forall in Hf. specialize (Hf q Hq). rewrite E in Hf. lia.
Qed.

Lemma mdl_save_lines_witness :
  reach [(5, 80)] (ftrs third) /\
  exists file,
    mdl_save third = Some file /\
    (forall h n, In (h, n) file <->
       0 <= h < 2 ^ 63 /\ exists w, weight third h = Some w /\ n = print14 w) /\
    StronglySorted (fun p q => key_normal (fst p) < key_normal (fst q)) file /\
    NoDup (map fst file).
Proof.
  split; [exact reach_one_entry|].
  exact (mdl_save_lines third [(5, 80)] reach_one_entry).
Defined.

(** *** [mdl_load] *)

Lemma loaded_app pre : forall post h d,
  loaded (pre ++ post) h d = loaded post h (loaded pre h d).
Proof.
  induction pre as [|[h' n] pre IH]; intros post h d; [reflexivity|].
  cbn [app]. rewrite !loaded_cons. apply IH.
Qed.

(** X10. [mdl_load] on any model: a key of the file gets the weight
    of the last line that names it, whether the model had the feature
    or not, and every other feature keeps its weight (a key that is
    neither in the file nor in the model stays absent). *)
Theorem mdl_load_overrides mdl ins file :
  reach ins (ftrs mdl) ->
  count (ftrs mdl) + Z.of_nat (length file) <= 2 ^ 32 ->
  Forall (fun ln => 0 <= fst ln < 2 ^ 63) file ->
  exists mdl',
    mdl_load mdl file = Some mdl' /\
    forall h, 0 <= h < 2 ^ 63 ->
      (~ In h (map fst file) -> weight mdl' h = weight mdl h) /\
      (forall pre n post, file = pre ++ (h, n) :: post -> ~ In h (map fst post) ->
         weight mdl' h = Some (scan14 n)).
Proof.
  intros R Hc Hf.
  destruct (mdl_load_spec file mdl ins R Hc Hf) as (mdl' & ins' & E & _ & W).
  exists mdl'. split; [exact E|]. intros h Hh. rewrite (W h Hh). split.
  - intros Hn. apply loaded_other. intros ln Hl Efst. apply Hn.
    apply in_map_iff. exists ln. auto.
  - intros pre n post -> Hn. rewrite loaded_app, loaded_cons, Z.eqb_refl.
    apply loaded_other. intros ln Hl Efst. apply Hn.
    apply in_map_iff. exists ln. auto.
Qed.

Lemma mdl_load_overrides_witness :
  reach [(5, 80)] (ftrs third) /\
  count (ftrs third) + Z.of_nat (length [(5, 1); (9, 2); (5, 3)]) <= 2 ^ 32 /\
  Forall (fun ln => 0 <= fst ln < 2 ^ 63) [(5, 1); (9, 2); (5, 3)] /\
  exists mdl',
    mdl_load third [(5, 1); (9, 2); (5, 3)] = Some mdl' /\
    weight mdl' 5 = Some (scan14 3) /\ weight mdl' 9 = Some (scan14 2) /\
    weight mdl' 6 = None.
Proof.
  assert (C : count (ftrs third) + Z.of_nat (length [(5, 1); (9, 2); (5, 3)]) <= 2 ^ 32)
    by (vm_compute; discriminate).
  assert (F : Forall (fun ln => 0 <= fst ln < 2 ^ 63) [(5, 1); (9, 2); (5, 3)]).
  { repeat constructor; cbn; lia. }
  split; [exact reach_one_entry|]. split; [exact C|]. split; [exact F|].
  destruct (mdl_load_overrides third [(5, 80)] _ reach_one_entry C F) as (mdl' & E & W).
  exists mdl'. split; [exact E|]. split; [|split].
  - apply (proj2 (W 5 ltac:(lia)) [(5, 1); (9, 2)] 3 []); [reflexivity|intros []].
  - apply (proj2 (W 9 ltac:(lia)) [(5, 1)] 2 [(5, 3)]); [reflexivity|].
    cbn. intros [H|[]]. discriminate.
  - rewrite (proj1 (W 6 ltac:(lia))); [vm_compute; reflexivity|].
    cbn. intros [H|[H|[H|[]]]]; discriminate.
Defined.

End Model.

(** ** Removal from the table and from the model *)

Module Remove.
Import Bits Map Mdl Table.
Local Open Scope Z_scope.

(** [lst_remove]: the node found is marked ([atm_cas] on its own
    [next]), then unlinked ([atm_cas] on the [next] of the node before
    it); when the second exchange fails the list is searched again and
    [ptr] is what that search leaves.  The result is the return value
    and [*res]. *)
Fixpoint remove_loop (fuel : nat) (hd k : Z) : M (bool * Z) :=
  match fuel with
  | O => out_of_fuel
  | S fuel' =>
      r <- lst_search hd k ;;
      let '(found, (p0, p1, p2)) := r in
      if negb found then ret (false, 0)
      else
        ok <- cas_next p1 p2 (ptr_addtag p2) ;;
        if ok then
          ok2 <- cas_next p0 p1 p2 ;;
          if ok2 then ret (true, p1)
          else r2 <- lst_search hd k ;; ret (true, snd (fst (snd r2)))
        else remove_loop fuel' hd k
  end.

Definition lst_remove (hd k : Z) : M (bool * Z) := remove_loop 64 hd k.

(** [atm_sub(&map->count, 1)] on a [size_t]. *)
Definition atm_sub_count : M unit := fun m =>
  Some (tt, mk_map (cells m) (brk m) (lhead m) (segs m) (size m)
              (u64 (count m - 1)) (grow m)).

Definition map_remove (hash : Z) : M Z :=
  sz <- get_size ;;
  let bkt := Z.land hash (u64 (sz - 1)) in
  let k := key_normal hash in
  hd <- map_getbkt bkt_fuel bkt ;;
  r <- lst_remove hd k ;;
  if fst r then atm_sub_count ;;; ret (snd r) else ret 0.

(** The state after the node [p1], between [p0] and [p2], has been
    marked and unlinked. *)
Definition unlink_after (m : map_t) (p0 p1 p2 : Z) : map_t :=
  let m1 := with_cells m (fun q => if q =? p1
                                   then mk_lst (ptr_addtag p2) (key (cells m p1))
                                   else cells m q) in
  with_cells m1 (fun q => if q =? p0 then mk_lst p2 (key (cells m1 p0))
                          else cells m1 q).

Lemma unlink_after_cells m p0 p1 p2 q :
  p0 <> p1 ->
  cells (unlink_after m p0 p1 p2) q =
  if q =? p0 then mk_lst p2 (key (cells m p0))
  else if q =? p1 then mk_lst (ptr_addtag p2) (key (cells m p1))
  else cells m q.
Proof.
  intros H. unfold unlink_after. simpl.
  destruct (Z.eqb_spec q p0) as [->|_]; [|reflexivity].
  destruct (Z.eqb_spec p0 p1) as [|_]; [contradiction|reflexivity].
Qed.

Lemma next_last c : forall S1 S2 hd,
  next (c hd) = hd_addr (S1 ++ S2) 0 -> links c (S1 ++ S2) 0 ->
  next (c (last (map fst S1) hd)) = hd_addr S2 0.
Proof.
  induction S1 as [|[a ka] S1 IH]; intros S2 hd Hn Hl.
  - exact Hn.
  - cbn [map fst]. rewrite last_cons. simpl in Hl.
    destruct Hl as (_ & Hx & Hl). apply IH; assumption.
Qed.

(** [lst_remove] on a list without marked nodes: the node with the key
    is unlinked, or the key is not there and nothing changes. *)
Lemma lst_remove_spec hd k S m :
  next (cells m hd) = hd_addr S 0 ->
  links (cells m) S 0 ->
  Forall plain S ->
  (length S < fuel_of m)%nat ->
  NoDup (hd :: map fst S) ->
  exists S1 S2,
    S = S1 ++ S2 /\ Forall (fun ak => snd ak < k) S1 /\ stops_at S2 k /\
    lst_remove hd k m =
    match S2 with
    | (a, ka) :: S2' =>
        if ka =? k
        then Some ((true, a), unlink_after m (last (map fst S1) hd) a (hd_addr S2' 0))
        else Some ((false, 0), m)
    | [] => Some ((false, 0), m)
    end.
Proof.
  intros Hn Hl Hp Hf ND.
  destruct (lst_search_spec hd k S m Hn Hl Hp Hf) as (S1 & S2 & E & F & St & R).
  exists S1, S2. repeat split; auto.
  unfold lst_remove. cbn [remove_loop]. unfold bind at 1. rewrite R.
  destruct S2 as [|[a ka] S2']; [reflexivity|].
  cbn [found_key hd_addr next_of].
  destruct (Z.eqb_spec ka k) as [->|Hne]; [|reflexivity].
  cbn [negb].
  set (p0 := last (map fst S1) hd).
  assert (La : links (cells m) ((a, k) :: S2') 0).
  { rewrite E in Hl. apply links_app in Hl. apply Hl. }
  simpl in La. destruct La as (Ka & Na & _).
  assert (N0 : next (cells m p0) = a).
  { unfold p0. rewrite E in Hn, Hl. apply (next_last _ S1 ((a, k) :: S2') hd Hn Hl). }
  assert (P0 : p0 <> a).
  { unfold p0. intros Ep. rewrite E, map_app in ND. cbn [map fst] in ND.
    apply NoDup_cons_iff in ND. destruct ND as [Hh ND].
    destruct (last_in (map fst S1) hd) as [H|H]; rewrite Ep in H.
    - apply Hh. rewrite <- H. apply in_elt.
    - apply NoDup_remove_2 in ND. apply ND. apply in_or_app. left. exact H. }
  unfold bind, cas_next, bind, get_next, set_next, ret. cbn [cells with_cells].
  rewrite Na, Z.eqb_refl. cbn [cells with_cells].
  destruct (Z.eqb_spec p0 a) as [|_]; [contradiction|].
  rewrite N0, Z.eqb_refl. reflexivity.
Qed.

Lemma unlink_after_fields m p0 p1 p2 :
  brk (unlink_after m p0 p1 p2) = brk m /\ lhead (unlink_after m p0 p1 p2) = lhead m /\
  segs (unlink_after m p0 p1 p2) = segs m /\ size (unlink_after m p0 p1 p2) = size m /\
  count (unlink_after m p0 p1 p2) = count m /\ grow (unlink_after m p0 p1 p2) = grow m.
Proof. repeat split. Qed.

Lemma key_marker_not_odd b k : k mod 2 = 1 -> key_marker b <> k.
Proof. intros H E. rewrite <- E in H. pose proof (key_marker_even b). lia. Qed.

(** The invariant after the data node [(a, k)] between [A] and [B] has
    been unlinked. *)
Lemma inv_unlink m A B a k :
  Inv m (A ++ (a, k) :: B) -> A <> [] -> k mod 2 = 1 ->
  Inv (unlink_after m (last (map fst A) 0) a (hd_addr B 0)) (A ++ B).
Proof.
  intros I HA Ho.
  set (p0 := last (map fst A) 0).
  set (m' := unlink_after m p0 a (hd_addr B 0)).
  pose proof (inv_nodup _ _ I) as ND.
  assert (ND2 := ND). apply NoDup_cons_iff in ND2. destruct ND2 as [Hlh ND2].
  rewrite map_app in ND2, Hlh. cbn [map fst] in ND2, Hlh.
  assert (Hp0 : In p0 (map fst A)).
  { apply last_in_nonempty. destruct A; [contradiction|discriminate]. }
  assert (NA : ~ In a (map fst A) /\ ~ In a (map fst B)).
  { apply NoDup_remove_2 in ND2. split; intros H; apply ND2; apply in_or_app; auto. }
  assert (P0a : p0 <> a) by (intros Ep; apply (proj1 NA); rewrite <- Ep; exact Hp0).
  assert (P0h : p0 <> lhead m).
  { intros Ep. apply Hlh. apply in_or_app. left. rewrite <- Ep. exact Hp0. }
  assert (Ah : a <> lhead m).
  { intros Ep. apply Hlh. rewrite <- Ep. apply in_elt. }
  assert (C : forall q, cells m' q =
            if q =? p0 then mk_lst (hd_addr B 0) (key (cells m p0))
            else if q =? a then mk_lst (ptr_addtag (hd_addr B 0)) (key (cells m a))
            else cells m q).
  { intros q. apply unlink_after_cells. exact P0a. }
  assert (Cother : forall q, q <> p0 -> q <> a -> cells m' q = cells m q).
  { intros q H1 H2. rewrite C.
    destruct (Z.eqb_spec q p0); [contradiction|].
    destruct (Z.eqb_spec q a); [contradiction|reflexivity]. }
  pose proof (inv_links _ _ I) as Hl.
  apply links_app in Hl. destruct Hl as [HlA HlB].
  cbn [links hd_addr] in HlA, HlB. destruct HlB as (_ & _ & HlB).
  assert (NDAB : NoDup (map fst A ++ map fst B)).
  { apply NoDup_remove_1 in ND2. exact ND2. }
  constructor.
  - exact (inv_head _ _ I).
  - change (lhead m') with (lhead m). rewrite Cother by auto.
    rewrite (inv_first _ _ I). destruct A as [|[x kx] A]; [contradiction|reflexivity].
  - apply links_app. split.
    + apply (links_relink (cells m) (cells m') A a (hd_addr B 0) 0).
      * exact HA.
      * apply NoDup_app_remove_r in NDAB. exact NDAB.
      * intros q Hq Hne. apply Cother; [exact Hne|].
        intros ->. apply (proj1 NA). exact Hq.
      * fold p0. rewrite C, Z.eqb_refl. reflexivity.
      * fold p0. rewrite C, Z.eqb_refl. reflexivity.
      * exact HlA.
    + apply (links_frame (cells m)); [|exact HlB].
      intros q Hq. apply Cother.
      * intros Eq. rewrite Eq in Hq. clearbody p0. clear - NDAB Hp0 Hq.
        induction (map fst A) as [|x l IH]; [destruct Hp0|].
        simpl in NDAB. apply NoDup_cons_iff in NDAB. destruct NDAB as [Hx NDAB].
        destruct Hp0 as [->|Hp0]; [|auto].
        apply Hx. apply in_or_app. right. exact Hq.
      * intros ->. apply (proj2 NA). exact Hq.
  - pose proof (inv_nodes _ _ I) as F. rewrite Forall_app in *.
    destruct F as [F1 F2]. split; [exact F1|]. apply Forall_inv_tail in F2. exact F2.
  - change (lhead m') with (lhead m). rewrite map_app. constructor.
    + intros H. apply Hlh. apply in_app_or in H. apply in_or_app.
      destruct H as [H|H]; [left; exact H|right; right; exact H].
    + exact NDAB.
  - pose proof (inv_sorted _ _ I) as Hs. apply key_sorted_app in Hs.
    destruct Hs as (SA & SB & Cx). apply key_sorted_app.
    split; [exact SA|]. split.
    + unfold key_sorted in *. apply StronglySorted_inv in SB. apply SB.
    + intros x y Hx Hy. apply Cx; [exact Hx|right; exact Hy].
  - intros b Hb Hne. change (bucket_at m' (b / 65536) (b mod 65536))
      with (bucket_at m (b / 65536) (b mod 65536)) in *.
    destruct (inv_bkt _ _ I b Hb Hne) as [R Hin]. split; [exact R|].
    apply in_app_or in Hin. apply in_or_app.
    destruct Hin as [H|[H|H]]; [left; exact H| |right; exact H].
    exfalso. injection H as _ E. symmetry in E.
    apply (key_marker_not_odd b k Ho E).
  - exact (inv_root _ _ I).
  - exact (inv_brk _ _ I).
Qed.

(** [lst_remove] from [hd], a node of the list whose key is below the
    key [k] of a data node. *)
Lemma inv_remove m L hd kh k :
  Inv m L -> In (hd, kh) L -> kh < k -> k mod 2 = 1 ->
  (exists a A B m',
     L = A ++ (a, k) :: B /\ lst_remove hd k m = Some ((true, a), m') /\
     Inv m' (A ++ B) /\
     brk m' = brk m /\ lhead m' = lhead m /\ size m' = size m /\
     count m' = count m /\ grow m' = grow m /\
     ptr_tagged (next (cells m' a)) = true /\
     (forall q, ~ In q (map fst L) -> cells m' q = cells m q) /\
     (forall q, key (cells m' q) = key (cells m q))) \/
  (~ In k (map snd L) /\ lst_remove hd k m = Some ((false, 0), m)).
Proof.
  intros I Hhd Hlt Ho.
  destruct (in_split _ _ Hhd) as (P & S & E).
  pose proof (inv_links _ _ I) as Hl. rewrite E in Hl.
  apply links_app in Hl. destruct Hl as [HlP HlS].
  cbn [links hd_addr] in HlS. destruct HlS as (Kh & Nhd & HlS).
  pose proof (inv_nodes _ _ I) as Hok.
  assert (HokS : Forall (node_ok m) S).
  { rewrite E, Forall_app in Hok. destruct Hok as [_ Hok].
    apply Forall_inv_tail in Hok. exact Hok. }
  assert (LenS : (length S < fuel_of m)%nat).
  { pose proof (inv_length _ _ I) as H. rewrite E, length_app in H. simpl in H. lia. }
  pose proof (inv_nodup _ _ I) as ND. apply NoDup_cons_iff in ND.
  destruct ND as [_ ND]. rewrite E, map_app in ND. cbn [map fst] in ND.
  assert (NDS : NoDup (hd :: map fst S)).
  { apply NoDup_app_remove_l in ND. exact ND. }
  destruct (lst_remove_spec hd k S m Nhd HlS (node_ok_plain _ _ HokS) LenS NDS)
    as (S1 & S2 & ES & F1 & St & R).
  pose proof (inv_sorted _ _ I) as Hs.
  assert (EL : L = (P ++ (hd, kh) :: S1) ++ S2).
  { rewrite E, ES, <- app_assoc. reflexivity. }
  assert (FA : Forall (fun x => snd x < k) (P ++ (hd, kh) :: S1)).
  { rewrite EL in Hs. rewrite Forall_app. split.
    - apply key_sorted_app in Hs. destruct Hs as (Hs & _ & _).
      apply key_sorted_app in Hs. destruct Hs as (_ & _ & C).
      rewrite Forall_forall. intros x Hx.
      specialize (C x (hd, kh) Hx (or_introl eq_refl)). simpl in C. lia.
    - constructor; [exact Hlt|exact F1]. }
  assert (Absent : (forall y, In y S2 -> k < snd y) -> ~ In k (map snd L)).
  { intros FB Hin. apply in_map_iff in Hin. destruct Hin as (x & Ex & Hx).
    rewrite EL in Hx. apply in_app_or in Hx. rewrite Forall_forall in FA.
    destruct Hx as [Hx|Hx]; [specialize (FA x Hx)|specialize (FB x Hx)]; lia. }
  destruct S2 as [|[a ka] S2'].
  - right. split; [|exact R]. apply Absent. intros y [].
  - destruct (Z.eqb_spec ka k) as [->|Hne].
    + left.
      assert (Elast : last (map fst S1) hd = last (map fst (P ++ (hd, kh) :: S1)) 0).
      { rewrite map_app. cbn [map fst]. rewrite last_app_cons. reflexivity. }
      rewrite Elast in R.
      exists a, (P ++ (hd, kh) :: S1), S2',
        (unlink_after m (last (map fst (P ++ (hd, kh) :: S1)) 0) a (hd_addr S2' 0)).
      split; [exact EL|]. split; [exact R|].
      assert (Inv' : Inv (unlink_after m (last (map fst (P ++ (hd, kh) :: S1)) 0) a
                            (hd_addr S2' 0)) ((P ++ (hd, kh) :: S1) ++ S2')).
      { apply (inv_unlink m _ S2' a k); [rewrite <- EL; exact I| |exact Ho].
        destruct P; discriminate. }
      split; [exact Inv'|].
      set (p0 := last (map fst (P ++ (hd, kh) :: S1)) 0) in *.
      assert (Hp0 : In p0 (map fst (P ++ (hd, kh) :: S1))).
      { apply last_in_nonempty. destruct P; discriminate. }
      pose proof (inv_nodup _ _ I) as ND0. apply NoDup_cons_iff in ND0.
      destruct ND0 as [_ ND0]. rewrite EL, map_app in ND0. cbn [map fst] in ND0.
      assert (P0a : p0 <> a).
      { intros Ep. apply NoDup_remove_2 in ND0. apply ND0. apply in_or_app. left.
        rewrite <- Ep. exact Hp0. }
      repeat (split; [reflexivity|]). split; [|split].
      * rewrite unlink_after_cells by exact P0a.
        destruct (Z.eqb_spec a p0) as [X|_]; [congruence|]. rewrite Z.eqb_refl.
        cbn [next]. unfold ptr_tagged, ptr_addtag. rewrite land_1, lor_1.
        rewrite Z.add_comm, Z.mul_comm, Z.mod_add by lia. reflexivity.
      * intros q Hq. rewrite unlink_after_cells by exact P0a.
        destruct (Z.eqb_spec q p0) as [->|_].
        { exfalso. apply Hq. rewrite EL, map_app. apply in_or_app. left. exact Hp0. }
        destruct (Z.eqb_spec q a) as [->|_]; [|reflexivity].
        exfalso. apply Hq. rewrite EL, map_app. apply in_or_app. right. left. reflexivity.
      * intros q. rewrite unlink_after_cells by exact P0a.
        destruct (Z.eqb_spec q p0) as [->|_]; [reflexivity|].
        destruct (Z.eqb_spec q a) as [->|_]; reflexivity.
    + right. split; [|exact R]. apply Absent.
      simpl in St. intros y [<-|Hy]; [simpl; lia|].
      rewrite EL in Hs. apply key_sorted_app in Hs. destruct Hs as (_ & Hs & _).
      apply key_sorted_tail in Hs. rewrite Forall_forall in Hs.
      specialize (Hs y Hy). lia.
Qed.

Lemma lookup_in L a k : key_sorted L -> In (a, k) L -> lookup L k = a.
Proof.
  intros SL H. destruct (lookup_spec L k) as [H'|[H' _]].
  - apply (sorted_key_unique L _ _ k SL H' H).
  - exfalso. apply H'. apply in_map_iff. exists (a, k). split; [reflexivity|exact H].
Qed.

Lemma lookup_notin L k : ~ In k (map snd L) -> lookup L k = 0.
Proof.
  intros H. destruct (lookup_spec L k) as [H'|[_ H']]; [|exact H'].
  exfalso. apply H. apply in_map_iff. exists (lookup L k, k). split; [reflexivity|exact H'].
Qed.

(** [map_remove]: the node with the key of [h] leaves the list, marked;
    the other data nodes stay. *)
Lemma remove_spec m L h :
  Inv m L -> 0 <= h < 2 ^ 63 -> Z.land h (u64 (size m - 1)) < 2 ^ 32 ->
  exists r m' L',
    map_remove h m = Some (r, m') /\ Inv m' L' /\
    lhead m' = lhead m /\ size m' = size m /\ grow m' = grow m /\
    brk m <= brk m' /\
    ((r <> 0 /\ In (r, key_normal h) L /\ count m' = u64 (count m - 1) /\
      ~ In r (map fst L') /\ ptr_tagged (next (cells m' r)) = true /\
      (forall a k, k mod 2 = 1 ->
         In (a, k) L' <-> In (a, k) L /\ k <> key_normal h)) \/
     (r = 0 /\ ~ In (key_normal h) (map snd L) /\ count m' = count m /\
      same_data L L')).
Proof.
  intros I Hh B1.
  assert (B0 : 0 <= Z.land h (u64 (size m - 1))).
  { apply Z.land_nonneg. left. lia. }
  set (bkt := Z.land h (u64 (size m - 1))) in *.
  destruct (getbkt_spec bkt_fuel bkt m L I (conj B0 B1))
    as (hd & m1 & L1 & E1 & I1 & In1 & G1).
  { apply Z.lt_le_trans with (2 ^ 32); [exact B1|]. vm_compute. discriminate. }
  assert (Hlt : key_marker bkt < key_normal h) by (apply key_marker_lt_normal; exact Hh).
  pose proof (key_normal_odd h) as Odd.
  unfold map_remove. unfold bind at 1. unfold get_size. fold bkt.
  unfold bind at 1. rewrite E1. unfold bind at 1.
  destruct (inv_remove m1 L1 hd _ (key_normal h) I1 In1 Hlt Odd)
    as [(a & A & B & m2 & EL & R & I2 & F1 & F2 & F3 & F4 & F5 & Tg & Co & Ke)|(Hn & R)];
    rewrite R; cbn [fst snd]; unfold bind, atm_sub_count, ret.
  - set (m3 := mk_map (cells m2) (brk m2) (lhead m2) (segs m2) (size m2)
                 (u64 (count m2 - 1)) (grow m2)).
    assert (I3 : Inv m3 (A ++ B)).
    { apply (inv_frame m2); auto; [simpl; lia|exact (inv_brk _ _ I2)]. }
    assert (Ha : In (a, key_normal h) L1) by (rewrite EL; apply in_elt).
    assert (Ha0 : In (a, key_normal h) L) by (apply (gr_data _ _ _ _ G1); assumption).
    pose proof (inv_nodup _ _ I1) as ND. apply NoDup_cons_iff in ND.
    destruct ND as [_ ND]. rewrite EL, map_app in ND. cbn [map fst] in ND.
    exists a, m3, (A ++ B). split; [reflexivity|]. split; [exact I3|].
    split; [simpl; rewrite F2; exact (gr_lhead _ _ _ _ G1)|].
    split; [simpl; rewrite F3; exact (gr_size _ _ _ _ G1)|].
    split; [simpl; rewrite F5; exact (gr_grow _ _ _ _ G1)|].
    split; [simpl; rewrite F1; exact (gr_brk _ _ _ _ G1)|].
    left. split.
    { pose proof (inv_nodes _ _ I1) as F. rewrite Forall_forall in F.
      destruct (F _ Ha) as (H & _). simpl in H. lia. }
    split; [exact Ha0|].
    split; [simpl; rewrite F4, (gr_count _ _ _ _ G1); reflexivity|].
    split.
    { rewrite map_app. apply NoDup_remove_2 in ND. exact ND. }
    split; [exact Tg|].
    intros x k Hk. rewrite <- (gr_data _ _ _ _ G1 x k Hk), EL.
    rewrite !in_app_iff. cbn [In]. split.
    + intros H. split; [tauto|]. intros ->.
      assert (X : In (x, key_normal h) L1).
      { rewrite EL. apply in_or_app. destruct H as [H|H]; [left|right; right]; exact H. }
      pose proof (sorted_key_unique L1 _ _ _ (inv_sorted _ _ I1) X Ha) as Ex. subst x.
      apply NoDup_remove_2 in ND. apply ND. rewrite <- map_app.
      apply in_map_iff. exists (a, key_normal h). split; [reflexivity|].
      apply in_or_app. exact H.
    + intros [[H|[H|H]] Hne]; [left; exact H| |right; exact H].
      injection H as _ Ek. congruence.
  - exists 0, m1, L1. split; [reflexivity|]. split; [exact I1|].
    split; [exact (gr_lhead _ _ _ _ G1)|]. split; [exact (gr_size _ _ _ _ G1)|].
    split; [exact (gr_grow _ _ _ _ G1)|]. split; [exact (gr_brk _ _ _ _ G1)|].
    right. split; [reflexivity|]. split.
    { intros Hin. apply Hn. apply in_map_iff in Hin. destruct Hin as ([a k] & Ek & Hin).
      simpl in Ek. subst k. apply in_map_iff. exists (a, key_normal h).
      split; [reflexivity|]. apply (gr_data _ _ _ _ G1); assumption. }
    split; [exact (gr_count _ _ _ _ G1)|exact (gr_data _ _ _ _ G1)].
Qed.

(** X19. [map_remove] run alone on a table whose list is well formed
    returns the entry stored under the hash (or [NULL]); afterwards the
    hash has no entry, [map_find] returns [NULL] for it, every other
    hash keeps its entry, and the count went down by one exactly when
    an entry was removed.  The removed node is out of the list, its
    [next] pointer tagged.  The list stays well formed. *)
Theorem map_remove_sequential m h :
  Inv m (nodes m) -> 1 <= size m <= 2 ^ 32 -> 0 <= h < 2 ^ 63 ->
  exists m',
    map_remove h m = Some (entry m h, m') /\
    Inv m' (nodes m') /\
    entry m' h = 0 /\
    (forall h', 0 <= h' < 2 ^ 63 -> h' <> h -> entry m' h' = entry m h') /\
    size m' = size m /\
    count m' = (if entry m h =? 0 then count m else u64 (count m - 1)) /\
    (entry m h <> 0 ->
       ~ linked m' (entry m h) /\ ptr_tagged (next (cells m' (entry m h))) = true) /\
    (exists m'', map_find h m' = Some (0, m'')).
Proof.
  intros I Hs Hh.
  set (L := nodes m) in *.
  assert (B1 : Z.land h (u64 (size m - 1)) < 2 ^ 32).
  { apply bkt_range; [lia|exact Hs]. }
  destruct (remove_spec m L h I Hh B1)
    as (r & m' & L' & E & I' & _ & Sz & _ & _ & C).
  pose proof (nodes_inv m' L' I') as N'.
  pose proof (inv_sorted _ _ I) as SL. pose proof (inv_sorted _ _ I') as SL'.
  pose proof (key_normal_odd h) as Odd.
  assert (Er : entry m h = r /\ ~ In (key_normal h) (map snd L') /\
               (forall a k, k mod 2 = 1 -> k <> key_normal h ->
                  (In (a, k) L' <-> In (a, k) L))).
  { unfold entry. fold L. destruct C as [(R0 & Hin & _ & _ & _ & D)|(R0 & Hn & _ & D)].
    - split; [apply lookup_in; assumption|]. split.
      + intros X. apply in_map_iff in X. destruct X as ([a k] & Ek & X).
        simpl in Ek. subst k. apply (D a _ Odd) in X. destruct X as [_ X]. congruence.
      + intros a k Hk Hne. rewrite (D a k Hk). tauto.
    - split; [rewrite R0; apply lookup_notin; exact Hn|]. split.
      + intros X. apply in_map_iff in X. destruct X as ([a k] & Ek & X).
        simpl in Ek. subst k. apply (D a _ Odd) in X. apply Hn.
        apply in_map_iff. exists (a, key_normal h). split; [reflexivity|exact X].
      + intros a k Hk _. apply D. exact Hk. }
  destruct Er as (Er & Gone & Keep).
  exists m'. rewrite Er, N'. split; [exact E|]. split; [exact I'|].
  split; [unfold entry; rewrite N'; apply lookup_notin; exact Gone|].
  split.
  { intros h' Hh' Hne. unfold entry. rewrite N'. fold L.
    pose proof (key_normal_odd h') as Odd'.
    assert (Kne : key_normal h' <> key_normal h).
    { intros X. apply Hne. apply key_normal_inj; assumption. }
    destruct (lookup_spec L (key_normal h')) as [H|[H H0]].
    - rewrite (lookup_in L' _ _ SL' (proj2 (Keep _ _ Odd' Kne) H)). reflexivity.
    - rewrite H0. apply lookup_notin. intros X. apply H.
      apply in_map_iff in X. destruct X as ([a k] & Ek & X). simpl in Ek. subst k.
      apply in_map_iff. exists (a, key_normal h'). split; [reflexivity|].
      apply (Keep _ _ Odd' Kne). exact X. }
  split; [exact Sz|]. split.
  { destruct C as [(R0 & _ & Cn & _)|(R0 & _ & Cn & _)].
    - destruct (Z.eqb_spec r 0); [contradiction|exact Cn].
    - rewrite R0. exact Cn. }
  split.
  { intros R0. destruct C as [(_ & _ & _ & Nl & Tg & _)|(R1 & _)]; [|contradiction].
    split; [|exact Tg]. unfold linked. rewrite N'. exact Nl. }
  destruct (find_spec m' L' h I' Hh) as (r2 & m2 & L2 & Ef & _ & _ & Cf).
  { rewrite Sz. exact B1. }
  exists m2. destruct Cf as [(Hin & _)|(_ & ->)]; [|exact Ef].
  exfalso. apply Gone. apply in_map_iff. exists (r2, key_normal h).
  split; [reflexivity|exact Hin].
Qed.

Lemma map_remove_sequential_witness :
  exists m',
    map_remove 5 one_entry = Some (entry one_entry 5, m') /\
    Inv m' (nodes m') /\
    entry m' 5 = 0 /\
    (forall h', 0 <= h' < 2 ^ 63 -> h' <> 5 -> entry m' h' = entry one_entry h') /\
    size m' = size one_entry /\
    count m' = (if entry one_entry 5 =? 0 then count one_entry
                else u64 (count one_entry - 1)) /\
    (entry one_entry 5 <> 0 ->
       ~ linked m' (entry one_entry 5) /\
       ptr_tagged (next (cells m' (entry one_entry 5))) = true) /\
    (exists m'', map_find 5 m' = Some (0, m'')).
Proof.
  destruct (reach_known _ _ reach_one_entry) as [L K].
  pose proof (kn_inv _ _ _ K) as I.
  rewrite <- (nodes_inv _ _ I) in I.
  apply (map_remove_sequential one_entry 5 I); [vm_compute; split; discriminate|lia].
Defined.

(** *** [mdl_next], [mdl_remove] and [mdl_shrink] *)

Definition mdl_next (mdl : mdl_t) (last : Z) : option (Z * mdl_t) :=
  match map_next last (ftrs mdl) with
  | None => None
  | Some (nd, m1) => Some (nd, with_ftrs mdl m1)
  end.

(** [mdl_remove]; [free] gives nothing back to this memory, which
    never hands out an address twice. *)
Definition mdl_remove (mdl : mdl_t) (last : Z) : option (Z * mdl_t) :=
  if last =? 0 then mdl_next mdl last
  else
    let hsh := map_gethsh (ftrs mdl) last in
    match mdl_next mdl last with
    | None => None
    | Some (nxt, mdl1) =>
        match map_remove hsh (ftrs mdl1) with
        | None => None
        | Some (_, m2) => Some (nxt, with_ftrs mdl1 m2)
        end
    end.

(** The [while (ftr != NULL)] of [mdl_shrink]. *)
Fixpoint shrink_loop (fuel : nat) (mdl : mdl_t) (ftr : Z) : option mdl_t :=
  match fuel with
  | O => None
  | S fuel' =>
      if ftr =? 0 then Some mdl
      else
        match (if Qeq_bool (x (body mdl ftr)) 0 then mdl_remove mdl ftr
               else mdl_next mdl ftr) with
        | None => None
        | Some (nxt, mdl') => shrink_loop fuel' mdl' nxt
        end
  end.

Definition mdl_shrink (mdl : mdl_t) : option mdl_t :=
  match mdl_next mdl 0 with
  | None => None
  | Some (ftr, mdl1) => shrink_loop (fuel_of (ftrs mdl)) mdl1 ftr
  end.

(** The features that [mdl_shrink] keeps. *)
Definition nonzero (mdl : mdl_t) (ak : Z * Z) : bool :=
  negb (Qeq_bool (x (body mdl (fst ak))) 0).

Lemma map_next_first m L :
  Inv m L -> map_next 0 m = Some (hd_addr (filter is_data L) 0, m).
Proof.
  intros I. unfold map_next. rewrite Z.eqb_refl.
  rewrite (next_loop_spec m L (lhead m) (fuel_of m) (inv_first _ _ I) (inv_links _ _ I)
             (node_ok_plain _ _ (inv_nodes _ _ I)) (inv_length _ _ I)).
  rewrite hd_skip. reflexivity.
Qed.

Lemma map_next_at m L K a k D :
  Inv m L -> filter is_data L = K ++ (a, k) :: D ->
  a <> 0 /\ In (a, k) L /\ map_next a m = Some (hd_addr D 0, m).
Proof.
  intros I E. destruct (filter_split _ _ _ _ _ E) as (P & S & EL & _ & ES).
  assert (Hin : In (a, k) L) by (rewrite EL; apply in_elt).
  pose proof (inv_nodes _ _ I) as F.
  assert (Ha : a <> 0).
  { rewrite Forall_forall in F. destruct (F _ Hin) as (H & _). simpl in H. lia. }
  split; [exact Ha|]. split; [exact Hin|].
  pose proof (inv_links _ _ I) as Hl. rewrite EL in Hl.
  apply links_app in Hl. destruct Hl as [_ Hl]. cbn [links] in Hl.
  destruct Hl as (_ & Hn & Hl).
  assert (FS : Forall (node_ok m) S).
  { rewrite EL, Forall_app in F. destruct F as [_ F]. apply Forall_inv_tail in F. exact F. }
  assert (Len : (length S < fuel_of m)%nat).
  { pose proof (inv_length _ _ I) as H. rewrite EL, length_app in H. simpl in H. lia. }
  unfold map_next. destruct (Z.eqb_spec a 0) as [|_]; [contradiction|].
  rewrite (next_loop_spec m S a (fuel_of m) Hn Hl (node_ok_plain _ _ FS) Len).
  rewrite hd_skip, ES. reflexivity.
Qed.

(** The data nodes of a list, after the one with key [k] has left. *)
Lemma data_without L L' K a k D :
  key_sorted L -> key_sorted L' ->
  filter is_data L = K ++ (a, k) :: D ->
  (forall b kb, kb mod 2 = 1 -> In (b, kb) L' <-> In (b, kb) L /\ kb <> k) ->
  filter is_data L' = K ++ D.
Proof.
  intros SL SL' E Hd.
  pose proof (key_sorted_filter is_data L SL) as SF. rewrite E in SF.
  assert (SKD : key_sorted (K ++ D)).
  { apply key_sorted_app in SF. destruct SF as (SA & SB & C).
    apply key_sorted_app. split; [exact SA|]. split.
    - unfold key_sorted in *. apply StronglySorted_inv in SB. apply SB.
    - intros u v Hu Hv. apply C; [exact Hu|right; exact Hv]. }
  apply sorted_same; [apply key_sorted_filter; exact SL'|exact SKD|].
  intros [b kb]. rewrite filter_In, is_data_odd. split.
  - intros [H Ho]. apply (Hd b kb Ho) in H. destruct H as [H Hne].
    assert (X : In (b, kb) (filter is_data L)) by (apply filter_In; split;
      [exact H|apply is_data_odd; exact Ho]).
    rewrite E in X. apply in_app_or in X. apply in_or_app.
    destruct X as [X|[X|X]]; [left; exact X| |right; exact X].
    injection X as _ Ek. congruence.
  - intros H.
    assert (X : In (b, kb) (filter is_data L)).
    { rewrite E. apply in_app_or in H. apply in_or_app.
      destruct H as [H|H]; [left; exact H|right; right; exact H]. }
    apply filter_In in X. destruct X as [X Ho]. apply is_data_odd in Ho.
    split; [|exact Ho]. apply (Hd b kb Ho). split; [exact X|].
    intros ->. apply key_sorted_app in SF. destruct SF as (_ & SB & C).
    apply in_app_or in H. destruct H as [H|H].
    + specialize (C _ (a, k) H (or_introl eq_refl)). simpl in C. lia.
    + apply key_sorted_tail in SB. rewrite Forall_forall in SB.
      specialize (SB _ H). simpl in SB. lia.
Qed.

Lemma shrink_loop_spec : forall D fuel mdl L K,
  Inv (ftrs mdl) L -> 1 <= size (ftrs mdl) <= 2 ^ 32 ->
  filter is_data L = K ++ D -> (length D < fuel)%nat ->
  exists mdl' L',
    shrink_loop fuel mdl (hd_addr D 0) = Some mdl' /\
    Inv (ftrs mdl') L' /\ body mdl' = body mdl /\ par mdl' = par mdl /\
    size (ftrs mdl') = size (ftrs mdl) /\
    filter is_data L' = K ++ filter (nonzero mdl) D.
Proof.
  induction D as [|[a k] D IH]; intros fuel mdl L K I Hs E Hf;
    (destruct fuel as [|fuel]; [simpl in Hf; lia|]).
  - exists mdl, L. cbn [shrink_loop hd_addr]. rewrite Z.eqb_refl.
    split; [reflexivity|]. split; [exact I|]. split; [reflexivity|].
    split; [reflexivity|]. split; [reflexivity|exact E].
  - destruct (map_next_at _ _ _ _ _ _ I E) as (Ha & Hin & Nx).
    cbn [shrink_loop hd_addr]. destruct (Z.eqb_spec a 0) as [|_]; [contradiction|].
    cbn [filter]. unfold nonzero at 1. cbn [fst].
    destruct (Qeq_bool (x (body mdl a)) 0) eqn:Ex; cbn [negb].
    + unfold mdl_remove. destruct (Z.eqb_spec a 0) as [|_]; [contradiction|].
      unfold mdl_next. rewrite Nx.
      change (ftrs (with_ftrs mdl (ftrs mdl))) with (ftrs mdl).
      unfold map_gethsh. rewrite (nodes_key _ _ _ _ I Hin).
      assert (Ho : k mod 2 = 1).
      { apply is_data_odd with (a := a).
        assert (X : In (a, k) (filter is_data L)) by (rewrite E; apply in_elt).
        apply filter_In in X. apply X. }
      assert (Hk : 0 <= k < 2 ^ 64).
      { pose proof (inv_nodes _ _ I) as F. rewrite Forall_forall in F.
        destruct (F _ Hin) as (_ & _ & H). exact H. }
      destruct (key_normal_tohash k Hk Ho) as [Hh Ek].
      destruct (remove_spec (ftrs mdl) L (key_tohash k) I Hh)
        as (r & m' & L' & Er & I' & _ & Sz & _ & _ & C).
      { apply bkt_range; [lia|exact Hs]. }
      rewrite Er. rewrite Ek in C.
      destruct C as [(_ & _ & _ & _ & _ & Dd)|(_ & Hn & _)].
      2: { exfalso. apply Hn. apply in_map_iff. exists (a, k). split; [reflexivity|exact Hin]. }
      assert (E' : filter is_data L' = K ++ D).
      { apply (data_without L L' K a k D (inv_sorted _ _ I) (inv_sorted _ _ I') E Dd). }
      destruct (IH fuel (with_ftrs (with_ftrs mdl (ftrs mdl)) m') L' K I')
        as (mdl2 & L2 & R & I2 & B2 & P2 & S2 & F2);
        [simpl; rewrite Sz; exact Hs|exact E'|simpl in Hf; lia|].
      exists mdl2, L2. split; [exact R|]. split; [exact I2|].
      split; [exact B2|]. split; [exact P2|].
      split; [rewrite S2; exact Sz|exact F2].
    + unfold mdl_next. rewrite Nx.
      destruct (IH fuel (with_ftrs mdl (ftrs mdl)) L (K ++ [(a, k)]) I)
        as (mdl2 & L2 & R & I2 & B2 & P2 & S2 & F2);
        [exact Hs|rewrite <- app_assoc; exact E|simpl in Hf; lia|].
      exists mdl2, L2. split; [exact R|]. split; [exact I2|].
      split; [exact B2|]. split; [exact P2|]. split; [exact S2|].
      rewrite F2, <- app_assoc. reflexivity.
Qed.

(** X20. [mdl_shrink] run alone on a model whose table is well formed
    removes exactly the features whose weight is zero: the features
    left are those with a non-zero weight, in the order they had, with
    their members untouched; a hash whose feature had weight zero has
    no feature any more.  The size of the table does not change. *)
Theorem mdl_shrink_drops_zero mdl :
  Inv (ftrs mdl) (nodes (ftrs mdl)) -> 1 <= size (ftrs mdl) <= 2 ^ 32 ->
  exists mdl',
    mdl_shrink mdl = Some mdl' /\
    Inv (ftrs mdl') (nodes (ftrs mdl')) /\
    body mdl' = body mdl /\ par mdl' = par mdl /\
    size (ftrs mdl') = size (ftrs mdl) /\
    filter is_data (nodes (ftrs mdl')) =
      filter (nonzero mdl) (filter is_data (nodes (ftrs mdl))) /\
    (forall h, 0 <= h < 2 ^ 63 ->
       weight mdl' h =
       match weight mdl h with
       | Some w => if Qeq_bool w 0 then None else Some w
       | None => None
       end).
Proof.
  intros I Hs. set (L := nodes (ftrs mdl)) in *.
  unfold mdl_shrink, mdl_next. rewrite (map_next_first _ _ I).
  destruct (shrink_loop_spec (filter is_data L) (fuel_of (ftrs mdl))
              (with_ftrs mdl (ftrs mdl)) L [] I Hs eq_refl)
    as (mdl' & L' & R & I' & B & P & Sz & F).
  { pose proof (inv_length _ _ I) as H.
    pose proof (filter_length_le is_data L). lia. }
  change (body (with_ftrs mdl (ftrs mdl))) with (body mdl) in B.
  change (par (with_ftrs mdl (ftrs mdl))) with (par mdl) in P.
  change (size (ftrs (with_ftrs mdl (ftrs mdl)))) with (size (ftrs mdl)) in Sz.
  change (nonzero (with_ftrs mdl (ftrs mdl))) with (nonzero mdl) in F.
  simpl app in F.
  pose proof (nodes_inv _ _ I') as N'.
  exists mdl'. rewrite N'. split; [exact R|]. split; [exact I'|].
  split; [exact B|]. split; [exact P|]. split; [exact Sz|]. split; [exact F|].
  intros h Hh. unfold weight, entry. rewrite N', B. fold L.
  pose proof (key_normal_odd h) as Odd.
  pose proof (inv_sorted _ _ I) as SL. pose proof (inv_sorted _ _ I') as SL'.
  assert (In' : forall b, In (b, key_normal h) L' <->
                          In (b, key_normal h) L /\ nonzero mdl (b, key_normal h) = true).
  { intros b. split.
    - intros H.
      assert (X : In (b, key_normal h) (filter is_data L'))
        by (apply filter_In; split; [exact H|apply is_data_odd; exact Odd]).
      rewrite F in X. apply filter_In in X. destruct X as [X Nz].
      apply filter_In in X. split; [apply X|exact Nz].
    - intros [H Nz].
      assert (X : In (b, key_normal h) (filter is_data L')).
      { rewrite F. apply filter_In. split; [|exact Nz].
        apply filter_In. split; [exact H|apply is_data_odd; exact Odd]. }
      apply filter_In in X. apply X. }
  destruct (lookup_spec L (key_normal h)) as [H|[H H0]].
  - set (e := lookup L (key_normal h)) in *.
    assert (He : e <> 0).
    { pose proof (inv_nodes _ _ I) as Fo. rewrite Forall_forall in Fo.
      destruct (Fo _ H) as (X & _). simpl in X. lia. }
    destruct (Z.eqb_spec e 0) as [|_]; [contradiction|].
    destruct (Qeq_bool (x (body mdl e)) 0) eqn:Ex.
    + rewrite lookup_notin; [reflexivity|].
      intros X. apply in_map_iff in X. destruct X as ([b kb] & Ek & X).
      simpl in Ek. subst kb. apply In' in X. destruct X as [X Nz].
      rewrite (sorted_key_unique L _ _ _ SL X H) in Nz.
      unfold nonzero in Nz. cbn [fst] in Nz. rewrite Ex in Nz. discriminate.
    + rewrite (lookup_in L' e (key_normal h) SL').
      * destruct (Z.eqb_spec e 0) as [|_]; [contradiction|reflexivity].
      * apply In'. split; [exact H|]. unfold nonzero. cbn [fst]. rewrite Ex. reflexivity.
  - rewrite H0. cbn [Z.eqb]. rewrite lookup_notin; [reflexivity|].
    intros X. apply in_map_iff in X. destruct X as ([b kb] & Ek & X).
    simpl in Ek. subst kb. apply In' in X. destruct X as [X _].
    apply H. apply in_map_iff. exists (b, key_normal h). split; [reflexivity|exact X].
Qed.

(** The table [one_entry] with a feature of weight zero. *)
Definition idle : mdl_t :=
  mk_mdl (mk_par 0 0 (repeat 0 128%nat) (repeat INT_MAX 128%nat)) one_entry
         (fun _ => ftr_zero).

Lemma mdl_shrink_drops_zero_witness :
  exists mdl',
    mdl_shrink idle = Some mdl' /\
    Inv (ftrs mdl') (nodes (ftrs mdl')) /\
    body mdl' = body idle /\ par mdl' = par idle /\
    size (ftrs mdl') = size (ftrs idle) /\
    filter is_data (nodes (ftrs mdl')) =
      filter (nonzero idle) (filter is_data (nodes (ftrs idle))) /\
    (forall h, 0 <= h < 2 ^ 63 ->
       weight mdl' h =
       match weight idle h with
       | Some w => if Qeq_bool w 0 then None else Some w
       | None => None
       end).
Proof.
  destruct (reach_known _ _ reach_one_entry) as [L K].
  pose proof (kn_inv _ _ _ K) as I.
  rewrite <- (nodes_inv _ _ I) in I.
  apply (mdl_shrink_drops_zero idle I). vm_compute. split; discriminate.
Defined.

End Remove.


(** ** The loader and the sort on ill-formed input *)

Module Invalid.
Import Fst Dat.
Open Scope string_scope.

(** The cycle 0 -> 1 -> 2 -> 0. *)
Definition cycle_file : list string :=
  ["0 1 a a"; "1 2 a a"; "2 0 a a"; "2"; "EOS"].

Definition cycle_fst : fst_t :=
  mk_fst 1 3 2
    [mk_arc 0 1 "a" "a" 0 0 0 0; mk_arc 1 2 "a" "a" 0 0 0 0;
     mk_arc 2 0 "a" "a" 0 0 0 0] [] [] [].

(** A sample whose first line has three tokens. *)
Definition short_file : list string := ["0 1 a"; "1"; "EOS"].

(** C3, on the cycle: [fst_toposort] reports the failure in both
    directions, [fst_addsort] returns 1 all the same, and the forward
    order it stores, [0; 1; 2], puts arc 0 before arc 2, an in-arc of
    its source; the backward order fails likewise. *)
Lemma fst_addsort_keeps_unsorted_cycle :
  let f := fst_addstates cycle_fst in
  fst_toposort f false = Some (false, [0; 1; 2]%nat) /\
  fst_toposort f true = Some (false, [0; 1; 2]%nat) /\
  exists f',
    fst_addsort f = Some (true, f') /\
    s2t f' = [0; 1; 2]%nat /\ t2s f' = [2; 0; 1]%nat /\
    fwd_sorted f' (s2t f') = false /\ bwd_sorted f' (t2s f') = false.
Proof.
  split; [vm_compute; reflexivity|].
  split; [vm_compute; reflexivity|].
  eexists. split; [vm_compute; reflexivity|].
  repeat split; vm_compute; reflexivity.
Qed.

(** C4, on the cycle: the loader takes the sample, and the first steps
    of the worker, [fst_addstates] then [fst_addsort], go through with
    return value 1, so that the sample reaches the gradient engine. *)
Lemma cycle_is_loaded_and_sorted :
  dat_load [] cycle_file 1 = Some (Loaded [cycle_fst]) /\
  exists f',
    fst_addsort (fst_addstates cycle_fst) = Some (true, f') /\
    length (s2t f') = narcs f' /\ length (t2s f') = narcs f'.
Proof.
  split; [vm_compute; reflexivity|].
  eexists. split; [vm_compute; reflexivity|].
  split; vm_compute; reflexivity.
Qed.

(** C5, on a sample with a three-token line: [dat_parse] fails, and
    [dat_load] stores the multiplier through its result before it
    tests it. *)
Lemma dat_load_stores_through_null :
  dat_parse ["0 1 a"; "1"] = None /\
  dat_load [] short_file 1 = Some (NullDeref 1).
Proof.
  split; vm_compute; reflexivity.
Qed.

End Invalid.
